(** * BOON (Binary Object Notation): a shallow embedding of the codec

    The development follows the TypeScript sources of [packages/boon]:
    - [shared/buffer.ts]   : the bounds-checked [BinaryReader];
    - [constants.ts]       : type tags, magic number, integer bounds;
    - [common-keys.ts]     : the static dictionary of frequent object keys;
    - [encode/encoder.ts]  : the fixed-width-scheme encoder with the
                             optional per-message string table;
    - [decode/decoder.ts]  : the eager decoder;
    - [decode/stream.ts]   : the event-streaming decoder;
    - the BOON v2 module   : the simplified zigzag/varint scheme.

    Conventions of the model.
    - A byte is a [Z] in [0, 256); a byte buffer is a [list Z].
    - A JavaScript string is represented by its UTF-8 bytes, carried in a
      Rocq [string]; [TextEncoder.encode] and [TextDecoder.decode] are then
      the two conversions between [string] and [list Z].  Replacement of
      ill-formed sequences and stripping of a leading byte-order mark by
      [TextDecoder] are outside the model.
    - A JavaScript number is either integer-valued ([NInt z], the case in
      which [Number.isInteger] answers true; negative zero is identified
      with zero) or not ([NFloat bits], the IEEE-754 binary64 pattern of a
      non-integer, infinite or NaN value).
    - A JavaScript object is an association list in property order;
      [obj[key] = value] is [obj_set].  The reordering of integer-like
      property names and the special property [__proto__] are outside the
      model.
    - Thrown exceptions are the [Throw] case of [Result]. *)

From Stdlib Require Import ZArith List String Ascii Bool Lia Arith.
From Stdlib Require Import DecimalString HexadecimalString.
Import ListNotations.

Set Warnings "-register-all".
Local Open Scope Z_scope.

(* ================================================================== *)
(** ** Exceptions and the result monad *)

Inductive Error : Type :=
  | RangeError (msg : string)          (* "Buffer underflow: ..." of the reader *)
  | SyntaxError (msg : string)         (* decoder-side format errors *)
  | TypeError (msg : string)           (* "Unsupported value type: ..." *)
  | PlainError (msg : string)          (* [new Error(...)] of the v2 module *)
  | InvalidMagicError
  | UnsupportedVersionError (version : Z)
  | TruncatedDataError
  | UnknownTagError (tag : Z)
  | UnexpectedBreakError
  | InvalidUtf8Error
  | OutOfFuel.                         (* recursion bound of the model reached *)

Inductive Result (A : Type) : Type :=
  | Ok (a : A)
  | Throw (e : Error).
Arguments Ok {A} a.
Arguments Throw {A} e.

Definition bind {A B : Type} (m : Result A) (k : A -> Result B) : Result B :=
  match m with
  | Ok a => k a
  | Throw e => Throw e
  end.

Declare Scope result_scope.
Delimit Scope result_scope with result.
Notation "'let*' x ':=' m 'in' k" :=
  (bind m (fun x => k))
  (at level 10, x pattern, m at level 100, k at level 200) : result_scope.
Local Open Scope result_scope.

(** The errors that report missing input: the reader's
    [RangeError('Buffer underflow: ...')] and the v2 [TruncatedDataError]. *)
Definition starts_with_underflow (msg : string) : bool :=
  String.prefix "Buffer underflow" msg.

Definition is_truncated_data (e : Error) : bool :=
  match e with
  | RangeError msg => starts_with_underflow msg
  | TruncatedDataError => true
  | _ => false
  end.

Definition throws_truncated {A : Type} (r : Result A) : bool :=
  match r with
  | Throw e => is_truncated_data e
  | Ok _ => false
  end.

(* ================================================================== *)
(** ** Strings and bytes *)

Definition byte_of_ascii (a : ascii) : Z := Z.of_N (N_of_ascii a).
Definition ascii_of_byte (b : Z) : ascii := ascii_of_N (Z.to_N b).

(** [textEncoder.encode] *)
Definition textEncoder_encode (s : string) : list Z :=
  map byte_of_ascii (list_ascii_of_string s).

(** [textDecoder.decode] *)
Definition textDecoder_decode (bytes : list Z) : string :=
  string_of_list_ascii (map ascii_of_byte bytes).

(** [s.length]: the number of UTF-16 code units of the string whose UTF-8
    bytes are [s].  A continuation byte adds nothing, the lead byte of a
    four-byte sequence adds a surrogate pair, any other byte adds one. *)
Definition utf16_units (b : Z) : Z :=
  if b <? 0x80 then 1
  else if b <? 0xC0 then 0
  else if b <? 0xF0 then 1
  else 2.

Definition js_length (s : string) : Z :=
  fold_right (fun b acc => utf16_units b + acc) 0 (textEncoder_encode s).

Definition byteLength (s : string) : Z :=
  Z.of_nat (List.length (textEncoder_encode s)).

(** The decimal text of an integer, as template literals and [String(n)]
    print it. *)
Definition decimal (z : Z) : string :=
  DecimalString.NilZero.string_of_int (Z.to_int z).

(** [n.toString(16)] *)
Definition toString16 (z : Z) : string :=
  HexadecimalString.NilZero.string_of_int (Z.to_hex_int z).

(** A key made of [n] copies of one character ([c.repeat(n)]). *)
Definition repeat_char (c : ascii) (n : nat) : string :=
  string_of_list_ascii (repeat c n).

(* ================================================================== *)
(** ** Numbers *)

Inductive Number : Type :=
  | NInt (z : Z)
  | NFloat (bits : Z).

(** [Number(bigint)]: the nearest binary64 value, ties to even.  Exact up
    to 2^53 in magnitude. *)
Definition round53 (z : Z) : Z :=
  let a := Z.abs z in
  if a <=? 2 ^ 53 then z
  else
    let k := Z.log2 a - 52 in
    let q := Z.shiftr a k in
    let r := a - Z.shiftl q k in
    let half := Z.shiftl 1 (k - 1) in
    let q' := if (half <? r) || ((r =? half) && Z.odd q) then q + 1 else q in
    Z.sgn z * Z.shiftl q' k.

(** Two's complement views, as [DataView.setIntN] / [getIntN] have them. *)
Definition to_unsigned (w : Z) (z : Z) : Z := z mod 2 ^ w.
Definition to_signed (w : Z) (u : Z) : Z :=
  let m := u mod 2 ^ w in
  if m <? 2 ^ (w - 1) then m else m - 2 ^ w.

(** [ToInt32] and [ToUint32], the operand conversions of the JavaScript
    bit operators. *)
Definition ToInt32 (z : Z) : Z := to_signed 32 z.
Definition ToUint32 (z : Z) : Z := to_unsigned 32 z.

(** Big-endian bytes of the low [n] bytes of [z]. *)
Fixpoint be_bytes (n : nat) (z : Z) : list Z :=
  match n with
  | O => []
  | S n' => be_bytes n' (Z.shiftr z 8) ++ [z mod 256]
  end.

Definition be_value (bytes : list Z) : Z :=
  fold_left (fun acc b => acc * 256 + b) bytes 0.

(** *** binary64 and binary32 bit patterns *)

Definition f64_sign (bits : Z) : Z := Z.shiftr bits 63.
Definition f64_exp (bits : Z) : Z := Z.land (Z.shiftr bits 52) 0x7FF.
Definition f64_mant (bits : Z) : Z := Z.land bits (2 ^ 52 - 1).

Definition f64_NaN : Z := 0x7FF8000000000000.

(** The number held by a binary64 pattern, put in the normal form of
    [Number]: integer-valued doubles become [NInt]. *)
Definition number_of_f64 (bits : Z) : Number :=
  let s := f64_sign bits in
  let e := f64_exp bits in
  let m := f64_mant bits in
  if e =? 0x7FF then (if m =? 0 then NFloat bits else NFloat f64_NaN)
  else if e =? 0 then (if m =? 0 then NInt 0 else NFloat bits)
  else
    let E := e - 1023 in
    let sig := 2 ^ 52 + m in
    let sgn := if s =? 0 then 1 else -1 in
    if 52 <=? E then NInt (sgn * Z.shiftl sig (E - 52))
    else if (0 <=? E) && (sig mod 2 ^ (52 - E) =? 0)
      then NInt (sgn * Z.shiftr sig (52 - E))
      else NFloat bits.

(** [Math.fround(value) === value] for a non-integer [value]: the double
    is exactly a binary32 value.  NaN is never equal to itself. *)
Definition fits_float32 (bits : Z) : bool :=
  let e := f64_exp bits in
  let m := f64_mant bits in
  if e =? 0x7FF then m =? 0
  else if e =? 0 then false
  else
    let E := e - 1023 in
    if (-126 <=? E) && (E <=? 127) then m mod 2 ^ 29 =? 0
    else if (-149 <=? E) && (E <? -126)
      then (2 ^ 52 + m) mod 2 ^ (-97 - E) =? 0
      else false.

(** The binary32 pattern of a double that [fits_float32]. *)
Definition f32_of_f64 (bits : Z) : Z :=
  let s := f64_sign bits in
  let e := f64_exp bits in
  let m := f64_mant bits in
  if e =? 0x7FF then Z.shiftl s 31 + Z.shiftl 0xFF 23 + (if m =? 0 then 0 else 2 ^ 22)
  else
    let E := e - 1023 in
    if -126 <=? E
    then Z.shiftl s 31 + Z.shiftl (E + 127) 23 + Z.shiftr m 29
    else Z.shiftl s 31 + Z.shiftr (2 ^ 52 + m) (-97 - E).

(** The binary64 pattern of a binary32 value ([getFloat32]). *)
Definition f64_of_f32 (b32 : Z) : Z :=
  let s := Z.shiftr b32 31 in
  let e := Z.land (Z.shiftr b32 23) 0xFF in
  let m := Z.land b32 (2 ^ 23 - 1) in
  if e =? 0xFF then
    (if m =? 0 then Z.shiftl s 63 + Z.shiftl 0x7FF 52 else f64_NaN)
  else if e =? 0 then
    (if m =? 0 then Z.shiftl s 63
     else
       let p := Z.log2 m in
       Z.shiftl s 63 + Z.shiftl (p - 149 + 1023) 52
       + Z.shiftl (m - 2 ^ p) (52 - p))
  else Z.shiftl s 63 + Z.shiftl (e - 127 + 1023) 52 + Z.shiftl m 29.

(* ================================================================== *)
(** ** JavaScript values *)

(** Every value that [encode(input: unknown)] can receive.  An array slot
    is [Some v] or, for an empty slot of a sparse array, [None]. *)
Inductive JsValue : Type :=
  | JUndefined
  | JNull
  | JBool (b : bool)
  | JNum (n : Number)
  | JStr (s : string)
  | JBigInt (z : Z)
  | JSymbol (description : string)
  | JFunction (source : string)
  | JArr (items : list (option JsValue))
  | JObj (props : list (string * JsValue)).

(** [typeof] *)
Inductive JsType : Type :=
  | Tundefined | Tobject | Tboolean | Tnumber | Tstring
  | Tbigint | Tsymbol | Tfunction.

Definition typeof (v : JsValue) : JsType :=
  match v with
  | JUndefined => Tundefined
  | JNull => Tobject
  | JBool _ => Tboolean
  | JNum _ => Tnumber
  | JStr _ => Tstring
  | JBigInt _ => Tbigint
  | JSymbol _ => Tsymbol
  | JFunction _ => Tfunction
  | JArr _ => Tobject
  | JObj _ => Tobject
  end.

Definition typeof_name (t : JsType) : string :=
  match t with
  | Tundefined => "undefined"
  | Tobject => "object"
  | Tboolean => "boolean"
  | Tnumber => "number"
  | Tstring => "string"
  | Tbigint => "bigint"
  | Tsymbol => "symbol"
  | Tfunction => "function"
  end.

(** [v === undefined] *)
Definition is_undefined (v : JsValue) : bool :=
  match v with
  | JUndefined => true
  | _ => false
  end.

(** [obj[key] = value] on an object in property order. *)
Fixpoint obj_set (props : list (string * JsValue)) (key : string) (value : JsValue)
  : list (string * JsValue) :=
  match props with
  | [] => [(key, value)]
  | (k, v) :: rest =>
      if String.eqb k key then (k, value) :: rest
      else (k, v) :: obj_set rest key value
  end.

(* ================================================================== *)
(** ** [shared/buffer.ts]: the binary reader *)

Module Buffer.

(** [createBinaryReader(data)]: the borrowed bytes and the cursor. *)
Record BinaryReader : Type := mkReader {
  buffer : list Z;
  offset : nat
}.

Definition createBinaryReader (data : list Z) : BinaryReader :=
  {| buffer := data; offset := 0 |}.

Definition remaining (r : BinaryReader) : Z :=
  Z.of_nat (List.length (buffer r)) - Z.of_nat (offset r).

(** A read is a function of the reader returning the value read and the
    advanced reader, or throwing. *)
Definition Read (A : Type) : Type := BinaryReader -> Result (A * BinaryReader).

Definition ret {A : Type} (a : A) : Read A := fun r => Ok (a, r).

Definition throw {A : Type} (e : Error) : Read A := fun _ => Throw e.

Definition rbind {A B : Type} (m : Read A) (k : A -> Read B) : Read B :=
  fun r =>
    match m r with
    | Ok (a, r') => k a r'
    | Throw e => Throw e
    end.

(** [buffer.slice(offset, offset + n)] *)
Definition slice (r : BinaryReader) (n : nat) : list Z :=
  firstn n (skipn (offset r) (buffer r)).

Definition advance (r : BinaryReader) (n : nat) : BinaryReader :=
  {| buffer := buffer r; offset := offset r + n |}.

(** The shape shared by the fixed-width reads: the guard
    [offset + n > buffer.length], then the view access and the cursor
    move. *)
Definition read_fixed {A : Type} (n : nat) (what : string)
    (view : list Z -> A) : Read A :=
  fun r =>
    if (Nat.ltb (List.length (buffer r)) (offset r + n))
    then Throw (RangeError ("Buffer underflow: cannot read " ++ what))
    else Ok (view (slice r n), advance r n).

Definition readUint8 : Read Z :=
  fun r =>
    if Nat.leb (List.length (buffer r)) (offset r)
    then Throw (RangeError "Buffer underflow: cannot read uint8")
    else Ok (nth (offset r) (buffer r) 0, advance r 1).

Definition readInt8 : Read Z :=
  fun r =>
    if Nat.leb (List.length (buffer r)) (offset r)
    then Throw (RangeError "Buffer underflow: cannot read int8")
    else Ok (to_signed 8 (nth (offset r) (buffer r) 0), advance r 1).

Definition readUint16 : Read Z := read_fixed 2 "uint16" be_value.
Definition readInt16 : Read Z :=
  read_fixed 2 "int16" (fun bs => to_signed 16 (be_value bs)).
Definition readUint32 : Read Z := read_fixed 4 "uint32" be_value.
Definition readInt32 : Read Z :=
  read_fixed 4 "int32" (fun bs => to_signed 32 (be_value bs)).

(** The value of a binary32 field, as the double it denotes. *)
Definition readFloat32 : Read Number :=
  read_fixed 4 "float32" (fun bs => number_of_f64 (f64_of_f32 (be_value bs))).
Definition readFloat64 : Read Number :=
  read_fixed 8 "float64" (fun bs => number_of_f64 (be_value bs)).

(** [readBytes(length)]; the message carries the requested length.  A
    negative [length], which only a five-byte varint can give, passes the
    guard and yields no byte; the source then moves the cursor back by as
    much, the model leaves it in place. *)
Definition readBytes (length : Z) : Read (list Z) :=
  fun r =>
    if Z.of_nat (List.length (buffer r)) <? Z.of_nat (offset r) + length
    then Throw (RangeError
                  ("Buffer underflow: cannot read " ++ decimal length ++ " bytes"))
    else Ok (slice r (Z.to_nat length), advance r (Z.to_nat length)).

(** [readBigInt64()]: the big-endian 8-byte two's complement integer. *)
Definition readBigInt64 : Read Z :=
  read_fixed 8 "bigint64" (fun bs => to_signed 64 (be_value bs)).

End Buffer.

Declare Scope read_scope.
Delimit Scope read_scope with read.
Notation "x <- m ;; k" :=
  (Buffer.rbind m (fun x => k))
  (at level 61, m at next level, right associativity) : read_scope.

(* ================================================================== *)
(** ** [constants.ts] *)

Module TYPE_TAG.
Definition NULL : Z := 0x00.
Definition FALSE : Z := 0x01.
Definition TRUE : Z := 0x02.
Definition INT8 : Z := 0x10.
Definition INT16 : Z := 0x11.
Definition INT32 : Z := 0x12.
Definition INT64 : Z := 0x13.
Definition UINT8 : Z := 0x14.
Definition UINT16 : Z := 0x15.
Definition UINT32 : Z := 0x16.
Definition FLOAT32 : Z := 0x20.
Definition FLOAT64 : Z := 0x21.
Definition STRING_EMPTY : Z := 0x30.
Definition STRING_SHORT : Z := 0x31.
Definition STRING_MEDIUM : Z := 0x32.
Definition STRING_LONG : Z := 0x33.
Definition ARRAY_EMPTY : Z := 0x40.
Definition ARRAY_SHORT : Z := 0x41.
Definition ARRAY_MEDIUM : Z := 0x42.
Definition ARRAY_LONG : Z := 0x43.
Definition OBJECT_EMPTY : Z := 0x50.
Definition OBJECT_SHORT : Z := 0x51.
Definition OBJECT_MEDIUM : Z := 0x52.
Definition OBJECT_LONG : Z := 0x53.
Definition HEADER_WITH_STRING_TABLE : Z := 0x60.
End TYPE_TAG.

Definition MAGIC_NUMBER : list Z := [0x42; 0x4F; 0x4F; 0x4E].
Definition FORMAT_VERSION : Z := 1.

Definition MAX_SHORT_LENGTH : Z := 255.
Definition MAX_MEDIUM_LENGTH : Z := 65535.

Definition INT8_MIN : Z := -128.
Definition INT8_MAX : Z := 127.
Definition INT16_MIN : Z := -32768.
Definition INT16_MAX : Z := 32767.
Definition INT32_MIN : Z := -2147483648.
Definition INT32_MAX : Z := 2147483647.
Definition UINT8_MAX : Z := 255.
Definition UINT16_MAX : Z := 65535.
Definition UINT32_MAX : Z := 4294967295.

(* ================================================================== *)
(** ** [common-keys.ts] *)

Definition COMMON_KEYS : list string :=
  [ "id"; "name"; "type"; "value"; "data"; "key"; "label"; "text";
    "title"; "description"; "status"; "code"; "message"; "error";
    "result"; "success";
    "user"; "email"; "password"; "token"; "created"; "updated";
    "deleted"; "timestamp"; "date"; "time"; "url"; "link"; "href";
    "src"; "image"; "icon";
    "count"; "total"; "size"; "length"; "width"; "height"; "index";
    "position"; "order"; "level"; "priority"; "score"; "rating";
    "price"; "amount"; "quantity";
    "active"; "enabled"; "disabled"; "visible"; "hidden"; "public";
    "private"; "admin"; "owner"; "author"; "creator"; "modifier";
    "parent"; "child"; "children"; "items";
    "config"; "options"; "settings"; "params"; "metadata";
    "attributes"; "properties"; "fields"; "columns"; "rows"; "records";
    "entries"; "tags"; "categories"; "groups"; "filter";
    "action"; "method"; "event"; "callback"; "handler"; "response";
    "request"; "query"; "search"; "sort"; "limit"; "offset"; "page";
    "per_page"; "next"; "prev";
    "content"; "body"; "header"; "footer"; "sidebar"; "menu"; "nav";
    "section"; "article"; "post"; "comment"; "reply"; "file"; "folder";
    "directory"; "path";
    "info"; "details"; "summary"; "version"; "format"; "encoding";
    "language"; "locale"; "timezone"; "currency"; "unit"; "state";
    "mode"; "theme"; "style"; "class" ]%string.

Definition COMMON_KEY_MIN : Z := 0x80.
Definition COMMON_KEY_MAX : Z := 0xFF.

(** Position of [key] in [keys], counted from [i]. *)
Fixpoint index_from (i : Z) (key : string) (keys : list string) : option Z :=
  match keys with
  | [] => None
  | k :: rest => if String.eqb k key then Some i else index_from (i + 1) key rest
  end.

(** [COMMON_KEYS_MAP.get(key)]: [0x80 + index], or [undefined]. *)
Definition COMMON_KEYS_MAP_get (key : string) : option Z :=
  index_from 0x80 key COMMON_KEYS.

(* ================================================================== *)
(** ** [types.ts]: options and stream events *)

Record ResolvedEncodeOptions : Type := mkEncodeOptions {
  includeHeader : bool;
  initialBufferSize : Z;
  useStringTable : bool
}.

Record ResolvedDecodeOptions : Type := mkDecodeOptions {
  expectHeader : bool;
  strict : bool
}.

Inductive BoonStreamEvent : Type :=
  | Eheader (version : Z)
  | EstartObject (keyCount : Z)
  | EendObject
  | EstartArray (length : Z)
  | EendArray
  | Ekey (key : string)
  | Eprimitive (value : JsValue).

(* ================================================================== *)
(** ** [encode/encoder.ts] *)

Module Encoder.

(** The growable buffer is represented by the bytes written so far,
    [buffer.slice(0, offset)], which is what [getResult] returns;
    [ensureCapacity] only reallocates and has no counterpart here, and
    [initialBufferSize] is taken to be a valid array size. *)
Definition GrowableBuffer : Type := list Z.

Definition createGrowableBuffer (initialSize : Z) : GrowableBuffer := [].

Definition getResult (buf : GrowableBuffer) : list Z := buf.

(** [buf.buffer[buf.offset++] = v]: a [Uint8Array] store keeps the low
    eight bits. *)
Definition put (buf : GrowableBuffer) (v : Z) : GrowableBuffer :=
  buf ++ [v mod 256].

(** [buf.buffer.set(bytes, buf.offset); buf.offset += bytes.length] *)
Definition put_bytes (buf : GrowableBuffer) (bytes : list Z) : GrowableBuffer :=
  buf ++ bytes.

(** [buf.view.setUint16 / setUint32 / setInt16 / setInt32 / setBigInt64]
    with [littleEndian = false]. *)
Definition put_be (buf : GrowableBuffer) (n : nat) (v : Z) : GrowableBuffer :=
  buf ++ be_bytes n v.

(** [keys.add(key)] on a [Set] in insertion order. *)
Definition Set_add (key : string) (keys : list string) : list string :=
  if existsb (String.eqb key) keys then keys else keys ++ [key].

Fixpoint collectKeys (value : JsValue) (keys : list string) : list string :=
  match value with
  | JArr items =>
      fold_left
        (fun ks slot =>
           match slot with
           | Some item => collectKeys item ks
           | None => ks
           end)
        items keys
  | JObj props =>
      fold_left
        (fun ks kv => collectKeys (snd kv) (Set_add (fst kv) ks))
        props keys
  | _ => keys
  end.

(** [value & 0x7F], [value >>> n]: 32-bit operators. *)
Definition and7F (value : Z) : Z := Z.land (ToInt32 value) 0x7F.
Definition ushr (value : Z) (n : Z) : Z := Z.shiftr (ToUint32 value) n.

Definition writeVarint (buf : GrowableBuffer) (value : Z) : GrowableBuffer :=
  if value <? 128 then
    put buf value
  else if value <? 16384 then
    let buf := put buf (Z.lor (and7F value) 0x80) in
    put buf (ushr value 7)
  else if value <? 2097152 then
    let buf := put buf (Z.lor (and7F value) 0x80) in
    let buf := put buf (Z.lor (Z.land (ushr value 7) 0x7F) 0x80) in
    put buf (ushr value 14)
  else
    let buf := put buf (Z.lor (and7F value) 0x80) in
    let buf := put buf (Z.lor (Z.land (ushr value 7) 0x7F) 0x80) in
    let buf := put buf (Z.lor (Z.land (ushr value 14) 0x7F) 0x80) in
    put buf (ushr value 21).

Definition writeTag (buf : GrowableBuffer) (tag : Z) : GrowableBuffer :=
  put buf tag.

Definition writeStringTable (buf : GrowableBuffer) (keys : list string)
  : GrowableBuffer :=
  let buf := writeTag buf TYPE_TAG.HEADER_WITH_STRING_TABLE in
  let buf := put buf FORMAT_VERSION in
  let buf := writeVarint buf (Z.of_nat (List.length keys)) in
  fold_left
    (fun buf key =>
       let bytes := textEncoder_encode key in
       let length := Z.of_nat (List.length bytes) in
       let buf := writeVarint buf length in
       put_bytes buf bytes)
    keys buf.

Definition writeHeader (buf : GrowableBuffer) : GrowableBuffer :=
  let buf := put_bytes buf MAGIC_NUMBER in
  put buf FORMAT_VERSION.

Definition writeNull (buf : GrowableBuffer) : GrowableBuffer :=
  writeTag buf TYPE_TAG.NULL.

Definition writeBoolean (buf : GrowableBuffer) (value : bool) : GrowableBuffer :=
  writeTag buf (if value then TYPE_TAG.TRUE else TYPE_TAG.FALSE).

Definition writeNumber (buf : GrowableBuffer) (value : Number) : GrowableBuffer :=
  match value with
  | NInt value =>
      (* Signed integers *)
      if (INT8_MIN <=? value) && (value <=? INT8_MAX) then
        let buf := writeTag buf TYPE_TAG.INT8 in
        put_be buf 1 value
      else if (INT16_MIN <=? value) && (value <=? INT16_MAX) then
        let buf := writeTag buf TYPE_TAG.INT16 in
        put_be buf 2 value
      else if (INT32_MIN <=? value) && (value <=? INT32_MAX) then
        let buf := writeTag buf TYPE_TAG.INT32 in
        put_be buf 4 value
      (* Unsigned integers *)
      else if (0 <=? value) && (value <=? UINT8_MAX) then
        let buf := writeTag buf TYPE_TAG.UINT8 in
        put buf value
      else if (0 <=? value) && (value <=? UINT16_MAX) then
        let buf := writeTag buf TYPE_TAG.UINT16 in
        put_be buf 2 value
      else if (0 <=? value) && (value <=? UINT32_MAX) then
        let buf := writeTag buf TYPE_TAG.UINT32 in
        put_be buf 4 value
      else
        (* Large integers: INT64, through BigInt *)
        let buf := writeTag buf TYPE_TAG.INT64 in
        put_be buf 8 value
  | NFloat bits =>
      if fits_float32 bits then
        let buf := writeTag buf TYPE_TAG.FLOAT32 in
        put_be buf 4 (f32_of_f64 bits)
      else
        let buf := writeTag buf TYPE_TAG.FLOAT64 in
        put_be buf 8 bits
  end.

(** The tag, then the length field sized to [length]: the shape shared
    by [writeString], [writeArray], [writeObject] and
    [writeObjectWithKeyMap]. *)
Definition writeSized (buf : GrowableBuffer) (short medium long : Z) (length : Z)
  : GrowableBuffer :=
  if length <=? MAX_SHORT_LENGTH then
    let buf := writeTag buf short in
    put buf length
  else if length <=? MAX_MEDIUM_LENGTH then
    let buf := writeTag buf medium in
    put_be buf 2 length
  else
    let buf := writeTag buf long in
    put_be buf 4 length.

Definition writeString (buf : GrowableBuffer) (value : string) : GrowableBuffer :=
  if js_length value =? 0 then
    writeTag buf TYPE_TAG.STRING_EMPTY
  else
    let bytes := textEncoder_encode value in
    let length := Z.of_nat (List.length bytes) in
    let buf := writeSized buf TYPE_TAG.STRING_SHORT TYPE_TAG.STRING_MEDIUM
                          TYPE_TAG.STRING_LONG length in
    put_bytes buf bytes.

Definition writeKeyString (buf : GrowableBuffer) (value : string) : GrowableBuffer :=
  match COMMON_KEYS_MAP_get value with
  | Some commonKeyId => put buf commonKeyId
  | None =>
      let bytes := textEncoder_encode value in
      let length := Z.of_nat (List.length bytes) in
      let buf :=
        if length <=? 127 then
          put buf length
        else if length <=? MAX_MEDIUM_LENGTH then
          let buf := put buf 254 in
          put_be buf 2 length
        else
          let buf := put buf 255 in
          put_be buf 4 length in
      put_bytes buf bytes
  end.

(** The [default:] branch of the [typeof] switches. *)
Definition unsupported {A : Type} (value : JsValue) : Result A :=
  Throw (TypeError ("Unsupported value type: " ++ typeof_name (typeof value))).

(** [keyMap.get(key)] for [keyMap = new Map(keys.map((k, i) => [k, i]))]:
    the index of the key, or [undefined]. *)
Definition keyMap_get (keyMap : list string) (key : string) : option Z :=
  index_from 0 key keyMap.

(** [writeVarint(buf, keyIndex)] on the result of [keyMap.get(key)!].  On
    [undefined] every comparison of [writeVarint] is false and its last
    branch stores [(undefined & 0x7F) | 0x80] three times and
    [undefined >>> 21] once. *)
Definition writeKeyIndex (buf : GrowableBuffer) (keyIndex : option Z)
  : GrowableBuffer :=
  match keyIndex with
  | Some i => writeVarint buf i
  | None => put (put (put (put buf 0x80) 0x80) 0x80) 0
  end.

(** [writeValue], with [writeArray] (no key map) and [writeObject] as its
    array and object cases.  An empty slot of a sparse array is handed
    to [writeValue] as [undefined] by the [for ... of] loop. *)
Fixpoint writeValue (buf : GrowableBuffer) (value : JsValue) {struct value}
  : Result GrowableBuffer :=
  match value with
  | JNull => Ok (writeNull buf)
  | JBool b => Ok (writeBoolean buf b)
  | JNum n => Ok (writeNumber buf n)
  | JStr s => Ok (writeString buf s)
  | JArr items =>
      (* writeArray *)
      let length := Z.of_nat (List.length items) in
      if length =? 0 then Ok (writeTag buf TYPE_TAG.ARRAY_EMPTY)
      else
        let buf := writeSized buf TYPE_TAG.ARRAY_SHORT TYPE_TAG.ARRAY_MEDIUM
                              TYPE_TAG.ARRAY_LONG length in
        fold_left
          (fun acc slot =>
             let* buf := acc in
             match slot with
             | Some item => writeValue buf item
             | None => unsupported JUndefined
             end)
          items (Ok buf)
  | JObj props =>
      (* writeObject *)
      let keyCount := Z.of_nat (List.length props) in
      if keyCount =? 0 then Ok (writeTag buf TYPE_TAG.OBJECT_EMPTY)
      else
        let buf := writeSized buf TYPE_TAG.OBJECT_SHORT TYPE_TAG.OBJECT_MEDIUM
                              TYPE_TAG.OBJECT_LONG keyCount in
        fold_left
          (fun acc kv =>
             let* buf := acc in
             let buf := writeKeyString buf (fst kv) in
             writeValue buf (snd kv))
          props (Ok buf)
  | _ => unsupported value
  end.

(** [writeValueWithKeyMap], with [writeArray] (key map given) and
    [writeObjectWithKeyMap] as its array and object cases. *)
Fixpoint writeValueWithKeyMap (buf : GrowableBuffer) (value : JsValue)
    (keyMap : list string) {struct value} : Result GrowableBuffer :=
  match value with
  | JNull => Ok (writeNull buf)
  | JBool b => Ok (writeBoolean buf b)
  | JNum n => Ok (writeNumber buf n)
  | JStr s => Ok (writeString buf s)
  | JArr items =>
      let length := Z.of_nat (List.length items) in
      if length =? 0 then Ok (writeTag buf TYPE_TAG.ARRAY_EMPTY)
      else
        let buf := writeSized buf TYPE_TAG.ARRAY_SHORT TYPE_TAG.ARRAY_MEDIUM
                              TYPE_TAG.ARRAY_LONG length in
        fold_left
          (fun acc slot =>
             let* buf := acc in
             match slot with
             | Some item => writeValueWithKeyMap buf item keyMap
             | None => unsupported JUndefined
             end)
          items (Ok buf)
  | JObj props =>
      let keyCount := Z.of_nat (List.length props) in
      if keyCount =? 0 then Ok (writeTag buf TYPE_TAG.OBJECT_EMPTY)
      else
        let buf := writeSized buf TYPE_TAG.OBJECT_SHORT TYPE_TAG.OBJECT_MEDIUM
                              TYPE_TAG.OBJECT_LONG keyCount in
        fold_left
          (fun acc kv =>
             let* buf := acc in
             let keyIndex := keyMap_get keyMap (fst kv) in
             let buf := writeKeyIndex buf keyIndex in
             writeValueWithKeyMap buf (snd kv) keyMap)
          props (Ok buf)
  | _ => unsupported value
  end.

(** [keyUsage.set(key, (keyUsage.get(key) || 0) + 1)] on a [Map] in
    insertion order. *)
Fixpoint keyUsage_bump (key : string) (keyUsage : list (string * Z))
  : list (string * Z) :=
  match keyUsage with
  | [] => [(key, 1)]
  | (k, c) :: rest =>
      if String.eqb k key then (k, c + 1) :: rest
      else (k, c) :: keyUsage_bump key rest
  end.

(** The inner function [countKeys] of [estimateRepetitionSavings]. *)
Fixpoint countKeys (val : JsValue) (keyUsage : list (string * Z))
  : list (string * Z) :=
  match val with
  | JArr items =>
      fold_left
        (fun ku slot =>
           match slot with
           | Some item => countKeys item ku
           | None => ku
           end)
        items keyUsage
  | JObj props =>
      fold_left
        (fun ku kv => countKeys (snd kv) (keyUsage_bump (fst kv) ku))
        props keyUsage
  | _ => keyUsage
  end.

Definition sumZ (l : list Z) : Z := fold_left Z.add l 0.

(** [totalKeyBytes]: the sum over the usage map of
    [count * (1 + key.length)]. *)
Definition totalKeyBytes (keyUsage : list (string * Z)) : Z :=
  fold_left (fun total kc => total + snd kc * (1 + js_length (fst kc)))
            keyUsage 0.

Definition singleUseKeys (keyUsage : list (string * Z)) : Z :=
  Z.of_nat (List.length (filter (fun c => c =? 1) (map snd keyUsage))).

(** [estimateRepetitionSavings].  The two floating-point comparisons are
    written on integers: [singleUseKeys > keys.length * 0.5] is
    [keys.length < 2 * singleUseKeys], and
    [totalKeyBytes / uses > 2] is [2 * uses < totalKeyBytes] when
    [uses] is positive and false when it is zero (the quotient is then
    NaN). *)
Definition estimateRepetitionSavings (value : JsValue) (keys : list string) : Z :=
  let keyUsage := countKeys value [] in
  let totalKeyBytes := totalKeyBytes keyUsage in
  if Z.of_nat (List.length keys) <? 2 * singleUseKeys keyUsage then
    -1000
  else
    let uses := sumZ (map snd keyUsage) in
    let avgSavingsPerKey_gt_2 :=
      if uses =? 0 then false else 2 * uses <? totalKeyBytes in
    if avgSavingsPerKey_gt_2 then 1000 else -1000.

(** [10 + keys.reduce((sum, k) => sum + k.length + 2, 0)] *)
Definition headerSize (keys : list string) : Z :=
  10 + fold_left (fun sum k => sum + js_length k + 2) keys 0.

(** The test that guards the string-table branch of [encodeValue]. *)
Definition usesStringTable (value : JsValue) (options : ResolvedEncodeOptions)
  : bool :=
  if useStringTable options then
    let keys := collectKeys value [] in
    headerSize keys <? estimateRepetitionSavings value keys
  else false.

Definition encodeValue (value : JsValue) (options : ResolvedEncodeOptions)
  : Result (list Z) :=
  let buf := createGrowableBuffer (initialBufferSize options) in
  if usesStringTable value options then
    let keys := collectKeys value [] in
    let buf := if includeHeader options then put_bytes buf MAGIC_NUMBER else buf in
    let buf := writeStringTable buf keys in
    let keyMap := keys in
    let* buf := writeValueWithKeyMap buf value keyMap in
    Ok (getResult buf)
  else
    let buf := if includeHeader options then writeHeader buf else buf in
    let* buf := writeValue buf value in
    Ok (getResult buf).

(** [String(input)] for the inputs that reach the last line of
    [normalizeValue]. *)
Definition String_of (input : JsValue) : string :=
  match input with
  | JBigInt z => decimal z
  | JSymbol description => "Symbol(" ++ description ++ ")"
  | JFunction source => source
  | _ => ""
  end.

Fixpoint normalizeValue (input : JsValue) : JsValue :=
  match input with
  | JUndefined => JNull
  | JNull => JNull
  | JBool _ | JNum _ | JStr _ => input
  | JArr items =>
      (* [input.map(normalizeValue)]: [map] skips empty slots *)
      JArr (map (fun slot =>
                   match slot with
                   | Some item => Some (normalizeValue item)
                   | None => None
                   end) items)
  | JObj props =>
      JObj (fold_left
              (fun result kv =>
                 if is_undefined (snd kv) then result
                 else obj_set result (fst kv) (normalizeValue (snd kv)))
              props [])
  | _ => JStr (String_of input)
  end.

End Encoder.

(* ================================================================== *)
(** ** [index.ts]: the public [encode] *)

Definition DEFAULT_BUFFER_SIZE : Z := 4096.

(** [resolveEncodeOptions(undefined)] *)
Definition defaultEncodeOptions : ResolvedEncodeOptions :=
  {| includeHeader := true;
     initialBufferSize := DEFAULT_BUFFER_SIZE;
     useStringTable := true |}.

(** [resolveDecodeOptions(undefined)] *)
Definition defaultDecodeOptions : ResolvedDecodeOptions :=
  {| expectHeader := true; strict := true |}.

Definition encode (input : JsValue) (options : ResolvedEncodeOptions)
  : Result (list Z) :=
  let normalizedValue := Encoder.normalizeValue input in
  Encoder.encodeValue normalizedValue options.

(* ================================================================== *)
(** ** [decode/decoder.ts]: the eager decoder *)

Module Decoder.
Import Buffer.
Local Open Scope read_scope.

(** [for (let i = 0; i < n; i++) body], threading the loop state. *)
Fixpoint for_loop {S : Type} (n : nat) (body : S -> Read S) (s : S) : Read S :=
  match n with
  | O => ret s
  | Datatypes.S n' => s' <- body s ;; for_loop n' body s'
  end.

(** One round of the [do ... while] of [readVarint]:
    [result |= (byte & 0x7F) << shift] with the 32-bit operators of
    JavaScript (the shift count is taken modulo 32, both results are
    signed 32-bit integers). *)
Definition varint_step (result shift byte : Z) : Z :=
  ToInt32 (Z.lor (ToInt32 result)
                 (ToInt32 (Z.shiftl (Z.land byte 0x7F) (shift mod 32)))).

Fixpoint readVarint_loop (fuel : nat) (result shift : Z) : Read Z :=
  match fuel with
  | O => throw OutOfFuel
  | Datatypes.S fuel' =>
      byte <- readUint8 ;;
      let result := varint_step result shift byte in
      let shift := shift + 7 in
      if Z.land byte 0x80 =? 0 then ret result
      else readVarint_loop fuel' result shift
  end.

(** The loop reads one byte per round, so one round more than the bytes
    that remain is enough for it to return or to throw on its own. *)
Definition readVarint : Read Z :=
  fun r => readVarint_loop (Datatypes.S (Z.to_nat (remaining r))) 0 0 r.

Definition readStringTable : Read (list string) :=
  version <- readUint8 ;;
  keyCount <- readVarint ;;
  for_loop (Z.to_nat keyCount)
    (fun keys =>
       length <- readVarint ;;
       bytes <- readBytes length ;;
       ret (keys ++ [textDecoder_decode bytes]))
    [].

Definition hex (tag : Z) : string := "0x" ++ toString16 tag.

(** The length field selected by the tag; [None] is the early return of
    the empty container or string. *)
Definition readLength (what : string) (empty short medium long : Z) (tag : Z)
  : Read (option Z) :=
  if tag =? empty then ret None
  else if tag =? short then n <- readUint8 ;; ret (Some n)
  else if tag =? medium then n <- readUint16 ;; ret (Some n)
  else if tag =? long then n <- readUint32 ;; ret (Some n)
  else throw (SyntaxError ("Invalid " ++ what ++ " tag: " ++ hex tag)).

Definition readString (tag : Z) : Read string :=
  len <- readLength "string" TYPE_TAG.STRING_EMPTY TYPE_TAG.STRING_SHORT
                    TYPE_TAG.STRING_MEDIUM TYPE_TAG.STRING_LONG tag ;;
  match len with
  | None => ret EmptyString
  | Some length =>
      bytes <- readBytes length ;;
      ret (textDecoder_decode bytes)
  end.

Definition readKeyString : Read string :=
  firstByte <- readUint8 ;;
  if (COMMON_KEY_MIN <=? firstByte) && (firstByte <=? COMMON_KEY_MAX) then
    let keyIndex := firstByte - COMMON_KEY_MIN in
    match nth_error COMMON_KEYS (Z.to_nat keyIndex) with
    | Some key =>
        if js_length key =? 0
        then throw (SyntaxError ("Invalid common key index: " ++ decimal keyIndex))
        else ret key
    | None => throw (SyntaxError ("Invalid common key index: " ++ decimal keyIndex))
    end
  else
    length <-
      (if firstByte =? 254 then readUint16
       else if firstByte =? 255 then readUint32
       else ret firstByte) ;;
    bytes <- readBytes length ;;
    ret (textDecoder_decode bytes).

(** [keyTable[keyIndex]] after the guard [keyIndex >= keyTable.length];
    a negative index reads [undefined], which names the property
    ["undefined"]. *)
Definition keyTable_at (keyTable : list string) (keyIndex : Z) : Read string :=
  if Z.of_nat (List.length keyTable) <=? keyIndex then
    throw (SyntaxError ("Invalid key index: " ++ decimal keyIndex))
  else if keyIndex <? 0 then ret "undefined"%string
  else
    match nth_error keyTable (Z.to_nat keyIndex) with
    | Some key => ret key
    | None => ret "undefined"%string
    end.

Definition is_string_tag (tag : Z) : bool :=
  (tag =? TYPE_TAG.STRING_EMPTY) || (tag =? TYPE_TAG.STRING_SHORT)
  || (tag =? TYPE_TAG.STRING_MEDIUM) || (tag =? TYPE_TAG.STRING_LONG).
Definition is_array_tag (tag : Z) : bool :=
  (tag =? TYPE_TAG.ARRAY_EMPTY) || (tag =? TYPE_TAG.ARRAY_SHORT)
  || (tag =? TYPE_TAG.ARRAY_MEDIUM) || (tag =? TYPE_TAG.ARRAY_LONG).
Definition is_object_tag (tag : Z) : bool :=
  (tag =? TYPE_TAG.OBJECT_EMPTY) || (tag =? TYPE_TAG.OBJECT_SHORT)
  || (tag =? TYPE_TAG.OBJECT_MEDIUM) || (tag =? TYPE_TAG.OBJECT_LONG).

(** The scalar cases shared by [readValue] and [readValueWithKeyTable]:
    [Some] read for a tag of a null, boolean, number or string. *)
Definition readScalar (tag : Z) : option (Read JsValue) :=
  if tag =? TYPE_TAG.NULL then Some (ret JNull)
  else if tag =? TYPE_TAG.FALSE then Some (ret (JBool false))
  else if tag =? TYPE_TAG.TRUE then Some (ret (JBool true))
  else if tag =? TYPE_TAG.INT8 then
    Some (v <- readInt8 ;; ret (JNum (NInt v)))
  else if tag =? TYPE_TAG.INT16 then
    Some (v <- readInt16 ;; ret (JNum (NInt v)))
  else if tag =? TYPE_TAG.INT32 then
    Some (v <- readInt32 ;; ret (JNum (NInt v)))
  else if tag =? TYPE_TAG.INT64 then
    Some (bigInt <- readBigInt64 ;; ret (JNum (NInt (round53 bigInt))))
  else if tag =? TYPE_TAG.UINT8 then
    Some (v <- readUint8 ;; ret (JNum (NInt v)))
  else if tag =? TYPE_TAG.UINT16 then
    Some (v <- readUint16 ;; ret (JNum (NInt v)))
  else if tag =? TYPE_TAG.UINT32 then
    Some (v <- readUint32 ;; ret (JNum (NInt v)))
  else if tag =? TYPE_TAG.FLOAT32 then
    Some (v <- readFloat32 ;; ret (JNum v))
  else if tag =? TYPE_TAG.FLOAT64 then
    Some (v <- readFloat64 ;; ret (JNum v))
  else if is_string_tag tag then
    Some (s <- readString tag ;; ret (JStr s))
  else None.

Definition unknownTag {A : Type} (tag : Z) : Read A :=
  throw (SyntaxError ("Unknown type tag: " ++ hex tag)).

(** [readValue], with [readArray] and [readObject] as its array and
    object cases.  [depth] bounds the nesting of containers. *)
Fixpoint readValue (depth : nat) : Read JsValue :=
  match depth with
  | O => throw OutOfFuel
  | Datatypes.S depth' =>
      tag <- readUint8 ;;
      match readScalar tag with
      | Some read => read
      | None =>
          if is_array_tag tag then
            (* readArray *)
            len <- readLength "array" TYPE_TAG.ARRAY_EMPTY TYPE_TAG.ARRAY_SHORT
                              TYPE_TAG.ARRAY_MEDIUM TYPE_TAG.ARRAY_LONG tag ;;
            match len with
            | None => ret (JArr [])
            | Some length =>
                result <- for_loop (Z.to_nat length)
                            (fun result =>
                               v <- readValue depth' ;;
                               ret (result ++ [Some v]))
                            [] ;;
                ret (JArr result)
            end
          else if is_object_tag tag then
            (* readObject *)
            len <- readLength "object" TYPE_TAG.OBJECT_EMPTY TYPE_TAG.OBJECT_SHORT
                              TYPE_TAG.OBJECT_MEDIUM TYPE_TAG.OBJECT_LONG tag ;;
            match len with
            | None => ret (JObj [])
            | Some keyCount =>
                result <- for_loop (Z.to_nat keyCount)
                            (fun result =>
                               key <- readKeyString ;;
                               value <- readValue depth' ;;
                               ret (obj_set result key value))
                            [] ;;
                ret (JObj result)
            end
          else unknownTag tag
      end
  end.

(** [readValueWithKeyTable], with [readArrayWithKeyTable] and
    [readObjectWithKeyTable]. *)
Fixpoint readValueWithKeyTable (depth : nat) (keyTable : list string)
  : Read JsValue :=
  match depth with
  | O => throw OutOfFuel
  | Datatypes.S depth' =>
      tag <- readUint8 ;;
      match readScalar tag with
      | Some read => read
      | None =>
          if is_array_tag tag then
            len <- readLength "array" TYPE_TAG.ARRAY_EMPTY TYPE_TAG.ARRAY_SHORT
                              TYPE_TAG.ARRAY_MEDIUM TYPE_TAG.ARRAY_LONG tag ;;
            match len with
            | None => ret (JArr [])
            | Some length =>
                result <- for_loop (Z.to_nat length)
                            (fun result =>
                               v <- readValueWithKeyTable depth' keyTable ;;
                               ret (result ++ [Some v]))
                            [] ;;
                ret (JArr result)
            end
          else if is_object_tag tag then
            len <- readLength "object" TYPE_TAG.OBJECT_EMPTY TYPE_TAG.OBJECT_SHORT
                              TYPE_TAG.OBJECT_MEDIUM TYPE_TAG.OBJECT_LONG tag ;;
            match len with
            | None => ret (JObj [])
            | Some keyCount =>
                result <- for_loop (Z.to_nat keyCount)
                            (fun result =>
                               keyIndex <- readVarint ;;
                               key <- keyTable_at keyTable keyIndex ;;
                               value <- readValueWithKeyTable depth' keyTable ;;
                               ret (obj_set result key value))
                            [] ;;
                ret (JObj result)
            end
          else unknownTag tag
      end
  end.

(** Every nested value starts with its own tag byte, so the nesting of a
    message is below its length. *)
Definition depth_bound (data : list Z) : nat := Datatypes.S (List.length data).

Definition decodeValue (data : list Z) (options : ResolvedDecodeOptions)
  : Result JsValue :=
  let reader := createBinaryReader data in
  let depth := depth_bound data in
  let run (m : Read JsValue) (r : BinaryReader) : Result JsValue :=
    match m r with
    | Ok (v, _) => Ok v
    | Throw e => Throw e
    end in
  if expectHeader options then
    run
      (firstByte <- readUint8 ;;
       if firstByte =? nth 0 MAGIC_NUMBER 0 then
         m1 <- readUint8 ;;
         m2 <- readUint8 ;;
         m3 <- readUint8 ;;
         if negb (m1 =? nth 1 MAGIC_NUMBER 0) || negb (m2 =? nth 2 MAGIC_NUMBER 0)
            || negb (m3 =? nth 3 MAGIC_NUMBER 0)
         then throw (SyntaxError "Invalid BOON magic number")
         else
           versionOrTag <- readUint8 ;;
           if versionOrTag =? TYPE_TAG.HEADER_WITH_STRING_TABLE then
             keyTable <- readStringTable ;;
             readValueWithKeyTable depth keyTable
           else if FORMAT_VERSION <? versionOrTag then
             throw (SyntaxError ("Unsupported BOON version: " ++ decimal versionOrTag))
           else readValue depth
       else if firstByte =? TYPE_TAG.HEADER_WITH_STRING_TABLE then
         keyTable <- readStringTable ;;
         readValueWithKeyTable depth keyTable
       else throw (SyntaxError "Invalid BOON header"))
      reader
  else run (readValue depth) reader.

End Decoder.

(** [index.ts]: the public [decode]. *)
Definition decode (data : list Z) (options : ResolvedDecodeOptions) : Result JsValue :=
  Decoder.decodeValue data options.

(* ================================================================== *)
(** ** [decode/stream.ts]: the streaming decoder *)

Module Stream.
Import Buffer.

(** A generator run to completion: the events it yielded, in order, and
    how it finished (its return value and the reader, or the exception
    that ended it after those events). *)
Definition Gen (A : Type) : Type :=
  BinaryReader -> list BoonStreamEvent * Result (A * BinaryReader).

Definition gret {A : Type} (a : A) : Gen A := fun r => ([], Ok (a, r)).

Definition gthrow {A : Type} (e : Error) : Gen A := fun _ => ([], Throw e).

Definition yield (ev : BoonStreamEvent) : Gen unit := fun r => ([ev], Ok (tt, r)).

(** A plain read inside a generator body. *)
Definition lift {A : Type} (m : Read A) : Gen A := fun r => ([], m r).

Definition gbind {A B : Type} (m : Gen A) (k : A -> Gen B) : Gen B :=
  fun r =>
    match m r with
    | (evs, Ok (a, r')) =>
        let (evs', res) := k a r' in (evs ++ evs', res)
    | (evs, Throw e) => (evs, Throw e)
    end.

Declare Scope gen_scope.
Delimit Scope gen_scope with gen.
Notation "x <- m ;; k" :=
  (gbind m (fun x => k))
  (at level 61, m at next level, right associativity) : gen_scope.
Notation "m ;; k" :=
  (gbind m (fun _ => k))
  (at level 61, right associativity) : gen_scope.
Local Open Scope gen_scope.

Fixpoint gfor {S : Type} (n : nat) (body : S -> Gen S) (s : S) : Gen S :=
  match n with
  | O => gret s
  | Datatypes.S n' => s' <- body s ;; gfor n' body s'
  end.

(** The same text as the decoder's [readVarint]. *)
Definition readVarint : Read Z := Decoder.readVarint.

(** [readHeaderEvents]: returns the key table, or [null]. *)
Definition readHeaderEvents : Gen (option (list string)) :=
  magic <- lift (readBytes 4) ;;
  if negb (nth 0 magic 0 =? nth 0 MAGIC_NUMBER 0)
     || negb (nth 1 magic 0 =? nth 1 MAGIC_NUMBER 0)
     || negb (nth 2 magic 0 =? nth 2 MAGIC_NUMBER 0)
     || negb (nth 3 magic 0 =? nth 3 MAGIC_NUMBER 0)
  then gthrow (SyntaxError "Invalid BOON magic number")
  else
    firstByte <- lift readUint8 ;;
    if firstByte =? TYPE_TAG.HEADER_WITH_STRING_TABLE then
      version <- lift readUint8 ;;
      if FORMAT_VERSION <? version then
        gthrow (SyntaxError ("Unsupported BOON version: " ++ decimal version))
      else
        keyCount <- lift readVarint ;;
        keys <- lift (Decoder.for_loop (Z.to_nat keyCount)
                        (fun keys =>
                           Buffer.rbind readVarint (fun length =>
                           Buffer.rbind (readBytes length) (fun bytes =>
                           Buffer.ret (keys ++ [textDecoder_decode bytes]))))
                        []) ;;
        yield (Eheader version) ;;
        gret (Some keys)
    else
      let version := firstByte in
      if FORMAT_VERSION <? version then
        gthrow (SyntaxError ("Unsupported BOON version: " ++ decimal version))
      else
        yield (Eheader version) ;;
        gret None.

(** The same texts as the decoder's [readString] and [readKeyString]. *)
Definition readString (tag : Z) : Read string := Decoder.readString tag.
Definition readKeyString : Read string := Decoder.readKeyString.

Definition getArrayLength (tag : Z) : Read Z :=
  if tag =? TYPE_TAG.ARRAY_EMPTY then Buffer.ret 0
  else if tag =? TYPE_TAG.ARRAY_SHORT then readUint8
  else if tag =? TYPE_TAG.ARRAY_MEDIUM then readUint16
  else if tag =? TYPE_TAG.ARRAY_LONG then readUint32
  else Buffer.throw (SyntaxError ("Invalid array tag: " ++ Decoder.hex tag)).

Definition getObjectKeyCount (tag : Z) : Read Z :=
  if tag =? TYPE_TAG.OBJECT_EMPTY then Buffer.ret 0
  else if tag =? TYPE_TAG.OBJECT_SHORT then readUint8
  else if tag =? TYPE_TAG.OBJECT_MEDIUM then readUint16
  else if tag =? TYPE_TAG.OBJECT_LONG then readUint32
  else Buffer.throw (SyntaxError ("Invalid object tag: " ++ Decoder.hex tag)).

(** [keyTable[keyIndex]], thrown on when it is [undefined]. *)
Definition keyTable_at (keyTable : list string) (keyIndex : Z) : Read string :=
  if keyIndex <? 0 then
    Buffer.throw (SyntaxError ("Invalid key index: " ++ decimal keyIndex))
  else
    match nth_error keyTable (Z.to_nat keyIndex) with
    | Some key => Buffer.ret key
    | None => Buffer.throw (SyntaxError ("Invalid key index: " ++ decimal keyIndex))
    end.

(** The scalar cases of [streamValue] yield one [primitive] event with
    the value the same reads give the eager decoder. *)
Fixpoint streamValue (depth : nat) (keyTable : option (list string)) : Gen unit :=
  match depth with
  | O => gthrow OutOfFuel
  | Datatypes.S depth' =>
      tag <- lift readUint8 ;;
      match Decoder.readScalar tag with
      | Some read =>
          value <- lift read ;;
          yield (Eprimitive value)
      | None =>
          if Decoder.is_array_tag tag then
            length <- lift (getArrayLength tag) ;;
            yield (EstartArray length) ;;
            gfor (Z.to_nat length)
                 (fun _ => streamValue depth' keyTable) tt ;;
            yield EendArray
          else if Decoder.is_object_tag tag then
            keyCount <- lift (getObjectKeyCount tag) ;;
            yield (EstartObject keyCount) ;;
            gfor (Z.to_nat keyCount)
                 (fun _ =>
                    key <- lift
                             (match keyTable with
                              | Some table =>
                                  Buffer.rbind readVarint (keyTable_at table)
                              | None => readKeyString
                              end) ;;
                    yield (Ekey key) ;;
                    streamValue depth' keyTable)
                 tt ;;
            yield EendObject
          else gthrow (SyntaxError ("Unknown type tag: " ++ Decoder.hex tag))
      end
  end.

Definition decodeStreamSync (data : list Z) (options : ResolvedDecodeOptions)
  : list BoonStreamEvent * Result unit :=
  let reader := createBinaryReader data in
  let body : Gen unit :=
    keyTable <- (if expectHeader options then readHeaderEvents else gret None) ;;
    streamValue (Decoder.depth_bound data) keyTable in
  match body reader with
  | (evs, Ok _) => (evs, Ok tt)
  | (evs, Throw e) => (evs, Throw e)
  end.

End Stream.

(* ================================================================== *)
(** ** BOON v2: the simplified zigzag / varint scheme *)

Module V2.
Import Buffer.

Module TAG.
Definition NULL : Z := 0x00.
Definition FALSE : Z := 0x01.
Definition TRUE : Z := 0x02.
Definition INT : Z := 0x10.
Definition FLOAT64 : Z := 0x11.
Definition STRING : Z := 0x20.
Definition STRING_EMPTY : Z := 0x21.
Definition ARRAY : Z := 0x30.
Definition ARRAY_EMPTY : Z := 0x31.
Definition ARRAY_INDEF : Z := 0x3F.
Definition OBJECT : Z := 0x40.
Definition OBJECT_EMPTY : Z := 0x41.
Definition OBJECT_INDEF : Z := 0x4F.
Definition BREAK : Z := 0xFF.
End TAG.

Definition MAGIC : list Z := [0x42; 0x4F; 0x4F; 0x4E].
Definition VERSION : Z := 1.

(** The [do ... while (n !== 0n)] of [encodeVarint] on the BigInt [n]. *)
Fixpoint encodeVarint_loop (fuel : nat) (n : Z) (out : list Z) : Result (list Z) :=
  match fuel with
  | O => Throw OutOfFuel
  | Datatypes.S fuel' =>
      let byte := Z.land n 0x7F in
      let n := Z.shiftr n 7 in
      let byte := if negb (n =? 0) then Z.lor byte 0x80 else byte in
      let out := out ++ [byte] in
      if negb (n =? 0) then encodeVarint_loop fuel' n out else Ok out
  end.

(** Each round drops seven bits of [n], so one round per bit is more
    than enough. *)
Definition encodeVarint (value : Z) (out : list Z) : Result (list Z) :=
  if value <? 0 then Throw (PlainError "Varint cannot encode negative numbers")
  else encodeVarint_loop (Datatypes.S (Z.to_nat (Z.log2 value))) value out.

(** [value >= 0 ? value * 2 : -value * 2 - 1], in double arithmetic. *)
Definition zigzag (value : Z) : Z :=
  if 0 <=? value then round53 (value * 2) else round53 (round53 (- value * 2) - 1).

Definition encodeZigzagVarint (value : Z) (out : list Z) : Result (list Z) :=
  encodeVarint (zigzag value) out.

(** The binary64 pattern of an integer-valued double. *)
Definition f64_of_int (z : Z) : Z :=
  if z =? 0 then 0
  else
    let a := Z.abs z in
    let p := Z.log2 a in
    let frac := if p <=? 52 then Z.shiftl (a - 2 ^ p) (52 - p)
                else Z.shiftr (a - 2 ^ p) (p - 52) in
    (if z <? 0 then 2 ^ 63 else 0) + Z.shiftl (p + 1023) 52 + frac.

Definition f64_bits (n : Number) : Z :=
  match n with
  | NInt z => f64_of_int z
  | NFloat bits => bits
  end.

(** [setFloat64(0, value, true)]: little-endian. *)
Definition encodeFloat64 (value : Number) (out : list Z) : list Z :=
  out ++ rev (be_bytes 8 (f64_bits value)).

Definition MAX_ZIGZAG_SAFE : Z := 2 ^ 52.

Definition cannotEncode {A : Type} (value : JsValue) : Result A :=
  Throw (PlainError ("Cannot encode value of type " ++ typeof_name (typeof value))).

Fixpoint encodeValue (value : JsValue) (out : list Z) {struct value}
  : Result (list Z) :=
  match value with
  | JNull => Ok (out ++ [TAG.NULL])
  | JBool b => Ok (out ++ [if b then TAG.TRUE else TAG.FALSE])
  | JNum (NInt z) =>
      if Z.abs z <=? MAX_ZIGZAG_SAFE then
        encodeZigzagVarint z (out ++ [TAG.INT])
      else Ok (encodeFloat64 (NInt z) (out ++ [TAG.FLOAT64]))
  | JNum (NFloat bits) => Ok (encodeFloat64 (NFloat bits) (out ++ [TAG.FLOAT64]))
  | JStr s =>
      if js_length s =? 0 then Ok (out ++ [TAG.STRING_EMPTY])
      else
        let bytes := textEncoder_encode s in
        let* out := encodeVarint (Z.of_nat (List.length bytes)) (out ++ [TAG.STRING]) in
        Ok (out ++ bytes)
  | JArr items =>
      if Z.of_nat (List.length items) =? 0 then Ok (out ++ [TAG.ARRAY_EMPTY])
      else
        let* out := encodeVarint (Z.of_nat (List.length items)) (out ++ [TAG.ARRAY]) in
        fold_left
          (fun acc slot =>
             let* out := acc in
             match slot with
             | Some item => encodeValue item out
             | None => cannotEncode JUndefined
             end)
          items (Ok out)
  | JObj entries =>
      if Z.of_nat (List.length entries) =? 0 then Ok (out ++ [TAG.OBJECT_EMPTY])
      else
        let* out := encodeVarint (Z.of_nat (List.length entries)) (out ++ [TAG.OBJECT]) in
        fold_left
          (fun acc kv =>
             let* out := acc in
             let keyBytes := textEncoder_encode (fst kv) in
             let* out := encodeVarint (Z.of_nat (List.length keyBytes)) out in
             encodeValue (snd kv) (out ++ keyBytes))
          entries (Ok out)
  | _ => cannotEncode value
  end.

Definition encode (value : JsValue) : Result (list Z) :=
  encodeValue value (MAGIC ++ [VERSION]).

(** *** [decode] and its inner functions; [pos] is the reader's offset *)

Local Open Scope read_scope.

Definition at_end : Read bool :=
  fun r => Ok (Nat.leb (List.length (buffer r)) (offset r), r).

(** [data[pos]], without moving. *)
Definition peek : Read Z := fun r => Ok (nth (offset r) (buffer r) 0, r).

(** [data[pos++]] *)
Definition next : Read Z := fun r => Ok (nth (offset r) (buffer r) 0, advance r 1).

(** The [while (pos < data.length)] of [readVarint]; [result] and
    [shift] are BigInts. *)
Fixpoint readVarint_loop (fuel : nat) (result shift : Z) : Read Z :=
  match fuel with
  | O => throw OutOfFuel
  | Datatypes.S fuel' =>
      done <- at_end ;;
      if done then throw TruncatedDataError
      else
        byte <- next ;;
        let result := Z.lor result (Z.shiftl (Z.land byte 0x7F) shift) in
        if Z.land byte 0x80 =? 0 then ret (round53 result)
        else
          let shift := shift + 7 in
          if 63 <? shift then throw (PlainError "Varint too long")
          else readVarint_loop fuel' result shift
  end.

(** [shift] passes 63 in the tenth round at the latest. *)
Definition readVarint : Read Z := readVarint_loop 10 0 0.

(** [Math.floor(n / 2)], then [(n & 1) === 0 ? half : -(half + 1)]. *)
Definition unzigzag (n : Z) : Z :=
  let half := n / 2 in
  if Z.land (ToInt32 n) 1 =? 0 then half else - round53 (half + 1).

Definition readZigzag : Read Z :=
  n <- readVarint ;;
  ret (unzigzag n).

Definition readFloat64 : Read Number :=
  fun r =>
    if Nat.ltb (List.length (buffer r)) (offset r + 8) then Throw TruncatedDataError
    else Ok (number_of_f64 (be_value (rev (slice r 8))), advance r 8).

Definition readString (length : Z) : Read string :=
  fun r =>
    if Z.of_nat (List.length (buffer r)) <? Z.of_nat (offset r) + length
    then Throw TruncatedDataError
    else Ok (textDecoder_decode (slice r (Z.to_nat length)),
             advance r (Z.to_nat length)).

(** [while (pos < data.length && data[pos] !== TAG.BREAK) body] *)
Fixpoint until_break {S : Type} (fuel : nat) (body : S -> Read S) (s : S) : Read S :=
  match fuel with
  | O => throw OutOfFuel
  | Datatypes.S fuel' =>
      done <- at_end ;;
      b <- peek ;;
      if negb done && negb (b =? TAG.BREAK) then
        s' <- body s ;; until_break fuel' body s'
      else ret s
  end.

(** The end of an indefinite container: the missing break is a
    truncation, the break itself is consumed. *)
Definition consume_break : Read unit :=
  done <- at_end ;;
  if done then throw TruncatedDataError
  else _ <- next ;; ret tt.

Definition readEntry (readValue : Read JsValue) (obj : list (string * JsValue))
  : Read (list (string * JsValue)) :=
  keyLength <- readVarint ;;
  key <- readString keyLength ;;
  val <- readValue ;;
  ret (obj_set obj key val).

(** [readValue]; [depth] bounds the nesting, [loops] the rounds of the
    loops over indefinite containers. *)
Fixpoint readValue (loops : nat) (depth : nat) : Read JsValue :=
  match depth with
  | O => throw OutOfFuel
  | Datatypes.S depth' =>
      done <- at_end ;;
      if done then throw TruncatedDataError
      else
        tag <- next ;;
        if tag =? TAG.NULL then ret JNull
        else if tag =? TAG.FALSE then ret (JBool false)
        else if tag =? TAG.TRUE then ret (JBool true)
        else if tag =? TAG.INT then
          z <- readZigzag ;; ret (JNum (NInt z))
        else if tag =? TAG.FLOAT64 then
          v <- readFloat64 ;; ret (JNum v)
        else if tag =? TAG.STRING then
          length <- readVarint ;;
          s <- readString length ;;
          ret (JStr s)
        else if tag =? TAG.STRING_EMPTY then ret (JStr EmptyString)
        else if tag =? TAG.ARRAY then
          count <- readVarint ;;
          arr <- Decoder.for_loop (Z.to_nat count)
                   (fun arr => v <- readValue loops depth' ;; ret (arr ++ [Some v]))
                   [] ;;
          ret (JArr arr)
        else if tag =? TAG.ARRAY_EMPTY then ret (JArr [])
        else if tag =? TAG.ARRAY_INDEF then
          arr <- until_break loops
                   (fun arr => v <- readValue loops depth' ;; ret (arr ++ [Some v]))
                   [] ;;
          _ <- consume_break ;;
          ret (JArr arr)
        else if tag =? TAG.OBJECT then
          count <- readVarint ;;
          obj <- Decoder.for_loop (Z.to_nat count)
                   (readEntry (readValue loops depth')) [] ;;
          ret (JObj obj)
        else if tag =? TAG.OBJECT_EMPTY then ret (JObj [])
        else if tag =? TAG.OBJECT_INDEF then
          obj <- until_break loops (readEntry (readValue loops depth')) [] ;;
          _ <- consume_break ;;
          ret (JObj obj)
        else if tag =? TAG.BREAK then throw UnexpectedBreakError
        else throw (UnknownTagError tag)
  end.

Definition decode (data : list Z) : Result JsValue :=
  if (Nat.ltb (List.length data) 5)
     || negb (nth 0 data 0 =? nth 0 MAGIC 0)
     || negb (nth 1 data 0 =? nth 1 MAGIC 0)
     || negb (nth 2 data 0 =? nth 2 MAGIC 0)
     || negb (nth 3 data 0 =? nth 3 MAGIC 0)
  then Throw InvalidMagicError
  else
    let version := nth 4 data 0 in
    if negb (version =? VERSION) then Throw (UnsupportedVersionError version)
    else
      let bound := Datatypes.S (List.length data) in
      match readValue bound bound {| buffer := data; offset := 5 |} with
      | Ok (v, _) => Ok v
      | Throw e => Throw e
      end.

End V2.

(* ================================================================== *)
(** ** The specification's reading of the streaming decoder

    "Consuming the generator to completion is equivalent to running the
    eager decoder and flattening its tree into the same event sequence."
    [spec_flatten] is that flattening, over the event alphabet
    [header, startObject, key, startArray, primitive, endObject,
    endArray]: children strictly between [start] and [end], depth first,
    each [key] immediately before the events of its value. *)

Fixpoint spec_flatten (v : JsValue) : list BoonStreamEvent :=
  match v with
  | JArr items =>
      EstartArray (Z.of_nat (List.length items))
      :: flat_map (fun slot =>
                     match slot with
                     | Some item => spec_flatten item
                     | None => [Eprimitive JUndefined]
                     end) items
      ++ [EendArray]
  | JObj props =>
      EstartObject (Z.of_nat (List.length props))
      :: flat_map (fun kv => Ekey (fst kv) :: spec_flatten (snd kv)) props
      ++ [EendObject]
  | _ => [Eprimitive v]
  end.

(** The event sequence the specification expects from the stream: the
    header event when a header is expected, then the flattened tree of the
    eager decoder; the eager decoder's exception when it throws. *)
Definition spec_stream_of_eager (data : list Z) (options : ResolvedDecodeOptions)
  : Result (list BoonStreamEvent) :=
  let* tree := Decoder.decodeValue data options in
  Ok ((if expectHeader options then [Eheader FORMAT_VERSION] else [])
      ++ spec_flatten tree).

(** What a consumer of [decodeStreamSync] collects when the generator
    runs to completion. *)
Definition stream_to_completion (data : list Z) (options : ResolvedDecodeOptions)
  : Result (list BoonStreamEvent) :=
  match Stream.decodeStreamSync data options with
  | (evs, Ok _) => Ok evs
  | (_, Throw e) => Throw e
  end.

(* ================================================================== *)
(** ** Sample values *)

Definition int (z : Z) : JsValue := JNum (NInt z).

(** [{ "aaa...a": null }] with a key of 128 characters. *)
Definition long_key_object : JsValue :=
  JObj [(repeat_char "a" 128, JNull)].

(** [[{ ab: 1 }, { ab: 1 }]] *)
Definition two_records : JsValue :=
  JArr [Some (JObj [("ab"%string, int 1)]); Some (JObj [("ab"%string, int 1)])].

(** [[{ ab: 1, c: 1 }, { ab: 1 }]] *)
Definition three_uses : JsValue :=
  JArr [Some (JObj [("ab"%string, int 1); ("c"%string, int 1)]);
        Some (JObj [("ab"%string, int 1)])].

(** [[ , ]]: an array of length one whose only slot is empty. *)
Definition sparse_array : JsValue := JArr [None].

(** [n] arrays nested around [v]. *)
Fixpoint nest (n : nat) (v : JsValue) : JsValue :=
  match n with
  | O => v
  | S n' => JArr [Some (nest n' v)]
  end.

(** [n] objects nested around [v], each with the one key ["k"]. *)
Fixpoint nest_obj (n : nat) (v : JsValue) : JsValue :=
  match n with
  | O => v
  | S n' => JObj [("k"%string, nest_obj n' v)]
  end.

Definition headerless_table_options : ResolvedEncodeOptions :=
  {| includeHeader := false;
     initialBufferSize := DEFAULT_BUFFER_SIZE;
     useStringTable := true |}.

(** [decode(encode(v))] under the default options of both. *)
Definition roundtrip (v : JsValue) : Result JsValue :=
  let* bytes := encode v defaultEncodeOptions in
  decode bytes defaultDecodeOptions.

(* ================================================================== *)
(** ** The typed reads of the reader, as one family *)

Inductive TypedRead : Type :=
  | RUint8 | RInt8
  | RUint16 | RInt16
  | RUint32 | RInt32
  | RFloat32 | RFloat64
  | RBytes (length : Z)
  | RBigInt64.

(** The number of bytes a read requires. *)
Definition required (op : TypedRead) : Z :=
  match op with
  | RUint8 | RInt8 => 1
  | RUint16 | RInt16 => 2
  | RUint32 | RInt32 | RFloat32 => 4
  | RFloat64 | RBigInt64 => 8
  | RBytes length => length
  end.

Inductive ReadValue : Type :=
  | VInt (z : Z)
  | VNum (n : Number)
  | VBytes (bytes : list Z).

Definition perform (op : TypedRead) : Buffer.Read ReadValue :=
  let as_ {A : Type} (f : A -> ReadValue) (m : Buffer.Read A) : Buffer.Read ReadValue :=
    Buffer.rbind m (fun a => Buffer.ret (f a)) in
  match op with
  | RUint8 => as_ VInt Buffer.readUint8
  | RInt8 => as_ VInt Buffer.readInt8
  | RUint16 => as_ VInt Buffer.readUint16
  | RInt16 => as_ VInt Buffer.readInt16
  | RUint32 => as_ VInt Buffer.readUint32
  | RInt32 => as_ VInt Buffer.readInt32
  | RFloat32 => as_ VNum Buffer.readFloat32
  | RFloat64 => as_ VNum Buffer.readFloat64
  | RBytes length => as_ VBytes (Buffer.readBytes length)
  | RBigInt64 => as_ VInt Buffer.readBigInt64
  end.

(* ================================================================== *)
(** ** The key-table decision, in the specification's words and in the
       code's terms *)

Definition zsum (l : list Z) : Z := fold_right Z.add 0 l.

(** The number of times [key] occurs as an object key in [v]. *)
Fixpoint occurrences (key : string) (v : JsValue) : Z :=
  match v with
  | JArr items =>
      zsum (map (fun slot =>
                   match slot with
                   | Some item => occurrences key item
                   | None => 0
                   end) items)
  | JObj props =>
      zsum (map (fun kv =>
                   (if String.eqb (fst kv) key then 1 else 0)
                   + occurrences key (snd kv)) props)
  | _ => 0
  end.

(** The distinct keys of [v], in first-encounter order. *)
Definition distinct_keys (v : JsValue) : list string := Encoder.collectKeys v [].

(** The usage table the code builds, read as a table of occurrences. *)
Definition usage_table (keys : list string) (count : string -> Z)
  : list (string * Z) :=
  map (fun k => (k, count k)) keys.

Definition varint_size (n : Z) : Z :=
  Z.of_nat (List.length (Encoder.writeVarint [] n)).

(** The index of a key in the table. *)
Definition key_index (keys : list string) (key : string) : Z :=
  match index_from 0 key keys with
  | Some i => i
  | None => 0
  end.

(** The specification's estimate.  No-table cost: per distinct key,
    [occurrences * (1 + byteLength)].  Table cost: the header, per
    distinct key the varint of its length and its bytes, and per
    occurrence the varint of the key's index. *)
Definition spec_noTableCost (v : JsValue) : Z :=
  zsum (map (fun k => occurrences k v * (1 + byteLength k)) (distinct_keys v)).

Definition spec_tableCost (header : Z) (v : JsValue) : Z :=
  header
  + zsum (map (fun k => varint_size (byteLength k) + byteLength k) (distinct_keys v))
  + zsum (map (fun k => occurrences k v * varint_size (key_index (distinct_keys v) k))
              (distinct_keys v)).

Definition spec_savings (header : Z) (v : JsValue) : Z :=
  spec_noTableCost v - spec_tableCost header v.

Definition single_use_count (v : JsValue) : Z :=
  Z.of_nat (List.length (filter (fun k => occurrences k v =? 1) (distinct_keys v))).

Definition spec_mostly_single_use (v : JsValue) : bool :=
  Z.of_nat (List.length (distinct_keys v)) <? 2 * single_use_count v.

(** The specification's rule: table mode exactly when the projected
    savings are positive, never when more than half of the distinct keys
    occur once. *)
Definition spec_usesStringTable (header : Z) (v : JsValue) : bool :=
  negb (spec_mostly_single_use v) && (0 <? spec_savings header v).

(** The quantities of the code's rule, per distinct key. *)
Definition total_uses (v : JsValue) : Z :=
  zsum (map (fun k => occurrences k v) (distinct_keys v)).

Definition total_key_units (v : JsValue) : Z :=
  zsum (map (fun k => occurrences k v * (1 + js_length k)) (distinct_keys v)).

Definition header_estimate (v : JsValue) : Z :=
  10 + zsum (map (fun k => js_length k + 2) (distinct_keys v)).

(** The header that the string-table layout adds to a message: the table
    tag and the varint of the number of keys. *)
Definition table_header (v : JsValue) : Z :=
  1 + varint_size (Z.of_nat (List.length (distinct_keys v))).

(* ================================================================== *)
(** ** Observations on encoder output *)

(** The number of bytes written, when the encoder returns. *)
Definition size_of (r : Result (list Z)) : option nat :=
  match r with
  | Ok bytes => Some (List.length bytes)
  | Throw _ => None
  end.

(** The tag byte [writeNumber] appends to [buf]. *)
Definition numberTag (buf : Encoder.GrowableBuffer) (value : Number) : Z :=
  nth (List.length buf) (Encoder.writeNumber buf value) 0.


(** The payload [writeNumber] appends after the tag. *)
Definition numberPayload (value : Number) : list Z :=
  tl (Encoder.writeNumber [] value).

(** The specification's narrowest fit for an integer: the smallest of
    signed 8/16/32/64 and unsigned 8/16/32 that represents the value, an
    unsigned width only for a non-negative value that does not fit the
    signed width of the same size. *)
Definition spec_narrowest_tag (z : Z) : Z :=
  if (INT8_MIN <=? z) && (z <=? INT8_MAX) then TYPE_TAG.INT8
  else if (0 <=? z) && (z <=? UINT8_MAX) then TYPE_TAG.UINT8
  else if (INT16_MIN <=? z) && (z <=? INT16_MAX) then TYPE_TAG.INT16
  else if (0 <=? z) && (z <=? UINT16_MAX) then TYPE_TAG.UINT16
  else if (INT32_MIN <=? z) && (z <=? INT32_MAX) then TYPE_TAG.INT32
  else if (0 <=? z) && (z <=? UINT32_MAX) then TYPE_TAG.UINT32
  else TYPE_TAG.INT64.

(** The bytes of the headerless string-table message of [two_records]:
    table tag, version, one key ["ab"], then the array of two objects
    whose keys are the index 0. *)
Definition headerless_table_message : list Z :=
  [0x60; 1; 1; 2; 97; 98;
   0x41; 2; 0x51; 1; 0; 0x10; 1; 0x51; 1; 0; 0x10; 1].

(** A message of the fixed-width scheme that declares a short string of
    [declared] bytes and supplies [payload]. *)
Definition string_message (declared : Z) (payload : list Z) : list Z :=
  MAGIC_NUMBER ++ [FORMAT_VERSION; TYPE_TAG.STRING_SHORT; declared] ++ payload.

(** The same in the simplified scheme. *)
Definition v2_string_message (declared : Z) (payload : list Z) : list Z :=
  V2.MAGIC ++ [V2.VERSION; V2.TAG.STRING; declared] ++ payload.

(* ================================================================== *)
(** ** The varint wire form *)

(** [Leb128 n bytes]: [bytes] is the unsigned varint of [n], seven data
    bits per byte, least significant group first, the high bit set on
    every byte but the last. *)
Inductive Leb128 : Z -> list Z -> Prop :=
  | Leb128_last (n : Z) :
      0 <= n < 128 -> Leb128 n [n]
  | Leb128_more (n : Z) (bytes : list Z) :
      128 <= n -> Leb128 (n / 128) bytes ->
      Leb128 n ((n mod 128 + 128) :: bytes).

(** A reader over [bytes] followed by [rest], placed after [pre]. *)
Definition reader_at (pre bytes rest : list Z) : Buffer.BinaryReader :=
  {| Buffer.buffer := pre ++ bytes ++ rest; Buffer.offset := List.length pre |}.

(** The same reader once [bytes] are consumed. *)
Definition reader_past (pre bytes rest : list Z) : Buffer.BinaryReader :=
  {| Buffer.buffer := pre ++ bytes ++ rest;
     Buffer.offset := List.length pre + List.length bytes |}.

(** The varint of 2^32, as [encodeVarint] writes it. *)
Definition varint_2_32 : list Z := [0x80; 0x80; 0x80; 0x80; 0x10].

(** The values that are neither arrays nor objects. *)
Definition is_leaf (v : JsValue) : bool :=
  match v with
  | JArr _ | JObj _ => false
  | _ => true
  end.

(** The invariant of the key-collection pass at a value: from the usage
    table of the keys [ks] with counts [c], [countKeys] reaches the usage
    table of the keys [collectKeys] reaches, with the occurrences in the
    value added to the counts. *)
Definition Counted (v : JsValue) : Prop :=
  forall (ks : list string) (c c' : string -> Z),
    NoDup ks ->
    (forall k, ~ In k ks -> c k = 0) ->
    (forall k, c' k = c k + occurrences k v) ->
    Encoder.countKeys v (usage_table ks c)
    = usage_table (Encoder.collectKeys v ks) c'
    /\ NoDup (Encoder.collectKeys v ks)
    /\ incl ks (Encoder.collectKeys v ks)
    /\ (forall k, ~ In k (Encoder.collectKeys v ks) -> occurrences k v = 0).

(** [{ a: 1, b: 2 }]: every key occurs once. *)
Definition single_use_object : JsValue :=
  JObj [("a"%string, int 1); ("b"%string, int 2)].

Definition no_table_options : ResolvedEncodeOptions :=
  {| includeHeader := true;
     initialBufferSize := DEFAULT_BUFFER_SIZE;
     useStringTable := false |}.

(* ================================================================== *)
(** ** Recursion bounds of the model *)

(** The bytes a reader has left, as a natural number. *)
Definition rest_of (r : Buffer.BinaryReader) : nat :=
  (List.length (Buffer.buffer r) - Buffer.offset r)%nat.

(** A read that never reports the model's recursion bound. *)
Definition Bounded {A : Type} (m : Buffer.Read A) (r : Buffer.BinaryReader) : Prop :=
  m r <> Throw OutOfFuel.

(** A read that leaves the buffer alone and never moves the cursor back. *)
Definition Forward {A : Type} (m : Buffer.Read A) : Prop :=
  forall r a r',
    m r = Ok (a, r') ->
    Buffer.buffer r' = Buffer.buffer r /\ (Buffer.offset r <= Buffer.offset r')%nat.

(** A read that never reports the recursion bound, wherever it starts. *)
Definition Total {A : Type} (m : Buffer.Read A) : Prop :=
  forall r, Bounded m r.

(* ================================================================== *)
(** ** JSON values among JavaScript values *)

(** The values of the type [JsonValue]: null, booleans, numbers, strings,
    arrays without empty slots and objects, all the way down. *)
Fixpoint is_json (v : JsValue) : bool :=
  match v with
  | JNull | JBool _ | JNum _ | JStr _ => true
  | JArr items =>
      forallb (fun slot =>
                 match slot with
                 | Some item => is_json item
                 | None => false
                 end) items
  | JObj props => forallb (fun kv => is_json (snd kv)) props
  | _ => false
  end.

(** The inputs whose arrays have no empty slot, all the way down. *)
Fixpoint dense (v : JsValue) : bool :=
  match v with
  | JArr items =>
      forallb (fun slot =>
                 match slot with
                 | Some item => dense item
                 | None => false
                 end) items
  | JObj props => forallb (fun kv => dense (snd kv)) props
  | _ => true
  end.

(** [{ K1: null, b: null }] where [K1] is a NUL character followed by
    253 times ["a"]: a key of 254 bytes. *)
Definition two_long_keys : JsValue :=
  JObj [(String "000"%char (repeat_char "a" 253), JNull); ("b"%string, JNull)].

(* ================================================================== *)
(** ** Rebuilding a tree from stream events *)

(** [n] rounds of a step over a list of events. *)
Fixpoint rebuild_loop {S : Type} (n : nat)
    (step : S -> list BoonStreamEvent -> option (S * list BoonStreamEvent))
    (s : S) (evs : list BoonStreamEvent) : option (S * list BoonStreamEvent) :=
  match n with
  | O => Some (s, evs)
  | Datatypes.S n' =>
      match step s evs with
      | Some (s', evs') => rebuild_loop n' step s' evs'
      | None => None
      end
  end.

(** The tree a consumer builds from the events of one value: a
    [primitive] is the value itself, [startArray(n)] is followed by [n]
    values and [endArray], [startObject(n)] by [n] times a [key] and a
    value, assigned to the object in turn, and [endObject].  The result
    comes with the events that follow the value. *)
Fixpoint rebuild (depth : nat) (evs : list BoonStreamEvent)
  : option (JsValue * list BoonStreamEvent) :=
  match depth with
  | O => None
  | Datatypes.S depth' =>
      match evs with
      | Eprimitive v :: rest => Some (v, rest)
      | EstartArray length :: rest =>
          match rebuild_loop (Z.to_nat length)
                  (fun items evs =>
                     match rebuild depth' evs with
                     | Some (v, evs') => Some (items ++ [Some v], evs')
                     | None => None
                     end)
                  [] rest with
          | Some (items, EendArray :: rest') => Some (JArr items, rest')
          | _ => None
          end
      | EstartObject keyCount :: rest =>
          match rebuild_loop (Z.to_nat keyCount)
                  (fun props evs =>
                     match evs with
                     | Ekey key :: evs1 =>
                         match rebuild depth' evs1 with
                         | Some (v, evs') => Some (obj_set props key v, evs')
                         | None => None
                         end
                     | _ => None
                     end)
                  [] rest with
          | Some (props, EendObject :: rest') => Some (JObj props, rest')
          | _ => None
          end
      | _ => None
      end
  end.

(** The eager reader that corresponds to a key table of the stream. *)
Definition eager_read (depth : nat) (keyTable : option (list string))
  : Buffer.Read JsValue :=
  match keyTable with
  | Some table => Decoder.readValueWithKeyTable depth table
  | None => Decoder.readValue depth
  end.

(* ================================================================== *)
(** ** The values both directions of the fixed-width scheme agree on *)

(** [Reads m bytes a]: placed in front of [bytes], wherever in a buffer,
    the read [m] consumes exactly [bytes] and returns [a]. *)
Definition Reads {A : Type} (m : Buffer.Read A) (bytes : list Z) (a : A) : Prop :=
  forall pre rest, m (reader_at pre bytes rest) = Ok (a, reader_past pre bytes rest).

(** An integer that a double holds exactly and that fits the 64-bit
    field of [INT64]. *)
Definition int64_double (z : Z) : bool :=
  (- 2 ^ 63 <=? z) && (z <? 2 ^ 63) && (round53 z =? z).

(** A 64-bit pattern in the normal form of [Number]: the pattern of a
    double that is not an integer, NaN being the one pattern [f64_NaN]. *)
Definition float_pattern (bits : Z) : bool :=
  (0 <=? bits) && (bits <? 2 ^ 64)
  && match number_of_f64 bits with
     | NFloat b => b =? bits
     | NInt _ => false
     end.

Definition wire_number (n : Number) : bool :=
  match n with
  | NInt z => int64_double z
  | NFloat bits => float_pattern bits
  end.

(** A string that is empty when it has no UTF-16 code unit, and whose
    byte length a 32-bit field holds. *)
Definition wire_string (s : string) : bool :=
  (negb (js_length s =? 0) || String.eqb s EmptyString) && (byteLength s <? 2 ^ 32).

(** A key that [writeKeyString] writes as a common-key byte or behind a
    one-byte length. *)
Definition inline_key (key : string) : bool :=
  match COMMON_KEYS_MAP_get key with
  | Some _ => true
  | None => byteLength key <=? 127
  end.

Fixpoint unique_keys (keys : list string) : bool :=
  match keys with
  | [] => true
  | k :: rest => negb (existsb (String.eqb k) rest) && unique_keys rest
  end.

(** The JSON values made of such numbers and strings, with arrays and
    objects of at most 2^32 - 1 members and objects whose keys are
    distinct and satisfy [key_ok]. *)
Fixpoint wire_value (key_ok : string -> bool) (v : JsValue) : bool :=
  match v with
  | JNull | JBool _ => true
  | JNum n => wire_number n
  | JStr s => wire_string s
  | JArr items =>
      (Z.of_nat (List.length items) <? 2 ^ 32)
      && forallb (fun slot =>
                    match slot with
                    | Some item => wire_value key_ok item
                    | None => false
                    end) items
  | JObj props =>
      (Z.of_nat (List.length props) <? 2 ^ 32)
      && unique_keys (map fst props)
      && forallb (fun kv => key_ok (fst kv) && wire_value key_ok (snd kv)) props
  | _ => false
  end.

(** The nesting of a value, a scalar counting for one. *)
Fixpoint height (v : JsValue) : nat :=
  match v with
  | JArr items =>
      S (fold_right (fun slot h =>
                       Nat.max (match slot with
                                | Some item => height item
                                | None => O
                                end) h) O items)
  | JObj props =>
      S (fold_right (fun kv h => Nat.max (height (snd kv)) h) O props)
  | _ => 1%nat
  end.

(** [Carries write read v bytes]: the writer appends [bytes] for [v],
    and the reader, given a depth that covers the nesting of [v], reads
    [v] back from exactly these bytes. *)
Definition Carries (write : list Z -> JsValue -> Result (list Z))
    (read : nat -> Buffer.Read JsValue) (v : JsValue) (bytes : list Z) : Prop :=
  (forall buf, write buf v = Ok (buf ++ bytes))
  /\ (height v <= List.length bytes)%nat
  /\ forall d, (height v <= d)%nat -> Reads (read d) bytes v.

(** A key the table of [keyMap] holds at an index of at most four varint
    bytes. *)
Definition table_key (keyMap : list string) (key : string) : bool :=
  match Encoder.keyMap_get keyMap key with
  | Some i => i <? 2 ^ 28
  | None => false
  end.

(* ================================================================== *)
(** ** The tag bytes the decoders accept *)

(** The tags of [TYPE_TAG] that start a value. *)
Definition KNOWN_TAGS : list Z :=
  [ TYPE_TAG.NULL; TYPE_TAG.FALSE; TYPE_TAG.TRUE;
    TYPE_TAG.INT8; TYPE_TAG.INT16; TYPE_TAG.INT32; TYPE_TAG.INT64;
    TYPE_TAG.UINT8; TYPE_TAG.UINT16; TYPE_TAG.UINT32;
    TYPE_TAG.FLOAT32; TYPE_TAG.FLOAT64;
    TYPE_TAG.STRING_EMPTY; TYPE_TAG.STRING_SHORT; TYPE_TAG.STRING_MEDIUM;
    TYPE_TAG.STRING_LONG;
    TYPE_TAG.ARRAY_EMPTY; TYPE_TAG.ARRAY_SHORT; TYPE_TAG.ARRAY_MEDIUM;
    TYPE_TAG.ARRAY_LONG;
    TYPE_TAG.OBJECT_EMPTY; TYPE_TAG.OBJECT_SHORT; TYPE_TAG.OBJECT_MEDIUM;
    TYPE_TAG.OBJECT_LONG ].

Definition value_tag (tag : Z) : bool := existsb (Z.eqb tag) KNOWN_TAGS.

(** The tags of the v2 scheme. *)
Definition V2_TAGS : list Z :=
  [ V2.TAG.NULL; V2.TAG.FALSE; V2.TAG.TRUE; V2.TAG.INT; V2.TAG.FLOAT64;
    V2.TAG.STRING; V2.TAG.STRING_EMPTY;
    V2.TAG.ARRAY; V2.TAG.ARRAY_EMPTY; V2.TAG.ARRAY_INDEF;
    V2.TAG.OBJECT; V2.TAG.OBJECT_EMPTY; V2.TAG.OBJECT_INDEF; V2.TAG.BREAK ].

Definition v2_tag (tag : Z) : bool := existsb (Z.eqb tag) V2_TAGS.

(* ================================================================== *)
(** ** [shared/buffer.ts]: the growable buffer *)

Module Growable.

(** [createGrowableBuffer]: the backing [Uint8Array] and the write
    offset; [view] is a view of the same bytes. *)
Record GrowableBuffer : Type := mkBuffer {
  buffer : list Z;
  offset : nat
}.

Definition createGrowableBuffer (initialSize : nat) : GrowableBuffer :=
  {| buffer := repeat 0 initialSize; offset := 0 |}.

(** [target.set(source, at)] on a [Uint8Array]. *)
Definition Uint8Array_set (target source : list Z) (at_ : nat) : Result (list Z) :=
  if Nat.ltb (List.length target) (at_ + List.length source)
  then Throw (RangeError "offset is out of bounds")
  else Ok (firstn at_ target ++ source
           ++ skipn (at_ + List.length source) target).

(** [target[i] = v]: a store outside the array is ignored. *)
Definition store (target : list Z) (i : nat) (v : Z) : list Z :=
  if Nat.ltb i (List.length target)
  then firstn i target ++ [v mod 256] ++ skipn (S i) target
  else target.

(** [grow(minCapacity)]; the new array is at least as long as the old
    one, so [newBuffer.set(buffer)] is in range. *)
Definition grow (buf : GrowableBuffer) (minCapacity : nat) : GrowableBuffer :=
  let newSize := Nat.max (List.length (buffer buf) * 2) minCapacity in
  let newBuffer := repeat 0 newSize in
  let newBuffer := buffer buf ++ skipn (List.length (buffer buf)) newBuffer in
  {| buffer := newBuffer; offset := offset buf |}.

Definition ensureCapacity (buf : GrowableBuffer) (bytesNeeded : nat) : GrowableBuffer :=
  if Nat.ltb (List.length (buffer buf)) (offset buf + bytesNeeded)
  then grow buf (offset buf + bytesNeeded)
  else buf.

(** [buffer.slice(0, offset)] *)
Definition getResult (buf : GrowableBuffer) : list Z :=
  firstn (offset buf) (buffer buf).

(** [encode/encoder.ts]: [writeTag] and [writeHeader] on this buffer. *)
Definition writeTag (buf : GrowableBuffer) (tag : Z) : GrowableBuffer :=
  let buf := ensureCapacity buf 1 in
  {| buffer := store (buffer buf) (offset buf) tag; offset := offset buf + 1 |}.

Definition writeHeader (buf : GrowableBuffer) : Result GrowableBuffer :=
  let buf := ensureCapacity buf 5 in
  let* bytes := Uint8Array_set (buffer buf) MAGIC_NUMBER (offset buf) in
  let buf := {| buffer := bytes; offset := offset buf + 4 |} in
  Ok {| buffer := store (buffer buf) (offset buf) FORMAT_VERSION;
        offset := offset buf + 1 |}.

End Growable.

(* ================================================================== *)
(** ** The values both directions of the v2 scheme agree on *)

(** An integer of magnitude above 2^52 that a double holds exactly. *)
Definition large_double (z : Z) : bool :=
  let a := Z.abs z in
  (2 ^ 52 <? a) && (Z.log2 a <? 1024) && (a mod 2 ^ (Z.log2 a - 52) =? 0).

Definition v2_number (n : Number) : bool :=
  match n with
  | NInt z => (Z.abs z <=? V2.MAX_ZIGZAG_SAFE) || large_double z
  | NFloat bits => float_pattern bits
  end.

(** A string that is empty when it has no UTF-16 code unit, and whose
    byte length a double holds exactly. *)
Definition v2_string (s : string) : bool :=
  (negb (js_length s =? 0) || String.eqb s EmptyString) && (byteLength s <=? 2 ^ 53).

Fixpoint v2_value (v : JsValue) : bool :=
  match v with
  | JNull | JBool _ => true
  | JNum n => v2_number n
  | JStr s => v2_string s
  | JArr items =>
      (Z.of_nat (List.length items) <=? 2 ^ 53)
      && forallb (fun slot =>
                    match slot with
                    | Some item => v2_value item
                    | None => false
                    end) items
  | JObj entries =>
      (Z.of_nat (List.length entries) <=? 2 ^ 53)
      && unique_keys (map fst entries)
      && forallb (fun kv => (byteLength (fst kv) <=? 2 ^ 53) && v2_value (snd kv))
                 entries
  | _ => false
  end.

(* ================================================================== *)
(** ** The stream decoder beside the eager decoder *)

(** The stream given the outcome of the eager decoder: it ends the same
    way, at the same place. *)
Definition Follows {A : Type} (eager : Result (A * Buffer.BinaryReader))
    (stream : list BoonStreamEvent * Result (unit * Buffer.BinaryReader)) : Prop :=
  match eager with
  | Ok (_, r') => exists evs, stream = (evs, Ok (tt, r'))
  | Throw e => exists evs, stream = (evs, Throw e)
  end.

(* ================================================================== *)
(** ** More sample values *)

(** [{ id: 7, note: "x", tags: [true, null, 1.5] }] *)
Definition sample_record : JsValue :=
  JObj [("id"%string, int 7);
        ("note"%string, JStr "x");
        ("tags"%string,
         JArr [Some (JBool true); Some JNull; Some (JNum (NFloat 0x3FF8000000000000))])].

(** Two records that share one key of 130 bytes. *)
Definition long_key_records : JsValue :=
  JArr [Some (JObj [(repeat_char "k" 130, int 1)]);
        Some (JObj [(repeat_char "k" 130, int 2)])].

(* ================================================================== *)
(** ** A message cut short *)

(** The reader's [RangeError('Buffer underflow: ...')]. *)
Definition underflow (e : Error) : bool :=
  match e with
  | RangeError msg => starts_with_underflow msg
  | _ => false
  end.

(** [Cut E data lo m m']: whenever [m], started inside [data] at an
    offset of at least [lo], returns on a buffer that continues [data],
    the read [m'] on [data] alone returns the same value at the same place
    if [m] stopped inside [data], and throws an error of [E] if [m] read
    beyond it. *)
Definition Cut {A : Type} (E : Error -> bool) (data : list Z) (lo : nat)
    (m m' : Buffer.Read A) : Prop :=
  forall (lost : list Z) (o : nat) (a : A) (r' : Buffer.BinaryReader),
    (lo <= o <= List.length data)%nat ->
    m (Buffer.mkReader (data ++ lost) o) = Ok (a, r') ->
    ((Buffer.offset r' <= List.length data)%nat ->
     m' (Buffer.mkReader data o) = Ok (a, Buffer.mkReader data (Buffer.offset r')))
    /\ ((List.length data < Buffer.offset r')%nat ->
        exists e, m' (Buffer.mkReader data o) = Throw e /\ E e = true).

(** The read [decodeValue] runs on its reader. *)
Definition message_read (options : ResolvedDecodeOptions) (depth : nat)
  : Buffer.Read JsValue :=
  if expectHeader options then
    Buffer.rbind Buffer.readUint8 (fun firstByte =>
      if firstByte =? nth 0 MAGIC_NUMBER 0 then
        Buffer.rbind Buffer.readUint8 (fun m1 =>
        Buffer.rbind Buffer.readUint8 (fun m2 =>
        Buffer.rbind Buffer.readUint8 (fun m3 =>
        if negb (m1 =? nth 1 MAGIC_NUMBER 0) || negb (m2 =? nth 2 MAGIC_NUMBER 0)
           || negb (m3 =? nth 3 MAGIC_NUMBER 0)
        then Buffer.throw (SyntaxError "Invalid BOON magic number")
        else
          Buffer.rbind Buffer.readUint8 (fun versionOrTag =>
          if versionOrTag =? TYPE_TAG.HEADER_WITH_STRING_TABLE then
            Buffer.rbind Decoder.readStringTable (fun keyTable =>
            Decoder.readValueWithKeyTable depth keyTable)
          else if FORMAT_VERSION <? versionOrTag then
            Buffer.throw (SyntaxError ("Unsupported BOON version: " ++ decimal versionOrTag))
          else Decoder.readValue depth))))
      else if firstByte =? TYPE_TAG.HEADER_WITH_STRING_TABLE then
        Buffer.rbind Decoder.readStringTable (fun keyTable =>
        Decoder.readValueWithKeyTable depth keyTable)
      else Buffer.throw (SyntaxError "Invalid BOON header"))
  else Decoder.readValue depth.

(** The values and options on which [decode] reads back what [encode]
    wrote: in string-table mode a decoder that expects the header and
    keys shorter than 2^28 bytes, otherwise both sides agreeing on the
    header and keys that are common keys or at most 127 bytes long. *)
Definition reads_back (v : JsValue) (eopts : ResolvedEncodeOptions)
    (dopts : ResolvedDecodeOptions) : bool :=
  if Encoder.usesStringTable v eopts then
    expectHeader dopts && wire_value (fun _ => true) v
    && forallb (fun k => byteLength k <? 2 ^ 28) (distinct_keys v)
  else
    Bool.eqb (includeHeader eopts) (expectHeader dopts) && wire_value inline_key v.

(** The v2 [TruncatedDataError]. *)
Definition v2_truncated (e : Error) : bool :=
  match e with
  | TruncatedDataError => true
  | _ => false
  end.

(** A read that moves the cursor forward whenever it returns. *)
Definition Advances {A : Type} (m : Buffer.Read A) : Prop :=
  forall r a r', m r = Ok (a, r') -> (Buffer.offset r < Buffer.offset r')%nat.

(** The guard [pos >= data.length] before [data[pos++]]. *)
Definition guarded_next {B : Type} (k : Z -> Buffer.Read B) : Buffer.Read B :=
  Buffer.rbind V2.at_end (fun done =>
    if done then Buffer.throw TruncatedDataError else Buffer.rbind V2.next k).

(** The loop over an indefinite container with the break that ends it. *)
Definition until_break_then {S B : Type} (fuel : nat) (body : S -> Buffer.Read S)
    (s : S) (f : S -> B) : Buffer.Read B :=
  Buffer.rbind (V2.until_break fuel body s) (fun x =>
    Buffer.rbind V2.consume_break (fun _ => Buffer.ret (f x))).

(* ================================================================== *)
(** ** [encode/encoder.ts] and [decode/decoder.ts] before the key tables

    The encoder and the decoder as they stood before the string table
    and the common keys.  [writeHeader], [writeNumber], [writeString],
    [readString], the scalar cases of [readValue] and the shapes of
    arrays and objects have the text of the current files and are taken
    from them; the key strings, the header check and the entry points
    differ. *)

Module Earlier.
Import Buffer.
Local Open Scope read_scope.

(** [writeKeyString]: a one-byte length up to 253, then the markers 254
    and 255 before a two- or four-byte length. *)
Definition writeKeyString (buf : Encoder.GrowableBuffer) (value : string)
  : Encoder.GrowableBuffer :=
  let bytes := textEncoder_encode value in
  let length := Z.of_nat (List.length bytes) in
  let buf :=
    if length <=? 253 then
      Encoder.put buf length
    else if length <=? MAX_MEDIUM_LENGTH then
      let buf := Encoder.put buf 254 in
      Encoder.put_be buf 2 length
    else
      let buf := Encoder.put buf 255 in
      Encoder.put_be buf 4 length in
  Encoder.put_bytes buf bytes.

(** [writeValue], with [writeArray] and [writeObject]. *)
Fixpoint writeValue (buf : Encoder.GrowableBuffer) (value : JsValue) {struct value}
  : Result Encoder.GrowableBuffer :=
  match value with
  | JNull => Ok (Encoder.writeNull buf)
  | JBool b => Ok (Encoder.writeBoolean buf b)
  | JNum n => Ok (Encoder.writeNumber buf n)
  | JStr s => Ok (Encoder.writeString buf s)
  | JArr items =>
      let length := Z.of_nat (List.length items) in
      if length =? 0 then Ok (Encoder.writeTag buf TYPE_TAG.ARRAY_EMPTY)
      else
        let buf := Encoder.writeSized buf TYPE_TAG.ARRAY_SHORT TYPE_TAG.ARRAY_MEDIUM
                                      TYPE_TAG.ARRAY_LONG length in
        fold_left
          (fun acc slot =>
             let* buf := acc in
             match slot with
             | Some item => writeValue buf item
             | None => Encoder.unsupported JUndefined
             end)
          items (Ok buf)
  | JObj props =>
      let keyCount := Z.of_nat (List.length props) in
      if keyCount =? 0 then Ok (Encoder.writeTag buf TYPE_TAG.OBJECT_EMPTY)
      else
        let buf := Encoder.writeSized buf TYPE_TAG.OBJECT_SHORT TYPE_TAG.OBJECT_MEDIUM
                                      TYPE_TAG.OBJECT_LONG keyCount in
        fold_left
          (fun acc kv =>
             let* buf := acc in
             let buf := writeKeyString buf (fst kv) in
             writeValue buf (snd kv))
          props (Ok buf)
  | _ => Encoder.unsupported value
  end.

Definition encodeValue (value : JsValue) (options : ResolvedEncodeOptions)
  : Result (list Z) :=
  let buf := Encoder.createGrowableBuffer (initialBufferSize options) in
  let buf := if includeHeader options then Encoder.writeHeader buf else buf in
  let* buf := writeValue buf value in
  Ok (Encoder.getResult buf).

(** [readHeader], exported by both decoder files: the magic number, then
    the version, which it returns. *)
Definition readHeader : Read Z :=
  magic <- readBytes 4 ;;
  if negb (nth 0 magic 0 =? nth 0 MAGIC_NUMBER 0)
     || negb (nth 1 magic 0 =? nth 1 MAGIC_NUMBER 0)
     || negb (nth 2 magic 0 =? nth 2 MAGIC_NUMBER 0)
     || negb (nth 3 magic 0 =? nth 3 MAGIC_NUMBER 0)
  then throw (SyntaxError "Invalid BOON magic number")
  else
    version <- readUint8 ;;
    if FORMAT_VERSION <? version then
      throw (SyntaxError ("Unsupported BOON version: " ++ decimal version
                          ++ " (max supported: " ++ decimal FORMAT_VERSION ++ ")"))
    else ret version.

(** [readKeyString]: every first byte but 254 and 255 is the length. *)
Definition readKeyString : Read string :=
  lengthByte <- readUint8 ;;
  length <-
    (if lengthByte =? 254 then readUint16
     else if lengthByte =? 255 then readUint32
     else ret lengthByte) ;;
  bytes <- readBytes length ;;
  ret (textDecoder_decode bytes).

(** [readValue], with [readArray] and [readObject]. *)
Fixpoint readValue (depth : nat) : Read JsValue :=
  match depth with
  | O => throw OutOfFuel
  | Datatypes.S depth' =>
      tag <- readUint8 ;;
      match Decoder.readScalar tag with
      | Some read => read
      | None =>
          if Decoder.is_array_tag tag then
            len <- Decoder.readLength "array" TYPE_TAG.ARRAY_EMPTY TYPE_TAG.ARRAY_SHORT
                     TYPE_TAG.ARRAY_MEDIUM TYPE_TAG.ARRAY_LONG tag ;;
            match len with
            | None => ret (JArr [])
            | Some length =>
                result <- Decoder.for_loop (Z.to_nat length)
                            (fun result =>
                               v <- readValue depth' ;;
                               ret (result ++ [Some v]))
                            [] ;;
                ret (JArr result)
            end
          else if Decoder.is_object_tag tag then
            len <- Decoder.readLength "object" TYPE_TAG.OBJECT_EMPTY
                     TYPE_TAG.OBJECT_SHORT TYPE_TAG.OBJECT_MEDIUM
                     TYPE_TAG.OBJECT_LONG tag ;;
            match len with
            | None => ret (JObj [])
            | Some keyCount =>
                result <- Decoder.for_loop (Z.to_nat keyCount)
                            (fun result =>
                               key <- readKeyString ;;
                               value <- readValue depth' ;;
                               ret (obj_set result key value))
                            [] ;;
                ret (JObj result)
            end
          else Decoder.unknownTag tag
      end
  end.

Definition decodeValue (data : list Z) (options : ResolvedDecodeOptions)
  : Result JsValue :=
  let reader := createBinaryReader data in
  let depth := Decoder.depth_bound data in
  let read : Read JsValue :=
    if expectHeader options then _ <- readHeader ;; readValue depth
    else readValue depth in
  match read reader with
  | Ok (v, _) => Ok v
  | Throw e => Throw e
  end.

End Earlier.

(** A key whose byte length a 32-bit field holds. *)
Definition sized_key (key : string) : bool := byteLength key <? 2 ^ 32.

(** A key short enough for a one-byte length below the common-key bytes. *)
Definition short_key (key : string) : bool := byteLength key <=? 127.
(* ================================================================== *)
(** * Properties *)

(** ** Varint sizes at the boundaries *)

(** C7.  The unsigned varint of 0, 127, 128, 16383 and 16384 takes 1, 1,
    2, 2 and 3 bytes, both with the key-index writer [writeVarint] of the
    fixed-width scheme and with [encodeVarint] of the simplified scheme. *)
Theorem varint_boundary_sizes :
  map (fun v => List.length (Encoder.writeVarint [] v))
      [0; 127; 128; 16383; 16384] = [1; 1; 2; 2; 3]%nat
  /\ map (fun v => size_of (V2.encodeVarint v []))
         [0; 127; 128; 16383; 16384]
     = [Some 1; Some 1; Some 2; Some 2; Some 3]%nat.
Proof. split; reflexivity. Qed.

(** On these values the two writers emit the same bytes. *)
Lemma varint_boundary_bytes_agree :
  map (fun v => Ok (Encoder.writeVarint [] v)) [0; 127; 128; 16383; 16384]
  = map (fun v => V2.encodeVarint v []) [0; 127; 128; 16383; 16384].
Proof. reflexivity. Qed.

(** ** The tag chosen by [writeNumber] *)

Lemma nth_after_prefix (buf rest : list Z) (t : Z) :
  nth (List.length buf) ((buf ++ [t]) ++ rest) 0 = t.
Proof.
  rewrite <- app_assoc. rewrite app_nth2 by lia.
  rewrite Nat.sub_diag. reflexivity.
Qed.

Lemma put_be_tag (buf : list Z) (t : Z) (n : nat) (v : Z) :
  nth (List.length buf)
      (Encoder.put_be (Encoder.writeTag buf t) n v) 0 = t mod 256.
Proof. unfold Encoder.put_be, Encoder.writeTag, Encoder.put. apply nth_after_prefix. Qed.

Lemma put_tag (buf : list Z) (t v : Z) :
  nth (List.length buf) (Encoder.put (Encoder.writeTag buf t) v) 0 = t mod 256.
Proof. unfold Encoder.writeTag, Encoder.put. apply nth_after_prefix. Qed.

(** The branch structure of [writeNumber] on an integer. *)
Lemma numberTag_int (buf : list Z) (z : Z) :
  numberTag buf (NInt z) =
    if (-128 <=? z) && (z <=? 127) then TYPE_TAG.INT8
    else if (-32768 <=? z) && (z <=? 32767) then TYPE_TAG.INT16
    else if (-2147483648 <=? z) && (z <=? 2147483647) then TYPE_TAG.INT32
    else if (0 <=? z) && (z <=? 4294967295) then TYPE_TAG.UINT32
    else TYPE_TAG.INT64.
Proof.
  unfold numberTag, Encoder.writeNumber.
  unfold INT8_MIN, INT8_MAX, INT16_MIN, INT16_MAX, INT32_MIN, INT32_MAX,
         UINT8_MAX, UINT16_MAX, UINT32_MAX.
  destruct ((-128 <=? z) && (z <=? 127)) eqn:H8.
  { rewrite put_be_tag. reflexivity. }
  destruct ((-32768 <=? z) && (z <=? 32767)) eqn:H16.
  { rewrite put_be_tag. reflexivity. }
  destruct ((-2147483648 <=? z) && (z <=? 2147483647)) eqn:H32.
  { rewrite put_be_tag. reflexivity. }
  assert (Hu8 : (0 <=? z) && (z <=? 255) = false).
  { apply andb_false_iff in H8, H16.
    destruct (0 <=? z) eqn:E0; destruct (z <=? 255) eqn:E1; try reflexivity.
    exfalso. destruct H16 as [H16 | H16]; lia. }
  assert (Hu16 : (0 <=? z) && (z <=? 65535) = false).
  { apply andb_false_iff in H32.
    destruct (0 <=? z) eqn:E0; destruct (z <=? 65535) eqn:E1; try reflexivity.
    exfalso. destruct H32 as [H32 | H32]; lia. }
  rewrite Hu8, Hu16.
  destruct ((0 <=? z) && (z <=? 4294967295)).
  - rewrite put_be_tag. reflexivity.
  - rewrite put_be_tag. reflexivity.
Qed.

Lemma numberTag_float (buf : list Z) (bits : Z) :
  numberTag buf (NFloat bits) =
    if fits_float32 bits then TYPE_TAG.FLOAT32 else TYPE_TAG.FLOAT64.
Proof.
  unfold numberTag, Encoder.writeNumber.
  destruct (fits_float32 bits); rewrite put_be_tag; reflexivity.
Qed.

(** C9.  [writeNumber] never emits the [UINT8] (0x14) or [UINT16] (0x15)
    tag: an integer from 0 to 65535 takes one of the signed tags, and
    [UINT32] is the tag exactly of the integers above 2^31 - 1 and up to
    2^32 - 1. *)
Theorem writeNumber_never_uint8_uint16 :
  forall (buf : Encoder.GrowableBuffer) (value : Number),
    numberTag buf value <> TYPE_TAG.UINT8
    /\ numberTag buf value <> TYPE_TAG.UINT16
    /\ forall z : Z,
         (numberTag buf (NInt z) = TYPE_TAG.UINT32
          <-> INT32_MAX < z <= UINT32_MAX)
         /\ (0 <= z <= UINT16_MAX ->
             numberTag buf (NInt z) = TYPE_TAG.INT8
             \/ numberTag buf (NInt z) = TYPE_TAG.INT16
             \/ numberTag buf (NInt z) = TYPE_TAG.INT32).
Proof.
  intros buf value.
  assert (Hno : numberTag buf value <> TYPE_TAG.UINT8
                /\ numberTag buf value <> TYPE_TAG.UINT16).
  { destruct value as [z | bits].
    - rewrite numberTag_int.
      repeat match goal with
             | |- context [if ?b then _ else _] => destruct b
             end; split; discriminate.
    - rewrite numberTag_float. destruct (fits_float32 bits); split; discriminate. }
  destruct Hno as [Hno8 Hno16].
  split; [exact Hno8 | split; [exact Hno16 |]].
  intro z. rewrite numberTag_int.
  unfold INT32_MAX, UINT32_MAX, UINT16_MAX.
  destruct ((-128 <=? z) && (z <=? 127)) eqn:H8;
    [ apply andb_true_iff in H8 | apply andb_false_iff in H8 ];
  (destruct ((-32768 <=? z) && (z <=? 32767)) eqn:H16;
    [ apply andb_true_iff in H16 | apply andb_false_iff in H16 ]);
  (destruct ((-2147483648 <=? z) && (z <=? 2147483647)) eqn:H32;
    [ apply andb_true_iff in H32 | apply andb_false_iff in H32 ]);
  (destruct ((0 <=? z) && (z <=? 4294967295)) eqn:HU;
    [ apply andb_true_iff in HU | apply andb_false_iff in HU ]);
  (split; [ split; [ intro E; try discriminate E; lia
                   | intro R; try reflexivity; exfalso; lia ]
          | intro R; try (left; reflexivity);
            try (right; left; reflexivity);
            try (right; right; reflexivity); exfalso; lia ]).
Qed.

(** The values 200 and 40000 are in the range of the hypothesis and take
    the signed 16- and 32-bit tags. *)
Lemma writeNumber_never_uint8_uint16_witness :
  0 <= 200 <= UINT16_MAX
  /\ (numberTag [] (NInt 200) = TYPE_TAG.INT8
      \/ numberTag [] (NInt 200) = TYPE_TAG.INT16
      \/ numberTag [] (NInt 200) = TYPE_TAG.INT32).
Proof.
  assert (H : 0 <= 200 <= UINT16_MAX) by (unfold UINT16_MAX; lia).
  split; [exact H |].
  exact (proj2 (proj2 (proj2 (writeNumber_never_uint8_uint16 [] (NInt 200))) 200) H).
Defined.

(** Outside the two ranges that the unsigned 8- and 16-bit forms would
    serve, [writeNumber] picks the specification's narrowest fit. *)
Lemma writeNumber_narrowest_elsewhere (buf : list Z) (z : Z) :
  ~ (INT8_MAX < z <= UINT8_MAX) ->
  ~ (INT16_MAX < z <= UINT16_MAX) ->
  numberTag buf (NInt z) = spec_narrowest_tag z.
Proof.
  intros H8 H16. rewrite numberTag_int. unfold spec_narrowest_tag.
  unfold INT8_MIN, INT8_MAX, INT16_MIN, INT16_MAX, INT32_MIN, INT32_MAX,
         UINT8_MAX, UINT16_MAX, UINT32_MAX in *.
  destruct ((-128 <=? z) && (z <=? 127)) eqn:E8; [reflexivity |].
  assert (Hu8 : (0 <=? z) && (z <=? 255) = false).
  { apply andb_false_iff in E8.
    destruct (0 <=? z) eqn:E0; destruct (z <=? 255) eqn:E1; try reflexivity.
    exfalso. destruct E8; lia. }
  rewrite Hu8.
  destruct ((-32768 <=? z) && (z <=? 32767)) eqn:E16; [reflexivity |].
  assert (Hu16 : (0 <=? z) && (z <=? 65535) = false).
  { apply andb_false_iff in E16.
    destruct (0 <=? z) eqn:E0; destruct (z <=? 65535) eqn:E1; try reflexivity.
    exfalso. destruct E16; lia. }
  rewrite Hu16. reflexivity.
Qed.

(** C3.  At 200 [writeNumber] takes the signed 16-bit branch: tag
    [INT16] and a two-byte payload, where the narrowest fit of the
    specification is [UINT8] with a one-byte payload. *)
Theorem writeNumber_200_is_int16 :
  Encoder.writeNumber [] (NInt 200) = [TYPE_TAG.INT16; 0; 200]
  /\ numberTag [] (NInt 200) = TYPE_TAG.INT16
  /\ List.length (numberPayload (NInt 200)) = 2%nat
  /\ spec_narrowest_tag 200 = TYPE_TAG.UINT8.
Proof. repeat split. Qed.

(** ** Sparse arrays reach the unsupported-type branch *)

(** C10.  [normalizeValue] keeps the empty slot of [[ , ]], and [encode]
    ends in the [TypeError] of [writeValue]'s default branch. *)
Theorem encode_sparse_array_throws :
  Encoder.normalizeValue sparse_array = sparse_array
  /\ encode sparse_array defaultEncodeOptions
     = Throw (TypeError "Unsupported value type: undefined").
Proof. split; reflexivity. Qed.

(** ** Round trips *)

(** C1.  The object with one key of 128 characters does not survive the
    round trip: the length marker 254 that [writeKeyString] emits is read
    back by [readKeyString] as the common key ["style"]. *)
Theorem roundtrip_long_key_fails :
  roundtrip long_key_object = Ok (JObj [("style"%string, JNull)])
  /\ roundtrip long_key_object <> Ok long_key_object.
Proof.
  assert (H : roundtrip long_key_object = Ok (JObj [("style"%string, JNull)]))
    by (vm_compute; reflexivity).
  split; [exact H |].
  rewrite H. intro E. inversion E.
Qed.

(** The values the specification names do survive it. *)
Lemma roundtrip_named_values :
  Forall (fun v => roundtrip v = Ok v)
    [ JNull; JBool true; JBool false;
      int 0; int (-128); int 127; int (-32768); int 32767;
      int (-2147483648); int 2147483647; int 4294967295;
      JStr ""; JArr []; JObj [];
      nest 50 (int 1); nest_obj 50 (JStr "leaf");
      two_records; three_uses ].
Proof. repeat constructor. Qed.

(** ** Streaming and eager decoding *)

(** C2.  On the headerless string-table message of [two_records], the
    eager decoder returns the tree (through its branch for a table
    without magic number) while the streaming decoder stops on the magic
    number check without an event. *)
Theorem stream_rejects_headerless_table :
  encode two_records headerless_table_options = Ok headerless_table_message
  /\ Decoder.decodeValue headerless_table_message defaultDecodeOptions
     = Ok two_records
  /\ spec_stream_of_eager headerless_table_message defaultDecodeOptions
     = Ok [Eheader 1; EstartArray 2;
           EstartObject 1; Ekey "ab"; Eprimitive (int 1); EendObject;
           EstartObject 1; Ekey "ab"; Eprimitive (int 1); EendObject;
           EendArray]
  /\ Stream.decodeStreamSync headerless_table_message defaultDecodeOptions
     = ([], Throw (SyntaxError "Invalid BOON magic number"))
  /\ stream_to_completion headerless_table_message defaultDecodeOptions
     <> spec_stream_of_eager headerless_table_message defaultDecodeOptions.
Proof.
  repeat split; try reflexivity.
  vm_compute. discriminate.
Qed.

(** With a header, the same value streams as the specification says,
    in string-table mode and without it. *)
Lemma stream_matches_eager_examples :
  Forall (fun v =>
            match encode v defaultEncodeOptions with
            | Ok bytes =>
                stream_to_completion bytes defaultDecodeOptions
                = spec_stream_of_eager bytes defaultDecodeOptions
            | Throw _ => False
            end)
    [ two_records; three_uses; nest 5 (JStr "x"); nest_obj 5 (int 7);
      JObj [("name"%string, JStr "Alice"); ("age"%string, int 30)] ].
Proof. repeat constructor. Qed.

(** ** Truncated input *)

Lemma read_fixed_truncated {A : Type} (n : nat) (what : string)
    (view : list Z -> A) (r : Buffer.BinaryReader) :
  Buffer.remaining r < Z.of_nat n ->
  throws_truncated (Buffer.read_fixed n what view r) = true.
Proof.
  unfold Buffer.remaining, Buffer.read_fixed. intro H.
  destruct (Nat.ltb_spec (List.length (Buffer.buffer r)) (Buffer.offset r + n)) as [_ | Hge].
  - reflexivity.
  - exfalso. lia.
Qed.

Lemma read_byte_truncated (r : Buffer.BinaryReader) :
  Buffer.remaining r < 1 ->
  throws_truncated (Buffer.readUint8 r) = true
  /\ throws_truncated (Buffer.readInt8 r) = true.
Proof.
  unfold Buffer.remaining, Buffer.readUint8, Buffer.readInt8. intro H.
  destruct (Nat.leb_spec (List.length (Buffer.buffer r)) (Buffer.offset r)) as [_ | Hlt].
  - split; reflexivity.
  - exfalso. lia.
Qed.

Lemma readBytes_truncated (length : Z) (r : Buffer.BinaryReader) :
  Buffer.remaining r < length ->
  throws_truncated (Buffer.readBytes length r) = true.
Proof.
  unfold Buffer.remaining, Buffer.readBytes. intro H.
  destruct (Z.ltb_spec (Z.of_nat (List.length (Buffer.buffer r)))
                       (Z.of_nat (Buffer.offset r) + length)) as [_ | Hge].
  - reflexivity.
  - exfalso. lia.
Qed.

Lemma rbind_truncated {A B : Type} (m : Buffer.Read A) (k : A -> Buffer.Read B)
    (r : Buffer.BinaryReader) :
  throws_truncated (m r) = true ->
  throws_truncated (Buffer.rbind m k r) = true.
Proof.
  unfold Buffer.rbind. destruct (m r) as [[a r'] | e]; simpl.
  - discriminate.
  - trivial.
Qed.

(** C6.  A typed read of the reader throws the underflow error as soon as
    fewer bytes remain than it requires; and a message that declares a
    string of ten bytes and supplies fewer is rejected with the truncation
    error by the decoder of either scheme. *)
Theorem typed_reads_fail_on_truncation
    (op : TypedRead) (r : Buffer.BinaryReader) (payload : list Z) :
  Buffer.remaining r < required op ->
  (List.length payload < 10)%nat ->
  throws_truncated (perform op r) = true
  /\ throws_truncated (decode (string_message 10 payload) defaultDecodeOptions) = true
  /\ throws_truncated (V2.decode (v2_string_message 10 payload)) = true.
Proof.
  intros Hshort Hpayload. split.
  - destruct op; simpl in Hshort; unfold perform; apply rbind_truncated.
    + apply read_byte_truncated; assumption.
    + apply read_byte_truncated; assumption.
    + apply read_fixed_truncated; simpl; lia.
    + apply read_fixed_truncated; simpl; lia.
    + apply read_fixed_truncated; simpl; lia.
    + apply read_fixed_truncated; simpl; lia.
    + apply read_fixed_truncated; simpl; lia.
    + apply read_fixed_truncated; simpl; lia.
    + apply readBytes_truncated; assumption.
    + apply read_fixed_truncated; simpl; lia.
  - do 10 (destruct payload as [| ? payload]; [split; vm_compute; reflexivity |]).
    exfalso. simpl in Hpayload. lia.
Qed.

(** The case the specification names: ten bytes declared, three supplied,
    with a reader of one byte asked for a 32-bit integer. *)
Lemma typed_reads_fail_on_truncation_witness :
  throws_truncated (perform RUint32 (Buffer.createBinaryReader [7])) = true
  /\ throws_truncated (decode (string_message 10 [97; 98; 99]) defaultDecodeOptions) = true
  /\ throws_truncated (V2.decode (v2_string_message 10 [97; 98; 99])) = true.
Proof.
  apply (typed_reads_fail_on_truncation RUint32 (Buffer.createBinaryReader [7])
                                        [97; 98; 99]).
  - vm_compute. reflexivity.
  - simpl. lia.
Defined.

(** X1.  With enough bytes left, every typed read of the reader returns and
    moves the cursor forward by exactly the number of bytes it requires. *)
Theorem typed_reads_succeed (op : TypedRead) (r : Buffer.BinaryReader) :
  0 <= required op <= Buffer.remaining r ->
  exists v, perform op r = Ok (v, Buffer.advance r (Z.to_nat (required op))).
Proof.
  intro H. unfold Buffer.remaining in H.
  destruct op; simpl in H; unfold perform, Buffer.rbind, Buffer.ret;
    try (unfold Buffer.readUint8, Buffer.readInt8;
         destruct (Nat.leb_spec (List.length (Buffer.buffer r)) (Buffer.offset r));
         [exfalso; lia | eexists; reflexivity]);
    try (unfold Buffer.readUint16, Buffer.readInt16, Buffer.readUint32,
           Buffer.readInt32, Buffer.readFloat32, Buffer.readFloat64,
           Buffer.readBigInt64, Buffer.read_fixed;
         match goal with
         | |- context [Nat.ltb ?a ?b] => destruct (Nat.ltb_spec a b)
         end; [exfalso; lia | eexists; reflexivity]).
  unfold Buffer.readBytes.
  destruct (Z.ltb_spec (Z.of_nat (List.length (Buffer.buffer r)))
                       (Z.of_nat (Buffer.offset r) + length)).
  - exfalso. lia.
  - eexists. reflexivity.
Qed.

(** ** Varints *)

(** *** Bit-level facts *)

Lemma land_7F (n : Z) : Z.land n 0x7F = n mod 128.
Proof. change 0x7F with (Z.ones 7). rewrite Z.land_ones by lia. reflexivity. Qed.

Lemma shiftr_7 (n : Z) : Z.shiftr n 7 = n / 128.
Proof. rewrite Z.shiftr_div_pow2 by lia. reflexivity. Qed.

Lemma land_shiftl_disjoint (a b s : Z) :
  0 <= s -> 0 <= a < 2 ^ s -> Z.land a (Z.shiftl b s) = 0.
Proof.
  intros Hs Ha. apply Z.bits_inj'. intros i Hi.
  rewrite Z.land_spec, Z.bits_0.
  destruct (Z.lt_ge_cases i s) as [Hlt | Hge].
  - rewrite (Z.shiftl_spec_low b s i Hlt). apply andb_false_r.
  - rewrite <- (Z.mod_small a (2 ^ s)) by lia.
    rewrite Z.mod_pow2_bits_high by lia. reflexivity.
Qed.

Lemma lor_shiftl_add (a b s : Z) :
  0 <= s -> 0 <= a < 2 ^ s -> Z.lor a (Z.shiftl b s) = a + b * 2 ^ s.
Proof.
  intros Hs Ha.
  rewrite <- Z.lxor_lor by (apply land_shiftl_disjoint; assumption).
  rewrite <- Z.add_nocarry_lxor by (apply land_shiftl_disjoint; assumption).
  rewrite Z.shiftl_mul_pow2 by lia. reflexivity.
Qed.

(** A property of the 128 values of a seven-bit group holds as soon as it
    holds by computation. *)
Lemma forall_groups (P : Z -> bool) :
  forallb P (map Z.of_nat (seq 0 128)) = true ->
  forall x, 0 <= x < 128 -> P x = true.
Proof.
  intros H x Hx. rewrite forallb_forall in H. apply H.
  apply in_map_iff. exists (Z.to_nat x). split.
  - lia.
  - apply in_seq. lia.
Qed.

Lemma continuation_byte (x : Z) :
  0 <= x < 128 ->
  Z.lor x 0x80 = x + 128
  /\ Z.land (x + 128) 0x7F = x
  /\ (Z.land (x + 128) 0x80 =? 0) = false
  /\ (Z.land x 0x80 =? 0) = true
  /\ Z.land x 0x7F = x.
Proof.
  intro Hx.
  pose proof (forall_groups
                (fun x => (Z.lor x 0x80 =? x + 128)
                          && (Z.land (x + 128) 0x7F =? x)
                          && negb (Z.land (x + 128) 0x80 =? 0)
                          && (Z.land x 0x80 =? 0)
                          && (Z.land x 0x7F =? x))
                eq_refl x Hx) as H.
  cbv beta in H.
  repeat (apply andb_true_iff in H; destruct H as [H ?]).
  repeat split;
    try (apply Z.eqb_eq; assumption);
    try assumption.
  apply negb_true_iff. assumption.
Qed.

(** *** Readers over a known prefix *)

Lemma nth_reader (pre : list Z) (b : Z) (rest : list Z) :
  nth (List.length pre) (pre ++ b :: rest) 0 = b.
Proof. rewrite app_nth2 by lia. rewrite Nat.sub_diag. reflexivity. Qed.

Lemma reader_at_cons (pre : list Z) (b : Z) (bytes rest : list Z) :
  Buffer.advance (reader_at pre (b :: bytes) rest) 1
  = reader_at (pre ++ [b]) bytes rest.
Proof.
  unfold reader_at, Buffer.advance. simpl.
  rewrite <- app_assoc. simpl. rewrite length_app. simpl. reflexivity.
Qed.

Lemma reader_past_cons (pre : list Z) (b : Z) (bytes rest : list Z) :
  reader_past (pre ++ [b]) bytes rest = reader_past pre (b :: bytes) rest.
Proof.
  unfold reader_past. simpl.
  rewrite <- app_assoc. simpl. rewrite length_app. simpl.
  f_equal. lia.
Qed.

Lemma reader_past_one (pre : list Z) (b : Z) (rest : list Z) :
  Buffer.advance (reader_at pre [b] rest) 1 = reader_past pre [b] rest.
Proof. reflexivity. Qed.

Lemma readUint8_at (pre : list Z) (b : Z) (bytes rest : list Z) :
  Buffer.readUint8 (reader_at pre (b :: bytes) rest)
  = Ok (b, Buffer.advance (reader_at pre (b :: bytes) rest) 1).
Proof.
  unfold Buffer.readUint8, reader_at. simpl.
  destruct (Nat.leb_spec (List.length (pre ++ b :: bytes ++ rest)) (List.length pre))
    as [Hle | _].
  - exfalso. rewrite length_app in Hle. simpl in Hle. lia.
  - rewrite nth_reader. reflexivity.
Qed.

Lemma v2_next_at (pre : list Z) (b : Z) (bytes rest : list Z) :
  V2.at_end (reader_at pre (b :: bytes) rest)
  = Ok (false, reader_at pre (b :: bytes) rest)
  /\ V2.next (reader_at pre (b :: bytes) rest)
     = Ok (b, Buffer.advance (reader_at pre (b :: bytes) rest) 1).
Proof.
  unfold V2.at_end, V2.next, reader_at. simpl. split.
  - destruct (Nat.leb_spec (List.length (pre ++ b :: bytes ++ rest)) (List.length pre))
      as [Hle | _].
    + exfalso. rewrite length_app in Hle. simpl in Hle. lia.
    + reflexivity.
  - rewrite nth_reader. reflexivity.
Qed.

(** *** The encoders write the varint wire form *)

Lemma Leb128_nonneg (n : Z) (bytes : list Z) : Leb128 n bytes -> 0 <= n.
Proof. induction 1; lia. Qed.

Lemma encodeVarint_loop_Leb128 (k : nat) :
  forall (fuel : nat) (n : Z) (out : list Z),
    0 <= n < 2 ^ (7 * Z.of_nat (S k)) ->
    (k < fuel)%nat ->
    exists bytes,
      V2.encodeVarint_loop fuel n out = Ok (out ++ bytes)
      /\ Leb128 n bytes
      /\ (List.length bytes <= S k)%nat.
Proof.
  induction k as [| k IH]; intros fuel n out Hn Hfuel.
  - destruct fuel as [| fuel]; [lia |].
    change (2 ^ (7 * Z.of_nat 1)) with 128 in Hn.
    exists [n]. simpl. rewrite shiftr_7, land_7F.
    rewrite (Z.div_small n 128) by lia. rewrite Z.mod_small by lia.
    simpl. split; [reflexivity | split; [constructor; lia | lia]].
  - destruct fuel as [| fuel]; [lia |].
    destruct (Z.lt_ge_cases n 128) as [Hsmall | Hbig].
    + exists [n]. simpl. rewrite shiftr_7, land_7F.
      rewrite (Z.div_small n 128) by lia. rewrite Z.mod_small by lia.
      simpl. split; [reflexivity | split; [constructor; lia | lia]].
    + assert (Hq : 0 <= n / 128 < 2 ^ (7 * Z.of_nat (S k))).
      { split; [apply Z.div_pos; lia |].
        apply Z.div_lt_upper_bound; [lia |].
        replace (128 * 2 ^ (7 * Z.of_nat (S k)))
          with (2 ^ (7 * Z.of_nat (S (S k)))); [lia |].
        change 128 with (2 ^ 7). rewrite <- Z.pow_add_r by lia.
        f_equal. lia. }
      assert (Hq0 : n / 128 <> 0).
      { intro E. pose proof (Z.div_mod n 128 ltac:(lia)) as D.
        pose proof (Z.mod_pos_bound n 128 ltac:(lia)). lia. }
      destruct (IH fuel (n / 128) (out ++ [n mod 128 + 128]) Hq ltac:(lia))
        as (bytes & Henc & Hleb & Hlen).
      exists ((n mod 128 + 128) :: bytes).
      simpl. rewrite shiftr_7, land_7F.
      apply Z.eqb_neq in Hq0. rewrite Hq0. simpl.
      destruct (continuation_byte (n mod 128)) as (Hlor & _).
      { apply Z.mod_pos_bound. lia. }
      rewrite Hlor, Henc. rewrite <- app_assoc. simpl.
      split; [reflexivity | split; [constructor; assumption | lia]].
Qed.

(** [encodeVarint] returns: its bound on the rounds is never reached. *)
Lemma encodeVarint_Leb128 (n : Z) (out : list Z) :
  0 <= n ->
  exists bytes,
    V2.encodeVarint n out = Ok (out ++ bytes) /\ Leb128 n bytes.
Proof.
  intro Hn. unfold V2.encodeVarint.
  destruct (Z.ltb_spec n 0) as [Hneg | _]; [lia |].
  destruct (encodeVarint_loop_Leb128 (Z.to_nat (Z.log2 n))
              (S (Z.to_nat (Z.log2 n))) n out) as (bytes & H & Hleb & _).
  - split; [assumption |].
    destruct (Z.eq_dec n 0) as [-> | Hne]; [apply Z.pow_pos_nonneg; lia |].
    pose proof (Z.log2_nonneg n).
    apply Z.lt_le_trans with (2 ^ (Z.succ (Z.log2 n))).
    + apply Z.log2_spec. lia.
    + apply Z.pow_le_mono_r; lia.
  - lia.
  - exists bytes. split; assumption.
Qed.

Lemma Leb128_nonempty (n : Z) (bytes : list Z) :
  Leb128 n bytes -> (1 <= List.length bytes)%nat.
Proof. destruct 1; simpl; lia. Qed.

Lemma Leb128_length (n : Z) (bytes : list Z) :
  Leb128 n bytes ->
  forall k : nat, n < 2 ^ (7 * Z.of_nat (S k)) -> (List.length bytes <= S k)%nat.
Proof.
  induction 1 as [n Hn | n bytes Hn Hleb IH]; intros k Hk.
  - simpl. lia.
  - destruct k as [| k].
    + change (2 ^ (7 * Z.of_nat 1)) with 128 in Hk. lia.
    + simpl. apply le_n_S. apply IH.
      apply Z.div_lt_upper_bound; [lia |].
      replace (128 * 2 ^ (7 * Z.of_nat (S k)))
        with (2 ^ (7 * Z.of_nat (S (S k)))); [lia |].
      change 128 with (2 ^ 7). rewrite <- Z.pow_add_r by lia.
      f_equal. lia.
Qed.

(** *** The simplified scheme's decoder: BigInt accumulation *)

Lemma pow2_step (shift : Z) : 0 <= shift -> 2 ^ (shift + 7) = 128 * 2 ^ shift.
Proof. intro H. rewrite Z.pow_add_r by lia. change (2 ^ 7) with 128. lia. Qed.

Lemma v2_readVarint_loop_Leb128 (n : Z) (bytes : list Z) :
  Leb128 n bytes ->
  forall (fuel : nat) (acc shift : Z) (pre rest : list Z),
    0 <= shift ->
    0 <= acc < 2 ^ shift ->
    shift + 7 * (Z.of_nat (List.length bytes) - 1) <= 63 ->
    (List.length bytes <= fuel)%nat ->
    V2.readVarint_loop fuel acc shift (reader_at pre bytes rest)
    = Ok (round53 (acc + n * 2 ^ shift), reader_past pre bytes rest).
Proof.
  induction 1 as [n Hn | n bytes Hn Hleb IH];
    intros fuel acc shift pre rest Hshift Hacc Hbound Hfuel.
  - destruct fuel as [| fuel]; [simpl in Hfuel; lia |].
    simpl. unfold Buffer.rbind.
    destruct (v2_next_at pre n [] rest) as [Hend Hnext].
    rewrite Hend, Hnext.
    destruct (continuation_byte n Hn) as (_ & _ & _ & Hhigh & Hlow).
    rewrite Hhigh, Hlow. unfold Buffer.ret.
    rewrite lor_shiftl_add by assumption.
    rewrite reader_past_one. reflexivity.
  - destruct fuel as [| fuel]; [simpl in Hfuel; lia |].
    pose proof (Leb128_nonempty _ _ Hleb) as Hne.
    assert (Hx : 0 <= n mod 128 < 128) by (apply Z.mod_pos_bound; lia).
    simpl. unfold Buffer.rbind.
    destruct (v2_next_at pre (n mod 128 + 128) bytes rest) as [Hend Hnext].
    rewrite Hend, Hnext.
    destruct (continuation_byte (n mod 128) Hx) as (_ & Hlow & Hhigh & _).
    rewrite Hhigh, Hlow.
    cbn [List.length] in Hbound, Hfuel.
    destruct (Z.ltb_spec 63 (shift + 7)) as [Hover | _]; [exfalso; lia |].
    rewrite lor_shiftl_add by assumption.
    rewrite reader_at_cons.
    rewrite IH.
    + rewrite reader_past_cons. do 3 f_equal.
      rewrite pow2_step by assumption.
      pose proof (Z.div_mod n 128 ltac:(lia)) as D. nia.
    + lia.
    + rewrite pow2_step by assumption. nia.
    + lia.
    + lia.
Qed.

(** *** The fixed-width scheme's decoder: 32-bit accumulation *)

Lemma ToInt32_small (x : Z) : 0 <= x < 2 ^ 31 -> ToInt32 x = x.
Proof.
  intro H. unfold ToInt32, to_signed.
  rewrite Z.mod_small by lia.
  change (2 ^ (32 - 1)) with (2 ^ 31).
  destruct (Z.ltb_spec x (2 ^ 31)); lia.
Qed.

Lemma varint_step_small (acc shift x : Z) :
  0 <= shift < 32 ->
  0 <= acc < 2 ^ shift ->
  0 <= x ->
  acc + x * 2 ^ shift < 2 ^ 31 ->
  Decoder.varint_step acc shift x = acc + (x mod 128) * 2 ^ shift.
Proof.
  intros Hshift Hacc Hx Hsum. unfold Decoder.varint_step.
  assert (Hp : 0 < 2 ^ shift) by (apply Z.pow_pos_nonneg; lia).
  assert (Hm : 0 <= x mod 128 <= x).
  { split; [apply Z.mod_pos_bound; lia | apply Z.mod_le; lia]. }
  rewrite (Z.mod_small shift 32) by lia.
  rewrite land_7F.
  rewrite (ToInt32_small acc) by nia.
  assert (E : Z.shiftl (x mod 128) shift = x mod 128 * 2 ^ shift)
    by (apply Z.shiftl_mul_pow2; lia).
  rewrite (ToInt32_small (Z.shiftl (x mod 128) shift)) by (rewrite E; nia).
  rewrite lor_shiftl_add by lia.
  apply ToInt32_small. nia.
Qed.

Lemma readVarint_loop_Leb128 (n : Z) (bytes : list Z) :
  Leb128 n bytes ->
  forall (fuel : nat) (acc shift : Z) (pre rest : list Z),
    0 <= shift < 32 ->
    0 <= acc < 2 ^ shift ->
    acc + n * 2 ^ shift < 2 ^ 31 ->
    (List.length bytes <= fuel)%nat ->
    Decoder.readVarint_loop fuel acc shift (reader_at pre bytes rest)
    = Ok (acc + n * 2 ^ shift, reader_past pre bytes rest).
Proof.
  induction 1 as [n Hn | n bytes Hn Hleb IH];
    intros fuel acc shift pre rest Hshift Hacc Hsum Hfuel.
  - destruct fuel as [| fuel]; [simpl in Hfuel; lia |].
    simpl. unfold Buffer.rbind. rewrite readUint8_at.
    destruct (continuation_byte n Hn) as (_ & _ & _ & Hhigh & _).
    rewrite Hhigh. unfold Buffer.ret.
    rewrite varint_step_small by lia.
    rewrite Z.mod_small by lia.
    rewrite reader_past_one. reflexivity.
  - destruct fuel as [| fuel]; [simpl in Hfuel; lia |].
    assert (Hx : 0 <= n mod 128 < 128) by (apply Z.mod_pos_bound; lia).
    assert (Hp : 0 < 2 ^ shift) by (apply Z.pow_pos_nonneg; lia).
    pose proof (Z.div_mod n 128 ltac:(lia)) as D.
    assert (Hq : 1 <= n / 128) by lia.
    assert (Hs7 : shift + 7 < 32).
    { destruct (Z.lt_ge_cases (shift + 7) 32) as [? | Hge]; [assumption |].
      exfalso.
      assert (2 ^ 31 <= 128 * 2 ^ shift).
      { rewrite <- pow2_step by lia. apply Z.pow_le_mono_r; lia. }
      nia. }
    simpl. unfold Buffer.rbind. rewrite readUint8_at.
    destruct (continuation_byte (n mod 128) Hx) as (_ & Hlow & Hhigh & _).
    rewrite Hhigh.
    rewrite varint_step_small; try lia.
    2: { nia. }
    rewrite <- land_7F, Hlow.
    rewrite reader_at_cons.
    simpl in Hfuel.
    rewrite IH.
    + rewrite reader_past_cons. do 2 f_equal.
      rewrite pow2_step by lia. nia.
    + lia.
    + rewrite pow2_step by lia. nia.
    + rewrite pow2_step by lia. nia.
    + lia.
Qed.

Lemma reader_at_nil (bytes rest : list Z) :
  reader_at [] bytes rest = Buffer.createBinaryReader (bytes ++ rest).
Proof. reflexivity. Qed.

Lemma readVarint_Leb128 (n : Z) (bytes rest : list Z) :
  Leb128 n bytes ->
  n < 2 ^ 31 ->
  Decoder.readVarint (Buffer.createBinaryReader (bytes ++ rest))
  = Ok (n, reader_past [] bytes rest).
Proof.
  intros Hleb Hn. unfold Decoder.readVarint.
  rewrite <- reader_at_nil.
  pose proof (Leb128_nonneg _ _ Hleb) as Hpos.
  assert (Hfuel : (List.length bytes
                   <= S (Z.to_nat (Buffer.remaining (reader_at [] bytes rest))))%nat).
  { unfold Buffer.remaining, reader_at. simpl. rewrite length_app. lia. }
  assert (Hacc : 0 <= 0 < 2 ^ 0) by (simpl; lia).
  assert (Hsum : 0 + n * 2 ^ 0 < 2 ^ 31) by (simpl; lia).
  rewrite (readVarint_loop_Leb128 n bytes Hleb _ 0 0 [] rest
             ltac:(lia) Hacc Hsum Hfuel).
  do 2 f_equal. simpl. lia.
Qed.

Lemma v2_readVarint_Leb128 (n : Z) (bytes rest : list Z) :
  Leb128 n bytes ->
  n < 2 ^ 70 ->
  V2.readVarint (Buffer.createBinaryReader (bytes ++ rest))
  = Ok (round53 n, reader_past [] bytes rest).
Proof.
  intros Hleb Hn. unfold V2.readVarint.
  rewrite <- reader_at_nil.
  pose proof (Leb128_length _ _ Hleb 9 Hn) as Hlen.
  assert (Hacc : 0 <= 0 < 2 ^ 0) by (simpl; lia).
  rewrite (v2_readVarint_loop_Leb128 n bytes Hleb 10 0 0 [] rest
             ltac:(lia) Hacc ltac:(lia) ltac:(lia)).
  do 3 f_equal. simpl. lia.
Qed.

(** *** The fixed-width scheme's writer *)

Lemma and7F_mod (n : Z) : 0 <= n < 2 ^ 31 -> Encoder.and7F n = n mod 128.
Proof. intro H. unfold Encoder.and7F. rewrite ToInt32_small by lia. apply land_7F. Qed.

Lemma ushr_div (n k : Z) :
  0 <= n < 2 ^ 32 -> 0 <= k -> Encoder.ushr n k = n / 2 ^ k.
Proof.
  intros Hn Hk. unfold Encoder.ushr, ToUint32, to_unsigned.
  rewrite Z.mod_small by lia. apply Z.shiftr_div_pow2. assumption.
Qed.

Lemma group_byte (x : Z) :
  0 <= x -> Z.lor (Z.land x 0x7F) 0x80 mod 256 = x mod 128 + 128.
Proof.
  intro Hx. rewrite land_7F.
  assert (Hm : 0 <= x mod 128 < 128) by (apply Z.mod_pos_bound; lia).
  destruct (continuation_byte (x mod 128) Hm) as (Hlor & _).
  rewrite Hlor. apply Z.mod_small. lia.
Qed.

(** Below 2^28 [writeVarint] appends the varint wire form of its
    argument. *)
Lemma writeVarint_Leb128 (buf : list Z) (n : Z) :
  0 <= n < 2 ^ 28 ->
  exists bytes, Encoder.writeVarint buf n = buf ++ bytes /\ Leb128 n bytes.
Proof.
  intro Hn. unfold Encoder.writeVarint, Encoder.put.
  assert (Hmod : 0 <= n mod 128 < 128) by (apply Z.mod_pos_bound; lia).
  assert (Hg0 : Z.lor (Encoder.and7F n) 0x80 mod 256 = n mod 128 + 128).
  { rewrite and7F_mod by lia.
    destruct (continuation_byte (n mod 128) Hmod) as (Hlor & _).
    rewrite Hlor. apply Z.mod_small. lia. }
  assert (H7 : Encoder.ushr n 7 = n / 128) by (apply ushr_div; lia).
  assert (H14 : Encoder.ushr n 14 = n / 128 / 128).
  { rewrite ushr_div by lia. rewrite Z.div_div by lia. reflexivity. }
  assert (H21 : Encoder.ushr n 21 = n / 128 / 128 / 128).
  { rewrite ushr_div by lia. rewrite !Z.div_div by lia. reflexivity. }
  assert (Hq1 : 0 <= n / 128) by (apply Z.div_pos; lia).
  assert (Hq2 : 0 <= n / 128 / 128) by (apply Z.div_pos; lia).
  assert (Hq3 : 0 <= n / 128 / 128 / 128) by (apply Z.div_pos; lia).
  destruct (Z.ltb_spec n 128) as [H1 | H1].
  { exists [n]. rewrite Z.mod_small by lia.
    split; [reflexivity | constructor; lia]. }
  assert (L1 : 128 <= n) by assumption.
  destruct (Z.ltb_spec n 16384) as [H2 | H2].
  { exists [n mod 128 + 128; n / 128].
    assert (n / 128 < 128) by (apply Z.div_lt_upper_bound; lia).
    rewrite Hg0, H7. rewrite (Z.mod_small (n / 128)) by lia.
    rewrite <- app_assoc. split; [reflexivity |].
    apply Leb128_more; [assumption | constructor; lia]. }
  assert (L2 : 128 <= n / 128) by (apply Z.div_le_lower_bound; lia).
  destruct (Z.ltb_spec n 2097152) as [H3 | H3].
  { exists [n mod 128 + 128; n / 128 mod 128 + 128; n / 128 / 128].
    assert (n / 128 / 128 < 128).
    { apply Z.div_lt_upper_bound; [lia |]. apply Z.div_lt_upper_bound; lia. }
    rewrite Hg0, H7, H14, group_byte by lia.
    rewrite (Z.mod_small (n / 128 / 128)) by lia.
    rewrite <- !app_assoc. split; [reflexivity |].
    apply Leb128_more; [assumption |].
    apply Leb128_more; [assumption | constructor; lia]. }
  assert (L3 : 128 <= n / 128 / 128).
  { apply Z.div_le_lower_bound; [lia |]. apply Z.div_le_lower_bound; lia. }
  exists [n mod 128 + 128; n / 128 mod 128 + 128;
          n / 128 / 128 mod 128 + 128; n / 128 / 128 / 128].
  assert (n / 128 / 128 / 128 < 128).
  { apply Z.div_lt_upper_bound; [lia |]. apply Z.div_lt_upper_bound; [lia |].
    apply Z.div_lt_upper_bound; lia. }
  rewrite Hg0, H7, H14, H21, !group_byte by lia.
  rewrite (Z.mod_small (n / 128 / 128 / 128)) by lia.
  rewrite <- !app_assoc. split; [reflexivity |].
  apply Leb128_more; [assumption |].
  apply Leb128_more; [assumption |].
  apply Leb128_more; [assumption | constructor; lia].
Qed.

(** The varint wire form of a number is unique. *)
Lemma Leb128_unique (n : Z) (b1 : list Z) :
  Leb128 n b1 -> forall b2, Leb128 n b2 -> b1 = b2.
Proof.
  induction 1 as [n Hn | n bytes Hn Hleb IH]; intros b2 H2; inversion H2; subst.
  - reflexivity.
  - lia.
  - lia.
  - f_equal. apply IH. assumption.
Qed.

Lemma round53_small (z : Z) : Z.abs z <= 2 ^ 53 -> round53 z = z.
Proof.
  intro H. unfold round53.
  destruct (Z.leb_spec (Z.abs z) (2 ^ 53)); [reflexivity | lia].
Qed.

(** C5 (amended).  [readVarint] of the simplified scheme accumulates in a
    BigInt: on the varint that [encodeVarint] writes for any [n] below
    2^70 it returns [Number(n)], which is [n] itself up to 2^53, so
    nothing wraps at 32 bits.  [readVarint] of the fixed-width scheme
    (decoder and stream) accumulates with 32-bit operators and returns
    [n] on the same bytes when [n] is below 2^31; its own writer
    [writeVarint] emits these very bytes when [n] is below 2^28. *)
Theorem varint_decoding_exact (n : Z) (rest : list Z) :
  0 <= n < 2 ^ 70 ->
  exists bytes,
    V2.encodeVarint n [] = Ok bytes
    /\ V2.readVarint (Buffer.createBinaryReader (bytes ++ rest))
       = Ok (round53 n, reader_past [] bytes rest)
    /\ (n <= 2 ^ 53 -> round53 n = n)
    /\ (n < 2 ^ 31 ->
        Decoder.readVarint (Buffer.createBinaryReader (bytes ++ rest))
        = Ok (n, reader_past [] bytes rest)
        /\ Stream.readVarint (Buffer.createBinaryReader (bytes ++ rest))
           = Ok (n, reader_past [] bytes rest))
    /\ (n < 2 ^ 28 -> Encoder.writeVarint [] n = bytes).
Proof.
  intros [Hn0 Hn].
  destruct (encodeVarint_Leb128 n [] Hn0) as (bytes & Henc & Hleb).
  exists bytes. simpl in Henc.
  split; [exact Henc |].
  split; [apply v2_readVarint_Leb128; assumption |].
  split; [intro H; apply round53_small; lia |].
  split.
  - intro H31. unfold Stream.readVarint.
    split; apply readVarint_Leb128; assumption.
  - intro H28.
    destruct (writeVarint_Leb128 [] n ltac:(lia)) as (b' & Hw & Hleb').
    simpl in Hw. rewrite Hw. apply (Leb128_unique n b' Hleb' bytes Hleb).
Qed.

(** At 2^32 the simplified scheme returns the value. *)
Lemma varint_decoding_exact_witness :
  exists bytes,
    V2.encodeVarint (2 ^ 32) [] = Ok bytes
    /\ V2.readVarint (Buffer.createBinaryReader (bytes ++ []))
       = Ok (round53 (2 ^ 32), reader_past [] bytes [])
    /\ (2 ^ 32 <= 2 ^ 53 -> round53 (2 ^ 32) = 2 ^ 32)
    /\ (2 ^ 32 < 2 ^ 31 ->
        Decoder.readVarint (Buffer.createBinaryReader (bytes ++ []))
        = Ok (2 ^ 32, reader_past [] bytes [])
        /\ Stream.readVarint (Buffer.createBinaryReader (bytes ++ []))
           = Ok (2 ^ 32, reader_past [] bytes []))
    /\ (2 ^ 32 < 2 ^ 28 -> Encoder.writeVarint [] (2 ^ 32) = bytes).
Proof.
  apply (varint_decoding_exact (2 ^ 32) []).
  split; [discriminate | reflexivity].
Defined.

(** C5, as stated, fails for the fixed-width scheme: on the five bytes of
    the varint of 2^32 its [readVarint], in the decoder and in the
    stream, returns 0. *)
Lemma fixed_width_readVarint_wraps :
  V2.encodeVarint (2 ^ 32) [] = Ok varint_2_32
  /\ Decoder.readVarint (Buffer.createBinaryReader varint_2_32)
     = Ok (0, reader_past [] varint_2_32 [])
  /\ Stream.readVarint (Buffer.createBinaryReader varint_2_32)
     = Ok (0, reader_past [] varint_2_32 [])
  /\ 0 <> 2 ^ 32.
Proof. repeat split. discriminate. Qed.

(** ** Zigzag *)

Lemma land_1 (x : Z) : Z.land x 1 = x mod 2.
Proof. change 1 with (Z.ones 1). rewrite Z.land_ones by lia. reflexivity. Qed.

Lemma land_ToInt32_1 (z : Z) : Z.land (ToInt32 z) 1 = z mod 2.
Proof.
  rewrite land_1. unfold ToInt32, to_signed.
  assert (Hm : (z mod 2 ^ 32) mod 2 = z mod 2).
  { rewrite (Z.div_mod z (2 ^ 32)) at 2 by lia.
    replace (2 ^ 32 * (z / 2 ^ 32)) with (z / 2 ^ 32 * 2 ^ 31 * 2) by lia.
    rewrite Z.add_comm. rewrite Z.mod_add by lia. reflexivity. }
  destruct (z mod 2 ^ 32 <? 2 ^ (32 - 1)).
  - exact Hm.
  - replace (z mod 2 ^ 32 - 2 ^ 32) with (z mod 2 ^ 32 + (- 2 ^ 31) * 2) by lia.
    rewrite Z.mod_add by lia. exact Hm.
Qed.

Lemma zigzag_formula (n : Z) :
  Z.abs n <= 2 ^ 52 ->
  V2.zigzag n = (if 0 <=? n then 2 * n else -2 * n - 1).
Proof.
  intro H. unfold V2.zigzag.
  destruct (Z.leb_spec 0 n).
  - rewrite round53_small by lia. lia.
  - rewrite (round53_small (- n * 2)) by lia.
    rewrite round53_small by lia. lia.
Qed.

Lemma unzigzag_formula (z : Z) :
  0 <= z <= 2 ^ 53 ->
  V2.unzigzag z = (if Z.even z then z / 2 else - ((z + 1) / 2)).
Proof.
  intro H. unfold V2.unzigzag. rewrite land_ToInt32_1.
  rewrite Zmod_even.
  pose proof (Z.div_mod z 2 ltac:(lia)) as D.
  pose proof (Z.div_mod (z + 1) 2 ltac:(lia)) as D1.
  pose proof (Z.mod_pos_bound (z + 1) 2 ltac:(lia)) as B1.
  rewrite Zmod_even in D.
  destruct (Z.even z) eqn:E; simpl.
  - reflexivity.
  - rewrite round53_small by lia. f_equal. lia.
Qed.

Lemma unzigzag_zigzag (n : Z) :
  Z.abs n <= 2 ^ 52 -> V2.unzigzag (V2.zigzag n) = n.
Proof.
  intro H. rewrite zigzag_formula by assumption.
  destruct (Z.leb_spec 0 n).
  - rewrite unzigzag_formula by lia.
    assert (E : Z.even (2 * n) = true) by (rewrite Z.even_mul; reflexivity).
    rewrite E. rewrite (Z.mul_comm 2 n). apply Z.div_mul. lia.
  - rewrite unzigzag_formula by lia.
    assert (E : Z.even (-2 * n - 1) = false).
    { replace (-2 * n - 1) with (1 + 2 * (- n - 1)) by lia.
      rewrite Z.even_add_mul_2. reflexivity. }
    rewrite E.
    replace (-2 * n - 1 + 1) with ((- n) * 2) by lia.
    rewrite Z.div_mul by lia. lia.
Qed.

(** C8.  For every integer of the supported range (magnitude at most
    2^52) the zigzag code is [2n] for [n >= 0] and [-2n - 1] for [n < 0];
    the decoder computes [z / 2] on an even code and [-(z + 1) / 2] on an
    odd one and inverts the encoder, on the codes and through the varint
    bytes; and 0, -1, 1, -2, 127, -128 map to 0, 1, 2, 3, 254, 255. *)
Theorem zigzag_roundtrip (n : Z) (rest : list Z) :
  Z.abs n <= V2.MAX_ZIGZAG_SAFE ->
  V2.zigzag n = (if 0 <=? n then 2 * n else -2 * n - 1)
  /\ V2.unzigzag (V2.zigzag n)
     = (if Z.even (V2.zigzag n) then V2.zigzag n / 2
        else - ((V2.zigzag n + 1) / 2))
  /\ V2.unzigzag (V2.zigzag n) = n
  /\ (exists bytes,
        V2.encodeZigzagVarint n [] = Ok bytes
        /\ V2.readZigzag (Buffer.createBinaryReader (bytes ++ rest))
           = Ok (n, reader_past [] bytes rest))
  /\ map V2.zigzag [0; -1; 1; -2; 127; -128] = [0; 1; 2; 3; 254; 255].
Proof.
  unfold V2.MAX_ZIGZAG_SAFE. intro H.
  assert (Hz : 0 <= V2.zigzag n <= 2 ^ 53).
  { rewrite zigzag_formula by assumption. destruct (Z.leb_spec 0 n); lia. }
  split; [apply zigzag_formula; assumption |].
  split; [apply unzigzag_formula; assumption |].
  split; [apply unzigzag_zigzag; assumption |].
  split; [| reflexivity].
  destruct (encodeVarint_Leb128 (V2.zigzag n) [] ltac:(lia)) as (bytes & Henc & Hleb).
  exists bytes. simpl in Henc. unfold V2.encodeZigzagVarint.
  split; [exact Henc |].
  unfold V2.readZigzag, Buffer.rbind.
  rewrite (v2_readVarint_Leb128 (V2.zigzag n) bytes rest Hleb) by lia.
  rewrite round53_small by lia.
  unfold Buffer.ret. rewrite unzigzag_zigzag by assumption. reflexivity.
Qed.

(** The smallest integer of the supported range. *)
Lemma zigzag_roundtrip_witness :
  V2.zigzag (- 2 ^ 52) = (if 0 <=? - 2 ^ 52 then 2 * (- 2 ^ 52) else -2 * (- 2 ^ 52) - 1)
  /\ V2.unzigzag (V2.zigzag (- 2 ^ 52))
     = (if Z.even (V2.zigzag (- 2 ^ 52)) then V2.zigzag (- 2 ^ 52) / 2
        else - ((V2.zigzag (- 2 ^ 52) + 1) / 2))
  /\ V2.unzigzag (V2.zigzag (- 2 ^ 52)) = - 2 ^ 52
  /\ (exists bytes,
        V2.encodeZigzagVarint (- 2 ^ 52) [] = Ok bytes
        /\ V2.readZigzag (Buffer.createBinaryReader (bytes ++ [0xFF]))
           = Ok (- 2 ^ 52, reader_past [] bytes [0xFF]))
  /\ map V2.zigzag [0; -1; 1; -2; 127; -128] = [0; 1; 2; 3; 254; 255].
Proof.
  apply (zigzag_roundtrip (- 2 ^ 52) [0xFF]).
  vm_compute. discriminate.
Defined.

(** ** The key-table decision *)

(** Induction over values, with the elements of arrays and the property
    values of objects as induction hypotheses. *)
Lemma JsValue_induction (P : JsValue -> Prop) :
  (forall v, is_leaf v = true -> P v) ->
  (forall items,
      Forall (fun slot => match slot with Some item => P item | None => True end) items ->
      P (JArr items)) ->
  (forall props, Forall (fun kv => P (snd kv)) props -> P (JObj props)) ->
  forall v, P v.
Proof.
  intros Hleaf Harr Hobj.
  fix IH 1. intro v.
  destruct v as [ | | b | n | s | z | d | src | items | props ];
    try (apply Hleaf; reflexivity).
  - apply Harr.
    induction items as [| slot items IHitems].
    + constructor.
    + constructor; [| exact IHitems].
      destruct slot as [item |]; [apply IH | exact I].
  - apply Hobj.
    induction props as [| [k v] props IHprops].
    + constructor.
    + constructor; [| exact IHprops].
      simpl. apply IH.
Qed.

Lemma Set_add_In (key : string) (ks : list string) (k : string) :
  In k (Encoder.Set_add key ks) <-> k = key \/ In k ks.
Proof.
  unfold Encoder.Set_add.
  destruct (existsb (String.eqb key) ks) eqn:E.
  - split; [intro H; right; exact H |].
    intros [-> | H]; [| exact H].
    apply existsb_exists in E. destruct E as (x & Hx & Heq).
    apply String.eqb_eq in Heq. subst x. exact Hx.
  - rewrite in_app_iff. simpl. split.
    + intros [H | [H | []]]; [right; exact H | left; symmetry; exact H].
    + intros [-> | H]; [right; left; reflexivity | left; exact H].
Qed.

Lemma Set_add_NoDup (key : string) (ks : list string) :
  NoDup ks -> NoDup (Encoder.Set_add key ks).
Proof.
  intro H. unfold Encoder.Set_add.
  destruct (existsb (String.eqb key) ks) eqn:E; [exact H |].
  assert (Hnot : ~ In key ks).
  { intro Hin.
    assert (existsb (String.eqb key) ks = true).
    { apply existsb_exists. exists key. split; [exact Hin | apply String.eqb_refl]. }
    congruence. }
  clear E. induction ks as [| k0 ks IHks]; simpl.
  - constructor; [intros [] | constructor].
  - inversion H as [| ? ? Hk0 Hnd]; subst.
    constructor.
    + rewrite in_app_iff. simpl. intros [Hin | [Heq | []]].
      * exact (Hk0 Hin).
      * apply Hnot. left. symmetry. exact Heq.
    + apply IHks; [exact Hnd |]. intro Hin. apply Hnot. right. exact Hin.
Qed.

Lemma Set_add_cons (key k0 : string) (ks : list string) :
  k0 <> key -> Encoder.Set_add key (k0 :: ks) = k0 :: Encoder.Set_add key ks.
Proof.
  intro Hne. unfold Encoder.Set_add. simpl.
  assert (E : String.eqb key k0 = false).
  { apply String.eqb_neq. intro. apply Hne. symmetry. assumption. }
  rewrite E. simpl.
  destruct (existsb (String.eqb key) ks); reflexivity.
Qed.

Lemma usage_table_ext (ks : list string) (c c' : string -> Z) :
  (forall k, In k ks -> c k = c' k) -> usage_table ks c = usage_table ks c'.
Proof.
  intro H. unfold usage_table. apply map_ext_in.
  intros k Hk. rewrite (H k Hk). reflexivity.
Qed.

(** The code's bump of the usage map, on a table of counts. *)
Lemma keyUsage_bump_table (key : string) (ks : list string) (c c0 : string -> Z) :
  NoDup ks ->
  (~ In key ks -> c key = 0) ->
  (forall k, c0 k = c k + (if String.eqb key k then 1 else 0)) ->
  Encoder.keyUsage_bump key (usage_table ks c)
  = usage_table (Encoder.Set_add key ks) c0.
Proof.
  intros Hnd Hzero Hc0.
  induction ks as [| k0 ks IHks].
  - simpl. unfold Encoder.Set_add. simpl.
    rewrite Hc0, String.eqb_refl, Hzero by (intros []). reflexivity.
  - inversion Hnd as [| ? ? Hk0 Hnd']; subst.
    simpl. destruct (String.eqb k0 key) eqn:E.
    + apply String.eqb_eq in E. subst k0.
      assert (Hadd : Encoder.Set_add key (key :: ks) = key :: ks).
      { unfold Encoder.Set_add. simpl. rewrite String.eqb_refl. reflexivity. }
      rewrite Hadd. simpl. rewrite Hc0, String.eqb_refl. f_equal.
      apply usage_table_ext. intros k Hk. rewrite Hc0.
      assert (En : String.eqb key k = false).
      { apply String.eqb_neq. intro. subst k. exact (Hk0 Hk). }
      rewrite En. lia.
    + apply String.eqb_neq in E.
      rewrite Set_add_cons by exact E. simpl.
      rewrite Hc0.
      assert (En : String.eqb key k0 = false).
      { apply String.eqb_neq. intro. apply E. symmetry. assumption. }
      rewrite En, Z.add_0_r. f_equal.
      apply IHks; [exact Hnd' |].
      intro Hnot. apply Hzero. intros [Heq | Hin]; [exact (E Heq) | exact (Hnot Hin)].
Qed.

Lemma Counted_leaf (v : JsValue) : is_leaf v = true -> Counted v.
Proof.
  intros Hleaf ks c c' Hnd Hzero Hc'.
  assert (Hocc : forall k, occurrences k v = 0)
    by (intro k; destruct v; try reflexivity; discriminate Hleaf).
  assert (Hcount : forall ku, Encoder.countKeys v ku = ku)
    by (intro ku; destruct v; try reflexivity; discriminate Hleaf).
  assert (Hcollect : Encoder.collectKeys v ks = ks)
    by (destruct v; try reflexivity; discriminate Hleaf).
  rewrite Hcount, Hcollect.
  split; [| split; [exact Hnd | split; [apply incl_refl | intros; apply Hocc]]].
  apply usage_table_ext. intros k _. rewrite Hc', Hocc. lia.
Qed.

Lemma Counted_array (items : list (option JsValue)) :
  Forall (fun slot => match slot with Some item => Counted item | None => True end) items ->
  Counted (JArr items).
Proof.
  induction 1 as [| slot items Hslot Hitems IH]; intros ks c c' Hnd Hzero Hc'.
  - apply (Counted_leaf JNull eq_refl ks c c' Hnd Hzero).
    intro k. rewrite Hc'. reflexivity.
  - destruct slot as [item |].
    + change (Encoder.countKeys (JArr (Some item :: items)) (usage_table ks c))
        with (Encoder.countKeys (JArr items)
                (Encoder.countKeys item (usage_table ks c))).
      change (Encoder.collectKeys (JArr (Some item :: items)) ks)
        with (Encoder.collectKeys (JArr items) (Encoder.collectKeys item ks)).
      assert (Hocc : forall k, occurrences k (JArr (Some item :: items))
                               = occurrences k item + occurrences k (JArr items))
        by (intro k; reflexivity).
      destruct (Hslot ks c (fun k => c k + occurrences k item) Hnd Hzero
                  ltac:(reflexivity)) as (E1 & Hnd1 & Hincl1 & Hz1).
      rewrite E1.
      destruct (IH (Encoder.collectKeys item ks)
                   (fun k => c k + occurrences k item) c' Hnd1)
        as (E2 & Hnd2 & Hincl2 & Hz2).
      { intros k Hk. rewrite Hz1 by exact Hk.
        rewrite Hzero; [reflexivity |]. intro Hin. apply Hk. apply Hincl1. exact Hin. }
      { intro k. rewrite Hc', Hocc. lia. }
      split; [exact E2 | split; [exact Hnd2 | split]].
      * intros k Hk. apply Hincl2. apply Hincl1. exact Hk.
      * intros k Hk. rewrite Hocc, Hz2 by exact Hk.
        rewrite Hz1; [reflexivity |]. intro Hin. apply Hk. apply Hincl2. exact Hin.
    + change (Encoder.countKeys (JArr (None :: items)) (usage_table ks c))
        with (Encoder.countKeys (JArr items) (usage_table ks c)).
      change (Encoder.collectKeys (JArr (None :: items)) ks)
        with (Encoder.collectKeys (JArr items) ks).
      assert (Hocc : forall k, occurrences k (JArr (None :: items))
                               = occurrences k (JArr items))
        by (intro k; reflexivity).
      destruct (IH ks c c' Hnd Hzero) as (E2 & Hnd2 & Hincl2 & Hz2).
      { intro k. rewrite Hc', Hocc. reflexivity. }
      split; [exact E2 | split; [exact Hnd2 | split; [exact Hincl2 |]]].
      intros k Hk. rewrite Hocc. apply Hz2. exact Hk.
Qed.

Lemma Counted_object (props : list (string * JsValue)) :
  Forall (fun kv => Counted (snd kv)) props -> Counted (JObj props).
Proof.
  induction 1 as [| [key v] props Hv Hprops IH]; intros ks c c' Hnd Hzero Hc'.
  - apply (Counted_leaf JNull eq_refl ks c c' Hnd Hzero).
    intro k. rewrite Hc'. reflexivity.
  - simpl in Hv.
    change (Encoder.countKeys (JObj ((key, v) :: props)) (usage_table ks c))
      with (Encoder.countKeys (JObj props)
              (Encoder.countKeys v (Encoder.keyUsage_bump key (usage_table ks c)))).
    change (Encoder.collectKeys (JObj ((key, v) :: props)) ks)
      with (Encoder.collectKeys (JObj props)
              (Encoder.collectKeys v (Encoder.Set_add key ks))).
    assert (Hocc : forall k, occurrences k (JObj ((key, v) :: props))
                             = (if String.eqb key k then 1 else 0)
                               + occurrences k v + occurrences k (JObj props))
      by (intro k; simpl; lia).
    set (c0 := fun k => c k + (if String.eqb key k then 1 else 0)).
    rewrite (keyUsage_bump_table key ks c c0 Hnd)
      by (try (intro Hnot; apply Hzero; exact Hnot); reflexivity).
    assert (Hnd0 : NoDup (Encoder.Set_add key ks)) by (apply Set_add_NoDup; exact Hnd).
    assert (Hzero0 : forall k, ~ In k (Encoder.Set_add key ks) -> c0 k = 0).
    { intros k Hk. unfold c0.
      assert (Hne : String.eqb key k = false).
      { apply String.eqb_neq. intro. subst k. apply Hk. apply Set_add_In. left. reflexivity. }
      rewrite Hne, Hzero; [reflexivity |].
      intro Hin. apply Hk. apply Set_add_In. right. exact Hin. }
    destruct (Hv (Encoder.Set_add key ks) c0 (fun k => c0 k + occurrences k v)
                 Hnd0 Hzero0 ltac:(reflexivity)) as (E1 & Hnd1 & Hincl1 & Hz1).
    rewrite E1.
    destruct (IH (Encoder.collectKeys v (Encoder.Set_add key ks))
                 (fun k => c0 k + occurrences k v) c' Hnd1)
      as (E2 & Hnd2 & Hincl2 & Hz2).
    { intros k Hk. rewrite Hz1 by exact Hk.
      rewrite Hzero0; [reflexivity |]. intro Hin. apply Hk. apply Hincl1. exact Hin. }
    { intro k. rewrite Hc', Hocc. unfold c0. lia. }
    split; [exact E2 | split; [exact Hnd2 | split]].
    + intros k Hk. apply Hincl2. apply Hincl1. apply Set_add_In. right. exact Hk.
    + intros k Hk. rewrite Hocc, Hz2 by exact Hk.
      rewrite Hz1 by (intro Hin; apply Hk; apply Hincl2; exact Hin).
      assert (Hne : String.eqb key k = false).
      { apply String.eqb_neq. intro. subst k. apply Hk. apply Hincl2. apply Hincl1.
        apply Set_add_In. left. reflexivity. }
      rewrite Hne. reflexivity.
Qed.

Lemma Counted_all (v : JsValue) : Counted v.
Proof.
  induction v using JsValue_induction.
  - apply Counted_leaf. assumption.
  - apply Counted_array. assumption.
  - apply Counted_object. assumption.
Qed.

(** The usage map of the code is the table of occurrences of the distinct
    keys, in first-encounter order. *)
Lemma countKeys_occurrences (v : JsValue) :
  Encoder.countKeys v [] = usage_table (distinct_keys v) (fun k => occurrences k v)
  /\ NoDup (distinct_keys v).
Proof.
  destruct (Counted_all v [] (fun _ => 0) (fun k => occurrences k v))
    as (E & Hnd & _ & _).
  - constructor.
  - reflexivity.
  - reflexivity.
  - split; [exact E | exact Hnd].
Qed.

(** *** The sums of the estimate *)

Lemma fold_left_add_zsum {A : Type} (f : A -> Z) (l : list A) (a0 : Z) :
  fold_left (fun a x => a + f x) l a0 = a0 + zsum (map f l).
Proof.
  revert a0. induction l as [| x l IH]; intro a0; simpl.
  - lia.
  - rewrite IH. lia.
Qed.

Lemma totalKeyBytes_table (ks : list string) (c : string -> Z) :
  Encoder.totalKeyBytes (usage_table ks c)
  = zsum (map (fun k => c k * (1 + js_length k)) ks).
Proof.
  unfold Encoder.totalKeyBytes, usage_table.
  rewrite (fold_left_add_zsum (fun kc => snd kc * (1 + js_length (fst kc)))).
  rewrite map_map. simpl. reflexivity.
Qed.

Lemma sumZ_table (ks : list string) (c : string -> Z) :
  Encoder.sumZ (map snd (usage_table ks c)) = zsum (map c ks).
Proof.
  unfold Encoder.sumZ, usage_table.
  rewrite (fold_left_add_zsum (fun x => x)).
  rewrite map_id, map_map. simpl. reflexivity.
Qed.

Lemma singleUseKeys_table (ks : list string) (c : string -> Z) :
  Encoder.singleUseKeys (usage_table ks c)
  = Z.of_nat (List.length (filter (fun k => c k =? 1) ks)).
Proof.
  unfold Encoder.singleUseKeys, usage_table. f_equal.
  induction ks as [| k ks IH]; simpl.
  - reflexivity.
  - destruct (c k =? 1); simpl; rewrite IH; reflexivity.
Qed.

Lemma headerSize_sum (keys : list string) :
  Encoder.headerSize keys = 10 + zsum (map (fun k => js_length k + 2) keys).
Proof.
  unfold Encoder.headerSize. f_equal.
  assert (H : forall a0,
             fold_left (fun sum k => sum + js_length k + 2) keys a0
             = a0 + zsum (map (fun k => js_length k + 2) keys)).
  { induction keys as [| k keys IH]; intro a0; simpl.
    - lia.
    - rewrite IH. lia. }
  rewrite H. lia.
Qed.

Lemma js_length_nonneg (s : string) : 0 <= js_length s.
Proof.
  unfold js_length. induction (textEncoder_encode s) as [| b l IH]; simpl.
  - lia.
  - assert (0 <= utf16_units b).
    { unfold utf16_units.
      destruct (b <? 128); [lia |]. destruct (b <? 192); [lia |].
      destruct (b <? 240); lia. }
    lia.
Qed.

Lemma zsum_nonneg (l : list Z) : Forall (fun x => 0 <= x) l -> 0 <= zsum l.
Proof. induction 1; simpl; lia. Qed.

Lemma occurrences_nonneg (key : string) (v : JsValue) : 0 <= occurrences key v.
Proof.
  induction v as [v Hleaf | items Hitems | props Hprops] using JsValue_induction.
  - destruct v; try discriminate Hleaf; simpl; lia.
  - simpl. apply zsum_nonneg. apply Forall_map.
    apply Forall_impl with (2 := Hitems).
    intros [item |] H; [exact H | lia].
  - simpl. apply zsum_nonneg. apply Forall_map.
    apply Forall_impl with (2 := Hprops).
    intros kv H. destruct (String.eqb (fst kv) key); lia.
Qed.

(** No use at all means no key bytes. *)
Lemma no_uses_no_units (f g : string -> Z) (ks : list string) :
  (forall k, 0 <= f k) ->
  zsum (map f ks) = 0 ->
  zsum (map (fun k => f k * g k) ks) = 0.
Proof.
  intros Hf. induction ks as [| k ks IH]; simpl; intro H.
  - reflexivity.
  - assert (0 <= zsum (map f ks)).
    { apply zsum_nonneg. apply Forall_map. apply Forall_forall. intros. apply Hf. }
    pose proof (Hf k).
    assert (f k = 0) by lia. assert (zsum (map f ks) = 0) by lia.
    rewrite IH by assumption. nia.
Qed.




(** ** The recursion bounds of the model are never reached *)

Lemma readVarint_loop_bounded (fuel : nat) :
  forall (acc shift : Z) (r : Buffer.BinaryReader),
    (rest_of r < fuel)%nat ->
    Decoder.readVarint_loop fuel acc shift r <> Throw OutOfFuel.
Proof.
  induction fuel as [| fuel IH]; intros acc shift r Hfuel; [lia |].
  simpl. unfold Buffer.rbind, Buffer.readUint8.
  destruct (Nat.leb_spec (List.length (Buffer.buffer r)) (Buffer.offset r)) as [Hend | Hmore].
  - discriminate.
  - destruct (Z.land (nth (Buffer.offset r) (Buffer.buffer r) 0) 128 =? 0).
    + discriminate.
    + apply IH. unfold rest_of, Buffer.advance in *. simpl. lia.
Qed.

(** The [do ... while] of the fixed-width [readVarint] returns or throws
    on its own. *)
Lemma readVarint_bounded (r : Buffer.BinaryReader) :
  Decoder.readVarint r <> Throw OutOfFuel.
Proof.
  unfold Decoder.readVarint. apply readVarint_loop_bounded.
  unfold rest_of, Buffer.remaining. lia.
Qed.

Lemma v2_readVarint_loop_bounded (fuel : nat) :
  forall (acc shift : Z) (r : Buffer.BinaryReader),
    (1 <= fuel)%nat ->
    70 <= shift + 7 * Z.of_nat fuel ->
    V2.readVarint_loop fuel acc shift r <> Throw OutOfFuel.
Proof.
  induction fuel as [| fuel IH]; intros acc shift r Hfuel Hshift; [lia |].
  simpl. unfold Buffer.rbind, V2.at_end, V2.next.
  destruct (Nat.leb (List.length (Buffer.buffer r)) (Buffer.offset r)).
  - discriminate.
  - destruct (Z.land (nth (Buffer.offset r) (Buffer.buffer r) 0) 128 =? 0).
    + discriminate.
    + destruct (Z.ltb_spec 63 (shift + 7)) as [Hlong | Hok].
      * discriminate.
      * apply IH; lia.
Qed.

(** The [while] of the simplified scheme's [readVarint] ends within ten
    rounds. *)
Lemma v2_readVarint_bounded (r : Buffer.BinaryReader) :
  V2.readVarint r <> Throw OutOfFuel.
Proof. unfold V2.readVarint. apply v2_readVarint_loop_bounded; lia. Qed.

(** [encodeVarint] returns on every non-negative integer. *)
Lemma encodeVarint_returns (n : Z) (out : list Z) :
  0 <= n -> exists bytes, V2.encodeVarint n out = Ok (out ++ bytes).
Proof.
  intro H. destruct (encodeVarint_Leb128 n out H) as (bytes & E & _).
  exists bytes. exact E.
Qed.

(** *** Forward and total reads *)

Lemma Forward_ret {A : Type} (a : A) : Forward (Buffer.ret a).
Proof. intros r a' r' H. inversion H; subst. split; [reflexivity | lia]. Qed.

Lemma Forward_throw {A : Type} (e : Error) : Forward (@Buffer.throw A e).
Proof. intros r a r' H. discriminate H. Qed.

Lemma Forward_rbind {A B : Type} (m : Buffer.Read A) (k : A -> Buffer.Read B) :
  Forward m -> (forall a, Forward (k a)) -> Forward (Buffer.rbind m k).
Proof.
  intros Hm Hk r b r' H. unfold Buffer.rbind in H.
  destruct (m r) as [[a r1] | e] eqn:E; [| discriminate H].
  destruct (Hm r a r1 E) as [Hb1 Ho1].
  destruct (Hk a r1 b r' H) as [Hb2 Ho2].
  split; [congruence | lia].
Qed.

Lemma Forward_readUint8 : Forward Buffer.readUint8.
Proof.
  intros r a r' H. unfold Buffer.readUint8 in H.
  destruct (Nat.leb _ _); [discriminate H |].
  inversion H; subst. simpl. split; [reflexivity | lia].
Qed.

Lemma Forward_readInt8 : Forward Buffer.readInt8.
Proof.
  intros r a r' H. unfold Buffer.readInt8 in H.
  destruct (Nat.leb _ _); [discriminate H |].
  inversion H; subst. simpl. split; [reflexivity | lia].
Qed.

Lemma Forward_read_fixed {A : Type} (n : nat) (what : string) (view : list Z -> A) :
  Forward (Buffer.read_fixed n what view).
Proof.
  intros r a r' H. unfold Buffer.read_fixed in H.
  destruct (Nat.ltb _ _); [discriminate H |].
  inversion H; subst. simpl. split; [reflexivity | lia].
Qed.

Lemma Forward_readBytes (length : Z) : Forward (Buffer.readBytes length).
Proof.
  intros r a r' H. unfold Buffer.readBytes in H.
  destruct (Z.ltb _ _); [discriminate H |].
  inversion H; subst. simpl. split; [reflexivity | lia].
Qed.

Lemma Forward_readVarint_loop (fuel : nat) :
  forall acc shift, Forward (Decoder.readVarint_loop fuel acc shift).
Proof.
  induction fuel as [| fuel IH]; intros acc shift; simpl.
  - apply Forward_throw.
  - apply Forward_rbind; [apply Forward_readUint8 |].
    intro byte. destruct (Z.land byte 128 =? 0).
    + apply Forward_ret.
    + apply IH.
Qed.

Lemma Forward_readVarint : Forward Decoder.readVarint.
Proof.
  intros r a r' H. unfold Decoder.readVarint in H.
  exact (Forward_readVarint_loop _ _ _ r a r' H).
Qed.

Lemma Forward_for_loop {S : Type} (n : nat) (body : S -> Buffer.Read S) :
  (forall s, Forward (body s)) -> forall s, Forward (Decoder.for_loop n body s).
Proof.
  intro Hbody. induction n as [| n IH]; intro s; simpl.
  - apply Forward_ret.
  - apply Forward_rbind; [apply Hbody | exact IH].
Qed.

Lemma Total_ret {A : Type} (a : A) : Total (Buffer.ret a).
Proof. intros r H. discriminate H. Qed.

Lemma Total_throw {A : Type} (e : Error) : e <> OutOfFuel -> Total (@Buffer.throw A e).
Proof. intros He r H. inversion H. contradiction. Qed.

Lemma Bounded_rbind {A B : Type} (m : Buffer.Read A) (k : A -> Buffer.Read B)
    (r : Buffer.BinaryReader) :
  Bounded m r ->
  (forall a r', m r = Ok (a, r') -> Bounded (k a) r') ->
  Bounded (Buffer.rbind m k) r.
Proof.
  unfold Bounded, Buffer.rbind. intros Hm Hk.
  destruct (m r) as [[a r1] | e] eqn:E.
  - apply Hk. reflexivity.
  - intro H. apply Hm. inversion H. reflexivity.
Qed.

Lemma Total_rbind {A B : Type} (m : Buffer.Read A) (k : A -> Buffer.Read B) :
  Total m -> (forall a, Total (k a)) -> Total (Buffer.rbind m k).
Proof.
  intros Hm Hk r. apply Bounded_rbind; [apply Hm |]. intros a r' _. apply Hk.
Qed.

Lemma Total_readUint8 : Total Buffer.readUint8.
Proof. intros r. unfold Bounded, Buffer.readUint8. destruct (Nat.leb _ _); discriminate. Qed.

Lemma Total_readInt8 : Total Buffer.readInt8.
Proof. intros r. unfold Bounded, Buffer.readInt8. destruct (Nat.leb _ _); discriminate. Qed.

Lemma Total_read_fixed {A : Type} (n : nat) (what : string) (view : list Z -> A) :
  Total (Buffer.read_fixed n what view).
Proof. intros r. unfold Bounded, Buffer.read_fixed. destruct (Nat.ltb _ _); discriminate. Qed.

Lemma Total_readBytes (length : Z) : Total (Buffer.readBytes length).
Proof. intros r. unfold Bounded, Buffer.readBytes. destruct (Z.ltb _ _); discriminate. Qed.

Lemma Total_readVarint : Total Decoder.readVarint.
Proof. intro r. apply readVarint_bounded. Qed.

(** The automation of the two predicates over the text of a read. *)
Ltac forward_step :=
  match goal with
  | |- Forward (Buffer.rbind _ _) => apply Forward_rbind; [| intro]
  | |- Forward (Buffer.ret _) => apply Forward_ret
  | |- Forward (Buffer.throw _) => apply Forward_throw
  | |- Forward (Decoder.unknownTag _) => apply Forward_throw
  | |- Forward Buffer.readUint8 => apply Forward_readUint8
  | |- Forward Buffer.readInt8 => apply Forward_readInt8
  | |- Forward (Buffer.read_fixed _ _ _) => apply Forward_read_fixed
  | |- Forward (Buffer.readBytes _) => apply Forward_readBytes
  | |- Forward Decoder.readVarint => apply Forward_readVarint
  | |- Forward (if ?b then _ else _) => destruct b
  | |- Forward (match ?x with Some _ => _ | None => _ end) => destruct x
  end.

Ltac total_step :=
  match goal with
  | |- Total (Buffer.rbind _ _) => apply Total_rbind; [| intro]
  | |- Total (Buffer.ret _) => apply Total_ret
  | |- Total (Buffer.throw _) => apply Total_throw; discriminate
  | |- Total (Decoder.unknownTag _) => apply Total_throw; discriminate
  | |- Total Buffer.readUint8 => apply Total_readUint8
  | |- Total Buffer.readInt8 => apply Total_readInt8
  | |- Total (Buffer.read_fixed _ _ _) => apply Total_read_fixed
  | |- Total (Buffer.readBytes _) => apply Total_readBytes
  | |- Total Decoder.readVarint => apply Total_readVarint
  | |- Total (if ?b then _ else _) => destruct b
  | |- Total (match ?x with Some _ => _ | None => _ end) => destruct x
  end.

Lemma readLength_forward_total (what : string) (empty short medium long tag : Z) :
  Forward (Decoder.readLength what empty short medium long tag)
  /\ Total (Decoder.readLength what empty short medium long tag).
Proof.
  unfold Decoder.readLength, Buffer.readUint16, Buffer.readUint32.
  split; [repeat forward_step | repeat total_step].
Qed.

Lemma readString_forward_total (tag : Z) :
  Forward (Decoder.readString tag) /\ Total (Decoder.readString tag).
Proof.
  unfold Decoder.readString.
  destruct (readLength_forward_total "string" TYPE_TAG.STRING_EMPTY
              TYPE_TAG.STRING_SHORT TYPE_TAG.STRING_MEDIUM TYPE_TAG.STRING_LONG tag)
    as [Hf Ht].
  split.
  - apply Forward_rbind; [exact Hf | intro; repeat forward_step].
  - apply Total_rbind; [exact Ht | intro; repeat total_step].
Qed.

Lemma readKeyString_forward_total :
  Forward Decoder.readKeyString /\ Total Decoder.readKeyString.
Proof.
  unfold Decoder.readKeyString, Buffer.readUint16, Buffer.readUint32.
  split; [repeat forward_step | repeat total_step].
Qed.

Lemma keyTable_at_forward_total (keyTable : list string) (keyIndex : Z) :
  Forward (Decoder.keyTable_at keyTable keyIndex)
  /\ Total (Decoder.keyTable_at keyTable keyIndex).
Proof.
  unfold Decoder.keyTable_at.
  split; [repeat forward_step | repeat total_step].
Qed.

Lemma readScalar_forward_total (tag : Z) (read : Buffer.Read JsValue) :
  Decoder.readScalar tag = Some read -> Forward read /\ Total read.
Proof.
  unfold Decoder.readScalar, Buffer.readInt16, Buffer.readInt32, Buffer.readUint16,
    Buffer.readUint32, Buffer.readFloat32, Buffer.readFloat64, Buffer.readBigInt64.
  intro H.
  repeat match type of H with
         | (if ?b then _ else _) = _ => destruct b
         end;
    try discriminate H; inversion H; subst; clear H;
    (split;
     [ repeat first [ forward_step | apply (proj1 (readString_forward_total tag)) ]
     | repeat first [ total_step | apply (proj2 (readString_forward_total tag)) ] ]).
Qed.

(** *** The eager decoder *)

Lemma rest_of_forward {A : Type} (m : Buffer.Read A) (r r' : Buffer.BinaryReader) (a : A) :
  Forward m -> m r = Ok (a, r') -> (rest_of r' <= rest_of r)%nat.
Proof.
  intros Hm H. destruct (Hm r a r' H) as [Hb Ho].
  unfold rest_of. rewrite Hb. lia.
Qed.

Lemma for_loop_bounded {S : Type} (bound n : nat) (body : S -> Buffer.Read S) :
  (forall s, Forward (body s)) ->
  (forall s r, (rest_of r < bound)%nat -> Bounded (body s) r) ->
  forall s r, (rest_of r < bound)%nat -> Bounded (Decoder.for_loop n body s) r.
Proof.
  intros Hf Hb. induction n as [| n IH]; intros s r Hr; simpl.
  - apply Total_ret.
  - apply Bounded_rbind; [apply Hb; exact Hr |].
    intros s' r' E. apply IH.
    pose proof (rest_of_forward (body s) r r' s' (Hf s) E). lia.
Qed.

Lemma readUint8_consumes (r r' : Buffer.BinaryReader) (b : Z) :
  Buffer.readUint8 r = Ok (b, r') -> (S (rest_of r') = rest_of r)%nat.
Proof.
  unfold Buffer.readUint8. intro H.
  destruct (Nat.leb_spec (List.length (Buffer.buffer r)) (Buffer.offset r)) as [| Hlt];
    [discriminate H |].
  inversion H; subst. unfold rest_of, Buffer.advance. simpl. lia.
Qed.

Lemma readValue_forward (depth : nat) : Forward (Decoder.readValue depth).
Proof.
  induction depth as [| depth IH]; simpl.
  - apply Forward_throw.
  - apply Forward_rbind; [apply Forward_readUint8 | intro tag].
    destruct (Decoder.readScalar tag) as [read |] eqn:E.
    + apply (readScalar_forward_total tag read E).
    + destruct (Decoder.is_array_tag tag); [| destruct (Decoder.is_object_tag tag)].
      * apply Forward_rbind; [apply readLength_forward_total | intros [length |]].
        -- apply Forward_rbind; [| intro; apply Forward_ret].
           apply Forward_for_loop. intro result.
           apply Forward_rbind; [exact IH | intro; apply Forward_ret].
        -- apply Forward_ret.
      * apply Forward_rbind; [apply readLength_forward_total | intros [keyCount |]].
        -- apply Forward_rbind; [| intro; apply Forward_ret].
           apply Forward_for_loop. intro result.
           apply Forward_rbind; [apply readKeyString_forward_total | intro key].
           apply Forward_rbind; [exact IH | intro; apply Forward_ret].
        -- apply Forward_ret.
      * apply Forward_throw.
Qed.

Lemma readValueWithKeyTable_forward (keyTable : list string) (depth : nat) :
  Forward (Decoder.readValueWithKeyTable depth keyTable).
Proof.
  induction depth as [| depth IH]; simpl.
  - apply Forward_throw.
  - apply Forward_rbind; [apply Forward_readUint8 | intro tag].
    destruct (Decoder.readScalar tag) as [read |] eqn:E.
    + apply (readScalar_forward_total tag read E).
    + destruct (Decoder.is_array_tag tag); [| destruct (Decoder.is_object_tag tag)].
      * apply Forward_rbind; [apply readLength_forward_total | intros [length |]].
        -- apply Forward_rbind; [| intro; apply Forward_ret].
           apply Forward_for_loop. intro result.
           apply Forward_rbind; [exact IH | intro; apply Forward_ret].
        -- apply Forward_ret.
      * apply Forward_rbind; [apply readLength_forward_total | intros [keyCount |]].
        -- apply Forward_rbind; [| intro; apply Forward_ret].
           apply Forward_for_loop. intro result.
           apply Forward_rbind; [apply Forward_readVarint | intro keyIndex].
           apply Forward_rbind; [apply keyTable_at_forward_total | intro key].
           apply Forward_rbind; [exact IH | intro; apply Forward_ret].
        -- apply Forward_ret.
      * apply Forward_throw.
Qed.

(** A nesting bound above the number of bytes left is never reached:
    every nested value starts with its own tag byte. *)
Lemma readValue_bounded (depth : nat) :
  forall r, (rest_of r < depth)%nat -> Bounded (Decoder.readValue depth) r.
Proof.
  induction depth as [| depth IH]; intros r Hr; [lia |].
  simpl. apply Bounded_rbind; [apply Total_readUint8 |].
  intros tag r1 E1. pose proof (readUint8_consumes r r1 tag E1) as Hc.
  assert (Hr1 : (rest_of r1 < depth)%nat) by lia.
  destruct (Decoder.readScalar tag) as [read |] eqn:E.
  { apply (readScalar_forward_total tag read E). }
  destruct (Decoder.is_array_tag tag); [| destruct (Decoder.is_object_tag tag)].
  - apply Bounded_rbind; [apply readLength_forward_total |].
    intros [length |] r2 E2; [| apply Total_ret].
    pose proof (rest_of_forward _ r1 r2 _
                  (proj1 (readLength_forward_total _ _ _ _ _ _)) E2) as H2.
    apply Bounded_rbind; [| intros; apply Total_ret].
    apply (for_loop_bounded depth); [| | lia].
    + intro result. apply Forward_rbind; [apply readValue_forward | intro; apply Forward_ret].
    + intros result r3 Hr3. apply Bounded_rbind; [apply IH; exact Hr3 |].
      intros; apply Total_ret.
  - apply Bounded_rbind; [apply readLength_forward_total |].
    intros [keyCount |] r2 E2; [| apply Total_ret].
    pose proof (rest_of_forward _ r1 r2 _
                  (proj1 (readLength_forward_total _ _ _ _ _ _)) E2) as H2.
    apply Bounded_rbind; [| intros; apply Total_ret].
    apply (for_loop_bounded depth); [| | lia].
    + intro result.
      apply Forward_rbind; [apply readKeyString_forward_total | intro key].
      apply Forward_rbind; [apply readValue_forward | intro; apply Forward_ret].
    + intros result r3 Hr3.
      apply Bounded_rbind; [apply readKeyString_forward_total |].
      intros key r4 E4.
      pose proof (rest_of_forward _ r3 r4 _ (proj1 readKeyString_forward_total) E4).
      apply Bounded_rbind; [apply IH; lia |].
      intros; apply Total_ret.
  - apply Total_throw. discriminate.
Qed.

Lemma readValueWithKeyTable_bounded (keyTable : list string) (depth : nat) :
  forall r, (rest_of r < depth)%nat ->
            Bounded (Decoder.readValueWithKeyTable depth keyTable) r.
Proof.
  induction depth as [| depth IH]; intros r Hr; [lia |].
  simpl. apply Bounded_rbind; [apply Total_readUint8 |].
  intros tag r1 E1. pose proof (readUint8_consumes r r1 tag E1) as Hc.
  assert (Hr1 : (rest_of r1 < depth)%nat) by lia.
  destruct (Decoder.readScalar tag) as [read |] eqn:E.
  { apply (readScalar_forward_total tag read E). }
  destruct (Decoder.is_array_tag tag); [| destruct (Decoder.is_object_tag tag)].
  - apply Bounded_rbind; [apply readLength_forward_total |].
    intros [length |] r2 E2; [| apply Total_ret].
    pose proof (rest_of_forward _ r1 r2 _
                  (proj1 (readLength_forward_total _ _ _ _ _ _)) E2) as H2.
    apply Bounded_rbind; [| intros; apply Total_ret].
    apply (for_loop_bounded depth); [| | lia].
    + intro result.
      apply Forward_rbind; [apply readValueWithKeyTable_forward | intro; apply Forward_ret].
    + intros result r3 Hr3. apply Bounded_rbind; [apply IH; exact Hr3 |].
      intros; apply Total_ret.
  - apply Bounded_rbind; [apply readLength_forward_total |].
    intros [keyCount |] r2 E2; [| apply Total_ret].
    pose proof (rest_of_forward _ r1 r2 _
                  (proj1 (readLength_forward_total _ _ _ _ _ _)) E2) as H2.
    apply Bounded_rbind; [| intros; apply Total_ret].
    apply (for_loop_bounded depth); [| | lia].
    + intro result.
      apply Forward_rbind; [apply Forward_readVarint | intro keyIndex].
      apply Forward_rbind; [apply keyTable_at_forward_total | intro key].
      apply Forward_rbind; [apply readValueWithKeyTable_forward | intro; apply Forward_ret].
    + intros result r3 Hr3.
      apply Bounded_rbind; [apply Total_readVarint |].
      intros keyIndex r4 E4.
      pose proof (rest_of_forward _ r3 r4 _ Forward_readVarint E4).
      apply Bounded_rbind; [apply keyTable_at_forward_total |].
      intros key r5 E5.
      pose proof (rest_of_forward _ r4 r5 _
                    (proj1 (keyTable_at_forward_total keyTable keyIndex)) E5).
      apply Bounded_rbind; [apply IH; lia |].
      intros; apply Total_ret.
  - apply Total_throw. discriminate.
Qed.

Lemma readStringTable_forward_total :
  Forward Decoder.readStringTable /\ Total Decoder.readStringTable.
Proof.
  unfold Decoder.readStringTable. split.
  - apply Forward_rbind; [apply Forward_readUint8 | intro version].
    apply Forward_rbind; [apply Forward_readVarint | intro keyCount].
    apply Forward_for_loop. intro keys. repeat forward_step.
  - apply Total_rbind; [apply Total_readUint8 | intro version].
    apply Total_rbind; [apply Total_readVarint | intro keyCount].
    intro r. apply (for_loop_bounded (S (rest_of r))); [| | lia].
    + intro keys. repeat forward_step.
    + intros keys r' _. revert r'. change (Total
        (Buffer.rbind Decoder.readVarint (fun length =>
         Buffer.rbind (Buffer.readBytes length) (fun bytes =>
         Buffer.ret (keys ++ [textDecoder_decode bytes]))))).
      repeat total_step.
Qed.

(** [decodeValue] returns a value or throws one of the decoder's own
    errors: the nesting bound it is given is never the reason. *)
Lemma decodeValue_never_out_of_fuel (data : list Z) (options : ResolvedDecodeOptions) :
  Decoder.decodeValue data options <> Throw OutOfFuel.
Proof.
  assert (Hrun : forall (m : Buffer.Read JsValue) r,
             Bounded m r ->
             match m r with
             | Ok (v, _) => Ok v
             | Throw e => Throw e
             end <> Throw OutOfFuel).
  { intros m r Hm. unfold Bounded in Hm.
    destruct (m r) as [[v r'] | e]; [discriminate |].
    intro H. apply Hm. inversion H. reflexivity. }
  assert (Hall : forall r, (rest_of r <= List.length data)%nat ->
             Bounded (Decoder.readValue (Decoder.depth_bound data)) r
             /\ forall keyTable,
                  Bounded (Decoder.readValueWithKeyTable (Decoder.depth_bound data) keyTable) r).
  { intros r Hr. unfold Decoder.depth_bound. split.
    - apply readValue_bounded. lia.
    - intro keyTable. apply readValueWithKeyTable_bounded. lia. }
  assert (Htable : forall r, (rest_of r <= List.length data)%nat ->
             Bounded (Buffer.rbind Decoder.readStringTable
                        (fun keyTable =>
                           Decoder.readValueWithKeyTable (Decoder.depth_bound data) keyTable)) r).
  { intros r Hr. apply Bounded_rbind; [apply readStringTable_forward_total |].
    intros keyTable r' E.
    pose proof (rest_of_forward _ r r' _ (proj1 readStringTable_forward_total) E).
    apply Hall. lia. }
  assert (Hbyte : forall r r' b, (rest_of r <= List.length data)%nat ->
             Buffer.readUint8 r = Ok (b, r') -> (rest_of r' <= List.length data)%nat).
  { intros r r' b Hr E. pose proof (readUint8_consumes r r' b E). lia. }
  unfold Decoder.decodeValue.
  assert (H0 : (rest_of (Buffer.createBinaryReader data) <= List.length data)%nat).
  { unfold rest_of. simpl. lia. }
  destruct (expectHeader options); apply Hrun.
  - apply Bounded_rbind; [apply Total_readUint8 |].
    intros firstByte r1 E1. pose proof (Hbyte _ _ _ H0 E1) as H1.
    destruct (firstByte =? nth 0 MAGIC_NUMBER 0).
    + apply Bounded_rbind; [apply Total_readUint8 |].
      intros m1 r2 E2. pose proof (Hbyte _ _ _ H1 E2) as H2.
      apply Bounded_rbind; [apply Total_readUint8 |].
      intros m2 r3 E3. pose proof (Hbyte _ _ _ H2 E3) as H3.
      apply Bounded_rbind; [apply Total_readUint8 |].
      intros m3 r4 E4. pose proof (Hbyte _ _ _ H3 E4) as H4.
      destruct (negb (m1 =? nth 1 MAGIC_NUMBER 0) || negb (m2 =? nth 2 MAGIC_NUMBER 0)
                || negb (m3 =? nth 3 MAGIC_NUMBER 0)).
      * apply Total_throw. discriminate.
      * apply Bounded_rbind; [apply Total_readUint8 |].
        intros versionOrTag r5 E5. pose proof (Hbyte _ _ _ H4 E5) as H5.
        destruct (versionOrTag =? TYPE_TAG.HEADER_WITH_STRING_TABLE).
        -- apply Htable. exact H5.
        -- destruct (FORMAT_VERSION <? versionOrTag).
           ++ apply Total_throw. discriminate.
           ++ apply Hall. exact H5.
    + destruct (firstByte =? TYPE_TAG.HEADER_WITH_STRING_TABLE).
      * apply Htable. exact H1.
      * apply Total_throw. discriminate.
  - apply Hall. exact H0.
Qed.

(** The streaming decoder also keeps both of two keys that it reads back
    as the same common key, where the eager decoder keeps one: the object
    with a key of 254 bytes that starts with a NUL character. *)
Lemma stream_keeps_duplicate_keys :
  (let* bytes := encode two_long_keys defaultEncodeOptions in
   stream_to_completion bytes defaultDecodeOptions)
  = Ok [Eheader 1; EstartObject 2; Ekey "style"; Eprimitive JNull;
        Ekey "style"; Eprimitive JNull; EendObject]
  /\ (let* bytes := encode two_long_keys defaultEncodeOptions in
      spec_stream_of_eager bytes defaultDecodeOptions)
     = Ok [Eheader 1; EstartObject 1; Ekey "style"; Eprimitive JNull; EendObject].
Proof. split; vm_compute; reflexivity. Qed.

(** ** Encoding never throws on inputs without empty slots *)

Lemma fold_bind_Ok {A X : Type} (g : A -> X -> Result A) (l : list X) :
  Forall (fun x => forall a, exists a', g a x = Ok a') l ->
  forall a, exists a', fold_left (fun acc x => bind acc (fun a => g a x)) l (Ok a) = Ok a'.
Proof.
  induction 1 as [| x l Hx Hl IH]; intro a; simpl.
  - exists a. reflexivity.
  - destruct (Hx a) as [a' E]. rewrite E. apply IH.
Qed.

Lemma obj_set_json (props : list (string * JsValue)) (key : string) (value : JsValue) :
  forallb (fun kv => is_json (snd kv)) props = true ->
  is_json value = true ->
  forallb (fun kv => is_json (snd kv)) (obj_set props key value) = true.
Proof.
  intros Hprops Hvalue. induction props as [| [k v] props IH]; simpl.
  - rewrite Hvalue. reflexivity.
  - simpl in Hprops. apply andb_true_iff in Hprops. destruct Hprops as [Hv Hrest].
    destruct (String.eqb k key); simpl.
    + rewrite Hvalue, Hrest. reflexivity.
    + rewrite Hv, IH by exact Hrest. reflexivity.
Qed.

(** On an input without empty slots [normalizeValue] returns a
    [JsonValue]. *)
Lemma normalizeValue_json (input : JsValue) :
  dense input = true -> is_json (Encoder.normalizeValue input) = true.
Proof.
  induction input as [v Hleaf | items Hitems | props Hprops] using JsValue_induction;
    intro Hdense.
  - destruct v; try discriminate Hleaf; reflexivity.
  - simpl in *. rewrite forallb_forall in Hdense. rewrite Forall_forall in Hitems.
    apply forallb_forall. intros slot Hin. apply in_map_iff in Hin.
    destruct Hin as ([item |] & Hslot & Hin); subst slot.
    + apply (Hitems _ Hin). exact (Hdense _ Hin).
    + exact (Hdense _ Hin).
  - simpl in *.
    assert (Hacc : forall acc,
               forallb (fun kv => is_json (snd kv)) acc = true ->
               forallb (fun kv => is_json (snd kv))
                 (fold_left
                    (fun result kv =>
                       if is_undefined (snd kv) then result
                       else obj_set result (fst kv) (Encoder.normalizeValue (snd kv)))
                    props acc) = true).
    { induction Hprops as [| kv props Hkv Hrest IH]; intros acc Hjson; simpl.
      - exact Hjson.
      - simpl in Hdense. apply andb_true_iff in Hdense. destruct Hdense as [Hd Hds].
        apply IH; [exact Hds |].
        destruct (is_undefined (snd kv)); [exact Hjson |].
        apply obj_set_json; [exact Hjson | apply Hkv; exact Hd]. }
    apply Hacc. reflexivity.
Qed.

Lemma writeValue_json (v : JsValue) :
  is_json v = true -> forall buf, exists out, Encoder.writeValue buf v = Ok out.
Proof.
  induction v as [v Hleaf | items Hitems | props Hprops] using JsValue_induction;
    intros Hjson buf.
  - destruct v; try discriminate Hleaf; try discriminate Hjson;
      simpl; eexists; reflexivity.
  - simpl. destruct (Z.of_nat (List.length items) =? 0); [eexists; reflexivity |].
    apply (fold_bind_Ok
             (fun buf slot =>
                match slot with
                | Some item => Encoder.writeValue buf item
                | None => Encoder.unsupported JUndefined
                end)).
    simpl in Hjson. rewrite forallb_forall in Hjson.
    rewrite Forall_forall in Hitems |- *.
    intros [item |] Hin a.
    + apply (Hitems _ Hin). exact (Hjson _ Hin).
    + discriminate (Hjson _ Hin).
  - simpl. destruct (Z.of_nat (List.length props) =? 0); [eexists; reflexivity |].
    apply (fold_bind_Ok
             (fun buf kv =>
                Encoder.writeValue (Encoder.writeKeyString buf (fst kv)) (snd kv))).
    simpl in Hjson. rewrite forallb_forall in Hjson.
    rewrite Forall_forall in Hprops |- *.
    intros kv Hin a. apply (Hprops _ Hin). exact (Hjson _ Hin).
Qed.

Lemma writeValueWithKeyMap_json (keyMap : list string) (v : JsValue) :
  is_json v = true ->
  forall buf, exists out, Encoder.writeValueWithKeyMap buf v keyMap = Ok out.
Proof.
  induction v as [v Hleaf | items Hitems | props Hprops] using JsValue_induction;
    intros Hjson buf.
  - destruct v; try discriminate Hleaf; try discriminate Hjson;
      simpl; eexists; reflexivity.
  - simpl. destruct (Z.of_nat (List.length items) =? 0); [eexists; reflexivity |].
    apply (fold_bind_Ok
             (fun buf slot =>
                match slot with
                | Some item => Encoder.writeValueWithKeyMap buf item keyMap
                | None => Encoder.unsupported JUndefined
                end)).
    simpl in Hjson. rewrite forallb_forall in Hjson.
    rewrite Forall_forall in Hitems |- *.
    intros [item |] Hin a.
    + apply (Hitems _ Hin). exact (Hjson _ Hin).
    + discriminate (Hjson _ Hin).
  - simpl. destruct (Z.of_nat (List.length props) =? 0); [eexists; reflexivity |].
    apply (fold_bind_Ok
             (fun buf kv =>
                Encoder.writeValueWithKeyMap
                  (Encoder.writeKeyIndex buf (Encoder.keyMap_get keyMap (fst kv)))
                  (snd kv) keyMap)).
    simpl in Hjson. rewrite forallb_forall in Hjson.
    rewrite Forall_forall in Hprops |- *.
    intros kv Hin a. apply (Hprops _ Hin). exact (Hjson _ Hin).
Qed.


(** ** What the stream yields rebuilds the eager decoder's tree *)

Lemma gbind_Ok_inv {A B : Type} (m : Stream.Gen A) (k : A -> Stream.Gen B)
    (r r' : Buffer.BinaryReader) (evs : list BoonStreamEvent) (b : B) :
  Stream.gbind m k r = (evs, Ok (b, r')) ->
  exists evs1 a r1 evs2,
    m r = (evs1, Ok (a, r1)) /\ k a r1 = (evs2, Ok (b, r')) /\ evs = evs1 ++ evs2.
Proof.
  unfold Stream.gbind. intro H.
  destruct (m r) as [evs1 [[a r1] | e]] eqn:Em; [| inversion H].
  destruct (k a r1) as [evs2 res] eqn:E.
  inversion H; subst.
  exists evs1, a, r1, evs2. split; [reflexivity | split; [exact E | reflexivity]].
Qed.

Lemma lift_Ok_inv {A : Type} (m : Buffer.Read A)
    (r r' : Buffer.BinaryReader) (evs : list BoonStreamEvent) (a : A) :
  Stream.lift m r = (evs, Ok (a, r')) -> evs = [] /\ m r = Ok (a, r').
Proof. unfold Stream.lift. intro H. inversion H; subst. split; reflexivity. Qed.

Lemma yield_inv (ev : BoonStreamEvent)
    (r r' : Buffer.BinaryReader) (evs : list BoonStreamEvent) (u : unit) :
  Stream.yield ev r = (evs, Ok (u, r')) -> evs = [ev] /\ r' = r.
Proof. unfold Stream.yield. intro H. inversion H; subst. split; reflexivity. Qed.

Lemma rbind_Ok {A B : Type} (m : Buffer.Read A) (k : A -> Buffer.Read B)
    (r r1 : Buffer.BinaryReader) (a : A) :
  m r = Ok (a, r1) -> Buffer.rbind m k r = k a r1.
Proof. unfold Buffer.rbind. intro H. rewrite H. reflexivity. Qed.

(** The length reads of the stream and of the eager decoder. *)
Lemma getArrayLength_readLength (tag n : Z) (r r1 : Buffer.BinaryReader) :
  Stream.getArrayLength tag r = Ok (n, r1) ->
  (Decoder.readLength "array" TYPE_TAG.ARRAY_EMPTY TYPE_TAG.ARRAY_SHORT
     TYPE_TAG.ARRAY_MEDIUM TYPE_TAG.ARRAY_LONG tag r = Ok (None, r1) /\ n = 0)
  \/ Decoder.readLength "array" TYPE_TAG.ARRAY_EMPTY TYPE_TAG.ARRAY_SHORT
       TYPE_TAG.ARRAY_MEDIUM TYPE_TAG.ARRAY_LONG tag r = Ok (Some n, r1).
Proof.
  unfold Stream.getArrayLength, Decoder.readLength. intro H.
  destruct (tag =? TYPE_TAG.ARRAY_EMPTY).
  { left. inversion H; subst. split; reflexivity. }
  right.
  repeat match goal with
         | |- context [if ?b then _ else _] => destruct b
         end;
    try (rewrite (rbind_Ok _ _ _ _ _ H); reflexivity).
  discriminate H.
Qed.

Lemma getObjectKeyCount_readLength (tag n : Z) (r r1 : Buffer.BinaryReader) :
  Stream.getObjectKeyCount tag r = Ok (n, r1) ->
  (Decoder.readLength "object" TYPE_TAG.OBJECT_EMPTY TYPE_TAG.OBJECT_SHORT
     TYPE_TAG.OBJECT_MEDIUM TYPE_TAG.OBJECT_LONG tag r = Ok (None, r1) /\ n = 0)
  \/ Decoder.readLength "object" TYPE_TAG.OBJECT_EMPTY TYPE_TAG.OBJECT_SHORT
       TYPE_TAG.OBJECT_MEDIUM TYPE_TAG.OBJECT_LONG tag r = Ok (Some n, r1).
Proof.
  unfold Stream.getObjectKeyCount, Decoder.readLength. intro H.
  destruct (tag =? TYPE_TAG.OBJECT_EMPTY).
  { left. inversion H; subst. split; reflexivity. }
  right.
  repeat match goal with
         | |- context [if ?b then _ else _] => destruct b
         end;
    try (rewrite (rbind_Ok _ _ _ _ _ H); reflexivity).
  discriminate H.
Qed.

(** A key the stream resolves in the table is the key the eager decoder
    resolves. *)
Lemma stream_key_is_eager_key (table : list string) (r r1 : Buffer.BinaryReader)
    (key : string) :
  Buffer.rbind Stream.readVarint (Stream.keyTable_at table) r = Ok (key, r1) ->
  Buffer.rbind Decoder.readVarint (Decoder.keyTable_at table) r = Ok (key, r1).
Proof.
  unfold Buffer.rbind, Stream.readVarint.
  destruct (Decoder.readVarint r) as [[keyIndex r0] | e]; [| intro H; exact H].
  unfold Stream.keyTable_at, Decoder.keyTable_at, Buffer.ret, Buffer.throw.
  destruct (Z.ltb_spec keyIndex 0) as [Hneg | Hpos]; [discriminate |].
  destruct (nth_error table (Z.to_nat keyIndex)) as [k |] eqn:E; [| discriminate].
  intro H.
  assert (Hlt : (Z.to_nat keyIndex < List.length table)%nat).
  { apply nth_error_Some. rewrite E. discriminate. }
  destruct (Z.leb_spec (Z.of_nat (List.length table)) keyIndex); [lia |].
  exact H.
Qed.

Section StreamOfOneDepth.
Variable d : nat.
Variable kt : option (list string).
Variable rd : Buffer.Read JsValue.
Hypothesis Hq :
  forall r evs u r',
    Stream.streamValue d kt r = (evs, Ok (u, r')) ->
    exists v, rd r = Ok (v, r')
              /\ forall rest, rebuild d (evs ++ rest) = Some (v, rest).

Lemma array_loop_agrees (n : nat) :
  forall r evs u r' acc,
    Stream.gfor n (fun _ : unit => Stream.streamValue d kt) tt r = (evs, Ok (u, r')) ->
    exists items,
      Decoder.for_loop n
        (fun result => Buffer.rbind rd (fun v => Buffer.ret (result ++ [Some v])))
        acc r = Ok (items, r')
      /\ forall rest,
           rebuild_loop n
             (fun items evs =>
                match rebuild d evs with
                | Some (v, evs') => Some (items ++ [Some v], evs')
                | None => None
                end)
             acc (evs ++ rest) = Some (items, rest).
Proof.
  induction n as [| n IH]; intros r evs u r' acc H.
  - simpl in H. inversion H; subst. exists acc. split; reflexivity.
  - simpl in H. apply gbind_Ok_inv in H.
    destruct H as (evs1 & u1 & r1 & evs2 & H1 & H2 & ->).
    destruct (Hq _ _ _ _ H1) as (v & Hv & Hre).
    destruct u1.
    destruct (IH _ _ _ _ (acc ++ [Some v]) H2) as (items & Hloop & Hrel).
    exists items. split.
    + simpl. rewrite (rbind_Ok _ _ _ _ _ (rbind_Ok _ _ _ _ _ Hv)).
      exact Hloop.
    + intro rest. simpl. rewrite <- app_assoc, Hre. apply Hrel.
Qed.

Variable sk : Buffer.Read string.
Variable ebody : list (string * JsValue) -> Buffer.Read (list (string * JsValue)).
Hypothesis Hbody :
  forall result r key r1 v r2,
    sk r = Ok (key, r1) -> rd r1 = Ok (v, r2) ->
    ebody result r = Ok (obj_set result key v, r2).

Lemma object_loop_agrees (n : nat) :
  forall r evs u r' acc,
    Stream.gfor n
      (fun _ : unit =>
         Stream.gbind (Stream.lift sk)
           (fun key => Stream.gbind (Stream.yield (Ekey key))
                         (fun _ => Stream.streamValue d kt)))
      tt r = (evs, Ok (u, r')) ->
    exists props,
      Decoder.for_loop n ebody acc r = Ok (props, r')
      /\ forall rest,
           rebuild_loop n
             (fun props evs =>
                match evs with
                | Ekey key :: evs1 =>
                    match rebuild d evs1 with
                    | Some (v, evs') => Some (obj_set props key v, evs')
                    | None => None
                    end
                | _ => None
                end)
             acc (evs ++ rest) = Some (props, rest).
Proof.
  induction n as [| n IH]; intros r evs u r' acc H.
  - simpl in H. inversion H; subst. exists acc. split; reflexivity.
  - simpl in H. apply gbind_Ok_inv in H.
    destruct H as (evs1 & u1 & r1 & evs2 & H1 & H2 & ->).
    apply gbind_Ok_inv in H1.
    destruct H1 as (evsk & key & rk & evs3 & Hk & H3 & ->).
    apply lift_Ok_inv in Hk. destruct Hk as [-> Hk].
    apply gbind_Ok_inv in H3.
    destruct H3 as (evsy & uy & ry & evs4 & Hy & H4 & ->).
    apply yield_inv in Hy. destruct Hy as [-> ->].
    destruct (Hq _ _ _ _ H4) as (v & Hv & Hre).
    destruct u1.
    destruct (IH _ _ _ _ (obj_set acc key v) H2) as (props & Hloop & Hrel).
    exists props. split.
    + simpl. rewrite (rbind_Ok _ _ _ _ _ (Hbody acc r key rk v r1 Hk Hv)).
      exact Hloop.
    + intro rest. simpl. rewrite <- app_assoc, Hre. apply Hrel.
Qed.
End StreamOfOneDepth.

Lemma eager_read_S (d : nat) (kt : option (list string)) (r r1 : Buffer.BinaryReader)
    (tag : Z) (read : Buffer.Read JsValue) :
  Buffer.readUint8 r = Ok (tag, r1) ->
  Decoder.readScalar tag = Some read ->
  eager_read (S d) kt r = read r1.
Proof.
  intros Htag Hscalar. destruct kt as [table |]; simpl;
    rewrite (rbind_Ok _ _ _ _ _ Htag), Hscalar; reflexivity.
Qed.

(** Whenever [streamValue] runs to completion, the eager reader returns
    on the same bytes, stops at the same place, and its tree is the one
    the events rebuild, with or without a key table. *)
Lemma stream_rebuilds_eager_tree (depth : nat) :
  forall (kt : option (list string)) (r : Buffer.BinaryReader)
         (evs : list BoonStreamEvent) (u : unit) (r' : Buffer.BinaryReader),
    Stream.streamValue depth kt r = (evs, Ok (u, r')) ->
    exists v,
      eager_read depth kt r = Ok (v, r')
      /\ forall rest, rebuild depth (evs ++ rest) = Some (v, rest).
Proof.
  induction depth as [| d IH]; intros kt r evs u r' H.
  - discriminate H.
  - simpl in H. apply gbind_Ok_inv in H.
    destruct H as (evs0 & tag & r1 & evs1 & Htag & H & ->).
    apply lift_Ok_inv in Htag. destruct Htag as [-> Htag].
    destruct (Decoder.readScalar tag) as [read |] eqn:Hscalar.
    { apply gbind_Ok_inv in H.
      destruct H as (evs2 & value & r2 & evs3 & Hread & Hy & ->).
      apply lift_Ok_inv in Hread. destruct Hread as [-> Hread].
      apply yield_inv in Hy. destruct Hy as [-> ->].
      exists value. split.
      - rewrite (eager_read_S d kt r r1 tag read Htag Hscalar). exact Hread.
      - intro rest. reflexivity. }
    destruct (Decoder.is_array_tag tag) eqn:Harr;
      [| destruct (Decoder.is_object_tag tag) eqn:Hobj; [| discriminate H]].
    + apply gbind_Ok_inv in H.
      destruct H as (evs2 & length & r2 & evs3 & Hlen & H & ->).
      apply lift_Ok_inv in Hlen. destruct Hlen as [-> Hlen].
      apply gbind_Ok_inv in H.
      destruct H as (evs4 & u4 & r4 & evs5 & Hy & H & ->).
      apply yield_inv in Hy. destruct Hy as [-> ->].
      apply gbind_Ok_inv in H.
      destruct H as (evs6 & u6 & r6 & evs7 & Hloop & Hy & ->).
      apply yield_inv in Hy. destruct Hy as [-> ->].
      destruct (array_loop_agrees d kt (eager_read d kt) (IH kt)
                  (Z.to_nat length) r2 evs6 u6 r6 [] Hloop)
        as (items & Hitems & Hre).
      destruct (getArrayLength_readLength tag length r1 r2 Hlen)
        as [[Hnone ->] | Hsome].
      * simpl in Hitems. inversion Hitems; subst.
        simpl in Hloop. inversion Hloop; subst.
        exists (JArr []). split.
        -- destruct kt as [table |]; simpl;
             rewrite (rbind_Ok _ _ _ _ _ Htag), Hscalar, Harr,
               (rbind_Ok _ _ _ _ _ Hnone); reflexivity.
        -- intro rest. reflexivity.
      * exists (JArr items). split.
        -- destruct kt as [table |]; simpl;
             rewrite (rbind_Ok _ _ _ _ _ Htag), Hscalar, Harr,
               (rbind_Ok _ _ _ _ _ Hsome);
             simpl in Hitems; rewrite (rbind_Ok _ _ _ _ _ Hitems); reflexivity.
        -- intro rest. cbn [app]. rewrite <- app_assoc. cbn [app].
           cbn [rebuild]. rewrite Hre. reflexivity.
    + apply gbind_Ok_inv in H.
      destruct H as (evs2 & keyCount & r2 & evs3 & Hlen & H & ->).
      apply lift_Ok_inv in Hlen. destruct Hlen as [-> Hlen].
      apply gbind_Ok_inv in H.
      destruct H as (evs4 & u4 & r4 & evs5 & Hy & H & ->).
      apply yield_inv in Hy. destruct Hy as [-> ->].
      apply gbind_Ok_inv in H.
      destruct H as (evs6 & u6 & r6 & evs7 & Hloop & Hy & ->).
      apply yield_inv in Hy. destruct Hy as [-> ->].
      destruct kt as [table |].
      * destruct (object_loop_agrees d (Some table) (eager_read d (Some table))
                    (IH (Some table))
                    (Buffer.rbind Stream.readVarint (Stream.keyTable_at table))
                    (fun result =>
                       Buffer.rbind Decoder.readVarint (fun keyIndex =>
                       Buffer.rbind (Decoder.keyTable_at table keyIndex) (fun key =>
                       Buffer.rbind (Decoder.readValueWithKeyTable d table) (fun value =>
                       Buffer.ret (obj_set result key value)))))
                    ltac:(intros result ra key rb v rc Hk Hv;
                          apply stream_key_is_eager_key in Hk;
                          unfold Buffer.rbind in *;
                          destruct (Decoder.readVarint ra) as [[ki rk] | e];
                          [| discriminate Hk];
                          rewrite Hk; simpl in Hv; rewrite Hv; reflexivity)
                    (Z.to_nat keyCount) r2 evs6 u6 r6 [] Hloop)
          as (props & Hprops & Hre).
        destruct (getObjectKeyCount_readLength tag keyCount r1 r2 Hlen)
          as [[Hnone ->] | Hsome].
        -- simpl in Hprops. inversion Hprops; subst.
           simpl in Hloop. inversion Hloop; subst.
           exists (JObj []). split.
           ++ simpl. rewrite (rbind_Ok _ _ _ _ _ Htag), Hscalar, Harr, Hobj,
                (rbind_Ok _ _ _ _ _ Hnone). reflexivity.
           ++ intro rest. reflexivity.
        -- exists (JObj props). split.
           ++ simpl. rewrite (rbind_Ok _ _ _ _ _ Htag), Hscalar, Harr, Hobj,
                (rbind_Ok _ _ _ _ _ Hsome).
              rewrite (rbind_Ok _ _ _ _ _ Hprops). reflexivity.
           ++ intro rest. cbn [app]. rewrite <- app_assoc. cbn [app].
              cbn [rebuild]. rewrite Hre. reflexivity.
      * destruct (object_loop_agrees d None (eager_read d None) (IH None)
                    Stream.readKeyString
                    (fun result =>
                       Buffer.rbind Decoder.readKeyString (fun key =>
                       Buffer.rbind (Decoder.readValue d) (fun value =>
                       Buffer.ret (obj_set result key value))))
                    ltac:(intros result ra key rb v rc Hk Hv;
                          unfold Stream.readKeyString in Hk;
                          unfold Buffer.rbind; rewrite Hk; simpl in Hv;
                          rewrite Hv; reflexivity)
                    (Z.to_nat keyCount) r2 evs6 u6 r6 [] Hloop)
          as (props & Hprops & Hre).
        destruct (getObjectKeyCount_readLength tag keyCount r1 r2 Hlen)
          as [[Hnone ->] | Hsome].
        -- simpl in Hprops. inversion Hprops; subst.
           simpl in Hloop. inversion Hloop; subst.
           exists (JObj []). split.
           ++ simpl. rewrite (rbind_Ok _ _ _ _ _ Htag), Hscalar, Harr, Hobj,
                (rbind_Ok _ _ _ _ _ Hnone). reflexivity.
           ++ intro rest. reflexivity.
        -- exists (JObj props). split.
           ++ simpl. rewrite (rbind_Ok _ _ _ _ _ Htag), Hscalar, Harr, Hobj,
                (rbind_Ok _ _ _ _ _ Hsome).
              rewrite (rbind_Ok _ _ _ _ _ Hprops). reflexivity.
           ++ intro rest. cbn [app]. rewrite <- app_assoc. cbn [app].
              cbn [rebuild]. rewrite Hre. reflexivity.
Qed.

Lemma magic_bytes_read (data : list Z) (magic : list Z) (r4 : Buffer.BinaryReader) :
  Buffer.readBytes 4 (Buffer.createBinaryReader data) = Ok (magic, r4) ->
  exists b0 b1 b2 b3 rest,
    data = b0 :: b1 :: b2 :: b3 :: rest
    /\ magic = [b0; b1; b2; b3]
    /\ r4 = {| Buffer.buffer := data; Buffer.offset := 4 |}.
Proof.
  unfold Buffer.readBytes, Buffer.createBinaryReader. simpl.
  destruct (Z.ltb_spec (Z.of_nat (List.length data)) 4) as [| Hlen]; [discriminate |].
  intro H. inversion H; subst; clear H.
  destruct data as [| b0 [| b1 [| b2 [| b3 rest]]]]; simpl in Hlen; try lia.
  exists b0, b1, b2, b3, rest. repeat split.
Qed.


(* ================================================================== *)
(** ** Round trips of the fixed-width scheme *)

Lemma reader_at_app (pre b1 b2 rest : list Z) :
  reader_at pre (b1 ++ b2) rest = reader_at pre b1 (b2 ++ rest).
Proof. unfold reader_at. rewrite <- (app_assoc b1). reflexivity. Qed.

Lemma reader_past_at (pre b1 b2 rest : list Z) :
  reader_past pre b1 (b2 ++ rest) = reader_at (pre ++ b1) b2 rest.
Proof. unfold reader_past, reader_at. rewrite length_app, <- app_assoc. reflexivity. Qed.

Lemma reader_past_app (pre b1 b2 rest : list Z) :
  reader_past (pre ++ b1) b2 rest = reader_past pre (b1 ++ b2) rest.
Proof.
  unfold reader_past. rewrite !length_app, <- !app_assoc, Nat.add_assoc. reflexivity.
Qed.

Lemma Reads_ret {A : Type} (a : A) : Reads (Buffer.ret a) [] a.
Proof.
  intros pre rest. unfold Buffer.ret, reader_at, reader_past. simpl.
  rewrite Nat.add_0_r. reflexivity.
Qed.

Lemma Reads_bind {A B : Type} (m : Buffer.Read A) (k : A -> Buffer.Read B)
    (b1 b2 : list Z) (a : A) (b : B) :
  Reads m b1 a -> Reads (k a) b2 b -> Reads (Buffer.rbind m k) (b1 ++ b2) b.
Proof.
  intros Hm Hk pre rest. unfold Buffer.rbind.
  rewrite reader_at_app, Hm, reader_past_at, Hk, reader_past_app. reflexivity.
Qed.

Lemma Reads_readUint8 (b : Z) : Reads Buffer.readUint8 [b] b.
Proof. intros pre rest. rewrite readUint8_at. rewrite reader_past_one. reflexivity. Qed.

Lemma slice_at (pre bytes rest : list Z) :
  Buffer.slice (reader_at pre bytes rest) (List.length bytes) = bytes.
Proof.
  unfold Buffer.slice, reader_at. simpl.
  rewrite skipn_app, skipn_all, Nat.sub_diag. simpl.
  rewrite firstn_app, firstn_all, Nat.sub_diag. simpl. apply app_nil_r.
Qed.

Lemma Reads_read_fixed {A : Type} (n : nat) (what : string) (view : list Z -> A)
    (bytes : list Z) :
  List.length bytes = n -> Reads (Buffer.read_fixed n what view) bytes (view bytes).
Proof.
  intros <- pre rest. unfold Buffer.read_fixed.
  replace (Nat.ltb _ _) with false.
  - rewrite slice_at. reflexivity.
  - symmetry. apply Nat.ltb_ge. unfold reader_at. simpl. rewrite !length_app. lia.
Qed.

Lemma Reads_readBytes (bytes : list Z) :
  Reads (Buffer.readBytes (Z.of_nat (List.length bytes))) bytes bytes.
Proof.
  intros pre rest. unfold Buffer.readBytes.
  replace (_ <? _) with false.
  - rewrite Nat2Z.id, slice_at. reflexivity.
  - symmetry. apply Z.ltb_ge. unfold reader_at. simpl. rewrite !length_app. lia.
Qed.

Lemma Reads_readVarint (n : Z) (bytes : list Z) :
  Leb128 n bytes -> n < 2 ^ 31 -> Reads Decoder.readVarint bytes n.
Proof.
  intros Hleb Hn pre rest. unfold Decoder.readVarint.
  pose proof (Leb128_nonneg _ _ Hleb) as Hpos.
  assert (Hfuel : (List.length bytes
                   <= S (Z.to_nat (Buffer.remaining (reader_at pre bytes rest))))%nat).
  { unfold Buffer.remaining, reader_at. simpl. rewrite !length_app. lia. }
  assert (Hacc : 0 <= 0 < 2 ^ 0) by (simpl; lia).
  assert (Hsum : 0 + n * 2 ^ 0 < 2 ^ 31) by (simpl; lia).
  rewrite (readVarint_loop_Leb128 n bytes Hleb _ 0 0 pre rest
             ltac:(lia) Hacc Hsum Hfuel).
  do 2 f_equal. simpl. lia.
Qed.

Lemma f64_fields (bits : Z) :
  0 <= bits < 2 ^ 64 ->
  bits = f64_sign bits * 2 ^ 63 + f64_exp bits * 2 ^ 52 + f64_mant bits
  /\ 0 <= f64_sign bits <= 1
  /\ 0 <= f64_exp bits < 2048
  /\ 0 <= f64_mant bits < 2 ^ 52.
Proof.
  intro H. unfold f64_sign, f64_exp, f64_mant.
  change 0x7FF with (Z.ones 11). change (2 ^ 52 - 1) with (Z.ones 52).
  rewrite !Z.land_ones by lia. rewrite !Z.shiftr_div_pow2 by lia.
  change (2 ^ 64) with 18446744073709551616 in H.
  change (2 ^ 63) with 9223372036854775808.
  change (2 ^ 52) with 4503599627370496.
  change (2 ^ 11) with 2048.
  Z.div_mod_to_equations. lia.
Qed.

Lemma f32_fields (s e m : Z) :
  0 <= s <= 1 -> 0 <= e < 256 -> 0 <= m < 2 ^ 23 ->
  Z.shiftr (s * 2 ^ 31 + e * 2 ^ 23 + m) 31 = s
  /\ Z.land (Z.shiftr (s * 2 ^ 31 + e * 2 ^ 23 + m) 23) 0xFF = e
  /\ Z.land (s * 2 ^ 31 + e * 2 ^ 23 + m) (2 ^ 23 - 1) = m.
Proof.
  intros Hs He Hm.
  change 0xFF with (Z.ones 8). change (2 ^ 23 - 1) with (Z.ones 23).
  rewrite !Z.land_ones by lia. rewrite !Z.shiftr_div_pow2 by lia.
  change (2 ^ 31) with 2147483648.
  change (2 ^ 23) with 8388608 in *.
  change (2 ^ 8) with 256.
  Z.div_mod_to_equations. lia.
Qed.

Lemma subnormal_one (k : Z) (s m : Z) :
  30 <= k <= 52 ->
  0 <= s <= 1 -> 0 <= m < 2 ^ 52 ->
  (2 ^ 52 + m) mod 2 ^ k = 0 ->
  f64_of_f32 (Z.shiftl s 31 + Z.shiftr (2 ^ 52 + m) k)
  = s * 2 ^ 63 + (926 - k) * 2 ^ 52 + m.
Proof.
  intros Hk Hs Hm Hdiv.
  rewrite Z.shiftl_mul_pow2, Z.shiftr_div_pow2 by lia.
  set (M := (2 ^ 52 + m) / 2 ^ k).
  assert (Hpk : 0 < 2 ^ k) by (apply Z.pow_pos_nonneg; lia).
  assert (HM : 2 ^ 52 + m = M * 2 ^ k).
  { unfold M. pose proof (Z.div_mod (2 ^ 52 + m) (2 ^ k) ltac:(lia)). lia. }
  assert (Hsplit : 2 ^ 52 = 2 ^ (52 - k) * 2 ^ k).
  { rewrite <- Z.pow_add_r by lia. f_equal. lia. }
  assert (Hp52 : 0 < 2 ^ (52 - k)) by (apply Z.pow_pos_nonneg; lia).
  assert (HMlo : 2 ^ (52 - k) <= M) by nia.
  assert (HMhi : M < 2 ^ (52 - k + 1)).
  { rewrite Z.pow_add_r by lia. change (2 ^ 1) with 2. nia. }
  assert (Hle23 : 2 ^ (52 - k + 1) <= 2 ^ 23) by (apply Z.pow_le_mono_r; lia).
  assert (Hlog : Z.log2 M = 52 - k) by (apply Z.log2_unique; lia).
  destruct (f32_fields s 0 M ltac:(lia) ltac:(lia) ltac:(lia)) as (F1 & F2 & F3).
  replace (s * 2 ^ 31 + M) with (s * 2 ^ 31 + 0 * 2 ^ 23 + M) by lia.
  unfold f64_of_f32. cbv zeta. rewrite F1, F2, F3.
  change (0 =? 255) with false. change (0 =? 0) with true. cbv iota.
  replace (M =? 0) with false by (symmetry; apply Z.eqb_neq; lia).
  rewrite Hlog.
  rewrite !Z.shiftl_mul_pow2 by lia.
  replace (52 - (52 - k)) with k by lia.
  replace (52 - k - 149 + 1023) with (926 - k) by lia.
  nia.
Qed.

Lemma float32_roundtrip (bits : Z) :
  0 <= bits < 2 ^ 64 ->
  fits_float32 bits = true ->
  f64_of_f32 (f32_of_f64 bits) = bits /\ 0 <= f32_of_f64 bits < 2 ^ 32.
Proof.
  intros Hb Hfit.
  destruct (f64_fields bits Hb) as (D & Hs & He & Hm).
  unfold fits_float32 in Hfit. unfold f32_of_f64. cbv zeta in *.
  set (s := f64_sign bits) in *. set (e := f64_exp bits) in *.
  set (m := f64_mant bits) in *.
  destruct (Z.eqb_spec e 2047) as [E1 | E1].
  - (* infinities *)
    apply Z.eqb_eq in Hfit. rewrite Hfit. change (0 =? 0) with true. cbv iota.
    rewrite !Z.shiftl_mul_pow2 by lia.
    destruct (f32_fields s 255 0 ltac:(lia) ltac:(lia) ltac:(lia)) as (F1 & F2 & F3).
    replace (s * 2 ^ 31 + 255 * 2 ^ 23 + 0) with (s * 2 ^ 31 + 255 * 2 ^ 23 + 0) by lia.
    split.
    + unfold f64_of_f32. cbv zeta. rewrite F1, F2, F3.
      change (255 =? 255) with true. change (0 =? 0) with true. cbv iota.
      rewrite !Z.shiftl_mul_pow2 by lia. lia.
    + change (2 ^ 31) with 2147483648. change (2 ^ 23) with 8388608.
      change (2 ^ 32) with 4294967296. lia.
  - destruct (Z.eqb_spec e 0) as [E0 | E0]; [discriminate |].
    destruct (Z.leb_spec (-126) (e - 1023)) as [L1 | L1];
      destruct (Z.leb_spec (e - 1023) 127) as [L2 | L2]; cbn [andb] in Hfit.
    + (* normal binary32 *)
      apply Z.eqb_eq in Hfit.
      rewrite !Z.shiftl_mul_pow2, Z.shiftr_div_pow2 by lia.
      assert (Hm29 : m = 2 ^ 29 * (m / 2 ^ 29)).
      { pose proof (Z.div_mod m (2 ^ 29) ltac:(lia)). lia. }
      assert (Hq : 0 <= m / 2 ^ 29 < 2 ^ 23).
      { change (2 ^ 52) with (2 ^ 29 * 2 ^ 23) in Hm.
        change (2 ^ 29) with 536870912 in *. change (2 ^ 23) with 8388608 in *. lia. }
      destruct (f32_fields s (e - 1023 + 127) (m / 2 ^ 29)
                  ltac:(lia) ltac:(lia) ltac:(lia)) as (F1 & F2 & F3).
      split.
      * unfold f64_of_f32. cbv zeta. rewrite F1, F2, F3.
        replace (e - 1023 + 127 =? 255) with false by (symmetry; apply Z.eqb_neq; lia).
        replace (e - 1023 + 127 =? 0) with false by (symmetry; apply Z.eqb_neq; lia).
        rewrite !Z.shiftl_mul_pow2 by lia.
        replace (e - 1023 + 127 - 127 + 1023) with e by lia.
        lia.
      * change (2 ^ 31) with 2147483648. change (2 ^ 23) with 8388608 in *.
        change (2 ^ 32) with 4294967296. lia.
    + destruct ((-149 <=? e - 1023) && (e - 1023 <? -126)) eqn:C; [| discriminate].
      apply andb_true_iff in C. destruct C as [C1 C2].
      apply Z.leb_le in C1. apply Z.ltb_lt in C2. lia.
    + destruct (Z.leb_spec (-149) (e - 1023)) as [L3 | L3]; cbn [andb] in Hfit;
        [| discriminate].
      destruct (Z.ltb_spec (e - 1023) (-126)) as [L4 | L4]; [| discriminate].
      apply Z.eqb_eq in Hfit.
      split.
      * rewrite (subnormal_one (-97 - (e - 1023)) s m) by (assumption || lia).
        lia.
      * rewrite Z.shiftl_mul_pow2, Z.shiftr_div_pow2 by lia.
        assert (Hpk : 2 ^ 30 <= 2 ^ (-97 - (e - 1023))) by (apply Z.pow_le_mono_r; lia).
        assert (0 <= (2 ^ 52 + m) / 2 ^ (-97 - (e - 1023)) < 2 ^ 23).
        { split.
          - apply Z.div_pos; lia.
          - apply Z.div_lt_upper_bound; [lia |].
            change (2 ^ 52) with (2 ^ 30 * 2 ^ 22) in *.
            change (2 ^ 23) with (2 * 2 ^ 22).
            change (2 ^ 30) with 1073741824 in *. change (2 ^ 22) with 4194304 in *. nia. }
        change (2 ^ 31) with 2147483648. change (2 ^ 23) with 8388608 in *.
        change (2 ^ 32) with 4294967296. lia.
    + lia.
Qed.

Lemma be_bytes_length (n : nat) : forall z, List.length (be_bytes n z) = n.
Proof.
  induction n as [| n IH]; intro z; simpl; [reflexivity |].
  rewrite length_app, IH. simpl. lia.
Qed.

Lemma be_value_snoc (l : list Z) (b : Z) : be_value (l ++ [b]) = be_value l * 256 + b.
Proof. unfold be_value. rewrite fold_left_app. reflexivity. Qed.

Lemma be_value_be_bytes (n : nat) :
  forall z, be_value (be_bytes n z) = z mod 2 ^ (8 * Z.of_nat n).
Proof.
  induction n as [| n IH]; intro z.
  - simpl. rewrite Z.mod_1_r. reflexivity.
  - cbn [be_bytes]. rewrite be_value_snoc, IH, Z.shiftr_div_pow2 by lia.
    replace (8 * Z.of_nat (S n)) with (8 + 8 * Z.of_nat n) by lia.
    rewrite Z.pow_add_r by lia. change (2 ^ 8) with 256.
    assert (Hp : 0 < 2 ^ (8 * Z.of_nat n)) by (apply Z.pow_pos_nonneg; lia).
    rewrite Z.rem_mul_r by lia. lia.
Qed.

Lemma be_value_be_bytes_small (n : nat) (z : Z) :
  0 <= z < 2 ^ (8 * Z.of_nat n) -> be_value (be_bytes n z) = z.
Proof. intro H. rewrite be_value_be_bytes. apply Z.mod_small. exact H. Qed.

Lemma to_signed_be (n : nat) (z : Z) :
  (0 < n)%nat ->
  - 2 ^ (8 * Z.of_nat n - 1) <= z < 2 ^ (8 * Z.of_nat n - 1) ->
  to_signed (8 * Z.of_nat n) (be_value (be_bytes n z)) = z.
Proof.
  intros Hn Hz. rewrite be_value_be_bytes. unfold to_signed.
  rewrite Z.mod_mod by (apply Z.pow_nonzero; lia).
  set (w := 8 * Z.of_nat n) in *.
  assert (Hw : 2 ^ w = 2 * 2 ^ (w - 1)).
  { replace w with (1 + (w - 1)) at 1 by lia. rewrite Z.pow_add_r by lia. reflexivity. }
  assert (Hp : 0 < 2 ^ (w - 1)) by (apply Z.pow_pos_nonneg; lia).
  destruct (Z.neg_nonneg_cases z) as [Hneg | Hpos].
  - rewrite <- (Z.mod_add z 1 (2 ^ w)) by lia.
    rewrite Z.mod_small by lia.
    destruct (Z.ltb_spec (z + 1 * 2 ^ w) (2 ^ (w - 1))); lia.
  - rewrite Z.mod_small by lia.
    destruct (Z.ltb_spec z (2 ^ (w - 1))); lia.
Qed.

Lemma ascii_byte_roundtrip (a : ascii) : ascii_of_byte (byte_of_ascii a) = a.
Proof.
  unfold ascii_of_byte, byte_of_ascii. rewrite N2Z.id. apply ascii_N_embedding.
Qed.

Lemma text_roundtrip (s : string) : textDecoder_decode (textEncoder_encode s) = s.
Proof.
  unfold textDecoder_decode, textEncoder_encode.
  rewrite map_map.
  rewrite (map_ext _ (fun a => a)) by apply ascii_byte_roundtrip.
  rewrite map_id. apply string_of_list_ascii_of_string.
Qed.

Lemma Reads_map {A B : Type} (m : Buffer.Read A) (f : A -> B) (bytes : list Z) (a : A) :
  Reads m bytes a -> Reads (Buffer.rbind m (fun x => Buffer.ret (f x))) bytes (f a).
Proof.
  intro H. rewrite <- (app_nil_r bytes).
  apply (Reads_bind m _ bytes [] a); [exact H | apply Reads_ret].
Qed.

Lemma Reads_readInt8 (b : Z) : Reads Buffer.readInt8 [b] (to_signed 8 b).
Proof.
  intros pre rest. unfold Buffer.readInt8, reader_at. simpl.
  destruct (Nat.leb_spec (List.length (pre ++ b :: rest)) (List.length pre))
    as [Hle | _].
  - exfalso. rewrite length_app in Hle. simpl in Hle. lia.
  - rewrite nth_reader. reflexivity.
Qed.

Lemma to_signed_8 (z : Z) : -128 <= z <= 127 -> to_signed 8 (z mod 256) = z.
Proof.
  intro H. pose proof (to_signed_be 1 z ltac:(lia)) as E.
  change (8 * Z.of_nat 1 - 1) with 7 in E. change (8 * Z.of_nat 1) with 8 in E.
  change (2 ^ 7) with 128 in E.
  cbn [be_bytes app] in E. unfold be_value in E. cbn [fold_left] in E.
  rewrite Z.mul_0_l, Z.add_0_l in E. apply E. lia.
Qed.

(** The scalar reads, on the bytes the writer stores. *)
Lemma number_roundtrip (n : Number) :
  wire_number n = true ->
  exists tag payload read,
    (forall buf, Encoder.writeNumber buf n = buf ++ tag :: payload)
    /\ Decoder.readScalar tag = Some read
    /\ Reads read payload (JNum n).
Proof.
  destruct n as [z | bits]; cbn [wire_number]; intro Hw.
  - unfold int64_double in Hw.
    apply andb_true_iff in Hw. destruct Hw as [Hw Hr].
    apply andb_true_iff in Hw. destruct Hw as [Hlo Hhi].
    apply Z.leb_le in Hlo. apply Z.ltb_lt in Hhi. apply Z.eqb_eq in Hr.
    change (2 ^ 63) with 9223372036854775808 in Hlo, Hhi.
    unfold Encoder.writeNumber, INT8_MIN, INT8_MAX, INT16_MIN, INT16_MAX,
      INT32_MIN, INT32_MAX, UINT8_MAX, UINT16_MAX, UINT32_MAX.
    destruct (Z.leb_spec (-128) z); destruct (Z.leb_spec z 127); cbn [andb].
    1: { exists TYPE_TAG.INT8, (be_bytes 1 z). eexists. split; [| split].
         - intro buf. unfold Encoder.put_be, Encoder.writeTag, Encoder.put.
           rewrite <- app_assoc. reflexivity.
         - reflexivity.
         - cbn [be_bytes app].
           rewrite <- (to_signed_8 z) at 2 by lia.
           apply (Reads_map Buffer.readInt8 (fun v => JNum (NInt v))).
           apply Reads_readInt8. }
    all: destruct (Z.leb_spec (-32768) z); destruct (Z.leb_spec z 32767); cbn [andb].
    all: try (exists TYPE_TAG.INT16, (be_bytes 2 z); eexists; split; [| split];
         [ intro buf; unfold Encoder.put_be, Encoder.writeTag, Encoder.put;
           rewrite <- app_assoc; reflexivity
         | reflexivity
         | rewrite <- (to_signed_be 2 z) at 2 by (simpl; lia);
           apply (Reads_map Buffer.readInt16 (fun v => JNum (NInt v)));
           apply (Reads_read_fixed 2 "int16" (fun bs => to_signed 16 (be_value bs)));
           apply be_bytes_length ]).
    all: destruct (Z.leb_spec (-2147483648) z); destruct (Z.leb_spec z 2147483647);
      cbn [andb].
    all: try (exists TYPE_TAG.INT32, (be_bytes 4 z); eexists; split; [| split];
         [ intro buf; unfold Encoder.put_be, Encoder.writeTag, Encoder.put;
           rewrite <- app_assoc; reflexivity
         | reflexivity
         | rewrite <- (to_signed_be 4 z) at 2 by (simpl; lia);
           apply (Reads_map Buffer.readInt32 (fun v => JNum (NInt v)));
           apply (Reads_read_fixed 4 "int32" (fun bs => to_signed 32 (be_value bs)));
           apply be_bytes_length ]).
    all: try lia.
    all: destruct (Z.leb_spec 0 z); cbn [andb].
    all: destruct (Z.leb_spec z 255); try lia.
    all: destruct (Z.leb_spec z 65535); try lia.
    all: destruct (Z.leb_spec z 4294967295).
    all: try (exists TYPE_TAG.UINT32, (be_bytes 4 z); eexists; split; [| split];
         [ intro buf; unfold Encoder.put_be, Encoder.writeTag, Encoder.put;
           rewrite <- app_assoc; reflexivity
         | reflexivity
         | rewrite <- (be_value_be_bytes_small 4 z) at 2 by (simpl; lia);
           apply (Reads_map Buffer.readUint32 (fun v => JNum (NInt v)));
           apply (Reads_read_fixed 4 "uint32" be_value);
           apply be_bytes_length ]).
    all: try (exists TYPE_TAG.INT64, (be_bytes 8 z); eexists; split; [| split];
         [ intro buf; unfold Encoder.put_be, Encoder.writeTag, Encoder.put;
           rewrite <- app_assoc; reflexivity
         | reflexivity
         | rewrite <- Hr at 2; rewrite <- (to_signed_be 8 z) at 2 by (simpl; lia);
           apply (Reads_map Buffer.readBigInt64 (fun v => JNum (NInt (round53 v))));
           apply (Reads_read_fixed 8 "bigint64" (fun bs => to_signed 64 (be_value bs)));
           apply be_bytes_length ]).
  - unfold float_pattern in Hw.
    apply andb_true_iff in Hw. destruct Hw as [Hw Hn].
    apply andb_true_iff in Hw. destruct Hw as [Hlo Hhi].
    apply Z.leb_le in Hlo. apply Z.ltb_lt in Hhi.
    assert (Hnum : number_of_f64 bits = NFloat bits).
    { destruct (number_of_f64 bits) as [| b]; [discriminate |].
      apply Z.eqb_eq in Hn. congruence. }
    unfold Encoder.writeNumber.
    destruct (fits_float32 bits) eqn:Hfit.
    + destruct (float32_roundtrip bits ltac:(lia) Hfit) as (Hback & Hrange).
      exists TYPE_TAG.FLOAT32, (be_bytes 4 (f32_of_f64 bits)). eexists.
      split; [| split].
      * intro buf. unfold Encoder.put_be, Encoder.writeTag, Encoder.put.
        rewrite <- app_assoc. reflexivity.
      * reflexivity.
      * assert (E : number_of_f64 (f64_of_f32 (be_value (be_bytes 4 (f32_of_f64 bits))))
                    = NFloat bits).
        { rewrite be_value_be_bytes_small by (simpl; lia). rewrite Hback. exact Hnum. }
        rewrite <- E.
        apply (Reads_map Buffer.readFloat32 JNum).
        apply (Reads_read_fixed 4 "float32"
                 (fun bs => number_of_f64 (f64_of_f32 (be_value bs)))).
        apply be_bytes_length.
    + exists TYPE_TAG.FLOAT64, (be_bytes 8 bits). eexists.
      split; [| split].
      * intro buf. unfold Encoder.put_be, Encoder.writeTag, Encoder.put.
        rewrite <- app_assoc. reflexivity.
      * reflexivity.
      * assert (E : number_of_f64 (be_value (be_bytes 8 bits)) = NFloat bits).
        { rewrite be_value_be_bytes_small by (simpl; lia). exact Hnum. }
        rewrite <- E.
        apply (Reads_map Buffer.readFloat64 JNum).
        apply (Reads_read_fixed 8 "float64" (fun bs => number_of_f64 (be_value bs))).
        apply be_bytes_length.
Qed.

Lemma sized_roundtrip (what : string) (empty short medium long len : Z) :
  0 <= len < 2 ^ 32 ->
  0 <= short < 256 -> 0 <= medium < 256 -> 0 <= long < 256 ->
  empty <> short -> empty <> medium -> empty <> long ->
  short <> medium -> short <> long -> medium <> long ->
  exists tag field,
    (forall buf, Encoder.writeSized buf short medium long len = buf ++ tag :: field)
    /\ (tag = short \/ tag = medium \/ tag = long)
    /\ Reads (Decoder.readLength what empty short medium long tag) field (Some len).
Proof.
  intros Hlen Hs Hm Hl E1 E2 E3 E4 E5 E6.
  change (2 ^ 32) with 4294967296 in Hlen.
  unfold Encoder.writeSized, MAX_SHORT_LENGTH, MAX_MEDIUM_LENGTH.
  destruct (Z.leb_spec len 255) as [L1 | L1];
    [| destruct (Z.leb_spec len 65535) as [L2 | L2]].
  - exists short, [len]. split; [| split].
    + intro buf. unfold Encoder.writeTag, Encoder.put.
      rewrite <- app_assoc. rewrite !Z.mod_small by lia. reflexivity.
    + left. reflexivity.
    + unfold Decoder.readLength.
      replace (short =? empty) with false by (symmetry; apply Z.eqb_neq; congruence).
      rewrite Z.eqb_refl.
      apply (Reads_map Buffer.readUint8 Some), Reads_readUint8.
  - exists medium, (be_bytes 2 len). split; [| split].
    + intro buf. unfold Encoder.writeTag, Encoder.put, Encoder.put_be.
      rewrite <- app_assoc. rewrite !Z.mod_small by lia. reflexivity.
    + right. left. reflexivity.
    + unfold Decoder.readLength.
      replace (medium =? empty) with false by (symmetry; apply Z.eqb_neq; congruence).
      replace (medium =? short) with false by (symmetry; apply Z.eqb_neq; congruence).
      rewrite Z.eqb_refl.
      rewrite <- (be_value_be_bytes_small 2 len) at 2 by (simpl; lia).
      apply (Reads_map Buffer.readUint16 Some).
      apply (Reads_read_fixed 2 "uint16" be_value), be_bytes_length.
  - exists long, (be_bytes 4 len). split; [| split].
    + intro buf. unfold Encoder.writeTag, Encoder.put, Encoder.put_be.
      rewrite <- app_assoc. rewrite !Z.mod_small by lia. reflexivity.
    + right. right. reflexivity.
    + unfold Decoder.readLength.
      replace (long =? empty) with false by (symmetry; apply Z.eqb_neq; congruence).
      replace (long =? short) with false by (symmetry; apply Z.eqb_neq; congruence).
      replace (long =? medium) with false by (symmetry; apply Z.eqb_neq; congruence).
      rewrite Z.eqb_refl.
      rewrite <- (be_value_be_bytes_small 4 len) at 2 by (simpl; lia).
      apply (Reads_map Buffer.readUint32 Some).
      apply (Reads_read_fixed 4 "uint32" be_value), be_bytes_length.
Qed.

Ltac tags_differ := unfold TYPE_TAG.STRING_EMPTY, TYPE_TAG.STRING_SHORT,
  TYPE_TAG.STRING_MEDIUM, TYPE_TAG.STRING_LONG, TYPE_TAG.ARRAY_EMPTY,
  TYPE_TAG.ARRAY_SHORT, TYPE_TAG.ARRAY_MEDIUM, TYPE_TAG.ARRAY_LONG,
  TYPE_TAG.OBJECT_EMPTY, TYPE_TAG.OBJECT_SHORT, TYPE_TAG.OBJECT_MEDIUM,
  TYPE_TAG.OBJECT_LONG; lia.

Lemma Reads_text (s : string) :
  Reads (Buffer.rbind
           (Buffer.readBytes (Z.of_nat (List.length (textEncoder_encode s))))
           (fun bytes => Buffer.ret (textDecoder_decode bytes)))
        (textEncoder_encode s) s.
Proof.
  pose proof (Reads_map (Buffer.readBytes _) textDecoder_decode _ _
                (Reads_readBytes (textEncoder_encode s))) as H.
  rewrite text_roundtrip in H. exact H.
Qed.

Lemma string_roundtrip (s : string) :
  wire_string s = true ->
  exists tag payload read,
    (forall buf, Encoder.writeString buf s = buf ++ tag :: payload)
    /\ Decoder.readScalar tag = Some read
    /\ Reads read payload (JStr s).
Proof.
  unfold wire_string. intro Hw.
  apply andb_true_iff in Hw. destruct Hw as [Hempty Hlen].
  apply Z.ltb_lt in Hlen. unfold byteLength in Hlen.
  unfold Encoder.writeString.
  destruct (js_length s =? 0) eqn:Hjs.
  - cbn [negb orb] in Hempty. apply String.eqb_eq in Hempty. subst s.
    exists TYPE_TAG.STRING_EMPTY, []. eexists. split; [| split].
    + intro buf. reflexivity.
    + reflexivity.
    + apply (Reads_map (Decoder.readString TYPE_TAG.STRING_EMPTY) JStr).
      unfold Decoder.readString, Decoder.readLength.
      rewrite Z.eqb_refl.
      apply (Reads_bind _ _ [] [] None); apply Reads_ret.
  - destruct (sized_roundtrip "string" TYPE_TAG.STRING_EMPTY TYPE_TAG.STRING_SHORT
                TYPE_TAG.STRING_MEDIUM TYPE_TAG.STRING_LONG
                (Z.of_nat (List.length (textEncoder_encode s))))
      as (tag & field & Hwrite & Htag & Hread); try tags_differ.
    exists tag, (field ++ textEncoder_encode s),
      (Buffer.rbind (Decoder.readString tag) (fun s => Buffer.ret (JStr s))).
    split; [| split].
    + intro buf. unfold Encoder.put_bytes. rewrite Hwrite, <- app_assoc. reflexivity.
    + destruct Htag as [-> | [-> | ->]]; reflexivity.
    + apply (Reads_map (Decoder.readString tag) JStr).
      unfold Decoder.readString.
      eapply Reads_bind; [exact Hread |].
      cbv beta iota.
      apply Reads_text.
Qed.

Lemma index_from_nth (key : string) (keys : list string) :
  forall i j,
    index_from i key keys = Some j ->
    i <= j < i + Z.of_nat (List.length keys)
    /\ nth_error keys (Z.to_nat (j - i)) = Some key.
Proof.
  induction keys as [| k keys IH]; intros i j H; [discriminate |].
  cbn [index_from] in H.
  destruct (String.eqb_spec k key) as [-> | Hne].
  - injection H as <-. rewrite Z.sub_diag. cbn [List.length]. split; [lia | reflexivity].
  - destruct (IH (i + 1) j H) as [Hr Hn]. cbn [List.length]. split; [lia |].
    replace (Z.to_nat (j - i)) with (S (Z.to_nat (j - (i + 1)))) by lia.
    exact Hn.
Qed.

Lemma common_keys_nonempty (key : string) :
  In key COMMON_KEYS -> (js_length key =? 0) = false.
Proof.
  assert (H : forallb (fun k => negb (js_length k =? 0)) COMMON_KEYS = true)
    by (vm_compute; reflexivity).
  rewrite forallb_forall in H. intro Hin. specialize (H key Hin).
  apply negb_true_iff in H. exact H.
Qed.

Lemma key_roundtrip (key : string) :
  inline_key key = true ->
  exists bytes,
    (forall buf, Encoder.writeKeyString buf key = buf ++ bytes)
    /\ Reads Decoder.readKeyString bytes key
    /\ (1 <= List.length bytes)%nat.
Proof.
  unfold inline_key, Encoder.writeKeyString. intro H.
  destruct (COMMON_KEYS_MAP_get key) as [id |] eqn:Hget.
  - unfold COMMON_KEYS_MAP_get in Hget.
    destruct (index_from_nth _ _ _ _ Hget) as [Hr Hn].
    change (Z.of_nat (List.length COMMON_KEYS)) with 128 in Hr.
    exists [id]. split; [| split].
    + intro buf. unfold Encoder.put. rewrite Z.mod_small by lia. reflexivity.
    + unfold Decoder.readKeyString. rewrite <- (app_nil_r [id]).
      eapply Reads_bind; [apply Reads_readUint8 |].
      unfold COMMON_KEY_MIN, COMMON_KEY_MAX.
      destruct (Z.leb_spec 128 id); [| lia].
      destruct (Z.leb_spec id 255); [| lia].
      cbn [andb]. rewrite Hn.
      rewrite (common_keys_nonempty key) by (eapply nth_error_In; exact Hn).
      apply Reads_ret.
    + simpl. lia.
  - apply Z.leb_le in H. unfold byteLength in H.
    destruct (Z.leb_spec (Z.of_nat (List.length (textEncoder_encode key))) 127); [| lia].
    exists (Z.of_nat (List.length (textEncoder_encode key)) :: textEncoder_encode key).
    split; [| split].
    + intro buf. unfold Encoder.put_bytes, Encoder.put.
      rewrite Z.mod_small by lia. rewrite <- app_assoc. reflexivity.
    + unfold Decoder.readKeyString.
      apply (Reads_bind _ _ [_] _ _ _ (Reads_readUint8 _)).
      unfold COMMON_KEY_MIN, COMMON_KEY_MAX.
      destruct (Z.leb_spec 128 (Z.of_nat (List.length (textEncoder_encode key)))); [lia |].
      cbn [andb].
      replace (_ =? 254) with false by (symmetry; apply Z.eqb_neq; lia).
      replace (_ =? 255) with false by (symmetry; apply Z.eqb_neq; lia).
      apply (Reads_bind _ _ [] _ _ _ (Reads_ret _)).
      apply Reads_text.
    + simpl. lia.
Qed.

Lemma Forall_exists_Forall2 {X Y : Type} (R : X -> Y -> Prop) (xs : list X) :
  Forall (fun x => exists y, R x y) xs -> exists ys, Forall2 R xs ys.
Proof.
  induction 1 as [| x xs [y Hy] _ [ys Hys]].
  - exists []. constructor.
  - exists (y :: ys). constructor; assumption.
Qed.

Lemma fold_write {X : Type} (g : list Z -> X -> Result (list Z))
    (xs : list X) (bs : list (list Z)) :
  Forall2 (fun x b => forall buf, g buf x = Ok (buf ++ b)) xs bs ->
  forall buf,
    fold_left (fun acc x => bind acc (fun buf => g buf x)) xs (Ok buf)
    = Ok (buf ++ List.concat bs).
Proof.
  induction 1 as [| x b xs bs Hx _ IH]; intro buf.
  - simpl. rewrite app_nil_r. reflexivity.
  - cbn [fold_left List.concat]. unfold bind at 2. rewrite Hx, IH, <- app_assoc. reflexivity.
Qed.

Lemma Reads_for_loop {S X : Type} (body : S -> Buffer.Read S) (f : S -> X -> S)
    (xs : list X) (bs : list (list Z)) :
  Forall2 (fun x b => forall s, Reads (body s) b (f s x)) xs bs ->
  forall s, Reads (Decoder.for_loop (List.length xs) body s) (List.concat bs) (fold_left f xs s).
Proof.
  induction 1 as [| x b xs bs Hx _ IH]; intro s.
  - apply Reads_ret.
  - cbn [List.length Decoder.for_loop List.concat fold_left].
    eapply Reads_bind; [apply Hx | apply IH].
Qed.

Lemma fold_snoc {X : Type} (xs : list X) :
  forall acc, fold_left (fun s x => s ++ [x]) xs acc = acc ++ xs.
Proof.
  induction xs as [| x xs IH]; intro acc; simpl.
  - rewrite app_nil_r. reflexivity.
  - rewrite IH, <- app_assoc. reflexivity.
Qed.

Lemma obj_set_fresh (props : list (string * JsValue)) (key : string) (value : JsValue) :
  existsb (String.eqb key) (map fst props) = false ->
  obj_set props key value = props ++ [(key, value)].
Proof.
  induction props as [| [k v] props IH]; intro H; [reflexivity |].
  cbn [map fst existsb] in H. apply orb_false_iff in H. destruct H as [Hk Hrest].
  cbn [obj_set]. rewrite String.eqb_sym, Hk. rewrite IH by exact Hrest. reflexivity.
Qed.

Lemma fold_obj_set (props : list (string * JsValue)) :
  forall acc,
    unique_keys (map fst (acc ++ props)) = true ->
    fold_left (fun s kv => obj_set s (fst kv) (snd kv)) props acc = acc ++ props.
Proof.
  induction props as [| [k v] props IH]; intros acc H.
  - simpl. rewrite app_nil_r. reflexivity.
  - cbn [fold_left fst snd].
    assert (Hfresh : existsb (String.eqb k) (map fst acc) = false).
    { clear IH. induction acc as [| [k0 v0] acc IHacc]; [reflexivity |].
      cbn [app map fst unique_keys] in H.
      apply andb_true_iff in H. destruct H as [H0 H].
      cbn [map fst existsb]. rewrite (IHacc H), orb_false_r.
      apply negb_true_iff in H0.
      rewrite map_app, existsb_app in H0. apply orb_false_iff in H0.
      destruct H0 as [_ H0]. cbn [map fst existsb] in H0.
      apply orb_false_iff in H0. destruct H0 as [H0 _].
      rewrite String.eqb_sym. exact H0. }
    rewrite obj_set_fresh by exact Hfresh.
    rewrite IH.
    + rewrite <- app_assoc. reflexivity.
    + rewrite <- app_assoc. exact H.
Qed.

Lemma readValue_scalar (d : nat) (tag : Z) (payload : list Z)
    (read : Buffer.Read JsValue) (v : JsValue) :
  Decoder.readScalar tag = Some read ->
  Reads read payload v ->
  Reads (Decoder.readValue (S d)) (tag :: payload) v.
Proof.
  intros Hs Hr. cbn [Decoder.readValue].
  apply (Reads_bind _ _ [tag] payload tag v (Reads_readUint8 tag)).
  rewrite Hs. exact Hr.
Qed.

Lemma max_height_le {X : Type} (h : X -> nat) (xs : list X) (bs : list (list Z)) :
  Forall2 (fun x b => (h x <= List.length b)%nat) xs bs ->
  (fold_right (fun x m => Nat.max (h x) m) O xs <= List.length (List.concat bs))%nat.
Proof.
  induction 1 as [| x b xs bs Hx _ IH]; [simpl; lia |].
  cbn [fold_right List.concat]. rewrite length_app. lia.
Qed.

Lemma max_height_bound {X : Type} (h : X -> nat) (xs : list X) (d : nat) :
  (fold_right (fun x m => Nat.max (h x) m) O xs <= d)%nat ->
  Forall (fun x => (h x <= d)%nat) xs.
Proof.
  induction xs as [| x xs IH]; intro H; constructor; cbn [fold_right] in H.
  - lia.
  - apply IH. lia.
Qed.

Lemma Forall2_length_eq {X Y : Type} (R : X -> Y -> Prop) (xs : list X) (ys : list Y) :
  Forall2 R xs ys -> List.length xs = List.length ys.
Proof. induction 1; simpl; congruence. Qed.

Lemma Forall2_impl_in {X Y : Type} (R R' : X -> Y -> Prop) (P : X -> Prop)
    (xs : list X) (ys : list Y) :
  (forall x y, P x -> R x y -> R' x y) ->
  Forall P xs -> Forall2 R xs ys -> Forall2 R' xs ys.
Proof.
  intros Himp HP H. induction H as [| x y xs ys Hxy _ IH]; constructor.
  - apply Himp; [inversion HP; assumption | assumption].
  - apply IH. inversion HP; assumption.
Qed.

Section Carrying.
Variable write : list Z -> JsValue -> Result (list Z).
Variable read : nat -> Buffer.Read JsValue.
Variable key_write : list Z -> string -> list Z.
Variable entry : nat -> list (string * JsValue) -> Buffer.Read (list (string * JsValue)).
Variable key_ok : string -> bool.

Hypothesis write_leaf :
  forall buf v, is_leaf v = true -> write buf v = Encoder.writeValue buf v.
Hypothesis write_array :
  forall buf items,
    write buf (JArr items)
    = if Z.of_nat (List.length items) =? 0
      then Ok (Encoder.writeTag buf TYPE_TAG.ARRAY_EMPTY)
      else fold_left
             (fun acc slot =>
                bind acc (fun buf =>
                            match slot with
                            | Some item => write buf item
                            | None => Encoder.unsupported JUndefined
                            end))
             items
             (Ok (Encoder.writeSized buf TYPE_TAG.ARRAY_SHORT TYPE_TAG.ARRAY_MEDIUM
                    TYPE_TAG.ARRAY_LONG (Z.of_nat (List.length items)))).
Hypothesis write_object :
  forall buf props,
    write buf (JObj props)
    = if Z.of_nat (List.length props) =? 0
      then Ok (Encoder.writeTag buf TYPE_TAG.OBJECT_EMPTY)
      else fold_left
             (fun acc kv =>
                bind acc (fun buf => write (key_write buf (fst kv)) (snd kv)))
             props
             (Ok (Encoder.writeSized buf TYPE_TAG.OBJECT_SHORT TYPE_TAG.OBJECT_MEDIUM
                    TYPE_TAG.OBJECT_LONG (Z.of_nat (List.length props)))).
Hypothesis read_scalar :
  forall d tag payload rd v,
    Decoder.readScalar tag = Some rd ->
    Reads rd payload v ->
    Reads (read (S d)) (tag :: payload) v.
Hypothesis read_array :
  forall d tag payload v,
    Decoder.readScalar tag = None ->
    Decoder.is_array_tag tag = true ->
    Reads (Buffer.rbind
             (Decoder.readLength "array" TYPE_TAG.ARRAY_EMPTY TYPE_TAG.ARRAY_SHORT
                TYPE_TAG.ARRAY_MEDIUM TYPE_TAG.ARRAY_LONG tag)
             (fun len =>
                match len with
                | None => Buffer.ret (JArr [])
                | Some length =>
                    Buffer.rbind
                      (Decoder.for_loop (Z.to_nat length)
                         (fun result =>
                            Buffer.rbind (read d)
                              (fun v => Buffer.ret (result ++ [Some v])))
                         [])
                      (fun result => Buffer.ret (JArr result))
                end))
          payload v ->
    Reads (read (S d)) (tag :: payload) v.
Hypothesis read_object :
  forall d tag payload v,
    Decoder.readScalar tag = None ->
    Decoder.is_array_tag tag = false ->
    Decoder.is_object_tag tag = true ->
    Reads (Buffer.rbind
             (Decoder.readLength "object" TYPE_TAG.OBJECT_EMPTY TYPE_TAG.OBJECT_SHORT
                TYPE_TAG.OBJECT_MEDIUM TYPE_TAG.OBJECT_LONG tag)
             (fun len =>
                match len with
                | None => Buffer.ret (JObj [])
                | Some keyCount =>
                    Buffer.rbind
                      (Decoder.for_loop (Z.to_nat keyCount) (entry d) [])
                      (fun result => Buffer.ret (JObj result))
                end))
          payload v ->
    Reads (read (S d)) (tag :: payload) v.
Hypothesis key_carried :
  forall key, key_ok key = true ->
    exists kb,
      (forall buf, key_write buf key = buf ++ kb)
      /\ forall d vb v s,
           Reads (read d) vb v ->
           Reads (entry d s) (kb ++ vb) (obj_set s key v).

Lemma leaf_carries (v : JsValue) :
  is_leaf v = true -> wire_value key_ok v = true ->
  exists bytes, Carries write read v bytes.
Proof.
  intros Hleaf Hw.
  assert (H : exists tag payload rd,
             (forall buf, Encoder.writeValue buf v = Ok (buf ++ tag :: payload))
             /\ Decoder.readScalar tag = Some rd
             /\ Reads rd payload v).
  { destruct v as [| | b | n | s | | | | |]; try discriminate.
    - exists TYPE_TAG.NULL, [], (Buffer.ret JNull).
      split; [intro; reflexivity | split; [reflexivity | apply Reads_ret]].
    - destruct b.
      + exists TYPE_TAG.TRUE, [], (Buffer.ret (JBool true)).
        split; [intro; reflexivity | split; [reflexivity | apply Reads_ret]].
      + exists TYPE_TAG.FALSE, [], (Buffer.ret (JBool false)).
        split; [intro; reflexivity | split; [reflexivity | apply Reads_ret]].
    - destruct (number_roundtrip n Hw) as (tag & payload & rd & H1 & H2 & H3).
      exists tag, payload, rd. split; [| split]; try assumption.
      intro buf. cbn [Encoder.writeValue]. rewrite H1. reflexivity.
    - destruct (string_roundtrip s Hw) as (tag & payload & rd & H1 & H2 & H3).
      exists tag, payload, rd. split; [| split]; try assumption.
      intro buf. cbn [Encoder.writeValue]. rewrite H1. reflexivity. }
  destruct H as (tag & payload & rd & H1 & H2 & H3).
  exists (tag :: payload). split; [| split].
  - intro buf. rewrite write_leaf by exact Hleaf. apply H1.
  - destruct v; try discriminate; simpl; lia.
  - intros [| d] Hd.
    + destruct v; try discriminate; simpl in Hd; lia.
    + eapply read_scalar; eassumption.
Qed.

Lemma array_carries (items : list (option JsValue)) (bs : list (list Z)) :
  Z.of_nat (List.length items) < 2 ^ 32 ->
  Forall2 (fun slot b => match slot with
                         | Some item => Carries write read item b
                         | None => False
                         end) items bs ->
  exists bytes, Carries write read (JArr items) bytes.
Proof.
  intros Hlen H.
  destruct items as [| slot0 items0] eqn:Hitems.
  - exists [TYPE_TAG.ARRAY_EMPTY]. split; [| split].
    + intro buf. rewrite write_array. reflexivity.
    + simpl. lia.
    + intros [| d] Hd; [simpl in Hd; lia |].
      apply read_array; [reflexivity | reflexivity |].
      unfold Decoder.readLength. rewrite Z.eqb_refl.
      apply (Reads_bind _ _ [] [] None); apply Reads_ret.
  - rewrite <- Hitems in *.
    assert (Hne : (Z.of_nat (List.length items) =? 0) = false).
    { apply Z.eqb_neq. rewrite Hitems. simpl. lia. }
    clear Hitems slot0 items0.
    destruct (sized_roundtrip "array" TYPE_TAG.ARRAY_EMPTY TYPE_TAG.ARRAY_SHORT
                TYPE_TAG.ARRAY_MEDIUM TYPE_TAG.ARRAY_LONG
                (Z.of_nat (List.length items)))
      as (tag & field & Hwrite & Htag & Hread); try tags_differ.
    exists (tag :: field ++ List.concat bs). split; [| split].
    + intro buf. rewrite write_array, Hne, Hwrite.
      rewrite (fold_write
                 (fun buf slot => match slot with
                                  | Some item => write buf item
                                  | None => Encoder.unsupported JUndefined
                                  end) items bs).
      * rewrite <- app_assoc. reflexivity.
      * eapply Forall2_impl; [| exact H].
        intros [item |] b Hc; [| contradiction]. apply Hc.
    + cbn [height List.length]. rewrite length_app.
      pose proof (max_height_le
                    (fun slot => match slot with Some item => height item | None => O end)
                    items bs) as Hm.
      assert (Hh : Forall2 (fun (slot : option JsValue) b =>
                              (match slot with Some item => height item | None => O end
                               <= List.length b)%nat) items bs).
      { eapply Forall2_impl; [| exact H].
        intros [item |] b Hc; [apply Hc | contradiction]. }
      specialize (Hm Hh). lia.
    + intros [| d] Hd; [simpl in Hd; lia |].
      cbn [height] in Hd. apply le_S_n in Hd.
      pose proof (max_height_bound
                    (fun slot => match slot with Some item => height item | None => O end)
                    items d Hd) as Hall.
      assert (Hs : Decoder.readScalar tag = None
                   /\ Decoder.is_array_tag tag = true)
        by (destruct Htag as [-> | [-> | ->]]; split; reflexivity).
      destruct Hs as [Hs Ha].
      apply read_array; [exact Hs | exact Ha |].
      eapply Reads_bind; [exact Hread |]. cbv beta iota.
      rewrite Nat2Z.id.
      rewrite <- (app_nil_r (List.concat bs)).
      eapply Reads_bind; [| apply Reads_ret].
      assert (HF : Forall2
                     (fun (slot : option JsValue) b =>
                        forall s,
                          Reads (Buffer.rbind (read d)
                                   (fun v => Buffer.ret (s ++ [Some v])))
                                b (s ++ [slot])) items bs).
      { eapply Forall2_impl_in; [| exact Hall | exact H].
        intros [item |] b Hh Hc s; [| contradiction].
        apply (Reads_map (read d) (fun v => s ++ [Some v])).
        apply Hc. exact Hh. }
      pose proof (Reads_for_loop _ (fun s slot => s ++ [slot]) items bs HF []) as Hloop.
      rewrite fold_snoc in Hloop. exact Hloop.
Qed.

Lemma object_carries (props : list (string * JsValue)) (bs : list (list Z)) :
  Z.of_nat (List.length props) < 2 ^ 32 ->
  unique_keys (map fst props) = true ->
  Forall2 (fun kv b =>
             exists kb vb,
               b = kb ++ vb
               /\ (forall buf, key_write buf (fst kv) = buf ++ kb)
               /\ (forall d vb' v s,
                     Reads (read d) vb' v ->
                     Reads (entry d s) (kb ++ vb') (obj_set s (fst kv) v))
               /\ Carries write read (snd kv) vb) props bs ->
  exists bytes, Carries write read (JObj props) bytes.
Proof.
  intros Hlen Huniq H.
  destruct props as [| kv0 props0] eqn:Hprops.
  - exists [TYPE_TAG.OBJECT_EMPTY]. split; [| split].
    + intro buf. rewrite write_object. reflexivity.
    + simpl. lia.
    + intros [| d] Hd; [simpl in Hd; lia |].
      apply read_object; [reflexivity | reflexivity | reflexivity |].
      unfold Decoder.readLength. rewrite Z.eqb_refl.
      apply (Reads_bind _ _ [] [] None); apply Reads_ret.
  - rewrite <- Hprops in *.
    assert (Hne : (Z.of_nat (List.length props) =? 0) = false).
    { apply Z.eqb_neq. rewrite Hprops. simpl. lia. }
    clear Hprops kv0 props0.
    destruct (sized_roundtrip "object" TYPE_TAG.OBJECT_EMPTY TYPE_TAG.OBJECT_SHORT
                TYPE_TAG.OBJECT_MEDIUM TYPE_TAG.OBJECT_LONG
                (Z.of_nat (List.length props)))
      as (tag & field & Hwrite & Htag & Hread); try tags_differ.
    exists (tag :: field ++ List.concat bs). split; [| split].
    + intro buf. rewrite write_object, Hne, Hwrite.
      rewrite (fold_write
                 (fun buf kv => write (key_write buf (fst kv)) (snd kv)) props bs).
      * rewrite <- app_assoc. reflexivity.
      * eapply Forall2_impl; [| exact H].
        intros kv b (kb & vb & -> & Hk & _ & Hc) buf0.
        rewrite Hk. destruct Hc as (Hc & _). rewrite Hc, <- app_assoc. reflexivity.
    + cbn [height List.length]. rewrite length_app.
      pose proof (max_height_le (fun kv : string * JsValue => height (snd kv))
                    props bs) as Hm.
      assert (Hh : Forall2 (fun (kv : string * JsValue) b =>
                              (height (snd kv) <= List.length b)%nat) props bs).
      { eapply Forall2_impl; [| exact H].
        intros kv b (kb & vb & -> & _ & _ & Hc).
        destruct Hc as (_ & Hc & _). rewrite length_app. lia. }
      specialize (Hm Hh). lia.
    + intros [| d] Hd; [simpl in Hd; lia |].
      cbn [height] in Hd. apply le_S_n in Hd.
      pose proof (max_height_bound (fun kv : string * JsValue => height (snd kv))
                    props d Hd) as Hall.
      assert (Hs : Decoder.readScalar tag = None
                   /\ Decoder.is_array_tag tag = false
                   /\ Decoder.is_object_tag tag = true)
        by (destruct Htag as [-> | [-> | ->]]; repeat split; reflexivity).
      destruct Hs as (Hs & Ha & Ho).
      apply read_object; [exact Hs | exact Ha | exact Ho |].
      eapply Reads_bind; [exact Hread |]. cbv beta iota.
      rewrite Nat2Z.id.
      rewrite <- (app_nil_r (List.concat bs)).
      eapply Reads_bind; [| apply Reads_ret].
      assert (HF : Forall2
                     (fun (kv : string * JsValue) b =>
                        forall s, Reads (entry d s) b (obj_set s (fst kv) (snd kv)))
                     props bs).
      { eapply Forall2_impl_in; [| exact Hall | exact H].
        intros kv b Hh (kb & vb & -> & _ & He & Hc) s.
        apply He. apply Hc. exact Hh. }
      pose proof (Reads_for_loop _ (fun s kv => obj_set s (fst kv) (snd kv))
                    props bs HF []) as Hloop.
      rewrite fold_obj_set in Hloop by exact Huniq. exact Hloop.
Qed.

Lemma wire_value_carries (v : JsValue) :
  wire_value key_ok v = true -> exists bytes, Carries write read v bytes.
Proof.
  induction v as [v Hleaf | items IH | props IH] using JsValue_induction; intro Hw.
  - apply leaf_carries; assumption.
  - cbn [wire_value] in Hw. apply andb_true_iff in Hw. destruct Hw as [Hlen Hall].
    apply Z.ltb_lt in Hlen.
    assert (HE : Forall (fun slot => exists b,
                           match slot with
                           | Some item => Carries write read item b
                           | None => False
                           end) items).
    { rewrite forallb_forall in Hall. rewrite Forall_forall in IH |- *.
      intros [item |] Hin.
      - apply (IH _ Hin). apply (Hall _ Hin).
      - specialize (Hall _ Hin). discriminate. }
    destruct (Forall_exists_Forall2 _ _ HE) as [bs Hbs].
    apply (array_carries items bs Hlen Hbs).
  - cbn [wire_value] in Hw. apply andb_true_iff in Hw. destruct Hw as [Hw Hall].
    apply andb_true_iff in Hw. destruct Hw as [Hlen Huniq].
    apply Z.ltb_lt in Hlen.
    assert (HE : Forall (fun kv => exists b,
                           exists kb vb,
                             b = kb ++ vb
                             /\ (forall buf, key_write buf (fst kv) = buf ++ kb)
                             /\ (forall d vb' v s,
                                   Reads (read d) vb' v ->
                                   Reads (entry d s) (kb ++ vb') (obj_set s (fst kv) v))
                             /\ Carries write read (snd kv) vb) props).
    { rewrite forallb_forall in Hall. rewrite Forall_forall in IH |- *.
      intros kv Hin. specialize (Hall _ Hin).
      apply andb_true_iff in Hall. destruct Hall as [Hk Hv].
      destruct (key_carried _ Hk) as (kb & Hkw & Hkr).
      destruct (IH _ Hin Hv) as (vb & Hc).
      exists (kb ++ vb), kb, vb. repeat split; try assumption; apply Hc. }
    destruct (Forall_exists_Forall2 _ _ HE) as [bs Hbs].
    apply (object_carries props bs Hlen Huniq Hbs).
Qed.

End Carrying.

Lemma plain_carries (v : JsValue) :
  wire_value inline_key v = true ->
  exists bytes, Carries Encoder.writeValue Decoder.readValue v bytes.
Proof.
  apply (wire_value_carries Encoder.writeValue Decoder.readValue
           Encoder.writeKeyString
           (fun d result =>
              Buffer.rbind Decoder.readKeyString (fun key =>
              Buffer.rbind (Decoder.readValue d) (fun value =>
              Buffer.ret (obj_set result key value))))
           inline_key).
  - reflexivity.
  - reflexivity.
  - reflexivity.
  - apply readValue_scalar.
  - intros d tag payload v0 Hs Ha Hr. cbn [Decoder.readValue].
    apply (Reads_bind _ _ [tag] payload tag v0 (Reads_readUint8 tag)).
    rewrite Hs, Ha. exact Hr.
  - intros d tag payload v0 Hs Ha Ho Hr. cbn [Decoder.readValue].
    apply (Reads_bind _ _ [tag] payload tag v0 (Reads_readUint8 tag)).
    rewrite Hs, Ha, Ho. exact Hr.
  - intros key Hk. destruct (key_roundtrip key Hk) as (kb & Hw & Hr & _).
    exists kb. split; [exact Hw |].
    intros d vb v0 s Hv.
    eapply Reads_bind; [exact Hr |].
    apply (Reads_map (Decoder.readValue d) (fun value => obj_set s key value)).
    exact Hv.
Qed.

Lemma table_carries (keyMap : list string) (v : JsValue) :
  wire_value (table_key keyMap) v = true ->
  exists bytes,
    Carries (fun buf v => Encoder.writeValueWithKeyMap buf v keyMap)
            (fun d => Decoder.readValueWithKeyTable d keyMap) v bytes.
Proof.
  apply (wire_value_carries
           (fun buf v => Encoder.writeValueWithKeyMap buf v keyMap)
           (fun d => Decoder.readValueWithKeyTable d keyMap)
           (fun buf key => Encoder.writeKeyIndex buf (Encoder.keyMap_get keyMap key))
           (fun d result =>
              Buffer.rbind Decoder.readVarint (fun keyIndex =>
              Buffer.rbind (Decoder.keyTable_at keyMap keyIndex) (fun key =>
              Buffer.rbind (Decoder.readValueWithKeyTable d keyMap) (fun value =>
              Buffer.ret (obj_set result key value)))))
           (table_key keyMap)).
  - intros buf v0 Hleaf. destruct v0; try discriminate; reflexivity.
  - reflexivity.
  - reflexivity.
  - intros d tag payload rd v0 Hs Hr. cbn [Decoder.readValueWithKeyTable].
    apply (Reads_bind _ _ [tag] payload tag v0 (Reads_readUint8 tag)).
    rewrite Hs. exact Hr.
  - intros d tag payload v0 Hs Ha Hr. cbn [Decoder.readValueWithKeyTable].
    apply (Reads_bind _ _ [tag] payload tag v0 (Reads_readUint8 tag)).
    rewrite Hs, Ha. exact Hr.
  - intros d tag payload v0 Hs Ha Ho Hr. cbn [Decoder.readValueWithKeyTable].
    apply (Reads_bind _ _ [tag] payload tag v0 (Reads_readUint8 tag)).
    rewrite Hs, Ha, Ho. exact Hr.
  - intros key Hk. unfold table_key in Hk.
    destruct (Encoder.keyMap_get keyMap key) as [i |] eqn:Hget; [| discriminate].
    apply Z.ltb_lt in Hk. unfold Encoder.keyMap_get in Hget.
    destruct (index_from_nth _ _ _ _ Hget) as [Hr Hn].
    rewrite Z.sub_0_r in Hn.
    destruct (writeVarint_Leb128 [] i ltac:(lia)) as (kb & _ & Hleb).
    exists kb. split.
    + intro buf. cbn [Encoder.writeKeyIndex].
      destruct (writeVarint_Leb128 buf i ltac:(lia)) as (kb' & Hw' & Hleb').
      rewrite Hw'. f_equal. eapply Leb128_unique; eassumption.
    + intros d vb v0 s Hv.
      eapply Reads_bind.
      { apply (Reads_readVarint i kb Hleb).
        apply Z.lt_trans with (2 ^ 28); [exact Hk | reflexivity]. }
      apply (Reads_bind _ _ [] vb key).
      * unfold Decoder.keyTable_at.
        destruct (Z.leb_spec (Z.of_nat (List.length keyMap)) i); [lia |].
        destruct (Z.ltb_spec i 0); [lia |].
        rewrite Hn. apply Reads_ret.
      * apply (Reads_map (Decoder.readValueWithKeyTable d keyMap)
                 (fun value => obj_set s key value)).
        exact Hv.
Qed.

Lemma fold_left_ext_in {A X : Type} (f g : A -> X -> A) (xs : list X) :
  (forall a x, In x xs -> f a x = g a x) ->
  forall a, fold_left f xs a = fold_left g xs a.
Proof.
  induction xs as [| x xs IH]; intros H a; [reflexivity |].
  cbn [fold_left]. rewrite H by (left; reflexivity).
  apply IH. intros a' x' Hin. apply H. right. exact Hin.
Qed.

Lemma wire_value_defined (ok : string -> bool) (v : JsValue) :
  wire_value ok v = true -> is_undefined v = false.
Proof. destruct v; try discriminate; reflexivity. Qed.

Lemma normalize_wire (ok : string -> bool) (v : JsValue) :
  wire_value ok v = true -> Encoder.normalizeValue v = v.
Proof.
  induction v as [v Hleaf | items IH | props IH] using JsValue_induction; intro Hw.
  - destruct v; try discriminate; reflexivity.
  - cbn [wire_value] in Hw. apply andb_true_iff in Hw. destruct Hw as [_ Hall].
    rewrite forallb_forall in Hall. rewrite Forall_forall in IH.
    cbn [Encoder.normalizeValue]. f_equal.
    rewrite <- (map_id items) at 2. apply map_ext_in.
    intros [item |] Hin; [| reflexivity].
    f_equal. apply (IH _ Hin). apply (Hall _ Hin).
  - cbn [wire_value] in Hw. apply andb_true_iff in Hw. destruct Hw as [Hw Hall].
    apply andb_true_iff in Hw. destruct Hw as [_ Huniq].
    rewrite forallb_forall in Hall. rewrite Forall_forall in IH.
    cbn [Encoder.normalizeValue]. f_equal.
    rewrite (fold_left_ext_in _ (fun s kv => obj_set s (fst kv) (snd kv))).
    + apply (fold_obj_set props []). exact Huniq.
    + intros a kv Hin. specialize (Hall _ Hin).
      apply andb_true_iff in Hall. destruct Hall as [_ Hv].
      rewrite (wire_value_defined ok _ Hv).
      rewrite (IH _ Hin Hv). reflexivity.
Qed.

(** The reads of [decodeValue] as one read of the message: the bytes that
    follow the message are left alone. *)
Lemma decodeValue_Reads (m : Buffer.Read JsValue) (data trailing : list Z)
    (v : JsValue) :
  Reads m data v ->
  match m (Buffer.createBinaryReader (data ++ trailing)) with
  | Ok (v', _) => Ok v'
  | Throw e => Throw e
  end = Ok v.
Proof.
  intro H. change (Buffer.createBinaryReader (data ++ trailing))
    with (reader_at [] data trailing).
  rewrite H. reflexivity.
Qed.

Lemma plain_message_decodes (bytes : list Z) (v : JsValue) (d : nat) :
  Reads (Decoder.readValue d) bytes v ->
  Reads
    (Buffer.rbind Buffer.readUint8 (fun firstByte =>
       if firstByte =? nth 0 MAGIC_NUMBER 0 then
         Buffer.rbind Buffer.readUint8 (fun m1 =>
         Buffer.rbind Buffer.readUint8 (fun m2 =>
         Buffer.rbind Buffer.readUint8 (fun m3 =>
         if negb (m1 =? nth 1 MAGIC_NUMBER 0) || negb (m2 =? nth 2 MAGIC_NUMBER 0)
            || negb (m3 =? nth 3 MAGIC_NUMBER 0)
         then Buffer.throw (SyntaxError "Invalid BOON magic number")
         else
           Buffer.rbind Buffer.readUint8 (fun versionOrTag =>
           if versionOrTag =? TYPE_TAG.HEADER_WITH_STRING_TABLE then
             Buffer.rbind Decoder.readStringTable (fun keyTable =>
             Decoder.readValueWithKeyTable d keyTable)
           else if FORMAT_VERSION <? versionOrTag then
             Buffer.throw (SyntaxError ("Unsupported BOON version: " ++ decimal versionOrTag))
           else Decoder.readValue d))))
       else if firstByte =? TYPE_TAG.HEADER_WITH_STRING_TABLE then
         Buffer.rbind Decoder.readStringTable (fun keyTable =>
         Decoder.readValueWithKeyTable d keyTable)
       else Buffer.throw (SyntaxError "Invalid BOON header")))
    (MAGIC_NUMBER ++ FORMAT_VERSION :: bytes) v.
Proof.
  intro H. unfold MAGIC_NUMBER at 5.
  apply (Reads_bind _ _ [0x42] _ _ _ (Reads_readUint8 _)).
  change (66 =? nth 0 MAGIC_NUMBER 0) with true. cbv iota.
  apply (Reads_bind _ _ [0x4F] _ _ _ (Reads_readUint8 _)).
  apply (Reads_bind _ _ [0x4F] _ _ _ (Reads_readUint8 _)).
  apply (Reads_bind _ _ [0x4E] _ _ _ (Reads_readUint8 _)).
  change (negb (79 =? nth 1 MAGIC_NUMBER 0) || negb (79 =? nth 2 MAGIC_NUMBER 0)
          || negb (78 =? nth 3 MAGIC_NUMBER 0)) with false. cbv iota.
  apply (Reads_bind _ _ [FORMAT_VERSION] _ _ _ (Reads_readUint8 _)).
  change (FORMAT_VERSION =? TYPE_TAG.HEADER_WITH_STRING_TABLE) with false.
  change (FORMAT_VERSION <? FORMAT_VERSION) with false. cbv iota.
  exact H.
Qed.

Lemma plain_roundtrip (v : JsValue) (eopts : ResolvedEncodeOptions)
    (dopts : ResolvedDecodeOptions) :
  wire_value inline_key v = true ->
  Encoder.usesStringTable v eopts = false ->
  includeHeader eopts = expectHeader dopts ->
  exists bytes,
    encode v eopts = Ok bytes
    /\ forall trailing, decode (bytes ++ trailing) dopts = Ok v.
Proof.
  intros Hw Hmode Hhdr.
  destruct (plain_carries v Hw) as (bytes & Hwrite & Hheight & Hread).
  unfold encode. rewrite (normalize_wire _ _ Hw).
  unfold Encoder.encodeValue. rewrite Hmode.
  unfold decode, Decoder.decodeValue. rewrite <- Hhdr.
  destruct (includeHeader eopts).
  - unfold Encoder.writeHeader, Encoder.put_bytes, Encoder.put,
      Encoder.createGrowableBuffer.
    rewrite Hwrite. cbn [bind Encoder.getResult].
    eexists. split; [reflexivity |]. intro trailing.
    apply decodeValue_Reads.
    change ((([] ++ MAGIC_NUMBER) ++ [FORMAT_VERSION mod 256]) ++ bytes)
      with (MAGIC_NUMBER ++ FORMAT_VERSION :: bytes).
    apply plain_message_decodes. apply Hread.
    unfold Decoder.depth_bound. rewrite length_app. simpl List.length. lia.
  - unfold Encoder.createGrowableBuffer. rewrite Hwrite. cbn [bind Encoder.getResult].
    eexists. split; [reflexivity |]. intro trailing.
    apply decodeValue_Reads. cbn [app]. apply Hread.
    unfold Decoder.depth_bound, Encoder.getResult. rewrite length_app. simpl. lia.
Qed.

Lemma fold_append {X : Type} (g : list Z -> X -> list Z)
    (xs : list X) (bs : list (list Z)) :
  Forall2 (fun x b => forall buf, g buf x = buf ++ b) xs bs ->
  forall buf, fold_left g xs buf = buf ++ List.concat bs.
Proof.
  induction 1 as [| x b xs bs Hx _ IH]; intro buf.
  - simpl. rewrite app_nil_r. reflexivity.
  - cbn [fold_left List.concat]. rewrite Hx, IH, <- app_assoc. reflexivity.
Qed.

Lemma writeVarint_bytes (n : Z) :
  0 <= n < 2 ^ 28 ->
  exists bytes, Leb128 n bytes /\ forall buf, Encoder.writeVarint buf n = buf ++ bytes.
Proof.
  intro H. destruct (writeVarint_Leb128 [] n H) as (kb & _ & Hleb).
  exists kb. split; [exact Hleb |]. intro buf.
  destruct (writeVarint_Leb128 buf n H) as (kb' & Hw' & Hleb').
  rewrite Hw'. f_equal. eapply Leb128_unique; eassumption.
Qed.

Lemma stringTable_roundtrip (keys : list string) :
  Z.of_nat (List.length keys) < 2 ^ 28 ->
  Forall (fun k => byteLength k < 2 ^ 28) keys ->
  exists tb,
    (forall buf, Encoder.writeStringTable buf keys
                 = buf ++ TYPE_TAG.HEADER_WITH_STRING_TABLE :: tb)
    /\ Reads Decoder.readStringTable tb keys.
Proof.
  intros Hcount Hkeys.
  destruct (writeVarint_bytes (Z.of_nat (List.length keys)) ltac:(lia))
    as (cb & Hcleb & Hcw).
  assert (HE : Forall (fun k => exists b,
                         (forall buf,
                            Encoder.put_bytes
                              (Encoder.writeVarint buf
                                 (Z.of_nat (List.length (textEncoder_encode k))))
                              (textEncoder_encode k)
                            = buf ++ b)
                         /\ forall s,
                              Reads (Buffer.rbind Decoder.readVarint (fun length =>
                                     Buffer.rbind (Buffer.readBytes length) (fun bytes =>
                                     Buffer.ret (s ++ [textDecoder_decode bytes]))))
                                    b (s ++ [k])) keys).
  { rewrite Forall_forall in Hkeys |- *. intros k Hin.
    specialize (Hkeys k Hin). unfold byteLength in Hkeys.
    destruct (writeVarint_bytes (Z.of_nat (List.length (textEncoder_encode k)))
                ltac:(lia)) as (lb & Hleb & Hlw).
    exists (lb ++ textEncoder_encode k). split.
    - intro buf. unfold Encoder.put_bytes. rewrite Hlw, <- app_assoc. reflexivity.
    - intro s. eapply Reads_bind.
      + apply (Reads_readVarint _ lb Hleb).
        apply Z.lt_trans with (2 ^ 28); [exact Hkeys | reflexivity].
      + pose proof (Reads_map
                      (Buffer.rbind
                         (Buffer.readBytes (Z.of_nat (List.length (textEncoder_encode k))))
                         (fun bytes => Buffer.ret (textDecoder_decode bytes)))
                      (fun key => s ++ [key]) _ _ (Reads_text k)) as H.
        intros pre rest. specialize (H pre rest).
        unfold Buffer.rbind in H |- *. unfold Buffer.ret in H |- *.
        destruct (Buffer.readBytes _ _) as [[bytes r'] | e]; exact H. }
  destruct (Forall_exists_Forall2 _ _ HE) as [bs Hbs].
  exists (FORMAT_VERSION :: cb ++ List.concat bs). split.
  - intro buf. unfold Encoder.writeStringTable, Encoder.writeTag, Encoder.put.
    rewrite Hcw.
    rewrite (fold_append _ keys bs).
    + rewrite <- !app_assoc. reflexivity.
    + eapply Forall2_impl; [| exact Hbs]. intros k b [Hb _]. exact Hb.
  - unfold Decoder.readStringTable.
    apply (Reads_bind _ _ [_] _ _ _ (Reads_readUint8 _)).
    eapply Reads_bind.
    + apply (Reads_readVarint _ cb Hcleb).
      apply Z.lt_trans with (2 ^ 28); [exact Hcount | reflexivity].
    + rewrite Nat2Z.id.
      assert (HF : Forall2 (fun k b =>
                              forall s,
                                Reads (Buffer.rbind Decoder.readVarint (fun length =>
                                       Buffer.rbind (Buffer.readBytes length) (fun bytes =>
                                       Buffer.ret (s ++ [textDecoder_decode bytes]))))
                                      b (s ++ [k])) keys bs).
      { eapply Forall2_impl; [| exact Hbs]. intros k b [_ Hb]. exact Hb. }
      pose proof (Reads_for_loop _ (fun s k => s ++ [k]) keys bs HF []) as Hloop.
      rewrite fold_snoc in Hloop. exact Hloop.
Qed.

Lemma zsum_member (f : string * JsValue -> Z) (l : list (string * JsValue)) x :
  (forall y, 0 <= f y) -> In x l -> f x <= zsum (map f l).
Proof.
  intros Hf. induction l as [| y l IH]; intro Hin; [contradiction |].
  cbn [map zsum fold_right].
  assert (0 <= zsum (map f l)).
  { apply zsum_nonneg. apply Forall_forall. intros z Hz.
    apply in_map_iff in Hz. destruct Hz as (w & <- & _). apply Hf. }
  destruct Hin as [-> | Hin]; [unfold zsum in *; lia |].
  specialize (IH Hin). pose proof (Hf y). unfold zsum in *. lia.
Qed.

Lemma zsum_member_slot (f : option JsValue -> Z) (l : list (option JsValue)) x :
  (forall y, 0 <= f y) -> In x l -> f x <= zsum (map f l).
Proof.
  intros Hf. induction l as [| y l IH]; intro Hin; [contradiction |].
  cbn [map zsum fold_right].
  assert (0 <= zsum (map f l)).
  { apply zsum_nonneg. apply Forall_forall. intros z Hz.
    apply in_map_iff in Hz. destruct Hz as (w & <- & _). apply Hf. }
  destruct Hin as [-> | Hin]; [unfold zsum in *; lia |].
  specialize (IH Hin). pose proof (Hf y). unfold zsum in *. lia.
Qed.

Lemma wire_value_weaken (ok ok' : string -> bool) (v : JsValue) :
  wire_value ok v = true ->
  (forall k, 0 < occurrences k v -> ok' k = true) ->
  wire_value ok' v = true.
Proof.
  induction v as [v Hleaf | items IH | props IH] using JsValue_induction;
    intros Hw Hk.
  - destruct v; try discriminate; exact Hw.
  - cbn [wire_value] in Hw |- *. apply andb_true_iff in Hw. destruct Hw as [Hlen Hall].
    rewrite Hlen. cbn [andb].
    rewrite forallb_forall in Hall |- *. rewrite Forall_forall in IH.
    intros [item |] Hin; [| apply (Hall _ Hin)].
    apply (IH _ Hin (Hall _ Hin)). intros k Hocc. apply Hk.
    cbn [occurrences].
    pose proof (zsum_member_slot
                  (fun slot => match slot with
                               | Some item => occurrences k item
                               | None => 0
                               end) items (Some item)
                  ltac:(intros [y |]; [apply occurrences_nonneg | lia]) Hin) as Hle.
    cbv beta iota in Hle. lia.
  - cbn [wire_value] in Hw |- *. apply andb_true_iff in Hw. destruct Hw as [Hw Hall].
    rewrite Hw. cbn [andb].
    rewrite forallb_forall in Hall |- *. rewrite Forall_forall in IH.
    intros kv Hin. specialize (Hall _ Hin).
    apply andb_true_iff in Hall. destruct Hall as [_ Hv].
    assert (Hmem : forall k,
               (if String.eqb (fst kv) k then 1 else 0) + occurrences k (snd kv)
               <= occurrences k (JObj props)).
    { intro k. cbn [occurrences].
      apply (zsum_member
               (fun kv => (if String.eqb (fst kv) k then 1 else 0)
                          + occurrences k (snd kv)) props kv); [| exact Hin].
      intro y. pose proof (occurrences_nonneg k (snd y)).
      destruct (String.eqb (fst y) k); lia. }
    apply andb_true_iff. split.
    + apply Hk. specialize (Hmem (fst kv)). rewrite String.eqb_refl in Hmem.
      pose proof (occurrences_nonneg (fst kv) (snd kv)). lia.
    + apply (IH _ Hin Hv). intros k Hocc. apply Hk.
      specialize (Hmem k). destruct (String.eqb (fst kv) k); lia.
Qed.

Lemma index_from_In (key : string) (keys : list string) :
  In key keys ->
  forall i, exists j, index_from i key keys = Some j /\ i <= j < i + Z.of_nat (List.length keys).
Proof.
  induction keys as [| k keys IH]; intros Hin i; [contradiction |].
  cbn [index_from List.length].
  destruct (String.eqb_spec k key) as [-> | Hne].
  - exists i. split; [reflexivity | lia].
  - destruct Hin as [-> | Hin]; [congruence |].
    destruct (IH Hin (i + 1)) as (j & Hj & Hr). exists j. split; [exact Hj | lia].
Qed.

Lemma occurring_key_collected (v : JsValue) (k : string) :
  0 < occurrences k v -> In k (distinct_keys v).
Proof.
  intro Hocc.
  destruct (Counted_all v [] (fun _ => 0) (fun k => occurrences k v)
              (NoDup_nil _) ltac:(reflexivity) ltac:(reflexivity))
    as (_ & _ & _ & Hnone).
  unfold distinct_keys.
  destruct (in_dec string_dec k (Encoder.collectKeys v [])) as [Hin | Hnin];
    [exact Hin |].
  specialize (Hnone k Hnin). lia.
Qed.

Lemma wire_table_keys (ok : string -> bool) (v : JsValue) :
  wire_value ok v = true ->
  Z.of_nat (List.length (distinct_keys v)) < 2 ^ 28 ->
  wire_value (table_key (distinct_keys v)) v = true.
Proof.
  intros Hw Hcount. apply (wire_value_weaken ok _ v Hw).
  intros k Hocc. unfold table_key, Encoder.keyMap_get.
  destruct (index_from_In k _ (occurring_key_collected v k Hocc) 0) as (j & Hj & Hr).
  rewrite Hj. apply Z.ltb_lt. lia.
Qed.

Lemma table_message_decodes (tb bytes : list Z) (keys : list string)
    (v : JsValue) (d : nat) (magic : bool) :
  Reads Decoder.readStringTable tb keys ->
  Reads (Decoder.readValueWithKeyTable d keys) bytes v ->
  Reads
    (Buffer.rbind Buffer.readUint8 (fun firstByte =>
       if firstByte =? nth 0 MAGIC_NUMBER 0 then
         Buffer.rbind Buffer.readUint8 (fun m1 =>
         Buffer.rbind Buffer.readUint8 (fun m2 =>
         Buffer.rbind Buffer.readUint8 (fun m3 =>
         if negb (m1 =? nth 1 MAGIC_NUMBER 0) || negb (m2 =? nth 2 MAGIC_NUMBER 0)
            || negb (m3 =? nth 3 MAGIC_NUMBER 0)
         then Buffer.throw (SyntaxError "Invalid BOON magic number")
         else
           Buffer.rbind Buffer.readUint8 (fun versionOrTag =>
           if versionOrTag =? TYPE_TAG.HEADER_WITH_STRING_TABLE then
             Buffer.rbind Decoder.readStringTable (fun keyTable =>
             Decoder.readValueWithKeyTable d keyTable)
           else if FORMAT_VERSION <? versionOrTag then
             Buffer.throw (SyntaxError ("Unsupported BOON version: " ++ decimal versionOrTag))
           else Decoder.readValue d))))
       else if firstByte =? TYPE_TAG.HEADER_WITH_STRING_TABLE then
         Buffer.rbind Decoder.readStringTable (fun keyTable =>
         Decoder.readValueWithKeyTable d keyTable)
       else Buffer.throw (SyntaxError "Invalid BOON header")))
    ((if magic then MAGIC_NUMBER else [])
     ++ TYPE_TAG.HEADER_WITH_STRING_TABLE :: tb ++ bytes) v.
Proof.
  intros Ht Hv. destruct magic.
  - unfold MAGIC_NUMBER at 5.
    apply (Reads_bind _ _ [0x42] _ _ _ (Reads_readUint8 _)).
    change (66 =? nth 0 MAGIC_NUMBER 0) with true. cbv iota.
    apply (Reads_bind _ _ [0x4F] _ _ _ (Reads_readUint8 _)).
    apply (Reads_bind _ _ [0x4F] _ _ _ (Reads_readUint8 _)).
    apply (Reads_bind _ _ [0x4E] _ _ _ (Reads_readUint8 _)).
    change (negb (79 =? nth 1 MAGIC_NUMBER 0) || negb (79 =? nth 2 MAGIC_NUMBER 0)
            || negb (78 =? nth 3 MAGIC_NUMBER 0)) with false. cbv iota.
    apply (Reads_bind _ _ [TYPE_TAG.HEADER_WITH_STRING_TABLE] _ _ _ (Reads_readUint8 _)).
    rewrite Z.eqb_refl.
    eapply Reads_bind; [exact Ht | exact Hv].
  - cbn [app].
    apply (Reads_bind _ _ [TYPE_TAG.HEADER_WITH_STRING_TABLE] _ _ _ (Reads_readUint8 _)).
    change (TYPE_TAG.HEADER_WITH_STRING_TABLE =? nth 0 MAGIC_NUMBER 0) with false.
    cbv iota. rewrite Z.eqb_refl.
    eapply Reads_bind; [exact Ht | exact Hv].
Qed.

Lemma js_keys_count (keys : list string) :
  2 * Z.of_nat (List.length keys) <= zsum (map (fun k => js_length k + 2) keys).
Proof.
  induction keys as [| k keys IH]; [simpl; lia |].
  cbn [List.length map]. unfold zsum in *. cbn [fold_right].
  pose proof (js_length_nonneg k). lia.
Qed.

Lemma table_mode_few_keys (v : JsValue) (eopts : ResolvedEncodeOptions) :
  Encoder.usesStringTable v eopts = true ->
  Z.of_nat (List.length (distinct_keys v)) < 2 ^ 28.
Proof.
  unfold Encoder.usesStringTable. destruct (useStringTable eopts); [| discriminate].
  intro H. apply Z.ltb_lt in H. rewrite headerSize_sum in H.
  pose proof (js_keys_count (Encoder.collectKeys v [])) as Hc.
  assert (He : Encoder.estimateRepetitionSavings v (Encoder.collectKeys v []) <= 1000).
  { unfold Encoder.estimateRepetitionSavings.
    destruct (_ <? _); [lia |]. destruct (if _ =? 0 then _ else _); lia. }
  unfold distinct_keys. change (2 ^ 28) with 268435456. lia.
Qed.

Lemma table_roundtrip (v : JsValue) (eopts : ResolvedEncodeOptions)
    (dopts : ResolvedDecodeOptions) :
  wire_value (fun _ => true) v = true ->
  Forall (fun k => byteLength k < 2 ^ 28) (distinct_keys v) ->
  Encoder.usesStringTable v eopts = true ->
  expectHeader dopts = true ->
  exists bytes,
    encode v eopts = Ok bytes
    /\ forall trailing, decode (bytes ++ trailing) dopts = Ok v.
Proof.
  intros Hw Hkeys Hmode Hhdr.
  pose proof (table_mode_few_keys v eopts Hmode) as Hcount.
  pose proof (wire_table_keys _ v Hw Hcount) as Hwt.
  destruct (table_carries _ v Hwt) as (bytes & Hwrite & Hheight & Hread).
  destruct (stringTable_roundtrip (distinct_keys v) Hcount Hkeys) as (tb & Htw & Htr).
  unfold encode. rewrite (normalize_wire _ _ Hw).
  unfold Encoder.encodeValue. rewrite Hmode.
  unfold decode, Decoder.decodeValue. rewrite Hhdr.
  fold (distinct_keys v). rewrite Htw, Hwrite. cbn [bind].
  unfold Encoder.getResult, Encoder.createGrowableBuffer, Encoder.put_bytes.
  destruct (includeHeader eopts).
  - eexists. split; [reflexivity |]. intro trailing.
    apply decodeValue_Reads.
    rewrite <- app_assoc.
    apply (table_message_decodes tb bytes (distinct_keys v) v _ true Htr).
    apply Hread. unfold Decoder.depth_bound.
    rewrite !length_app. cbn [List.length]. lia.
  - eexists. split; [reflexivity |]. intro trailing.
    apply decodeValue_Reads.
    rewrite <- app_assoc.
    apply (table_message_decodes tb bytes (distinct_keys v) v _ false Htr).
    apply Hread. unfold Decoder.depth_bound.
    rewrite !length_app. cbn [List.length]. lia.
Qed.

Lemma wire_value_key_ok (ok : string -> bool) (v : JsValue) :
  wire_value ok v = true ->
  forall k, 0 < occurrences k v -> ok k = true.
Proof.
  induction v as [v Hleaf | items IH | props IH] using JsValue_induction;
    intros Hw k Hocc.
  - destruct v; try discriminate; simpl in Hocc; lia.
  - cbn [wire_value] in Hw. apply andb_true_iff in Hw. destruct Hw as [_ Hall].
    rewrite forallb_forall in Hall. rewrite Forall_forall in IH.
    cbn [occurrences] in Hocc.
    induction items as [| slot items IHitems]; [simpl in Hocc; lia |].
    cbn [map zsum fold_right] in Hocc.
    destruct (Z.lt_ge_cases 0 (match slot with
                               | Some item => occurrences k item
                               | None => 0
                               end)) as [Hhere | Hnot].
    + destruct slot as [item |]; [| lia].
      apply (IH (Some item) (or_introl eq_refl)); [| exact Hhere].
      apply (Hall (Some item) (or_introl eq_refl)).
    + apply IHitems.
      * intros x Hin. apply IH. right. exact Hin.
      * intros x Hin. apply Hall. right. exact Hin.
      * unfold zsum in *. lia.
  - cbn [wire_value] in Hw. apply andb_true_iff in Hw. destruct Hw as [_ Hall].
    rewrite forallb_forall in Hall. rewrite Forall_forall in IH.
    cbn [occurrences] in Hocc.
    induction props as [| kv props IHprops]; [simpl in Hocc; lia |].
    cbn [map zsum fold_right] in Hocc.
    pose proof (Hall kv (or_introl eq_refl)) as Hkv.
    apply andb_true_iff in Hkv. destruct Hkv as [Hk Hv].
    destruct (String.eqb_spec (fst kv) k) as [Heq | Hne]; [rewrite <- Heq; exact Hk |].
    destruct (Z.lt_ge_cases 0 (occurrences k (snd kv))) as [Hhere | Hnot].
    + apply (IH kv (or_introl eq_refl) Hv). exact Hhere.
    + apply IHprops.
      * intros x Hin. apply IH. right. exact Hin.
      * intros x Hin. apply Hall. right. exact Hin.
      * unfold zsum in *. lia.
Qed.

Lemma collectKeys_sound (v : JsValue) :
  forall ks k, In k (Encoder.collectKeys v ks) -> In k ks \/ 0 < occurrences k v.
Proof.
  induction v as [v Hleaf | items IH | props IH] using JsValue_induction;
    intros ks k Hin.
  - left. destruct v; try discriminate; exact Hin.
  - cbn [Encoder.collectKeys] in Hin. cbn [occurrences].
    revert ks Hin. induction items as [| slot items IHitems]; intros ks Hin.
    + left. exact Hin.
    + cbn [fold_left] in Hin. cbn [map zsum fold_right].
      inversion IH as [| ? ? Hslot Hrest]; subst.
      assert (Hnn : 0 <= zsum (map (fun slot => match slot with
                                                | Some item => occurrences k item
                                                | None => 0
                                                end) items)).
      { apply zsum_nonneg. apply Forall_forall. intros z Hz.
        apply in_map_iff in Hz. destruct Hz as ([y |] & <- & _);
          [apply occurrences_nonneg | lia]. }
      destruct (IHitems Hrest _ Hin) as [Hks | Hocc].
      * destruct slot as [item |]; [| left; exact Hks].
        destruct (Hslot _ _ Hks) as [H0 | Hocc]; [left; exact H0 |].
        right. unfold zsum in *. lia.
      * right. assert (0 <= match slot with
                            | Some item => occurrences k item
                            | None => 0
                            end)
          by (destruct slot; [apply occurrences_nonneg | lia]).
        unfold zsum in *. lia.
  - cbn [Encoder.collectKeys] in Hin. cbn [occurrences].
    revert ks Hin. induction props as [| kv props IHprops]; intros ks Hin.
    + left. exact Hin.
    + cbn [fold_left] in Hin. cbn [map zsum fold_right].
      inversion IH as [| ? ? Hkv Hrest]; subst.
      assert (Hnn : 0 <= zsum (map (fun kv : string * JsValue =>
                                      (if String.eqb (fst kv) k then 1 else 0)
                                      + occurrences k (snd kv)) props)).
      { apply zsum_nonneg. apply Forall_forall. intros z Hz.
        apply in_map_iff in Hz. destruct Hz as (y & <- & _).
        pose proof (occurrences_nonneg k (snd y)).
        destruct (String.eqb (fst y) k); lia. }
      pose proof (occurrences_nonneg k (snd kv)) as Hv0.
      destruct (IHprops Hrest _ Hin) as [Hks | Hocc].
      * destruct (Hkv _ _ Hks) as [H0 | Hocc].
        -- apply Set_add_In in H0. destruct H0 as [-> | H0]; [| left; exact H0].
           right. rewrite String.eqb_refl. unfold zsum in *. lia.
        -- right. destruct (String.eqb (fst kv) k); unfold zsum in *; lia.
      * right. destruct (String.eqb (fst kv) k); unfold zsum in *; lia.
Qed.

Lemma inline_key_short (k : string) : inline_key k = true -> byteLength k < 2 ^ 28.
Proof.
  unfold inline_key. destruct (COMMON_KEYS_MAP_get k) as [id |] eqn:Hget.
  - intros _. unfold COMMON_KEYS_MAP_get in Hget.
    destruct (index_from_nth _ _ _ _ Hget) as [_ Hn].
    apply nth_error_In in Hn.
    assert (H : forallb (fun k => byteLength k <? 2 ^ 28) COMMON_KEYS = true)
      by (vm_compute; reflexivity).
    rewrite forallb_forall in H. apply Z.ltb_lt. apply H. exact Hn.
  - intro H. apply Z.leb_le in H. change (2 ^ 28) with 268435456. lia.
Qed.


(* ================================================================== *)
(** ** What the decoders reject *)

Lemma not_value_tag (tag : Z) :
  value_tag tag = false ->
  Decoder.readScalar tag = None
  /\ Decoder.is_array_tag tag = false
  /\ Decoder.is_object_tag tag = false.
Proof.
  unfold value_tag, KNOWN_TAGS. cbn [existsb]. intro H.
  repeat (apply orb_false_iff in H; destruct H as [?E H]).
  unfold Decoder.readScalar, Decoder.is_string_tag, Decoder.is_array_tag,
    Decoder.is_object_tag.
  repeat match goal with
         | E : (tag =? _) = false |- _ => rewrite E; clear E
         end.
  repeat split.
Qed.

(** X17.  Where a value is expected, a byte that is none of the 24 value
    tags makes the eager readers and the streaming reader throw
    [SyntaxError('Unknown type tag: 0x..')] with the byte in hexadecimal;
    the table tag 0x60 is among these bytes. *)
Theorem unknown_tag_rejected (tag : Z) (pre rest : list Z) (d : nat)
    (keyTable : list string) :
  value_tag tag = false ->
  Decoder.readValue (S d) (reader_at pre [tag] rest)
  = Throw (SyntaxError ("Unknown type tag: 0x" ++ toString16 tag))
  /\ Decoder.readValueWithKeyTable (S d) keyTable (reader_at pre [tag] rest)
     = Throw (SyntaxError ("Unknown type tag: 0x" ++ toString16 tag))
  /\ Stream.streamValue (S d) (Some keyTable) (reader_at pre [tag] rest)
     = ([], Throw (SyntaxError ("Unknown type tag: 0x" ++ toString16 tag)))
  /\ Stream.streamValue (S d) None (reader_at pre [tag] rest)
     = ([], Throw (SyntaxError ("Unknown type tag: 0x" ++ toString16 tag))).
Proof.
  intro H. destruct (not_value_tag tag H) as (Hs & Ha & Ho).
  cbn [Decoder.readValue Decoder.readValueWithKeyTable Stream.streamValue].
  unfold Buffer.rbind, Stream.gbind, Stream.lift.
  rewrite readUint8_at, Hs, Ha, Ho. repeat split.
Qed.

Lemma decodeValue_after_header (version : Z) (bytes : list Z)
    (dopts : ResolvedDecodeOptions) :
  expectHeader dopts = true ->
  version <> TYPE_TAG.HEADER_WITH_STRING_TABLE ->
  version <= FORMAT_VERSION ->
  Decoder.decodeValue (MAGIC_NUMBER ++ version :: bytes) dopts
  = match Decoder.readValue (Decoder.depth_bound (MAGIC_NUMBER ++ version :: bytes))
            (reader_at (MAGIC_NUMBER ++ [version]) bytes []) with
    | Ok (v, _) => Ok v
    | Throw e => Throw e
    end.
Proof.
  intros He Hv Hle. unfold Decoder.decodeValue. rewrite He.
  unfold Buffer.rbind at 1.
  change (Buffer.readUint8 (Buffer.createBinaryReader (MAGIC_NUMBER ++ version :: bytes)))
    with (Ok (0x42, {| Buffer.buffer := MAGIC_NUMBER ++ version :: bytes;
                       Buffer.offset := 1 |})).
  cbv iota beta.
  change (66 =? nth 0 MAGIC_NUMBER 0) with true. cbv iota.
  unfold Buffer.rbind at 1.
  change (Buffer.readUint8 {| Buffer.buffer := MAGIC_NUMBER ++ version :: bytes;
                              Buffer.offset := 1 |})
    with (Ok (0x4F, {| Buffer.buffer := MAGIC_NUMBER ++ version :: bytes;
                       Buffer.offset := 2 |})).
  cbv iota beta.
  unfold Buffer.rbind at 1.
  change (Buffer.readUint8 {| Buffer.buffer := MAGIC_NUMBER ++ version :: bytes;
                              Buffer.offset := 2 |})
    with (Ok (0x4F, {| Buffer.buffer := MAGIC_NUMBER ++ version :: bytes;
                       Buffer.offset := 3 |})).
  cbv iota beta.
  unfold Buffer.rbind at 1.
  change (Buffer.readUint8 {| Buffer.buffer := MAGIC_NUMBER ++ version :: bytes;
                              Buffer.offset := 3 |})
    with (Ok (0x4E, {| Buffer.buffer := MAGIC_NUMBER ++ version :: bytes;
                       Buffer.offset := 4 |})).
  cbv iota beta.
  change (negb (79 =? nth 1 MAGIC_NUMBER 0) || negb (79 =? nth 2 MAGIC_NUMBER 0)
          || negb (78 =? nth 3 MAGIC_NUMBER 0)) with false. cbv iota.
  unfold Buffer.rbind at 1.
  change (Buffer.readUint8 {| Buffer.buffer := MAGIC_NUMBER ++ version :: bytes;
                              Buffer.offset := 4 |})
    with (Ok (version, {| Buffer.buffer := MAGIC_NUMBER ++ version :: bytes;
                          Buffer.offset := 5 |})).
  cbv iota beta.
  replace (version =? TYPE_TAG.HEADER_WITH_STRING_TABLE) with false
    by (symmetry; apply Z.eqb_neq; exact Hv).
  replace (FORMAT_VERSION <? version) with false
    by (symmetry; apply Z.ltb_ge; exact Hle).
  unfold reader_at. rewrite app_nil_r. reflexivity.
Qed.

(** X16.  With [expectHeader], [decodeValue] throws a [RangeError] on empty
    input, [SyntaxError('Invalid BOON header')] when the first byte is
    neither ['B'] nor the table tag, [SyntaxError('Invalid BOON magic
    number')] when ['B'] is not followed by ['OON'], and
    [SyntaxError('Unsupported BOON version: n')] when the byte after the
    magic number exceeds [FORMAT_VERSION] and is not the table tag. *)
Theorem decodeValue_validates_header (dopts : ResolvedDecodeOptions) :
  expectHeader dopts = true ->
  Decoder.decodeValue [] dopts = Throw (RangeError "Buffer underflow: cannot read uint8")
  /\ (forall b rest,
        b <> 0x42 -> b <> TYPE_TAG.HEADER_WITH_STRING_TABLE ->
        Decoder.decodeValue (b :: rest) dopts
        = Throw (SyntaxError "Invalid BOON header"))
  /\ (forall m1 m2 m3 rest,
        [m1; m2; m3] <> [0x4F; 0x4F; 0x4E] ->
        Decoder.decodeValue (0x42 :: m1 :: m2 :: m3 :: rest) dopts
        = Throw (SyntaxError "Invalid BOON magic number"))
  /\ (forall version rest,
        version <> TYPE_TAG.HEADER_WITH_STRING_TABLE ->
        FORMAT_VERSION < version ->
        Decoder.decodeValue (MAGIC_NUMBER ++ version :: rest) dopts
        = Throw (SyntaxError ("Unsupported BOON version: " ++ decimal version))).
Proof.
  intro He. unfold Decoder.decodeValue. rewrite He. repeat split.
  - intros b rest Hb Ht.
    unfold Buffer.rbind at 1.
    change (Buffer.readUint8 (Buffer.createBinaryReader (b :: rest)))
      with (Ok (b, {| Buffer.buffer := b :: rest; Buffer.offset := 1 |})).
    cbv iota beta.
    replace (b =? nth 0 MAGIC_NUMBER 0) with false
      by (symmetry; apply Z.eqb_neq; exact Hb).
    replace (b =? TYPE_TAG.HEADER_WITH_STRING_TABLE) with false
      by (symmetry; apply Z.eqb_neq; exact Ht).
    reflexivity.
  - intros m1 m2 m3 rest Hm.
    unfold Buffer.rbind at 1.
    change (Buffer.readUint8 (Buffer.createBinaryReader (0x42 :: m1 :: m2 :: m3 :: rest)))
      with (Ok (0x42, {| Buffer.buffer := 0x42 :: m1 :: m2 :: m3 :: rest;
                         Buffer.offset := 1 |})).
    cbv iota beta.
    change (66 =? nth 0 MAGIC_NUMBER 0) with true. cbv iota.
    unfold Buffer.rbind at 1.
    change (Buffer.readUint8 {| Buffer.buffer := 0x42 :: m1 :: m2 :: m3 :: rest;
                                Buffer.offset := 1 |})
      with (Ok (m1, {| Buffer.buffer := 0x42 :: m1 :: m2 :: m3 :: rest;
                       Buffer.offset := 2 |})).
    cbv iota beta.
    unfold Buffer.rbind at 1.
    change (Buffer.readUint8 {| Buffer.buffer := 0x42 :: m1 :: m2 :: m3 :: rest;
                                Buffer.offset := 2 |})
      with (Ok (m2, {| Buffer.buffer := 0x42 :: m1 :: m2 :: m3 :: rest;
                       Buffer.offset := 3 |})).
    cbv iota beta.
    unfold Buffer.rbind at 1.
    change (Buffer.readUint8 {| Buffer.buffer := 0x42 :: m1 :: m2 :: m3 :: rest;
                                Buffer.offset := 3 |})
      with (Ok (m3, {| Buffer.buffer := 0x42 :: m1 :: m2 :: m3 :: rest;
                       Buffer.offset := 4 |})).
    cbv iota beta.
    replace (negb (m1 =? nth 1 MAGIC_NUMBER 0) || negb (m2 =? nth 2 MAGIC_NUMBER 0)
             || negb (m3 =? nth 3 MAGIC_NUMBER 0)) with true; [reflexivity |].
    symmetry.
    destruct (Z.eqb_spec m1 (nth 1 MAGIC_NUMBER 0)) as [E1 | E1]; [| reflexivity].
    destruct (Z.eqb_spec m2 (nth 2 MAGIC_NUMBER 0)) as [E2 | E2]; [| reflexivity].
    destruct (Z.eqb_spec m3 (nth 3 MAGIC_NUMBER 0)) as [E3 | E3]; [| reflexivity].
    exfalso. apply Hm. rewrite E1, E2, E3. reflexivity.
  - intros version rest Hv Hgt.
    unfold Buffer.rbind at 1.
    change (Buffer.readUint8 (Buffer.createBinaryReader (MAGIC_NUMBER ++ version :: rest)))
      with (Ok (0x42, {| Buffer.buffer := MAGIC_NUMBER ++ version :: rest;
                         Buffer.offset := 1 |})).
    cbv iota beta.
    change (66 =? nth 0 MAGIC_NUMBER 0) with true. cbv iota.
    unfold Buffer.rbind at 1.
    change (Buffer.readUint8 {| Buffer.buffer := MAGIC_NUMBER ++ version :: rest;
                                Buffer.offset := 1 |})
      with (Ok (0x4F, {| Buffer.buffer := MAGIC_NUMBER ++ version :: rest;
                         Buffer.offset := 2 |})).
    cbv iota beta.
    unfold Buffer.rbind at 1.
    change (Buffer.readUint8 {| Buffer.buffer := MAGIC_NUMBER ++ version :: rest;
                                Buffer.offset := 2 |})
      with (Ok (0x4F, {| Buffer.buffer := MAGIC_NUMBER ++ version :: rest;
                         Buffer.offset := 3 |})).
    cbv iota beta.
    unfold Buffer.rbind at 1.
    change (Buffer.readUint8 {| Buffer.buffer := MAGIC_NUMBER ++ version :: rest;
                                Buffer.offset := 3 |})
      with (Ok (0x4E, {| Buffer.buffer := MAGIC_NUMBER ++ version :: rest;
                         Buffer.offset := 4 |})).
    cbv iota beta.
    change (negb (79 =? nth 1 MAGIC_NUMBER 0) || negb (79 =? nth 2 MAGIC_NUMBER 0)
            || negb (78 =? nth 3 MAGIC_NUMBER 0)) with false. cbv iota.
    unfold Buffer.rbind at 1.
    change (Buffer.readUint8 {| Buffer.buffer := MAGIC_NUMBER ++ version :: rest;
                                Buffer.offset := 4 |})
      with (Ok (version, {| Buffer.buffer := MAGIC_NUMBER ++ version :: rest;
                            Buffer.offset := 5 |})).
    cbv iota beta.
    replace (version =? TYPE_TAG.HEADER_WITH_STRING_TABLE) with false
      by (symmetry; apply Z.eqb_neq; exact Hv).
    replace (FORMAT_VERSION <? version) with true
      by (symmetry; apply Z.ltb_lt; exact Hgt).
    reflexivity.
Qed.

(** X8.  A key outside the common dictionary that is longer than 127 bytes
    is written behind the marker byte 254 or 255; [readKeyString] takes
    the marker for a common-key byte, returns ["style"] (up to 65535
    bytes) or ["class"] (beyond) and consumes that one byte only. *)
Theorem long_key_read_as_common_key (key : string) (pre rest : list Z) :
  COMMON_KEYS_MAP_get key = None ->
  127 < byteLength key ->
  Decoder.readKeyString (reader_at pre (Encoder.writeKeyString [] key) rest)
  = Ok (if byteLength key <=? MAX_MEDIUM_LENGTH then "style"%string else "class"%string,
        Buffer.advance (reader_at pre (Encoder.writeKeyString [] key) rest) 1).
Proof.
  intros Hget Hlen. unfold Encoder.writeKeyString. rewrite Hget.
  unfold byteLength in *.
  destruct (Z.leb_spec (Z.of_nat (List.length (textEncoder_encode key))) 127); [lia |].
  unfold Decoder.readKeyString, Buffer.rbind.
  destruct (Z.of_nat (List.length (textEncoder_encode key)) <=? MAX_MEDIUM_LENGTH).
  - unfold Encoder.put_bytes, Encoder.put_be, Encoder.put.
    change (([] ++ [254 mod 256]) ++ be_bytes 2 (Z.of_nat (List.length (textEncoder_encode key))))
      with (254 :: be_bytes 2 (Z.of_nat (List.length (textEncoder_encode key)))).
    cbn [app]. rewrite readUint8_at. reflexivity.
  - unfold Encoder.put_bytes, Encoder.put_be, Encoder.put.
    change (([] ++ [255 mod 256]) ++ be_bytes 4 (Z.of_nat (List.length (textEncoder_encode key))))
      with (255 :: be_bytes 4 (Z.of_nat (List.length (textEncoder_encode key)))).
    cbn [app]. rewrite readUint8_at. reflexivity.
Qed.

(** X18.  In a message with a key table, an object (here with a one-byte
    count) whose first key index (here a one-byte varint) is not below
    the number of keys makes both decoders throw
    [SyntaxError('Invalid key index: i')]; the stream has yielded the
    [startObject] event by then. *)
Theorem key_index_out_of_range (keyTable : list string) (count index : Z)
    (d : nat) (pre rest : list Z) :
  0 < count <= 255 ->
  Z.of_nat (List.length keyTable) <= index < 128 ->
  Decoder.readValueWithKeyTable (S (S d)) keyTable
    (reader_at pre [TYPE_TAG.OBJECT_SHORT; count; index] rest)
  = Throw (SyntaxError ("Invalid key index: " ++ decimal index))
  /\ Stream.streamValue (S (S d)) (Some keyTable)
       (reader_at pre [TYPE_TAG.OBJECT_SHORT; count; index] rest)
     = ([EstartObject count], Throw (SyntaxError ("Invalid key index: " ++ decimal index))).
Proof.
  intros Hc Hi.
  assert (Hn : exists n, Z.to_nat count = S n) by (exists (Z.to_nat (count - 1)); lia).
  destruct Hn as [n Hn].
  assert (Hleb : Leb128 index [index]) by (constructor; lia).
  assert (Hvar : Decoder.readVarint
                   (reader_at (pre ++ [TYPE_TAG.OBJECT_SHORT; count]) [index] rest)
                 = Ok (index, reader_past (pre ++ [TYPE_TAG.OBJECT_SHORT; count])
                                [index] rest)).
  { apply Reads_readVarint; [exact Hleb |]. change (2 ^ 31) with 2147483648. lia. }
  assert (Hr1 : Buffer.advance
                  (reader_at pre [TYPE_TAG.OBJECT_SHORT; count; index] rest) 1
                = reader_at (pre ++ [TYPE_TAG.OBJECT_SHORT]) [count; index] rest)
    by apply reader_at_cons.
  assert (Hr2 : Buffer.advance
                  (reader_at (pre ++ [TYPE_TAG.OBJECT_SHORT]) [count; index] rest) 1
                = reader_at (pre ++ [TYPE_TAG.OBJECT_SHORT; count]) [index] rest).
  { rewrite reader_at_cons, <- app_assoc. reflexivity. }
  split.
  - cbn [Decoder.readValueWithKeyTable]. unfold Buffer.rbind at 1.
    rewrite readUint8_at, Hr1.
    change (Decoder.readScalar TYPE_TAG.OBJECT_SHORT) with (@None (Buffer.Read JsValue)).
    change (Decoder.is_array_tag TYPE_TAG.OBJECT_SHORT) with false.
    change (Decoder.is_object_tag TYPE_TAG.OBJECT_SHORT) with true.
    cbv iota.
    unfold Decoder.readLength.
    change (TYPE_TAG.OBJECT_SHORT =? TYPE_TAG.OBJECT_EMPTY) with false.
    change (TYPE_TAG.OBJECT_SHORT =? TYPE_TAG.OBJECT_SHORT) with true.
    cbv iota.
    unfold Buffer.rbind at 1. unfold Buffer.rbind at 1.
    rewrite readUint8_at, Hr2. unfold Buffer.ret at 1.
    rewrite Hn. cbn [Decoder.for_loop].
    unfold Buffer.rbind at 1. unfold Buffer.rbind at 1. unfold Buffer.rbind at 1.
    rewrite Hvar.
    unfold Buffer.rbind at 1. unfold Decoder.keyTable_at.
    destruct (Z.leb_spec (Z.of_nat (List.length keyTable)) index); [| lia].
    reflexivity.
  - cbn [Stream.streamValue]. unfold Stream.gbind at 1. unfold Stream.lift at 1.
    rewrite readUint8_at, Hr1.
    change (Decoder.readScalar TYPE_TAG.OBJECT_SHORT) with (@None (Buffer.Read JsValue)).
    change (Decoder.is_array_tag TYPE_TAG.OBJECT_SHORT) with false.
    change (Decoder.is_object_tag TYPE_TAG.OBJECT_SHORT) with true.
    cbv iota.
    unfold Stream.getObjectKeyCount.
    change (TYPE_TAG.OBJECT_SHORT =? TYPE_TAG.OBJECT_EMPTY) with false.
    change (TYPE_TAG.OBJECT_SHORT =? TYPE_TAG.OBJECT_SHORT) with true.
    cbv iota.
    unfold Stream.gbind at 1. unfold Stream.lift at 1.
    rewrite readUint8_at, Hr2.
    unfold Stream.gbind at 1. unfold Stream.yield at 1.
    unfold Stream.gbind at 1.
    rewrite Hn. cbn [Stream.gfor].
    unfold Stream.gbind at 1. unfold Stream.gbind at 1. unfold Stream.lift at 1.
    unfold Buffer.rbind at 1. unfold Stream.readVarint. rewrite Hvar.
    unfold Stream.keyTable_at.
    destruct (Z.ltb_spec index 0); [lia |].
    destruct (nth_error keyTable (Z.to_nat index)) as [key |] eqn:Hnth.
    + exfalso. assert (Hlt : (Z.to_nat index < List.length keyTable)%nat).
      { apply nth_error_Some. congruence. }
      lia.
    + reflexivity.
Qed.

Lemma v2_decode_value (tag : Z) (rest : list Z) :
  V2.decode (V2.MAGIC ++ V2.VERSION :: tag :: rest)
  = match V2.readValue (S (List.length (V2.MAGIC ++ V2.VERSION :: tag :: rest)))
            (S (List.length (V2.MAGIC ++ V2.VERSION :: tag :: rest)))
            (reader_at (V2.MAGIC ++ [V2.VERSION]) [tag] rest) with
    | Ok (v, _) => Ok v
    | Throw e => Throw e
    end.
Proof. reflexivity. Qed.

(** X23.  The v2 [decode] throws [InvalidMagicError] on fewer than five
    bytes or a wrong magic number, [UnsupportedVersionError] on any
    version byte other than 1, [TruncatedDataError] when no value follows
    the header, [UnexpectedBreakError] when the value starts with the
    break byte, and [UnknownTagError] with the byte when it starts with a
    byte that is no tag. *)
Theorem v2_decode_errors :
  (forall data,
     (List.length data < 5)%nat \/ firstn 4 data <> V2.MAGIC ->
     V2.decode data = Throw InvalidMagicError)
  /\ (forall version rest,
        version <> V2.VERSION ->
        V2.decode (V2.MAGIC ++ version :: rest) = Throw (UnsupportedVersionError version))
  /\ V2.decode (V2.MAGIC ++ [V2.VERSION]) = Throw TruncatedDataError
  /\ (forall rest,
        V2.decode (V2.MAGIC ++ V2.VERSION :: V2.TAG.BREAK :: rest)
        = Throw UnexpectedBreakError)
  /\ (forall tag rest,
        v2_tag tag = false ->
        V2.decode (V2.MAGIC ++ V2.VERSION :: tag :: rest) = Throw (UnknownTagError tag)).
Proof.
  split; [| split; [| split; [| split]]].
  - intros data H. unfold V2.decode.
    destruct (Nat.ltb_spec (List.length data) 5) as [Hlt | Hge]; [reflexivity |].
    destruct H as [H | H]; [lia |].
    destruct data as [| b0 [| b1 [| b2 [| b3 rest]]]]; simpl in Hge; try lia.
    cbn [orb nth].
    destruct (Z.eqb_spec b0 (nth 0 V2.MAGIC 0)) as [E0 | E0]; [| reflexivity].
    destruct (Z.eqb_spec b1 (nth 1 V2.MAGIC 0)) as [E1 | E1]; [| reflexivity].
    destruct (Z.eqb_spec b2 (nth 2 V2.MAGIC 0)) as [E2 | E2]; [| reflexivity].
    destruct (Z.eqb_spec b3 (nth 3 V2.MAGIC 0)) as [E3 | E3]; [| reflexivity].
    exfalso. apply H. cbn [firstn]. rewrite E0, E1, E2, E3. reflexivity.
  - intros version rest Hv. unfold V2.decode.
    change (Nat.ltb (List.length (V2.MAGIC ++ version :: rest)) 5) with false.
    change (nth 4 (V2.MAGIC ++ version :: rest) 0) with version.
    cbn [orb nth V2.MAGIC app Z.eqb negb Pos.eqb]. cbv zeta.
    replace (version =? V2.VERSION) with false
      by (symmetry; apply Z.eqb_neq; exact Hv).
    reflexivity.
  - reflexivity.
  - intro rest. rewrite v2_decode_value.
    cbn [V2.readValue]. unfold Buffer.rbind at 1.
    rewrite (proj1 (v2_next_at _ _ _ _)). cbv iota beta.
    unfold Buffer.rbind at 1.
    rewrite (proj2 (v2_next_at _ _ _ _)). reflexivity.
  - intros tag rest Ht. rewrite v2_decode_value.
    cbn [V2.readValue]. unfold Buffer.rbind at 1.
    rewrite (proj1 (v2_next_at _ _ _ _)). cbv iota beta.
    unfold Buffer.rbind at 1.
    rewrite (proj2 (v2_next_at _ _ _ _)).
    unfold v2_tag, V2_TAGS in Ht. cbn [existsb] in Ht.
    repeat (apply orb_false_iff in Ht; destruct Ht as [?E Ht]).
    repeat match goal with
           | E : (tag =? _) = false |- _ => rewrite E; clear E
           end.
    reflexivity.
Qed.

(** X19.  With [expectHeader], [decodeStreamSync] yields no event and throws
    a [RangeError] on fewer than four bytes, [SyntaxError('Invalid BOON
    magic number')] when the first four bytes are not the magic number,
    and [SyntaxError('Unsupported BOON version: n')] when the version
    byte, with or without a table tag before it, exceeds
    [FORMAT_VERSION]. *)
Theorem stream_validates_header (dopts : ResolvedDecodeOptions) :
  expectHeader dopts = true ->
  (forall data,
     (List.length data < 4)%nat ->
     Stream.decodeStreamSync data dopts
     = ([], Throw (RangeError "Buffer underflow: cannot read 4 bytes")))
  /\ (forall b0 b1 b2 b3 rest,
        [b0; b1; b2; b3] <> MAGIC_NUMBER ->
        Stream.decodeStreamSync (b0 :: b1 :: b2 :: b3 :: rest) dopts
        = ([], Throw (SyntaxError "Invalid BOON magic number")))
  /\ (forall version rest,
        version <> TYPE_TAG.HEADER_WITH_STRING_TABLE ->
        FORMAT_VERSION < version ->
        Stream.decodeStreamSync (MAGIC_NUMBER ++ version :: rest) dopts
        = ([], Throw (SyntaxError ("Unsupported BOON version: " ++ decimal version))))
  /\ (forall version rest,
        FORMAT_VERSION < version ->
        Stream.decodeStreamSync
          (MAGIC_NUMBER ++ TYPE_TAG.HEADER_WITH_STRING_TABLE :: version :: rest) dopts
        = ([], Throw (SyntaxError ("Unsupported BOON version: " ++ decimal version)))).
Proof.
  intro He. unfold Stream.decodeStreamSync. rewrite He.
  split; [| split; [| split]].
  - intros data Hlen. unfold Stream.gbind at 1. unfold Stream.readHeaderEvents.
    unfold Stream.gbind at 1. unfold Stream.lift at 1.
    unfold Buffer.readBytes.
    replace (_ <? _) with true; [reflexivity |].
    symmetry. apply Z.ltb_lt. cbn [Buffer.createBinaryReader Buffer.buffer Buffer.offset].
    lia.
  - intros b0 b1 b2 b3 rest Hm. unfold Stream.gbind at 1. unfold Stream.readHeaderEvents.
    unfold Stream.gbind at 1. unfold Stream.lift at 1.
    assert (Hb : Buffer.readBytes 4
                   (Buffer.createBinaryReader (b0 :: b1 :: b2 :: b3 :: rest))
                 = Ok ([b0; b1; b2; b3],
                       {| Buffer.buffer := b0 :: b1 :: b2 :: b3 :: rest;
                          Buffer.offset := 4 |})).
    { unfold Buffer.readBytes.
      replace (_ <? _) with false; [reflexivity |].
      symmetry. apply Z.ltb_ge.
      cbn [Buffer.createBinaryReader Buffer.buffer Buffer.offset List.length]. lia. }
    rewrite Hb. cbn [nth].
    replace (negb (b0 =? nth 0 MAGIC_NUMBER 0) || negb (b1 =? nth 1 MAGIC_NUMBER 0)
             || negb (b2 =? nth 2 MAGIC_NUMBER 0) || negb (b3 =? nth 3 MAGIC_NUMBER 0))
      with true; [reflexivity |].
    symmetry.
    destruct (Z.eqb_spec b0 (nth 0 MAGIC_NUMBER 0)) as [E0 | E0]; [| reflexivity].
    destruct (Z.eqb_spec b1 (nth 1 MAGIC_NUMBER 0)) as [E1 | E1]; [| reflexivity].
    destruct (Z.eqb_spec b2 (nth 2 MAGIC_NUMBER 0)) as [E2 | E2]; [| reflexivity].
    destruct (Z.eqb_spec b3 (nth 3 MAGIC_NUMBER 0)) as [E3 | E3]; [| reflexivity].
    exfalso. apply Hm. rewrite E0, E1, E2, E3. reflexivity.
  - intros version rest Hv Hgt. unfold Stream.gbind at 1. unfold Stream.readHeaderEvents.
    unfold Stream.gbind at 1. unfold Stream.lift at 1.
    assert (Hb : Buffer.readBytes 4
                   (Buffer.createBinaryReader (MAGIC_NUMBER ++ version :: rest))
                 = Ok (MAGIC_NUMBER,
                       {| Buffer.buffer := MAGIC_NUMBER ++ version :: rest;
                          Buffer.offset := 4 |})).
    { unfold Buffer.readBytes.
      replace (_ <? _) with false; [reflexivity |].
      symmetry. apply Z.ltb_ge.
      cbn [Buffer.createBinaryReader Buffer.buffer Buffer.offset].
      rewrite length_app. cbn [List.length MAGIC_NUMBER]. lia. }
    rewrite Hb.
    change (negb (nth 0 MAGIC_NUMBER 0 =? nth 0 MAGIC_NUMBER 0)
            || negb (nth 1 MAGIC_NUMBER 0 =? nth 1 MAGIC_NUMBER 0)
            || negb (nth 2 MAGIC_NUMBER 0 =? nth 2 MAGIC_NUMBER 0)
            || negb (nth 3 MAGIC_NUMBER 0 =? nth 3 MAGIC_NUMBER 0)) with false.
    cbv iota.
    unfold Stream.gbind at 1. unfold Stream.lift at 1.
    change (Buffer.readUint8 {| Buffer.buffer := MAGIC_NUMBER ++ version :: rest;
                                Buffer.offset := 4 |})
      with (Ok (version, {| Buffer.buffer := MAGIC_NUMBER ++ version :: rest;
                            Buffer.offset := 5 |})).
    cbv iota beta.
    replace (version =? TYPE_TAG.HEADER_WITH_STRING_TABLE) with false
      by (symmetry; apply Z.eqb_neq; exact Hv).
    replace (FORMAT_VERSION <? version) with true
      by (symmetry; apply Z.ltb_lt; exact Hgt).
    reflexivity.
  - intros version rest Hgt. unfold Stream.gbind at 1. unfold Stream.readHeaderEvents.
    unfold Stream.gbind at 1. unfold Stream.lift at 1.
    assert (Hb : Buffer.readBytes 4
                   (Buffer.createBinaryReader
                      (MAGIC_NUMBER ++ TYPE_TAG.HEADER_WITH_STRING_TABLE :: version :: rest))
                 = Ok (MAGIC_NUMBER,
                       {| Buffer.buffer :=
                            MAGIC_NUMBER ++ TYPE_TAG.HEADER_WITH_STRING_TABLE
                            :: version :: rest;
                          Buffer.offset := 4 |})).
    { unfold Buffer.readBytes.
      replace (_ <? _) with false; [reflexivity |].
      symmetry. apply Z.ltb_ge.
      cbn [Buffer.createBinaryReader Buffer.buffer Buffer.offset].
      rewrite length_app. cbn [List.length MAGIC_NUMBER]. lia. }
    rewrite Hb.
    change (negb (nth 0 MAGIC_NUMBER 0 =? nth 0 MAGIC_NUMBER 0)
            || negb (nth 1 MAGIC_NUMBER 0 =? nth 1 MAGIC_NUMBER 0)
            || negb (nth 2 MAGIC_NUMBER 0 =? nth 2 MAGIC_NUMBER 0)
            || negb (nth 3 MAGIC_NUMBER 0 =? nth 3 MAGIC_NUMBER 0)) with false.
    cbv iota.
    unfold Stream.gbind at 1. unfold Stream.lift at 1.
    change (Buffer.readUint8
              {| Buffer.buffer :=
                   MAGIC_NUMBER ++ TYPE_TAG.HEADER_WITH_STRING_TABLE :: version :: rest;
                 Buffer.offset := 4 |})
      with (Ok (TYPE_TAG.HEADER_WITH_STRING_TABLE,
                {| Buffer.buffer :=
                     MAGIC_NUMBER ++ TYPE_TAG.HEADER_WITH_STRING_TABLE :: version :: rest;
                   Buffer.offset := 5 |})).
    cbv iota beta.
    change (TYPE_TAG.HEADER_WITH_STRING_TABLE =? TYPE_TAG.HEADER_WITH_STRING_TABLE)
      with true. cbv iota.
    unfold Stream.gbind at 1. unfold Stream.lift at 1.
    change (Buffer.readUint8
              {| Buffer.buffer :=
                   MAGIC_NUMBER ++ TYPE_TAG.HEADER_WITH_STRING_TABLE :: version :: rest;
                 Buffer.offset := 5 |})
      with (Ok (version,
                {| Buffer.buffer :=
                     MAGIC_NUMBER ++ TYPE_TAG.HEADER_WITH_STRING_TABLE :: version :: rest;
                   Buffer.offset := 6 |})).
    cbv iota beta.
    replace (FORMAT_VERSION <? version) with true
      by (symmetry; apply Z.ltb_lt; exact Hgt).
    reflexivity.
Qed.

(* ================================================================== *)
(** ** Normalisation and key collection *)

Lemma obj_set_keys_unique (props : list (string * JsValue)) (key : string) (value : JsValue) :
  unique_keys (map fst props) = true ->
  unique_keys (map fst (obj_set props key value)) = true.
Proof.
  induction props as [| [k v] props IH]; intro H; [reflexivity |].
  cbn [map fst unique_keys] in H. apply andb_true_iff in H. destruct H as [Hk Hrest].
  cbn [obj_set]. destruct (String.eqb_spec k key) as [-> | Hne].
  - cbn [map fst unique_keys]. rewrite Hk, Hrest. reflexivity.
  - cbn [map fst unique_keys]. rewrite (IH Hrest), andb_true_r.
    apply negb_true_iff in Hk. apply negb_true_iff.
    clear IH Hrest. induction props as [| [k' v'] props IH]; cbn [obj_set map fst existsb].
    + apply String.eqb_neq in Hne. rewrite Hne. reflexivity.
    + cbn [map fst existsb] in Hk. apply orb_false_iff in Hk. destruct Hk as [Hk1 Hk2].
      destruct (String.eqb k' key); cbn [map fst existsb]; rewrite Hk1; cbn [orb].
      * exact Hk2.
      * apply IH. exact Hk2.
Qed.

Lemma obj_set_values (P : JsValue -> Prop) (props : list (string * JsValue))
    (key : string) (value : JsValue) :
  Forall (fun kv => P (snd kv)) props -> P value ->
  Forall (fun kv => P (snd kv)) (obj_set props key value).
Proof.
  intros Hall Hv. induction props as [| [k v] props IH]; cbn [obj_set].
  - constructor; [exact Hv | constructor].
  - inversion Hall as [| ? ? Hkv Hrest]; subst.
    destruct (String.eqb k key); constructor; auto.
Qed.

Lemma normalizeValue_defined (v : JsValue) :
  is_undefined (Encoder.normalizeValue v) = false.
Proof. destruct v; reflexivity. Qed.

(** X11.  [normalizeValue] is idempotent on every input: normalising a
    normalised value changes nothing. *)
Theorem normalizeValue_idempotent (input : JsValue) :
  Encoder.normalizeValue (Encoder.normalizeValue input) = Encoder.normalizeValue input.
Proof.
  induction input as [v Hleaf | items IH | props IH] using JsValue_induction.
  - destruct v; try discriminate; reflexivity.
  - cbn [Encoder.normalizeValue]. f_equal. rewrite map_map.
    apply map_ext_in. intros [item |] Hin; [| reflexivity].
    rewrite Forall_forall in IH. f_equal. apply (IH _ Hin).
  - cbn [Encoder.normalizeValue].
    set (step := fun (result : list (string * JsValue)) (kv : string * JsValue) =>
                   if is_undefined (snd kv) then result
                   else obj_set result (fst kv) (Encoder.normalizeValue (snd kv))).
    assert (Hinv : forall acc,
               unique_keys (map fst acc) = true ->
               Forall (fun kv => Encoder.normalizeValue (snd kv) = snd kv
                                 /\ is_undefined (snd kv) = false) acc ->
               unique_keys (map fst (fold_left step props acc)) = true
               /\ Forall (fun kv => Encoder.normalizeValue (snd kv) = snd kv
                                    /\ is_undefined (snd kv) = false)
                         (fold_left step props acc)).
    { induction props as [| kv props IHprops]; intros acc Hu Hall; [split; assumption |].
      inversion IH as [| ? ? Hkv Hrest]; subst.
      cbn [fold_left]. apply (IHprops Hrest).
      - unfold step. destruct (is_undefined (snd kv)); [exact Hu |].
        apply obj_set_keys_unique. exact Hu.
      - unfold step. destruct (is_undefined (snd kv)); [exact Hall |].
        apply (obj_set_values
                 (fun v => Encoder.normalizeValue v = v /\ is_undefined v = false)).
        + exact Hall.
        + split; [exact Hkv | apply normalizeValue_defined]. }
    destruct (Hinv [] eq_refl (Forall_nil _)) as [Hu Hall].
    f_equal.
    rewrite (fold_left_ext_in step (fun s kv => obj_set s (fst kv) (snd kv))).
    + apply (fold_obj_set _ []). exact Hu.
    + intros a kv Hin. rewrite Forall_forall in Hall.
      destruct (Hall _ Hin) as [Hfix Hdef].
      unfold step. rewrite Hdef, Hfix. reflexivity.
Qed.

(** X10.  [collectKeys] returns the keys that occur in the value, each once,
    and every such key has its place in the key map built from them, so
    that [keyMap.get(key)] is never [undefined] while the value is
    written. *)
Theorem collectKeys_exact (v : JsValue) :
  NoDup (Encoder.collectKeys v [])
  /\ (forall k, In k (Encoder.collectKeys v []) <-> 0 < occurrences k v)
  /\ forall k, 0 < occurrences k v ->
       exists i,
         Encoder.keyMap_get (Encoder.collectKeys v []) k = Some i
         /\ nth_error (Encoder.collectKeys v []) (Z.to_nat i) = Some k.
Proof.
  split; [apply (countKeys_occurrences v) | split].
  - intro k. split.
    + intro Hin. destruct (collectKeys_sound v [] k Hin) as [[] | H]. exact H.
    + apply occurring_key_collected.
  - intros k Hocc. unfold Encoder.keyMap_get.
    destruct (index_from_In k _ (occurring_key_collected v k Hocc) 0) as (i & Hi & _).
    exists i. split; [exact Hi |].
    destruct (index_from_nth _ _ _ _ Hi) as [_ Hn].
    rewrite Z.sub_0_r in Hn. exact Hn.
Qed.

(* ================================================================== *)
(** ** The growable buffer behind the byte-list model *)

Lemma ensureCapacity_spec (buf : Growable.GrowableBuffer) (n : nat) :
  let buf' := Growable.ensureCapacity buf n in
  Growable.offset buf' = Growable.offset buf
  /\ (Growable.offset buf + n <= List.length (Growable.buffer buf'))%nat
  /\ firstn (List.length (Growable.buffer buf)) (Growable.buffer buf')
     = Growable.buffer buf
  /\ (List.length (Growable.buffer buf') = List.length (Growable.buffer buf)
      \/ List.length (Growable.buffer buf')
         = Nat.max (2 * List.length (Growable.buffer buf)) (Growable.offset buf + n)).
Proof.
  unfold Growable.ensureCapacity.
  destruct (Nat.ltb_spec (List.length (Growable.buffer buf)) (Growable.offset buf + n))
    as [Hlt | Hge]; cbv zeta.
  - unfold Growable.grow. cbn [Growable.buffer Growable.offset].
    assert (Hlen : List.length
                     (Growable.buffer buf
                      ++ skipn (List.length (Growable.buffer buf))
                           (repeat 0 (Nat.max (List.length (Growable.buffer buf) * 2)
                                        (Growable.offset buf + n))))
                   = Nat.max (2 * List.length (Growable.buffer buf))
                       (Growable.offset buf + n)).
    { rewrite length_app, length_skipn, repeat_length. lia. }
    repeat split.
    + rewrite Hlen. lia.
    + rewrite firstn_app, firstn_all, Nat.sub_diag. simpl. apply app_nil_r.
    + right. exact Hlen.
  - repeat split.
    + exact Hge.
    + apply firstn_all.
    + left. reflexivity.
Qed.

Lemma getResult_ensureCapacity (buf : Growable.GrowableBuffer) (n : nat) :
  (Growable.offset buf <= List.length (Growable.buffer buf))%nat ->
  Growable.getResult (Growable.ensureCapacity buf n) = Growable.getResult buf.
Proof.
  intro Hinv. destruct (ensureCapacity_spec buf n) as (Ho & _ & Hkeep & _).
  unfold Growable.getResult. rewrite Ho. rewrite <- Hkeep at 1.
  rewrite firstn_firstn. f_equal. lia.
Qed.

Lemma firstn_store (l : list Z) (i : nat) (v : Z) :
  (i < List.length l)%nat ->
  firstn (i + 1) (Growable.store l i v) = firstn i l ++ [v mod 256]
  /\ List.length (Growable.store l i v) = List.length l.
Proof.
  intro Hi. unfold Growable.store.
  destruct (Nat.ltb_spec i (List.length l)); [| lia].
  split.
  - rewrite app_assoc. rewrite firstn_app.
    assert (Hl : List.length (firstn i l ++ [v mod 256]) = (i + 1)%nat).
    { rewrite length_app, length_firstn. simpl. lia. }
    rewrite Hl, Nat.sub_diag. simpl. rewrite app_nil_r.
    rewrite <- Hl. apply firstn_all.
  - rewrite !length_app, length_firstn, length_skipn. simpl. lia.
Qed.

(** X3.  On a growable buffer whose offset lies inside its array,
    [writeTag] and [writeHeader] append to what [getResult] returns exactly
    the bytes that the byte-list model of the encoder appends, whatever
    the capacity was, and they keep the offset inside the array;
    [writeHeader] does not throw. *)
Theorem growable_writes_append (buf : Growable.GrowableBuffer) (tag : Z) :
  (Growable.offset buf <= List.length (Growable.buffer buf))%nat ->
  Growable.getResult (Growable.writeTag buf tag)
  = Encoder.writeTag (Growable.getResult buf) tag
  /\ (Growable.offset (Growable.writeTag buf tag)
      <= List.length (Growable.buffer (Growable.writeTag buf tag)))%nat
  /\ exists buf',
       Growable.writeHeader buf = Ok buf'
       /\ Growable.getResult buf' = Encoder.writeHeader (Growable.getResult buf)
       /\ (Growable.offset buf' <= List.length (Growable.buffer buf'))%nat.
Proof.
  intro Hinv. split; [| split].
  - destruct (ensureCapacity_spec buf 1) as (Ho & Hcap & _ & _).
    unfold Growable.writeTag, Growable.getResult at 1. cbv zeta.
    cbn [Growable.buffer Growable.offset].
    destruct (firstn_store (Growable.buffer (Growable.ensureCapacity buf 1))
                (Growable.offset (Growable.ensureCapacity buf 1)) tag) as [Hf _];
      [lia |].
    rewrite Hf. unfold Encoder.writeTag, Encoder.put. f_equal.
    apply (getResult_ensureCapacity buf 1 Hinv).
  - destruct (ensureCapacity_spec buf 1) as (Ho & Hcap & _ & _).
    unfold Growable.writeTag. cbv zeta. cbn [Growable.buffer Growable.offset].
    destruct (firstn_store (Growable.buffer (Growable.ensureCapacity buf 1))
                (Growable.offset (Growable.ensureCapacity buf 1)) tag) as [_ Hl];
      [lia |].
    rewrite Hl. lia.
  - destruct (ensureCapacity_spec buf 5) as (Ho & Hcap & _ & _).
    pose proof (getResult_ensureCapacity buf 5 Hinv) as Hres.
    unfold Growable.writeHeader, Growable.Uint8Array_set. cbv zeta.
    set (b := Growable.ensureCapacity buf 5) in *.
    change (List.length MAGIC_NUMBER) with 4%nat.
    destruct (Nat.ltb_spec (List.length (Growable.buffer b)) (Growable.offset b + 4));
      [lia |].
    cbn [bind Growable.buffer Growable.offset].
    eexists. split; [reflexivity |].
    set (filled := firstn (Growable.offset b) (Growable.buffer b) ++ MAGIC_NUMBER
                   ++ skipn (Growable.offset b + 4) (Growable.buffer b)).
    assert (Hlf : List.length filled = List.length (Growable.buffer b)).
    { unfold filled. rewrite !length_app, length_firstn, length_skipn.
      change (List.length MAGIC_NUMBER) with 4%nat. lia. }
    destruct (firstn_store filled (Growable.offset b + 4) FORMAT_VERSION) as [Hf Hl];
      [lia |].
    split.
    + unfold Growable.getResult at 1. cbn [Growable.buffer Growable.offset].
      rewrite Hf. unfold Encoder.writeHeader, Encoder.put, Encoder.put_bytes.
      f_equal. rewrite <- Hres. unfold Growable.getResult, filled.
      rewrite app_assoc, firstn_app.
      assert (Hl4 : List.length (firstn (Growable.offset b) (Growable.buffer b)
                                 ++ MAGIC_NUMBER) = (Growable.offset b + 4)%nat).
      { rewrite length_app, length_firstn.
        change (List.length MAGIC_NUMBER) with 4%nat. lia. }
      rewrite Hl4, Nat.sub_diag. simpl firstn at 2. rewrite app_nil_r.
      rewrite <- Hl4. apply firstn_all.
    + cbn [Growable.buffer Growable.offset]. rewrite Hl, Hlf. lia.
Qed.

(* ================================================================== *)
(** ** Round trips of the v2 scheme *)

Lemma f64_compose (s e m : Z) :
  0 <= s <= 1 -> 0 <= e < 2048 -> 0 <= m < 2 ^ 52 ->
  f64_sign (s * 2 ^ 63 + e * 2 ^ 52 + m) = s
  /\ f64_exp (s * 2 ^ 63 + e * 2 ^ 52 + m) = e
  /\ f64_mant (s * 2 ^ 63 + e * 2 ^ 52 + m) = m
  /\ 0 <= s * 2 ^ 63 + e * 2 ^ 52 + m < 2 ^ 64.
Proof.
  intros Hs He Hm. unfold f64_sign, f64_exp, f64_mant.
  change 0x7FF with (Z.ones 11). change (2 ^ 52 - 1) with (Z.ones 52).
  rewrite !Z.land_ones by lia. rewrite !Z.shiftr_div_pow2 by lia.
  change (2 ^ 64) with 18446744073709551616.
  change (2 ^ 63) with 9223372036854775808.
  change (2 ^ 52) with 4503599627370496 in *.
  change (2 ^ 11) with 2048.
  Z.div_mod_to_equations. lia.
Qed.

Lemma large_double_bits (z : Z) :
  large_double z = true ->
  number_of_f64 (V2.f64_of_int z) = NInt z
  /\ 0 <= V2.f64_of_int z < 2 ^ 64.
Proof.
  unfold large_double. cbv zeta. intro H.
  apply andb_true_iff in H. destruct H as [H Hdiv].
  apply andb_true_iff in H. destruct H as [Hbig Hlog].
  apply Z.ltb_lt in Hbig. apply Z.ltb_lt in Hlog. apply Z.eqb_eq in Hdiv.
  set (a := Z.abs z) in *. set (p := Z.log2 a) in *.
  assert (Ha : 0 < a) by (change (2 ^ 52) with 4503599627370496 in Hbig; lia).
  assert (Hp52 : 52 <= p).
  { unfold p. change 52 with (Z.log2 (2 ^ 52)). apply Z.log2_le_mono. lia. }
  destruct (Z.log2_spec a Ha) as [Hlo Hhi]. fold p in Hlo, Hhi.
  assert (Habs : a = Z.abs z) by reflexivity.
  assert (Hpdef : p = Z.log2 a) by reflexivity.
  clearbody p. clearbody a.
  assert (Hsplit : 2 ^ p = 2 ^ 52 * 2 ^ (p - 52)).
  { rewrite <- Z.pow_add_r by lia. f_equal. lia. }
  assert (Hpk : 0 < 2 ^ (p - 52)) by (apply Z.pow_pos_nonneg; lia).
  assert (Hq : exists q, a = q * 2 ^ (p - 52)).
  { exists (a / 2 ^ (p - 52)).
    pose proof (Z.div_mod a (2 ^ (p - 52)) ltac:(lia)). lia. }
  destruct Hq as [q Hq].
  assert (Hq1 : 2 ^ 52 <= q < 2 * 2 ^ 52).
  { rewrite Z.pow_succ_r in Hhi by lia. split; nia. }
  assert (Hfrac : (if p <=? 52 then Z.shiftl (a - 2 ^ p) (52 - p)
                   else Z.shiftr (a - 2 ^ p) (p - 52)) = q - 2 ^ 52).
  { destruct (Z.leb_spec p 52).
    - assert (Hp : p = 52) by lia.
      rewrite Hp in *. change (52 - 52) with 0 in *.
      rewrite Z.shiftl_0_r. change (2 ^ 0) with 1 in *. lia.
    - rewrite Z.shiftr_div_pow2 by lia.
      replace (a - 2 ^ p) with ((q - 2 ^ 52) * 2 ^ (p - 52)) by lia.
      apply Z.div_mul. lia. }
  unfold V2.f64_of_int.
  replace (z =? 0) with false by (symmetry; apply Z.eqb_neq; lia).
  cbv zeta. rewrite <- Habs, <- Hpdef, Hfrac.
  rewrite Z.shiftl_mul_pow2 by lia.
  set (s := if z <? 0 then 1 else 0).
  replace ((if z <? 0 then 2 ^ 63 else 0) + (p + 1023) * 2 ^ 52 + (q - 2 ^ 52))
    with (s * 2 ^ 63 + (p + 1023) * 2 ^ 52 + (q - 2 ^ 52))
    by (unfold s; destruct (z <? 0); lia).
  assert (Hs : 0 <= s <= 1) by (unfold s; destruct (z <? 0); lia).
  destruct (f64_compose s (p + 1023) (q - 2 ^ 52) Hs ltac:(lia) ltac:(lia))
    as (F1 & F2 & F3 & F4).
  split; [| exact F4].
  unfold number_of_f64. cbv zeta. rewrite F1, F2, F3.
  replace (p + 1023 =? 2047) with false by (symmetry; apply Z.eqb_neq; lia).
  replace (p + 1023 =? 0) with false by (symmetry; apply Z.eqb_neq; lia).
  replace (p + 1023 - 1023) with p by lia.
  replace (52 <=? p) with true by (symmetry; apply Z.leb_le; lia).
  rewrite Z.shiftl_mul_pow2 by lia.
  replace (2 ^ 52 + (q - 2 ^ 52)) with q by lia.
  rewrite <- Hq. f_equal. unfold s.
  destruct (Z.ltb_spec z 0); cbn [Z.eqb]; lia.
Qed.

Lemma Reads_v2_readVarint (n : Z) (bytes : list Z) :
  Leb128 n bytes -> n <= 2 ^ 53 -> Reads V2.readVarint bytes n.
Proof.
  intros Hleb Hn pre rest. unfold V2.readVarint.
  assert (Hn70 : n < 2 ^ 70).
  { apply Z.le_lt_trans with (2 ^ 53); [exact Hn | reflexivity]. }
  pose proof (Leb128_length _ _ Hleb 9 Hn70) as Hlen.
  pose proof (Leb128_nonneg _ _ Hleb) as Hpos.
  assert (Hacc : 0 <= 0 < 2 ^ 0) by (simpl; lia).
  rewrite (v2_readVarint_loop_Leb128 n bytes Hleb 10 0 0 pre rest
             ltac:(lia) Hacc ltac:(lia) ltac:(lia)).
  rewrite round53_small by (simpl; lia).
  do 2 f_equal. simpl. lia.
Qed.

Lemma encodeVarint_bytes (n : Z) :
  0 <= n ->
  exists bytes, Leb128 n bytes /\ forall out, V2.encodeVarint n out = Ok (out ++ bytes).
Proof.
  intro H. destruct (encodeVarint_Leb128 n [] H) as (vb & _ & Hleb).
  exists vb. split; [exact Hleb |]. intro out.
  destruct (encodeVarint_Leb128 n out H) as (vb' & Hw' & Hleb').
  rewrite Hw'. do 2 f_equal. eapply Leb128_unique; eassumption.
Qed.

Lemma Reads_v2_readString (bytes : list Z) :
  Reads (V2.readString (Z.of_nat (List.length bytes))) bytes (textDecoder_decode bytes).
Proof.
  intros pre rest. unfold V2.readString.
  replace (_ <? _) with false.
  - rewrite Nat2Z.id, slice_at. reflexivity.
  - symmetry. apply Z.ltb_ge. unfold reader_at. simpl. rewrite !length_app. lia.
Qed.

Lemma Reads_v2_readFloat64 (bits : Z) :
  0 <= bits < 2 ^ 64 ->
  Reads V2.readFloat64 (rev (be_bytes 8 bits)) (number_of_f64 bits).
Proof.
  intros Hb pre rest. unfold V2.readFloat64.
  assert (Hl : List.length (rev (be_bytes 8 bits)) = 8%nat)
    by (rewrite length_rev; apply be_bytes_length).
  replace (Nat.ltb _ _) with false.
  - pose proof (slice_at pre (rev (be_bytes 8 bits)) rest) as Hs.
    rewrite Hl in Hs. rewrite Hs, rev_involutive.
    rewrite be_value_be_bytes_small by (simpl; lia).
    unfold Buffer.advance, reader_at, reader_past.
    cbn [Buffer.buffer Buffer.offset]. congruence.
  - symmetry. apply Nat.ltb_ge. unfold reader_at.
    cbn [Buffer.buffer Buffer.offset]. rewrite !length_app, Hl. lia.
Qed.


Ltac v2_enter pre rest :=
  intros pre rest; cbn [V2.readValue]; unfold Buffer.rbind at 1;
  rewrite (proj1 (v2_next_at pre _ _ rest)); cbv iota beta;
  unfold Buffer.rbind at 1;
  rewrite (proj2 (v2_next_at pre _ _ rest));
  rewrite reader_at_cons; rewrite <- reader_past_cons.

Lemma v2_leaf_carries (v : JsValue) :
  is_leaf v = true -> v2_value v = true ->
  exists bytes,
    forall loops,
      Carries (fun out v => V2.encodeValue v out) (V2.readValue loops) v bytes.
Proof.
  intros Hleaf Hw.
  destruct v as [| | b | [z | bits] | s | | | | |]; try discriminate.
  - exists [V2.TAG.NULL]. intro loops. split; [| split].
    + intro out. reflexivity.
    + simpl. lia.
    + intros [| d] Hd; [simpl in Hd; lia |]. v2_enter pre rest.
      exact (Reads_ret JNull _ _).
  - exists [if b then V2.TAG.TRUE else V2.TAG.FALSE]. intro loops. split; [| split].
    + intro out. reflexivity.
    + simpl. lia.
    + intros [| d] Hd; [simpl in Hd; lia |]. v2_enter pre rest.
      destruct b; exact (Reads_ret (JBool _) _ _).
  - cbn [v2_value v2_number] in Hw.
    destruct (Z.leb_spec (Z.abs z) V2.MAX_ZIGZAG_SAFE) as [Hsafe | Hbig].
    + pose proof (zigzag_formula z Hsafe) as Hzz.
      assert (Hzpos : 0 <= V2.zigzag z <= 2 ^ 53).
      { rewrite Hzz. unfold V2.MAX_ZIGZAG_SAFE in Hsafe.
        change (2 ^ 52) with 4503599627370496 in Hsafe.
        change (2 ^ 53) with 9007199254740992.
        destruct (Z.leb_spec 0 z); lia. }
      destruct (encodeVarint_bytes (V2.zigzag z) ltac:(lia)) as (vb & Hleb & Henc).
      exists (V2.TAG.INT :: vb). intro loops. split; [| split].
      * intro out. cbn [V2.encodeValue].
        replace (Z.abs z <=? V2.MAX_ZIGZAG_SAFE) with true
          by (symmetry; apply Z.leb_le; exact Hsafe).
        unfold V2.encodeZigzagVarint. rewrite Henc, <- app_assoc. reflexivity.
      * simpl. lia.
      * intros [| d] Hd; [simpl in Hd; lia |]. v2_enter pre rest.
        apply (Reads_map V2.readZigzag (fun z => JNum (NInt z)) vb z).
        unfold V2.readZigzag.
        pose proof (Reads_map V2.readVarint V2.unzigzag vb (V2.zigzag z)
                      (Reads_v2_readVarint _ _ Hleb ltac:(lia))) as Hz.
        rewrite (unzigzag_zigzag z Hsafe) in Hz. exact Hz.
    + cbn [orb] in Hw.
      replace (Z.abs z <=? V2.MAX_ZIGZAG_SAFE) with false in Hw
        by (symmetry; apply Z.leb_gt; exact Hbig).
      cbn [orb] in Hw.
      destruct (large_double_bits z Hw) as (Hnum & Hrange).
      exists (V2.TAG.FLOAT64 :: rev (be_bytes 8 (V2.f64_of_int z))).
      intro loops. split; [| split].
      * intro out. cbn [V2.encodeValue].
        replace (Z.abs z <=? V2.MAX_ZIGZAG_SAFE) with false
          by (symmetry; apply Z.leb_gt; exact Hbig).
        unfold V2.encodeFloat64. cbn [V2.f64_bits].
        rewrite <- app_assoc. reflexivity.
      * simpl. lia.
      * intros [| d] Hd; [simpl in Hd; lia |]. v2_enter pre rest.
        pose proof (Reads_map V2.readFloat64 JNum _ _
                      (Reads_v2_readFloat64 _ Hrange)) as Hf.
        rewrite Hnum in Hf. exact (Hf _ _).
  - cbn [v2_value v2_number] in Hw. unfold float_pattern in Hw.
    apply andb_true_iff in Hw. destruct Hw as [Hw Hn].
    apply andb_true_iff in Hw. destruct Hw as [Hlo Hhi].
    apply Z.leb_le in Hlo. apply Z.ltb_lt in Hhi.
    assert (Hnum : number_of_f64 bits = NFloat bits).
    { destruct (number_of_f64 bits) as [| b]; [discriminate |].
      apply Z.eqb_eq in Hn. congruence. }
    exists (V2.TAG.FLOAT64 :: rev (be_bytes 8 bits)).
    intro loops. split; [| split].
    + intro out. cbn [V2.encodeValue]. unfold V2.encodeFloat64. cbn [V2.f64_bits].
      rewrite <- app_assoc. reflexivity.
    + simpl. lia.
    + intros [| d] Hd; [simpl in Hd; lia |]. v2_enter pre rest.
      pose proof (Reads_map V2.readFloat64 JNum _ _
                    (Reads_v2_readFloat64 bits ltac:(lia))) as Hf.
      rewrite Hnum in Hf. exact (Hf _ _).
  - cbn [v2_value] in Hw. unfold v2_string in Hw.
    apply andb_true_iff in Hw. destruct Hw as [Hempty Hlen].
    apply Z.leb_le in Hlen. unfold byteLength in Hlen.
    destruct (js_length s =? 0) eqn:Hjs.
    + cbn [negb orb] in Hempty. apply String.eqb_eq in Hempty. subst s.
      exists [V2.TAG.STRING_EMPTY]. intro loops. split; [| split].
      * intro out. reflexivity.
      * simpl. lia.
      * intros [| d] Hd; [simpl in Hd; lia |]. v2_enter pre rest.
        exact (Reads_ret (JStr EmptyString) _ _).
    + destruct (encodeVarint_bytes (Z.of_nat (List.length (textEncoder_encode s)))
                  ltac:(lia)) as (vb & Hleb & Henc).
      exists (V2.TAG.STRING :: vb ++ textEncoder_encode s).
      intro loops. split; [| split].
      * intro out. cbn [V2.encodeValue]. rewrite Hjs, Henc. cbn [bind].
        rewrite <- !app_assoc. reflexivity.
      * simpl. lia.
      * intros [| d] Hd; [simpl in Hd; lia |]. v2_enter pre rest.
        assert (H : Reads
                      (Buffer.rbind V2.readVarint (fun length =>
                       Buffer.rbind (V2.readString length) (fun s =>
                       Buffer.ret (JStr s))))
                      (vb ++ textEncoder_encode s) (JStr s)).
        { eapply Reads_bind; [apply Reads_v2_readVarint; [exact Hleb | exact Hlen] |].
          pose proof (Reads_map (V2.readString _) JStr _ _
                        (Reads_v2_readString (textEncoder_encode s))) as Ht.
          rewrite text_roundtrip in Ht. exact Ht. }
        exact (H _ _).
Qed.

Lemma v2_array_carries (items : list (option JsValue)) (bs : list (list Z)) :
  Z.of_nat (List.length items) <= 2 ^ 53 ->
  Forall2 (fun slot b =>
             match slot with
             | Some item =>
                 forall loops,
                   Carries (fun out v => V2.encodeValue v out) (V2.readValue loops) item b
             | None => False
             end) items bs ->
  exists bytes,
    forall loops,
      Carries (fun out v => V2.encodeValue v out) (V2.readValue loops) (JArr items) bytes.
Proof.
  intros Hlen H.
  destruct items as [| slot0 items0] eqn:Hitems.
  - exists [V2.TAG.ARRAY_EMPTY]. intro loops. split; [| split].
    + intro out. reflexivity.
    + simpl. lia.
    + intros [| d] Hd; [simpl in Hd; lia |]. v2_enter pre rest.
      exact (Reads_ret (JArr []) _ _).
  - rewrite <- Hitems in *.
    assert (Hne : (Z.of_nat (List.length items) =? 0) = false).
    { apply Z.eqb_neq. rewrite Hitems. simpl. lia. }
    clear Hitems slot0 items0.
    destruct (encodeVarint_bytes (Z.of_nat (List.length items)) ltac:(lia))
      as (cb & Hleb & Henc).
    exists (V2.TAG.ARRAY :: cb ++ List.concat bs). intro loops. split; [| split].
    + intro out. cbn [V2.encodeValue]. rewrite Hne, Henc. cbn [bind].
      rewrite (fold_write
                 (fun out slot => match slot with
                                  | Some item => V2.encodeValue item out
                                  | None => V2.cannotEncode JUndefined
                                  end) items bs).
      * rewrite <- !app_assoc. reflexivity.
      * eapply Forall2_impl; [| exact H].
        intros [item |] b Hc; [| contradiction]. apply (Hc O).
    + cbn [height List.length]. rewrite length_app.
      pose proof (max_height_le
                    (fun slot => match slot with Some item => height item | None => O end)
                    items bs) as Hm.
      assert (Hh : Forall2 (fun (slot : option JsValue) b =>
                              (match slot with Some item => height item | None => O end
                               <= List.length b)%nat) items bs).
      { eapply Forall2_impl; [| exact H].
        intros [item |] b Hc; [apply (Hc O) | contradiction]. }
      specialize (Hm Hh). lia.
    + intros [| d] Hd; [simpl in Hd; lia |].
      cbn [height] in Hd. apply le_S_n in Hd.
      pose proof (max_height_bound
                    (fun slot => match slot with Some item => height item | None => O end)
                    items d Hd) as Hall.
      v2_enter pre rest.
      assert (HF : Forall2
                     (fun (slot : option JsValue) b =>
                        forall s,
                          Reads (Buffer.rbind (V2.readValue loops d)
                                   (fun v => Buffer.ret (s ++ [Some v])))
                                b (s ++ [slot])) items bs).
      { eapply Forall2_impl_in; [| exact Hall | exact H].
        intros [item |] b Hh Hc s; [| contradiction].
        apply (Reads_map (V2.readValue loops d) (fun v => s ++ [Some v])).
        apply (Hc loops). exact Hh. }
      pose proof (Reads_for_loop _ (fun s slot => s ++ [slot]) items bs HF []) as Hloop.
      rewrite fold_snoc in Hloop.
      assert (Hall' : Reads
                        (Buffer.rbind V2.readVarint (fun count =>
                         Buffer.rbind
                           (Decoder.for_loop (Z.to_nat count)
                              (fun arr =>
                                 Buffer.rbind (V2.readValue loops d)
                                   (fun v => Buffer.ret (arr ++ [Some v])))
                              [])
                           (fun arr => Buffer.ret (JArr arr))))
                        (cb ++ List.concat bs) (JArr items)).
      { eapply Reads_bind; [apply Reads_v2_readVarint; [exact Hleb | exact Hlen] |].
        rewrite Nat2Z.id.
        apply (Reads_map _ JArr). exact Hloop. }
      exact (Hall' _ _).
Qed.

Lemma v2_object_carries (entries : list (string * JsValue)) (bs : list (list Z)) :
  Z.of_nat (List.length entries) <= 2 ^ 53 ->
  unique_keys (map fst entries) = true ->
  Forall2 (fun kv b =>
             exists kb vb,
               b = kb ++ textEncoder_encode (fst kv) ++ vb
               /\ Leb128 (byteLength (fst kv)) kb
               /\ byteLength (fst kv) <= 2 ^ 53
               /\ forall loops,
                    Carries (fun out v => V2.encodeValue v out) (V2.readValue loops)
                            (snd kv) vb) entries bs ->
  exists bytes,
    forall loops,
      Carries (fun out v => V2.encodeValue v out) (V2.readValue loops)
              (JObj entries) bytes.
Proof.
  intros Hlen Huniq H.
  destruct entries as [| kv0 entries0] eqn:Hentries.
  - exists [V2.TAG.OBJECT_EMPTY]. intro loops. split; [| split].
    + intro out. reflexivity.
    + simpl. lia.
    + intros [| d] Hd; [simpl in Hd; lia |]. v2_enter pre rest.
      exact (Reads_ret (JObj []) _ _).
  - rewrite <- Hentries in *.
    assert (Hne : (Z.of_nat (List.length entries) =? 0) = false).
    { apply Z.eqb_neq. rewrite Hentries. simpl. lia. }
    clear Hentries kv0 entries0.
    destruct (encodeVarint_bytes (Z.of_nat (List.length entries)) ltac:(lia))
      as (cb & Hleb & Henc).
    exists (V2.TAG.OBJECT :: cb ++ List.concat bs). intro loops. split; [| split].
    + intro out. cbn [V2.encodeValue]. rewrite Hne, Henc. cbn [bind].
      rewrite (fold_write
                 (fun out (kv : string * JsValue) =>
                    bind (V2.encodeVarint
                            (Z.of_nat (List.length (textEncoder_encode (fst kv)))) out)
                         (fun out => V2.encodeValue (snd kv)
                                       (out ++ textEncoder_encode (fst kv))))
                 entries bs).
      * rewrite <- !app_assoc. reflexivity.
      * eapply Forall2_impl; [| exact H].
        intros kv b (kb & vb & -> & Hkleb & Hklen & Hc) out0.
        destruct (encodeVarint_bytes (byteLength (fst kv)))
          as (kb' & Hkleb' & Hkenc); [unfold byteLength; lia |].
        unfold byteLength in Hkenc. rewrite Hkenc. cbn [bind].
        destruct (Hc O) as (Hw & _). rewrite Hw.
        rewrite (Leb128_unique _ _ Hkleb' _ Hkleb).
        rewrite <- !app_assoc. reflexivity.
    + cbn [height List.length]. rewrite length_app.
      pose proof (max_height_le (fun kv : string * JsValue => height (snd kv))
                    entries bs) as Hm.
      assert (Hh : Forall2 (fun (kv : string * JsValue) b =>
                              (height (snd kv) <= List.length b)%nat) entries bs).
      { eapply Forall2_impl; [| exact H].
        intros kv b (kb & vb & -> & _ & _ & Hc).
        destruct (Hc O) as (_ & Hc' & _). rewrite !length_app. lia. }
      specialize (Hm Hh). lia.
    + intros [| d] Hd; [simpl in Hd; lia |].
      cbn [height] in Hd. apply le_S_n in Hd.
      pose proof (max_height_bound (fun kv : string * JsValue => height (snd kv))
                    entries d Hd) as Hall.
      v2_enter pre rest.
      assert (HF : Forall2
                     (fun (kv : string * JsValue) b =>
                        forall s,
                          Reads (V2.readEntry (V2.readValue loops d) s) b
                                (obj_set s (fst kv) (snd kv)))
                     entries bs).
      { eapply Forall2_impl_in; [| exact Hall | exact H].
        intros kv b Hh (kb & vb & -> & Hkleb & Hklen & Hc) s.
        unfold V2.readEntry.
        eapply Reads_bind; [apply Reads_v2_readVarint; [exact Hkleb | exact Hklen] |].
        eapply Reads_bind.
        { pose proof (Reads_v2_readString (textEncoder_encode (fst kv))) as Ht.
          rewrite text_roundtrip in Ht. exact Ht. }
        apply (Reads_map (V2.readValue loops d) (fun val => obj_set s (fst kv) val)).
        apply (Hc loops). exact Hh. }
      pose proof (Reads_for_loop _ (fun s kv => obj_set s (fst kv) (snd kv))
                    entries bs HF []) as Hloop.
      rewrite fold_obj_set in Hloop by exact Huniq.
      assert (Hall' : Reads
                        (Buffer.rbind V2.readVarint (fun count =>
                         Buffer.rbind
                           (Decoder.for_loop (Z.to_nat count)
                              (V2.readEntry (V2.readValue loops d)) [])
                           (fun obj => Buffer.ret (JObj obj))))
                        (cb ++ List.concat bs) (JObj entries)).
      { eapply Reads_bind; [apply Reads_v2_readVarint; [exact Hleb | exact Hlen] |].
        rewrite Nat2Z.id.
        apply (Reads_map _ JObj). exact Hloop. }
      exact (Hall' _ _).
Qed.

Lemma v2_value_carries (v : JsValue) :
  v2_value v = true ->
  exists bytes,
    forall loops,
      Carries (fun out v => V2.encodeValue v out) (V2.readValue loops) v bytes.
Proof.
  induction v as [v Hleaf | items IH | entries IH] using JsValue_induction; intro Hw.
  - apply v2_leaf_carries; assumption.
  - cbn [v2_value] in Hw. apply andb_true_iff in Hw. destruct Hw as [Hlen Hall].
    apply Z.leb_le in Hlen.
    assert (HE : Forall (fun slot => exists b,
                           match slot with
                           | Some item =>
                               forall loops,
                                 Carries (fun out v => V2.encodeValue v out)
                                         (V2.readValue loops) item b
                           | None => False
                           end) items).
    { rewrite forallb_forall in Hall. rewrite Forall_forall in IH |- *.
      intros [item |] Hin.
      - apply (IH _ Hin). apply (Hall _ Hin).
      - specialize (Hall _ Hin). discriminate. }
    destruct (Forall_exists_Forall2 _ _ HE) as [bs Hbs].
    apply (v2_array_carries items bs Hlen Hbs).
  - cbn [v2_value] in Hw. apply andb_true_iff in Hw. destruct Hw as [Hw Hall].
    apply andb_true_iff in Hw. destruct Hw as [Hlen Huniq].
    apply Z.leb_le in Hlen.
    assert (HE : Forall (fun kv => exists b,
                           exists kb vb,
                             b = kb ++ textEncoder_encode (fst kv) ++ vb
                             /\ Leb128 (byteLength (fst kv)) kb
                             /\ byteLength (fst kv) <= 2 ^ 53
                             /\ forall loops,
                                  Carries (fun out v => V2.encodeValue v out)
                                          (V2.readValue loops) (snd kv) vb) entries).
    { rewrite forallb_forall in Hall. rewrite Forall_forall in IH |- *.
      intros kv Hin. specialize (Hall _ Hin).
      apply andb_true_iff in Hall. destruct Hall as [Hk Hv].
      apply Z.leb_le in Hk.
      destruct (encodeVarint_bytes (byteLength (fst kv)))
        as (kb & Hkleb & _); [unfold byteLength; lia |].
      destruct (IH _ Hin Hv) as (vb & Hc).
      exists (kb ++ textEncoder_encode (fst kv) ++ vb), kb, vb.
      split; [reflexivity | split; [exact Hkleb | split; [exact Hk | exact Hc]]]. }
    destruct (Forall_exists_Forall2 _ _ HE) as [bs Hbs].
    apply (v2_object_carries entries bs Hlen Huniq Hbs).
Qed.

Lemma v2_decode_reads (bytes trailing : list Z) (v : JsValue) :
  (forall fuel,
     (List.length bytes <= fuel)%nat -> Reads (V2.readValue fuel fuel) bytes v) ->
  V2.decode (((V2.MAGIC ++ [V2.VERSION]) ++ bytes) ++ trailing) = Ok v.
Proof.
  intro Hread. rewrite <- app_assoc.
  assert (Hd : V2.decode ((V2.MAGIC ++ [V2.VERSION]) ++ bytes ++ trailing)
               = match V2.readValue
                         (S (List.length ((V2.MAGIC ++ [V2.VERSION]) ++ bytes ++ trailing)))
                         (S (List.length ((V2.MAGIC ++ [V2.VERSION]) ++ bytes ++ trailing)))
                         (reader_at (V2.MAGIC ++ [V2.VERSION]) bytes trailing) with
                 | Ok (v', _) => Ok v'
                 | Throw e => Throw e
                 end) by reflexivity.
  rewrite Hd, Hread; [reflexivity |].
  rewrite !length_app. lia.
Qed.



(* ================================================================== *)
(** ** The stream follows the eager decoder *)

Lemma getArrayLength_follows (tag : Z) (r : Buffer.BinaryReader) :
  match Decoder.readLength "array" TYPE_TAG.ARRAY_EMPTY TYPE_TAG.ARRAY_SHORT
          TYPE_TAG.ARRAY_MEDIUM TYPE_TAG.ARRAY_LONG tag r with
  | Ok (None, r') => Stream.getArrayLength tag r = Ok (0, r')
  | Ok (Some n, r') => Stream.getArrayLength tag r = Ok (n, r')
  | Throw e => Stream.getArrayLength tag r = Throw e
  end.
Proof.
  unfold Decoder.readLength, Stream.getArrayLength.
  destruct (tag =? TYPE_TAG.ARRAY_EMPTY); [reflexivity |].
  destruct (tag =? TYPE_TAG.ARRAY_SHORT).
  { unfold Buffer.rbind. destruct (Buffer.readUint8 r) as [[n r'] | e]; reflexivity. }
  destruct (tag =? TYPE_TAG.ARRAY_MEDIUM).
  { unfold Buffer.rbind. destruct (Buffer.readUint16 r) as [[n r'] | e]; reflexivity. }
  destruct (tag =? TYPE_TAG.ARRAY_LONG).
  { unfold Buffer.rbind. destruct (Buffer.readUint32 r) as [[n r'] | e]; reflexivity. }
  reflexivity.
Qed.

Lemma getObjectKeyCount_follows (tag : Z) (r : Buffer.BinaryReader) :
  match Decoder.readLength "object" TYPE_TAG.OBJECT_EMPTY TYPE_TAG.OBJECT_SHORT
          TYPE_TAG.OBJECT_MEDIUM TYPE_TAG.OBJECT_LONG tag r with
  | Ok (None, r') => Stream.getObjectKeyCount tag r = Ok (0, r')
  | Ok (Some n, r') => Stream.getObjectKeyCount tag r = Ok (n, r')
  | Throw e => Stream.getObjectKeyCount tag r = Throw e
  end.
Proof.
  unfold Decoder.readLength, Stream.getObjectKeyCount.
  destruct (tag =? TYPE_TAG.OBJECT_EMPTY); [reflexivity |].
  destruct (tag =? TYPE_TAG.OBJECT_SHORT).
  { unfold Buffer.rbind. destruct (Buffer.readUint8 r) as [[n r'] | e]; reflexivity. }
  destruct (tag =? TYPE_TAG.OBJECT_MEDIUM).
  { unfold Buffer.rbind. destruct (Buffer.readUint16 r) as [[n r'] | e]; reflexivity. }
  destruct (tag =? TYPE_TAG.OBJECT_LONG).
  { unfold Buffer.rbind. destruct (Buffer.readUint32 r) as [[n r'] | e]; reflexivity. }
  reflexivity.
Qed.

Section StreamFollowsOneDepth.
Variable d : nat.
Hypothesis IH :
  forall r, Follows (Decoder.readValue d r) (Stream.streamValue d None r).

Lemma array_loop_follows (n : nat) :
  forall acc r,
    Follows
      (Decoder.for_loop n
         (fun result =>
            Buffer.rbind (Decoder.readValue d)
              (fun v => Buffer.ret (result ++ [Some v])))
         acc r)
      (Stream.gfor n (fun _ : unit => Stream.streamValue d None) tt r).
Proof.
  induction n as [| n IHn]; intros acc r.
  - simpl. exists []. reflexivity.
  - cbn [Decoder.for_loop Stream.gfor].
    unfold Buffer.rbind at 1. unfold Buffer.rbind at 1. unfold Stream.gbind at 1.
    pose proof (IH r) as Hv. unfold Follows in Hv.
    destruct (Decoder.readValue d r) as [[v r1] | e].
    + destruct Hv as [evs Hv]. rewrite Hv. unfold Buffer.ret at 1.
      pose proof (IHn (acc ++ [Some v]) r1) as Hrest. unfold Follows in Hrest |- *.
      destruct (Decoder.for_loop n _ (acc ++ [Some v]) r1) as [[res r2] | e].
      * destruct Hrest as [evs' Hrest]. rewrite Hrest.
        exists (evs ++ evs'). reflexivity.
      * destruct Hrest as [evs' Hrest]. rewrite Hrest.
        exists (evs ++ evs'). reflexivity.
    + destruct Hv as [evs Hv]. rewrite Hv. exists evs. reflexivity.
Qed.

Lemma object_loop_follows (n : nat) :
  forall acc r,
    Follows
      (Decoder.for_loop n
         (fun result =>
            Buffer.rbind Decoder.readKeyString (fun key =>
            Buffer.rbind (Decoder.readValue d) (fun value =>
            Buffer.ret (obj_set result key value))))
         acc r)
      (Stream.gfor n
         (fun _ : unit =>
            Stream.gbind (Stream.lift Stream.readKeyString)
              (fun key => Stream.gbind (Stream.yield (Ekey key))
                            (fun _ => Stream.streamValue d None)))
         tt r).
Proof.
  induction n as [| n IHn]; intros acc r.
  - simpl. exists []. reflexivity.
  - cbn [Decoder.for_loop Stream.gfor].
    unfold Buffer.rbind at 1. unfold Buffer.rbind at 1. unfold Stream.gbind at 1.
    unfold Stream.gbind at 1. unfold Stream.lift at 1.
    change (Stream.readKeyString r) with (Decoder.readKeyString r).
    destruct (Decoder.readKeyString r) as [[key r0] | e];
      [| exists []; reflexivity].
    unfold Stream.gbind at 1. unfold Stream.yield at 1.
    unfold Buffer.rbind at 1.
    pose proof (IH r0) as Hv. unfold Follows in Hv.
    destruct (Decoder.readValue d r0) as [[v r1] | e].
    + destruct Hv as [evs Hv]. rewrite Hv. unfold Buffer.ret at 1.
      pose proof (IHn (obj_set acc key v) r1) as Hrest. unfold Follows in Hrest |- *.
      destruct (Decoder.for_loop n _ (obj_set acc key v) r1) as [[res r2] | e].
      * destruct Hrest as [evs' Hrest]. rewrite Hrest.
        eexists. reflexivity.
      * destruct Hrest as [evs' Hrest]. rewrite Hrest.
        eexists. reflexivity.
    + destruct Hv as [evs Hv]. rewrite Hv. eexists. reflexivity.
Qed.

End StreamFollowsOneDepth.

Lemma stream_follows_eager (d : nat) :
  forall r, Follows (Decoder.readValue d r) (Stream.streamValue d None r).
Proof.
  induction d as [| d IH]; intro r.
  - exists []. reflexivity.
  - cbn [Decoder.readValue Stream.streamValue].
    unfold Buffer.rbind at 1. unfold Stream.gbind at 1. unfold Stream.lift at 1.
    destruct (Buffer.readUint8 r) as [[tag r1] | e]; [| exists []; reflexivity].
    destruct (Decoder.readScalar tag) as [read |] eqn:Hs.
    { unfold Stream.gbind, Stream.lift, Stream.yield, Follows.
      destruct (read r1) as [[v r2] | e]; eexists; reflexivity. }
    destruct (Decoder.is_array_tag tag) eqn:Ha.
    { unfold Buffer.rbind at 1. unfold Stream.gbind at 1. unfold Stream.lift at 1.
      pose proof (getArrayLength_follows tag r1) as Hlen.
      destruct (Decoder.readLength "array" _ _ _ _ tag r1) as [[[n |] r2] | e];
        rewrite Hlen; [| | exists []; reflexivity].
      - unfold Stream.gbind at 1. unfold Stream.yield at 1.
        unfold Buffer.rbind at 1. unfold Stream.gbind at 1.
        pose proof (array_loop_follows d IH (Z.to_nat n) [] r2) as Hloop.
        unfold Follows in Hloop |- *.
        destruct (Decoder.for_loop (Z.to_nat n) _ [] r2) as [[res r3] | e].
        + destruct Hloop as [evs Hloop]. rewrite Hloop.
          unfold Stream.yield, Buffer.ret. eexists. reflexivity.
        + destruct Hloop as [evs Hloop]. rewrite Hloop. eexists. reflexivity.
      - unfold Follows, Buffer.ret, Stream.gbind, Stream.yield.
        cbn [Z.to_nat Stream.gfor]. unfold Stream.gret. eexists. reflexivity. }
    destruct (Decoder.is_object_tag tag) eqn:Ho.
    { unfold Buffer.rbind at 1. unfold Stream.gbind at 1. unfold Stream.lift at 1.
      pose proof (getObjectKeyCount_follows tag r1) as Hlen.
      destruct (Decoder.readLength "object" _ _ _ _ tag r1) as [[[n |] r2] | e];
        rewrite Hlen; [| | exists []; reflexivity].
      - unfold Stream.gbind at 1. unfold Stream.yield at 1.
        unfold Buffer.rbind at 1. unfold Stream.gbind at 1.
        pose proof (object_loop_follows d IH (Z.to_nat n) [] r2) as Hloop.
        unfold Follows in Hloop |- *.
        destruct (Decoder.for_loop (Z.to_nat n) _ [] r2) as [[res r3] | e].
        + destruct Hloop as [evs Hloop]. rewrite Hloop.
          unfold Stream.yield, Buffer.ret. eexists. reflexivity.
        + destruct Hloop as [evs Hloop]. rewrite Hloop. eexists. reflexivity.
      - unfold Follows, Buffer.ret, Stream.gbind, Stream.yield.
        cbn [Z.to_nat Stream.gfor]. unfold Stream.gret. eexists. reflexivity. }
    exists []. reflexivity.
Qed.

Lemma readHeaderEvents_plain (version : Z) (bytes : list Z) :
  version <> TYPE_TAG.HEADER_WITH_STRING_TABLE ->
  version <= FORMAT_VERSION ->
  Stream.readHeaderEvents (Buffer.createBinaryReader (MAGIC_NUMBER ++ version :: bytes))
  = ([Eheader version],
     Ok (None, reader_at (MAGIC_NUMBER ++ [version]) bytes [])).
Proof.
  intros Hv Hle. unfold Stream.readHeaderEvents.
  unfold Stream.gbind at 1. unfold Stream.lift at 1.
  assert (Hb : Buffer.readBytes 4
                 (Buffer.createBinaryReader (MAGIC_NUMBER ++ version :: bytes))
               = Ok (MAGIC_NUMBER,
                     {| Buffer.buffer := MAGIC_NUMBER ++ version :: bytes;
                        Buffer.offset := 4 |})).
  { unfold Buffer.readBytes.
    replace (_ <? _) with false; [reflexivity |].
    symmetry. apply Z.ltb_ge. cbn [Buffer.createBinaryReader Buffer.buffer Buffer.offset].
    rewrite length_app. cbn [List.length MAGIC_NUMBER]. lia. }
  rewrite Hb.
  change (negb (nth 0 MAGIC_NUMBER 0 =? nth 0 MAGIC_NUMBER 0)
          || negb (nth 1 MAGIC_NUMBER 0 =? nth 1 MAGIC_NUMBER 0)
          || negb (nth 2 MAGIC_NUMBER 0 =? nth 2 MAGIC_NUMBER 0)
          || negb (nth 3 MAGIC_NUMBER 0 =? nth 3 MAGIC_NUMBER 0)) with false.
  cbv iota.
  unfold Stream.gbind at 1. unfold Stream.lift at 1.
  change (Buffer.readUint8 {| Buffer.buffer := MAGIC_NUMBER ++ version :: bytes;
                              Buffer.offset := 4 |})
    with (Ok (version, {| Buffer.buffer := MAGIC_NUMBER ++ version :: bytes;
                          Buffer.offset := 5 |})).
  cbv iota beta.
  replace (version =? TYPE_TAG.HEADER_WITH_STRING_TABLE) with false
    by (symmetry; apply Z.eqb_neq; exact Hv).
  replace (FORMAT_VERSION <? version) with false
    by (symmetry; apply Z.ltb_ge; exact Hle).
  unfold reader_at. rewrite app_nil_r. reflexivity.
Qed.

(** The events of a value that the stream yields when the eager reader
    returns it. *)
Lemma stream_follows_with_tree (d : nat) (r : Buffer.BinaryReader) :
  match Decoder.readValue d r with
  | Ok (v, r') =>
      exists evs,
        Stream.streamValue d None r = (evs, Ok (tt, r'))
        /\ rebuild d evs = Some (v, [])
  | Throw e => exists evs, Stream.streamValue d None r = (evs, Throw e)
  end.
Proof.
  pose proof (stream_follows_eager d r) as Hf. unfold Follows in Hf.
  destruct (Decoder.readValue d r) as [[v r'] | e] eqn:Heager.
  - destruct Hf as [evs Hf]. exists evs. split; [exact Hf |].
    destruct (stream_rebuilds_eager_tree _ None _ _ _ _ Hf) as (v' & Hv' & Hre).
    unfold eager_read in Hv'. rewrite Heager in Hv'. injection Hv' as <-.
    specialize (Hre []). rewrite app_nil_r in Hre. exact Hre.
  - exact Hf.
Qed.



(* ================================================================== *)
(** ** Indefinite containers and repeated keys of the v2 scheme *)

Lemma rbind_Reads {A B : Type} (m : Buffer.Read A) (k : A -> Buffer.Read B)
    (b more : list Z) (a : A) (pre rest : list Z) :
  Reads m b a ->
  Buffer.rbind m k (reader_at pre (b ++ more) rest)
  = k a (reader_at (pre ++ b) more rest).
Proof.
  intro H. unfold Buffer.rbind.
  rewrite reader_at_app, H, reader_past_at. reflexivity.
Qed.

Lemma v2_first_byte (loops d : nat) (bytes : list Z) (v : JsValue) :
  Reads (V2.readValue loops (S d)) bytes v ->
  exists tag payload, bytes = tag :: payload /\ tag <> V2.TAG.BREAK.
Proof.
  intro H. destruct bytes as [| tag payload].
  - specialize (H [] []). discriminate H.
  - exists tag, payload. split; [reflexivity |].
    intros ->. specialize (H [] []).
    cbn [V2.readValue] in H. unfold Buffer.rbind at 1 in H.
    rewrite (proj1 (v2_next_at _ _ _ _)) in H. cbv iota beta in H.
    unfold Buffer.rbind at 1 in H.
    rewrite (proj2 (v2_next_at _ _ _ _)) in H.
    discriminate H.
Qed.

Lemma until_break_step {S : Type} (fuel : nat) (body : S -> Buffer.Read S) (s : S)
    (tag : Z) (bytes pre rest : list Z) :
  tag <> V2.TAG.BREAK ->
  V2.until_break (Datatypes.S fuel) body s (reader_at pre (tag :: bytes) rest)
  = Buffer.rbind (body s) (V2.until_break fuel body) (reader_at pre (tag :: bytes) rest).
Proof.
  intro Htag. cbn [V2.until_break]. unfold Buffer.rbind at 1.
  rewrite (proj1 (v2_next_at _ _ _ _)).
  unfold Buffer.rbind at 1. unfold V2.peek.
  cbn [reader_at Buffer.buffer Buffer.offset app]. rewrite nth_reader.
  replace (tag =? V2.TAG.BREAK) with false by (symmetry; apply Z.eqb_neq; exact Htag).
  reflexivity.
Qed.

Lemma until_break_stop {S : Type} (fuel : nat) (body : S -> Buffer.Read S) (s : S)
    (pre rest : list Z) :
  V2.until_break (Datatypes.S fuel) body s (reader_at pre [V2.TAG.BREAK] rest)
  = Ok (s, reader_at pre [V2.TAG.BREAK] rest).
Proof.
  cbn [V2.until_break]. unfold Buffer.rbind at 1.
  rewrite (proj1 (v2_next_at _ _ _ _)).
  unfold Buffer.rbind at 1. unfold V2.peek.
  cbn [reader_at Buffer.buffer Buffer.offset app]. rewrite nth_reader.
  reflexivity.
Qed.

Lemma until_break_reads (loops d : nat) (items : list JsValue) (bs : list (list Z)) :
  Forall2 (fun item b => Reads (V2.readValue loops (S d)) b item) items bs ->
  forall fuel acc pre rest,
    (List.length items < fuel)%nat ->
    V2.until_break fuel
      (fun arr => Buffer.rbind (V2.readValue loops (S d))
                    (fun v => Buffer.ret (arr ++ [Some v])))
      acc (reader_at pre (List.concat bs ++ [V2.TAG.BREAK]) rest)
    = Ok (acc ++ map Some items,
          reader_at (pre ++ List.concat bs) [V2.TAG.BREAK] rest).
Proof.
  induction 1 as [| item b items bs Hb _ IH]; intros fuel acc pre rest Hfuel.
  - destruct fuel as [| fuel]; [simpl in Hfuel; lia |].
    cbn [List.concat map app]. rewrite until_break_stop, !app_nil_r. reflexivity.
  - destruct fuel as [| fuel]; [simpl in Hfuel; lia |].
    destruct (v2_first_byte _ _ _ _ Hb) as (tag & payload & Eb & Htag).
    cbn [List.concat map]. rewrite <- app_assoc.
    rewrite Eb at 1. cbn [app].
    rewrite (until_break_step fuel _ acc tag _ pre rest Htag).
    change (tag :: payload ++ List.concat bs ++ [V2.TAG.BREAK])
      with ((tag :: payload) ++ List.concat bs ++ [V2.TAG.BREAK]).
    rewrite <- Eb.
    rewrite (rbind_Reads _ _ b _ (acc ++ [Some item])).
    + cbn [List.length] in Hfuel.
      rewrite IH by lia. rewrite <- !app_assoc. reflexivity.
    + apply (Reads_map (V2.readValue loops (S d)) (fun v => acc ++ [Some v])).
      exact Hb.
Qed.

Lemma concat_member_length (bs : list (list Z)) (b : list Z) :
  In b bs -> (List.length b <= List.length (List.concat bs))%nat.
Proof.
  induction bs as [| b0 bs IH]; intro Hb; [contradiction |].
  cbn [List.concat]. rewrite length_app. destruct Hb as [-> | Hb]; [lia |].
  specialize (IH Hb). lia.
Qed.

Lemma Forall2_impl_in_right {X Y : Type} (R R' : X -> Y -> Prop)
    (xs : list X) (ys : list Y) :
  (forall x y, In y ys -> R x y -> R' x y) ->
  Forall2 R xs ys -> Forall2 R' xs ys.
Proof.
  intros Himp H. induction H as [| x y xs ys Hxy _ IH]; constructor.
  - apply Himp; [left; reflexivity | exact Hxy].
  - apply IH. intros x0 y0 Hin. apply Himp. right. exact Hin.
Qed.



(* ================================================================== *)
(** * The properties at concrete inputs, and the round trips of the parts *)

(* ================================================================== *)
(** ** The reader and the growable buffer *)

Lemma typed_reads_succeed_witness :
  exists v,
    perform RUint16 (Buffer.createBinaryReader [1; 2; 3])
    = Ok (v, Buffer.advance (Buffer.createBinaryReader [1; 2; 3])
               (Z.to_nat (required RUint16))).
Proof.
  apply (typed_reads_succeed RUint16 (Buffer.createBinaryReader [1; 2; 3])).
  vm_compute. split; discriminate.
Defined.

(** X2.  [ensureCapacity(n)] leaves the write offset and the bytes of the
    buffer in place, makes room for [n] more bytes after the offset, and
    either keeps the capacity or raises it to the larger of twice the old
    capacity and [offset + n]; with the offset inside the buffer,
    [getResult] is unchanged. *)
Theorem ensureCapacity_keeps_bytes (buf : Growable.GrowableBuffer) (n : nat) :
  let buf' := Growable.ensureCapacity buf n in
  Growable.offset buf' = Growable.offset buf
  /\ (Growable.offset buf + n <= List.length (Growable.buffer buf'))%nat
  /\ firstn (List.length (Growable.buffer buf)) (Growable.buffer buf')
     = Growable.buffer buf
  /\ (List.length (Growable.buffer buf') = List.length (Growable.buffer buf)
      \/ List.length (Growable.buffer buf')
         = Nat.max (2 * List.length (Growable.buffer buf)) (Growable.offset buf + n))
  /\ ((Growable.offset buf <= List.length (Growable.buffer buf))%nat ->
      Growable.getResult buf' = Growable.getResult buf).
Proof.
  cbv zeta. destruct (ensureCapacity_spec buf n) as (H1 & H2 & H3 & H4).
  repeat split; try assumption.
  apply getResult_ensureCapacity.
Qed.

Lemma growable_writes_append_witness :
  Growable.getResult (Growable.writeTag (Growable.createGrowableBuffer 0) 0x41)
  = Encoder.writeTag (Growable.getResult (Growable.createGrowableBuffer 0)) 0x41
  /\ (Growable.offset (Growable.writeTag (Growable.createGrowableBuffer 0) 0x41)
      <= List.length
           (Growable.buffer (Growable.writeTag (Growable.createGrowableBuffer 0) 0x41)))%nat
  /\ exists buf',
       Growable.writeHeader (Growable.createGrowableBuffer 0) = Ok buf'
       /\ Growable.getResult buf'
          = Encoder.writeHeader (Growable.getResult (Growable.createGrowableBuffer 0))
       /\ (Growable.offset buf' <= List.length (Growable.buffer buf'))%nat.
Proof.
  apply (growable_writes_append (Growable.createGrowableBuffer 0) 0x41).
  simpl. lia.
Defined.

(* ================================================================== *)
(** ** Numbers, strings, keys and the key table *)

Lemma writeNumber_narrowest_elsewhere_witness :
  numberTag [] (NInt 70000) = spec_narrowest_tag 70000.
Proof.
  apply (writeNumber_narrowest_elsewhere [] 70000);
    unfold INT8_MAX, UINT8_MAX, INT16_MAX, UINT16_MAX; lia.
Defined.

(** X4.  A key index below 2^28 written by [writeVarint] takes one to four
    bytes, is appended to the buffer, and is read back by the [readVarint]
    of the eager and of the streaming decoder, which consume exactly these
    bytes. *)
Theorem writeVarint_readVarint_roundtrip (n : Z) (buf : list Z) :
  0 <= n < 2 ^ 28 ->
  Encoder.writeVarint buf n = buf ++ Encoder.writeVarint [] n
  /\ (1 <= List.length (Encoder.writeVarint [] n) <= 4)%nat
  /\ Reads Decoder.readVarint (Encoder.writeVarint [] n) n
  /\ Reads Stream.readVarint (Encoder.writeVarint [] n) n.
Proof.
  intro Hn. destruct (writeVarint_bytes n Hn) as (bytes & Hleb & Hw).
  rewrite (Hw buf), (Hw []). cbn [app].
  assert (Hr : Reads Decoder.readVarint bytes n).
  { apply Reads_readVarint; [exact Hleb |].
    apply Z.lt_trans with (2 ^ 28); [lia | reflexivity]. }
  repeat split; try exact Hr.
  - apply (Leb128_nonempty _ _ Hleb).
  - apply (Leb128_length _ _ Hleb 3). simpl. lia.
Qed.

Lemma writeVarint_readVarint_roundtrip_witness :
  Encoder.writeVarint [0x51] 300 = [0x51] ++ Encoder.writeVarint [] 300
  /\ (1 <= List.length (Encoder.writeVarint [] 300) <= 4)%nat
  /\ Reads Decoder.readVarint (Encoder.writeVarint [] 300) 300
  /\ Reads Stream.readVarint (Encoder.writeVarint [] 300) 300.
Proof. apply (writeVarint_readVarint_roundtrip 300 [0x51]). simpl. lia. Defined.

(** X5.  A number that [wire_number] admits (an integer that a double holds
    exactly and that fits 64 bits, or the pattern of a double that is not
    an integer) is read back unchanged by [readValue] from the bytes
    [writeNumber] appends, whichever width the writer chose, the binary32
    form included. *)
Theorem writeNumber_readValue_roundtrip (n : Number) (d : nat) (buf : list Z) :
  wire_number n = true ->
  Encoder.writeNumber buf n = buf ++ Encoder.writeNumber [] n
  /\ Reads (Decoder.readValue (S d)) (Encoder.writeNumber [] n) (JNum n).
Proof.
  intro Hw. destruct (number_roundtrip n Hw) as (tag & payload & rd & H1 & H2 & H3).
  rewrite (H1 buf), (H1 []). cbn [app]. split; [reflexivity |].
  apply (readValue_scalar d tag payload rd); assumption.
Qed.

(** 1.5 as a binary64 pattern, and 2^60. *)
Lemma writeNumber_readValue_roundtrip_witness :
  (Encoder.writeNumber [] (NFloat 0x3FF8000000000000)
   = [] ++ Encoder.writeNumber [] (NFloat 0x3FF8000000000000)
   /\ Reads (Decoder.readValue 1) (Encoder.writeNumber [] (NFloat 0x3FF8000000000000))
            (JNum (NFloat 0x3FF8000000000000)))
  /\ (Encoder.writeNumber [] (NInt (2 ^ 60)) = [] ++ Encoder.writeNumber [] (NInt (2 ^ 60))
      /\ Reads (Decoder.readValue 1) (Encoder.writeNumber [] (NInt (2 ^ 60)))
               (JNum (NInt (2 ^ 60)))).
Proof.
  split.
  - apply (writeNumber_readValue_roundtrip (NFloat 0x3FF8000000000000) 0 []).
    vm_compute. reflexivity.
  - apply (writeNumber_readValue_roundtrip (NInt (2 ^ 60)) 0 []).
    vm_compute. reflexivity.
Defined.





Lemma long_key_read_as_common_key_witness :
  Decoder.readKeyString
    (reader_at [] (Encoder.writeKeyString [] (repeat_char "a" 200)) [0])
  = Ok (if byteLength (repeat_char "a" 200) <=? MAX_MEDIUM_LENGTH
        then "style"%string else "class"%string,
        Buffer.advance
          (reader_at [] (Encoder.writeKeyString [] (repeat_char "a" 200)) [0]) 1).
Proof.
  apply (long_key_read_as_common_key (repeat_char "a" 200) [] [0]).
  - vm_compute. reflexivity.
  - vm_compute. reflexivity.
Defined.



(* ================================================================== *)
(** ** Whole messages of the fixed-width scheme *)







(* ================================================================== *)
(** ** What the decoders reject *)

Lemma decodeValue_validates_header_witness :
  Decoder.decodeValue [] defaultDecodeOptions
  = Throw (RangeError "Buffer underflow: cannot read uint8")
  /\ Decoder.decodeValue [0; 0; 0; 0; 1] defaultDecodeOptions
     = Throw (SyntaxError "Invalid BOON header")
  /\ Decoder.decodeValue [0x42; 0; 0; 0; 1] defaultDecodeOptions
     = Throw (SyntaxError "Invalid BOON magic number")
  /\ Decoder.decodeValue (MAGIC_NUMBER ++ [2; 0]) defaultDecodeOptions
     = Throw (SyntaxError ("Unsupported BOON version: " ++ decimal 2)).
Proof.
  destruct (decodeValue_validates_header defaultDecodeOptions eq_refl)
    as (H1 & H2 & H3 & H4).
  split; [exact H1 |]. split; [| split].
  - apply (H2 0 [0; 0; 0; 1]); discriminate.
  - apply (H3 0 0 0 [1]). discriminate.
  - apply (H4 2 [0]); [discriminate | reflexivity].
Defined.

Lemma stream_validates_header_witness :
  Stream.decodeStreamSync [0x42; 0x4F] defaultDecodeOptions
  = ([], Throw (RangeError "Buffer underflow: cannot read 4 bytes"))
  /\ Stream.decodeStreamSync [0; 0; 0; 0; 1] defaultDecodeOptions
     = ([], Throw (SyntaxError "Invalid BOON magic number"))
  /\ Stream.decodeStreamSync (MAGIC_NUMBER ++ [2; 0]) defaultDecodeOptions
     = ([], Throw (SyntaxError ("Unsupported BOON version: " ++ decimal 2)))
  /\ Stream.decodeStreamSync
       (MAGIC_NUMBER ++ [TYPE_TAG.HEADER_WITH_STRING_TABLE; 2; 0; 0])
       defaultDecodeOptions
     = ([], Throw (SyntaxError ("Unsupported BOON version: " ++ decimal 2))).
Proof.
  destruct (stream_validates_header defaultDecodeOptions eq_refl)
    as (H1 & H2 & H3 & H4).
  split; [| split; [| split]].
  - apply (H1 [0x42; 0x4F]). simpl. lia.
  - apply (H2 0 0 0 0 [1]). discriminate.
  - apply (H3 2 [0]); [discriminate | reflexivity].
  - apply (H4 2 [0; 0]). reflexivity.
Defined.

Lemma unknown_tag_rejected_witness :
  Decoder.readValue 1 (reader_at [] [TYPE_TAG.HEADER_WITH_STRING_TABLE] [1; 0])
  = Throw (SyntaxError ("Unknown type tag: 0x"
                        ++ toString16 TYPE_TAG.HEADER_WITH_STRING_TABLE))
  /\ Decoder.readValueWithKeyTable 1 []
       (reader_at [] [TYPE_TAG.HEADER_WITH_STRING_TABLE] [1; 0])
     = Throw (SyntaxError ("Unknown type tag: 0x"
                           ++ toString16 TYPE_TAG.HEADER_WITH_STRING_TABLE))
  /\ Stream.streamValue 1 (Some [])
       (reader_at [] [TYPE_TAG.HEADER_WITH_STRING_TABLE] [1; 0])
     = ([], Throw (SyntaxError ("Unknown type tag: 0x"
                                ++ toString16 TYPE_TAG.HEADER_WITH_STRING_TABLE)))
  /\ Stream.streamValue 1 None
       (reader_at [] [TYPE_TAG.HEADER_WITH_STRING_TABLE] [1; 0])
     = ([], Throw (SyntaxError ("Unknown type tag: 0x"
                                ++ toString16 TYPE_TAG.HEADER_WITH_STRING_TABLE))).
Proof.
  apply (unknown_tag_rejected TYPE_TAG.HEADER_WITH_STRING_TABLE [] [1; 0] 0 []).
  reflexivity.
Defined.

Lemma key_index_out_of_range_witness :
  Decoder.readValueWithKeyTable 2 ["a"%string]
    (reader_at [] [TYPE_TAG.OBJECT_SHORT; 1; 1] [0])
  = Throw (SyntaxError ("Invalid key index: " ++ decimal 1))
  /\ Stream.streamValue 2 (Some ["a"%string])
       (reader_at [] [TYPE_TAG.OBJECT_SHORT; 1; 1] [0])
     = ([EstartObject 1], Throw (SyntaxError ("Invalid key index: " ++ decimal 1))).
Proof.
  apply (key_index_out_of_range ["a"%string] 1 1 0 [] [0]); simpl; lia.
Defined.

(* ================================================================== *)
(** ** The v2 scheme *)





(* ================================================================== *)
(** ** A message cut short is rejected *)

Lemma decodeValue_message_read (data : list Z) (options : ResolvedDecodeOptions) :
  Decoder.decodeValue data options
  = match message_read options (Decoder.depth_bound data)
            (Buffer.createBinaryReader data) with
    | Ok (v, _) => Ok v
    | Throw e => Throw e
    end.
Proof.
  unfold Decoder.decodeValue, message_read. destruct (expectHeader options); reflexivity.
Qed.

Lemma Cut_ret {A : Type} (E : Error -> bool) (data : list Z) (lo : nat) (a : A) :
  Cut E data lo (Buffer.ret a) (Buffer.ret a).
Proof.
  intros lost o a' r' Ho H. inversion H; subst. simpl. split.
  - reflexivity.
  - lia.
Qed.

Lemma Cut_throw {A : Type} (E : Error -> bool) (data : list Z) (lo : nat) (e : Error)
    (m' : Buffer.Read A) :
  Cut E data lo (Buffer.throw e) m'.
Proof. intros lost o a r' Ho H. discriminate H. Qed.

Lemma Cut_weaken {A : Type} (E : Error -> bool) (data : list Z) (lo lo' : nat)
    (m m' : Buffer.Read A) :
  (lo <= lo')%nat -> Cut E data lo m m' -> Cut E data lo' m m'.
Proof. intros Hle H lost o a r' Ho. apply H. lia. Qed.

Lemma Cut_rbind {A B : Type} (E : Error -> bool) (data : list Z) (lo : nat)
    (m m' : Buffer.Read A) (k k' : A -> Buffer.Read B) :
  Forward m -> (forall a, Forward (k a)) ->
  Cut E data lo m m' -> (forall a, Cut E data lo (k a) (k' a)) ->
  Cut E data lo (Buffer.rbind m k) (Buffer.rbind m' k').
Proof.
  intros Fm Fk Hm Hk lost o b r2 Ho H. unfold Buffer.rbind in H |- *.
  destruct (m (Buffer.mkReader (data ++ lost) o)) as [[a r1] | e] eqn:Em;
    [| discriminate H].
  destruct (Fm _ _ _ Em) as [Hb1 Ho1]. simpl in Hb1, Ho1.
  destruct (Fk a _ _ _ H) as [Hb2 Ho2].
  destruct (Hm lost o a r1 Ho Em) as [Hin Hout].
  destruct r1 as [b1 o1]. simpl in *. subst b1.
  destruct (Nat.le_gt_cases o1 (List.length data)) as [Hle | Hgt].
  - rewrite (Hin Hle). apply (Hk a lost o1 b r2); [lia | exact H].
  - destruct (Hout Hgt) as (e & -> & He). split; [lia |].
    intros _. exists e. split; [reflexivity | exact He].
Qed.

(** After the tag byte the cursor is one further. *)
Lemma Cut_after_byte {B : Type} (data : list Z) (lo : nat)
    (k k' : Z -> Buffer.Read B) :
  (forall b, Forward (k b)) ->
  (forall b, Cut underflow data (S lo) (k b) (k' b)) ->
  Cut underflow data lo (Buffer.rbind Buffer.readUint8 k) (Buffer.rbind Buffer.readUint8 k').
Proof.
  intros Fk Hk lost o b r2 Ho H. unfold Buffer.rbind, Buffer.readUint8 in H |- *.
  cbn [Buffer.buffer Buffer.offset] in *.
  destruct (Nat.leb_spec (List.length (data ++ lost)) o) as [| Hfull];
    [discriminate H |].
  destruct (Fk _ _ _ _ H) as [Hb2 Ho2]. cbn in Hb2, Ho2.
  destruct (Nat.leb_spec (List.length data) o) as [Hend | Hin].
  - split; [lia |]. intros _. eexists. split; reflexivity.
  - rewrite app_nth1 in H by lia.
    apply (Hk _ lost (o + 1)%nat b r2); [lia | exact H].
Qed.

Lemma Cut_readUint8 (data : list Z) (lo : nat) :
  Cut underflow data lo Buffer.readUint8 Buffer.readUint8.
Proof.
  intros lost o b r' Ho H. unfold Buffer.readUint8 in H |- *.
  cbn [Buffer.buffer Buffer.offset] in *.
  destruct (Nat.leb_spec (List.length (data ++ lost)) o); [discriminate H |].
  inversion H; subst; clear H. cbn.
  destruct (Nat.leb_spec (List.length data) o).
  - split; [lia |]. intros _. eexists. split; reflexivity.
  - rewrite app_nth1 by lia. split; [reflexivity | lia].
Qed.

Lemma Cut_readInt8 (data : list Z) (lo : nat) :
  Cut underflow data lo Buffer.readInt8 Buffer.readInt8.
Proof.
  intros lost o b r' Ho H. unfold Buffer.readInt8 in H |- *.
  cbn [Buffer.buffer Buffer.offset] in *.
  destruct (Nat.leb_spec (List.length (data ++ lost)) o); [discriminate H |].
  inversion H; subst; clear H. cbn.
  destruct (Nat.leb_spec (List.length data) o).
  - split; [lia |]. intros _. eexists. split; reflexivity.
  - rewrite app_nth1 by lia. split; [reflexivity | lia].
Qed.

Lemma slice_cut (data lost : list Z) (o n : nat) :
  (o + n <= List.length data)%nat ->
  Buffer.slice (Buffer.mkReader (data ++ lost) o) n
  = Buffer.slice (Buffer.mkReader data o) n.
Proof.
  intro H. unfold Buffer.slice. cbn [Buffer.buffer Buffer.offset].
  rewrite skipn_app, firstn_app, length_skipn.
  replace (n - (List.length data - o))%nat with 0%nat by lia.
  rewrite firstn_O, app_nil_r. reflexivity.
Qed.

Lemma Cut_read_fixed {A : Type} (data : list Z) (lo n : nat) (what : string)
    (view : list Z -> A) :
  Cut underflow data lo (Buffer.read_fixed n what view) (Buffer.read_fixed n what view).
Proof.
  intros lost o b r' Ho H. unfold Buffer.read_fixed in H |- *.
  cbn [Buffer.buffer Buffer.offset] in *.
  destruct (Nat.ltb_spec (List.length (data ++ lost)) (o + n)); [discriminate H |].
  inversion H; subst; clear H. cbn [Buffer.offset Buffer.advance Buffer.buffer].
  destruct (Nat.ltb_spec (List.length data) (o + n)).
  - split; [lia |]. intros _. eexists. split; reflexivity.
  - rewrite slice_cut by lia. split; [reflexivity | lia].
Qed.

Lemma Cut_readBytes (data : list Z) (lo : nat) (length : Z) :
  Cut underflow data lo (Buffer.readBytes length) (Buffer.readBytes length).
Proof.
  intros lost o b r' Ho H. unfold Buffer.readBytes in H |- *.
  cbn [Buffer.buffer Buffer.offset] in *.
  destruct (Z.ltb_spec (Z.of_nat (List.length (data ++ lost))) (Z.of_nat o + length));
    [discriminate H |].
  inversion H; subst; clear H. cbn [Buffer.offset Buffer.advance Buffer.buffer].
  destruct (Z.ltb_spec (Z.of_nat (List.length data)) (Z.of_nat o + length)).
  - split; [lia |]. intros _. eexists. split; reflexivity.
  - rewrite slice_cut by lia. split; [reflexivity | lia].
Qed.

Lemma Cut_readVarint_loop (data : list Z) :
  forall (fuel fuel' : nat) (acc shift : Z) (lost : list Z) (o : nat) (a : Z)
         (r' : Buffer.BinaryReader),
    (o <= List.length data)%nat ->
    (List.length data - o < fuel')%nat ->
    Decoder.readVarint_loop fuel acc shift (Buffer.mkReader (data ++ lost) o)
    = Ok (a, r') ->
    ((Buffer.offset r' <= List.length data)%nat ->
     Decoder.readVarint_loop fuel' acc shift (Buffer.mkReader data o)
     = Ok (a, Buffer.mkReader data (Buffer.offset r')))
    /\ ((List.length data < Buffer.offset r')%nat ->
        exists e,
          Decoder.readVarint_loop fuel' acc shift (Buffer.mkReader data o) = Throw e
          /\ underflow e = true).
Proof.
  induction fuel as [| fuel IH]; intros fuel' acc shift lost o a r' Ho Hf H.
  - discriminate H.
  - destruct fuel' as [| fuel']; [lia |].
    pose proof (Forward_readVarint_loop _ _ _ _ _ _ H) as [_ Hfw].
    cbn [Buffer.offset] in Hfw.
    cbn [Decoder.readVarint_loop] in H |- *.
    unfold Buffer.rbind, Buffer.readUint8 in H |- *.
    cbn [Buffer.buffer Buffer.offset] in *.
    destruct (Nat.leb_spec (List.length (data ++ lost)) o) as [| Hfull];
      [discriminate H |].
    destruct (Nat.leb_spec (List.length data) o) as [Hend | Hin].
    + assert (Hlt : (o < Buffer.offset r')%nat).
      { destruct (Z.land (nth o (data ++ lost) 0) 128 =? 0).
        - inversion H; subst. cbn. lia.
        - pose proof (Forward_readVarint_loop _ _ _ _ _ _ H) as [_ Hfw'].
          cbn in Hfw'. lia. }
      split; [lia |]. intros _. eexists. split; reflexivity.
    + rewrite app_nth1 in H by lia.
      destruct (Z.land (nth o data 0) 128 =? 0).
      * inversion H; subst; clear H. cbn. split; [reflexivity | lia].
      * apply (IH fuel' _ _ lost (o + 1)%nat a r'); [lia | lia | exact H].
Qed.

Lemma Cut_readVarint (data : list Z) (lo : nat) :
  Cut underflow data lo Decoder.readVarint Decoder.readVarint.
Proof.
  intros lost o a r' Ho H. unfold Decoder.readVarint in H |- *.
  refine (Cut_readVarint_loop data _ _ 0 0 lost o a r' _ _ H); [lia |].
  unfold Buffer.remaining. cbn [Buffer.buffer Buffer.offset]. lia.
Qed.

Lemma Cut_for_loop {S : Type} (E : Error -> bool) (data : list Z) (lo : nat) (n : nat)
    (body body' : S -> Buffer.Read S) :
  (forall s, Forward (body s)) ->
  (forall s, Cut E data lo (body s) (body' s)) ->
  forall s, Cut E data lo (Decoder.for_loop n body s) (Decoder.for_loop n body' s).
Proof.
  intros Fb Hb. induction n as [| n IH]; intro s; cbn [Decoder.for_loop].
  - apply Cut_ret.
  - apply Cut_rbind; [apply Fb | | apply Hb | exact IH].
    apply Forward_for_loop. exact Fb.
Qed.

Ltac cut_step :=
  match goal with
  | |- Cut _ _ _ (Buffer.rbind _ _) (Buffer.rbind _ _) =>
      apply Cut_rbind; [| intro | | intro]
  | |- Cut _ _ _ (Buffer.ret _) _ => apply Cut_ret
  | |- Cut _ _ _ (Buffer.throw _) _ => apply Cut_throw
  | |- Cut _ _ _ (Decoder.unknownTag _) _ => apply Cut_throw
  | |- Cut _ _ _ Buffer.readUint8 _ => apply Cut_readUint8
  | |- Cut _ _ _ Buffer.readInt8 _ => apply Cut_readInt8
  | |- Cut _ _ _ (Buffer.read_fixed _ _ _) _ => apply Cut_read_fixed
  | |- Cut _ _ _ (Buffer.readBytes _) _ => apply Cut_readBytes
  | |- Cut _ _ _ Decoder.readVarint _ => apply Cut_readVarint
  | |- Cut _ _ _ (if ?b then _ else _) _ => destruct b
  | |- Cut _ _ _ (match ?x with Some _ => _ | None => _ end) _ => destruct x
  | |- Forward _ => forward_step
  end.

Lemma Cut_readLength (data : list Z) (lo : nat) (what : string)
    (empty short medium long tag : Z) :
  Cut underflow data lo (Decoder.readLength what empty short medium long tag)
              (Decoder.readLength what empty short medium long tag).
Proof.
  unfold Decoder.readLength, Buffer.readUint16, Buffer.readUint32.
  repeat cut_step.
Qed.

Lemma Cut_readString (data : list Z) (lo : nat) (tag : Z) :
  Cut underflow data lo (Decoder.readString tag) (Decoder.readString tag).
Proof.
  unfold Decoder.readString.
  apply Cut_rbind.
  - apply readLength_forward_total.
  - intros [len |]; repeat forward_step.
  - apply Cut_readLength.
  - intros [len |]; repeat cut_step.
Qed.

Lemma Cut_readKeyString (data : list Z) (lo : nat) :
  Cut underflow data lo Decoder.readKeyString Decoder.readKeyString.
Proof.
  unfold Decoder.readKeyString, Buffer.readUint16, Buffer.readUint32.
  repeat cut_step.
Qed.

Lemma Cut_keyTable_at (data : list Z) (lo : nat) (keyTable : list string) (i : Z) :
  Cut underflow data lo (Decoder.keyTable_at keyTable i) (Decoder.keyTable_at keyTable i).
Proof. unfold Decoder.keyTable_at. repeat cut_step. Qed.

Lemma Cut_readScalar (data : list Z) (lo : nat) (tag : Z) (read : Buffer.Read JsValue) :
  Decoder.readScalar tag = Some read -> Cut underflow data lo read read.
Proof.
  unfold Decoder.readScalar, Buffer.readInt16, Buffer.readInt32, Buffer.readUint16,
    Buffer.readUint32, Buffer.readFloat32, Buffer.readFloat64, Buffer.readBigInt64.
  intro H.
  repeat match type of H with
         | (if ?b then _ else _) = _ => destruct b
         end;
    try discriminate H; inversion H; subst; clear H;
    try (repeat cut_step; fail).
  apply Cut_rbind.
  - apply readString_forward_total.
  - intro. apply Forward_ret.
  - apply Cut_readString.
  - intro. apply Cut_ret.
Qed.

Lemma Cut_readStringTable (data : list Z) (lo : nat) :
  Cut underflow data lo Decoder.readStringTable Decoder.readStringTable.
Proof.
  unfold Decoder.readStringTable.
  apply Cut_rbind; [apply Forward_readUint8 | | apply Cut_readUint8 |].
  - intro. apply Forward_rbind; [apply Forward_readVarint |].
    intro. apply Forward_for_loop. intro. repeat forward_step.
  - intro. apply Cut_rbind; [apply Forward_readVarint | | apply Cut_readVarint |].
    + intro. apply Forward_for_loop. intro. repeat forward_step.
    + intro. apply Cut_for_loop.
      * intro. repeat forward_step.
      * intro. repeat cut_step.
Qed.

(** The depth left to the reader on the cut buffer covers the bytes left
    to it: every level of nesting has consumed its tag byte. *)
Lemma Cut_readValue (data : list Z) :
  forall (d' d lo : nat),
    (List.length data < d' + lo)%nat ->
    Cut underflow data lo (Decoder.readValue d) (Decoder.readValue d').
Proof.
  induction d' as [| d' IH]; intros d lo Hd.
  - intros lost o a r' Ho. lia.
  - destruct d as [| d]; [apply Cut_throw |].
    cbn [Decoder.readValue].
    apply Cut_after_byte.
    + intro tag.
      destruct (Decoder.readScalar tag) as [read |] eqn:E.
      * apply (readScalar_forward_total tag read E).
      * destruct (Decoder.is_array_tag tag); [| destruct (Decoder.is_object_tag tag)].
        -- apply Forward_rbind; [apply readLength_forward_total | intros [length |]].
           ++ apply Forward_rbind; [| intro; apply Forward_ret].
              apply Forward_for_loop. intro result.
              apply Forward_rbind; [apply readValue_forward | intro; apply Forward_ret].
           ++ apply Forward_ret.
        -- apply Forward_rbind; [apply readLength_forward_total | intros [keyCount |]].
           ++ apply Forward_rbind; [| intro; apply Forward_ret].
              apply Forward_for_loop. intro result.
              apply Forward_rbind; [apply readKeyString_forward_total | intro key].
              apply Forward_rbind; [apply readValue_forward | intro; apply Forward_ret].
           ++ apply Forward_ret.
        -- apply Forward_throw.
    + intro tag.
      assert (Hin : Cut underflow data (S lo) (Decoder.readValue d) (Decoder.readValue d'))
        by (apply IH; lia).
      destruct (Decoder.readScalar tag) as [read |] eqn:E.
      * apply (Cut_readScalar data _ tag read E).
      * destruct (Decoder.is_array_tag tag); [| destruct (Decoder.is_object_tag tag)].
        -- apply Cut_rbind; [apply readLength_forward_total | | apply Cut_readLength |].
           ++ intros [length |]; [| apply Forward_ret].
              apply Forward_rbind; [| intro; apply Forward_ret].
              apply Forward_for_loop. intro result.
              apply Forward_rbind; [apply readValue_forward | intro; apply Forward_ret].
           ++ intros [length |]; [| apply Cut_ret].
              apply Cut_rbind; [| intro; apply Forward_ret | | intro; apply Cut_ret].
              ** apply Forward_for_loop. intro result.
                 apply Forward_rbind; [apply readValue_forward | intro; apply Forward_ret].
              ** apply Cut_for_loop.
                 --- intro result.
                     apply Forward_rbind; [apply readValue_forward | intro; apply Forward_ret].
                 --- intro result.
                     apply Cut_rbind;
                       [apply readValue_forward | intro; apply Forward_ret
                       | exact Hin | intro; apply Cut_ret].
        -- apply Cut_rbind; [apply readLength_forward_total | | apply Cut_readLength |].
           ++ intros [keyCount |]; [| apply Forward_ret].
              apply Forward_rbind; [| intro; apply Forward_ret].
              apply Forward_for_loop. intro result.
              apply Forward_rbind; [apply readKeyString_forward_total | intro key].
              apply Forward_rbind; [apply readValue_forward | intro; apply Forward_ret].
           ++ intros [keyCount |]; [| apply Cut_ret].
              apply Cut_rbind; [| intro; apply Forward_ret | | intro; apply Cut_ret].
              ** apply Forward_for_loop. intro result.
                 apply Forward_rbind; [apply readKeyString_forward_total | intro key].
                 apply Forward_rbind; [apply readValue_forward | intro; apply Forward_ret].
              ** apply Cut_for_loop.
                 --- intro result.
                     apply Forward_rbind; [apply readKeyString_forward_total | intro key].
                     apply Forward_rbind; [apply readValue_forward | intro; apply Forward_ret].
                 --- intro result.
                     apply Cut_rbind;
                       [apply readKeyString_forward_total | | apply Cut_readKeyString |].
                     +++ intro key.
                         apply Forward_rbind;
                           [apply readValue_forward | intro; apply Forward_ret].
                     +++ intro key.
                         apply Cut_rbind;
                           [apply readValue_forward | intro; apply Forward_ret
                           | exact Hin | intro; apply Cut_ret].
        -- apply Cut_throw.
Qed.

Lemma Cut_readValueWithKeyTable (data : list Z) (keyTable : list string) :
  forall (d' d lo : nat),
    (List.length data < d' + lo)%nat ->
    Cut underflow data lo (Decoder.readValueWithKeyTable d keyTable)
                (Decoder.readValueWithKeyTable d' keyTable).
Proof.
  induction d' as [| d' IH]; intros d lo Hd.
  - intros lost o a r' Ho. lia.
  - destruct d as [| d]; [apply Cut_throw |].
    cbn [Decoder.readValueWithKeyTable].
    pose proof (readValueWithKeyTable_forward keyTable d) as Fd.
    apply Cut_after_byte.
    + intro tag.
      destruct (Decoder.readScalar tag) as [read |] eqn:E.
      * apply (readScalar_forward_total tag read E).
      * destruct (Decoder.is_array_tag tag); [| destruct (Decoder.is_object_tag tag)].
        -- apply Forward_rbind; [apply readLength_forward_total | intros [length |]].
           ++ apply Forward_rbind; [| intro; apply Forward_ret].
              apply Forward_for_loop. intro result.
              apply Forward_rbind; [exact Fd | intro; apply Forward_ret].
           ++ apply Forward_ret.
        -- apply Forward_rbind; [apply readLength_forward_total | intros [keyCount |]].
           ++ apply Forward_rbind; [| intro; apply Forward_ret].
              apply Forward_for_loop. intro result.
              apply Forward_rbind; [apply Forward_readVarint | intro keyIndex].
              apply Forward_rbind; [apply keyTable_at_forward_total | intro key].
              apply Forward_rbind; [exact Fd | intro; apply Forward_ret].
           ++ apply Forward_ret.
        -- apply Forward_throw.
    + intro tag.
      assert (Hin : Cut underflow data (S lo) (Decoder.readValueWithKeyTable d keyTable)
                                    (Decoder.readValueWithKeyTable d' keyTable))
        by (apply IH; lia).
      destruct (Decoder.readScalar tag) as [read |] eqn:E.
      * apply (Cut_readScalar data _ tag read E).
      * destruct (Decoder.is_array_tag tag); [| destruct (Decoder.is_object_tag tag)].
        -- apply Cut_rbind; [apply readLength_forward_total | | apply Cut_readLength |].
           ++ intros [length |]; [| apply Forward_ret].
              apply Forward_rbind; [| intro; apply Forward_ret].
              apply Forward_for_loop. intro result.
              apply Forward_rbind; [exact Fd | intro; apply Forward_ret].
           ++ intros [length |]; [| apply Cut_ret].
              apply Cut_rbind; [| intro; apply Forward_ret | | intro; apply Cut_ret].
              ** apply Forward_for_loop. intro result.
                 apply Forward_rbind; [exact Fd | intro; apply Forward_ret].
              ** apply Cut_for_loop.
                 --- intro result.
                     apply Forward_rbind; [exact Fd | intro; apply Forward_ret].
                 --- intro result.
                     apply Cut_rbind;
                       [exact Fd | intro; apply Forward_ret
                       | exact Hin | intro; apply Cut_ret].
        -- apply Cut_rbind; [apply readLength_forward_total | | apply Cut_readLength |].
           ++ intros [keyCount |]; [| apply Forward_ret].
              apply Forward_rbind; [| intro; apply Forward_ret].
              apply Forward_for_loop. intro result.
              apply Forward_rbind; [apply Forward_readVarint | intro keyIndex].
              apply Forward_rbind; [apply keyTable_at_forward_total | intro key].
              apply Forward_rbind; [exact Fd | intro; apply Forward_ret].
           ++ intros [keyCount |]; [| apply Cut_ret].
              apply Cut_rbind; [| intro; apply Forward_ret | | intro; apply Cut_ret].
              ** apply Forward_for_loop. intro result.
                 apply Forward_rbind; [apply Forward_readVarint | intro keyIndex].
                 apply Forward_rbind; [apply keyTable_at_forward_total | intro key].
                 apply Forward_rbind; [exact Fd | intro; apply Forward_ret].
              ** apply Cut_for_loop.
                 --- intro result.
                     apply Forward_rbind; [apply Forward_readVarint | intro keyIndex].
                     apply Forward_rbind; [apply keyTable_at_forward_total | intro key].
                     apply Forward_rbind; [exact Fd | intro; apply Forward_ret].
                 --- intro result.
                     apply Cut_rbind; [apply Forward_readVarint | | apply Cut_readVarint |].
                     +++ intro keyIndex.
                         apply Forward_rbind; [apply keyTable_at_forward_total | intro key].
                         apply Forward_rbind; [exact Fd | intro; apply Forward_ret].
                     +++ intro keyIndex.
                         apply Cut_rbind;
                           [apply keyTable_at_forward_total | | apply Cut_keyTable_at |].
                         *** intro key.
                             apply Forward_rbind; [exact Fd | intro; apply Forward_ret].
                         *** intro key.
                             apply Cut_rbind;
                               [exact Fd | intro; apply Forward_ret
                               | exact Hin | intro; apply Cut_ret].
        -- apply Cut_throw.
Qed.

Lemma Cut_message_read (data : list Z) (options : ResolvedDecodeOptions) (d d' : nat) :
  (List.length data < d')%nat ->
  Cut underflow data 0 (message_read options d) (message_read options d').
Proof.
  intro Hd. unfold message_read.
  assert (HV : Cut underflow data 0 (Decoder.readValue d) (Decoder.readValue d'))
    by (apply Cut_readValue; lia).
  assert (HT : Cut underflow data 0
                 (Buffer.rbind Decoder.readStringTable
                    (fun keyTable => Decoder.readValueWithKeyTable d keyTable))
                 (Buffer.rbind Decoder.readStringTable
                    (fun keyTable => Decoder.readValueWithKeyTable d' keyTable))).
  { apply Cut_rbind.
    - apply readStringTable_forward_total.
    - intro. apply readValueWithKeyTable_forward.
    - apply Cut_readStringTable.
    - intro. apply Cut_readValueWithKeyTable. lia. }
  assert (FT : Forward (Buffer.rbind Decoder.readStringTable
                         (fun keyTable => Decoder.readValueWithKeyTable d keyTable))).
  { apply Forward_rbind; [apply readStringTable_forward_total |].
    intro. apply readValueWithKeyTable_forward. }
  pose proof (readValue_forward d) as FV.
  destruct (expectHeader options); [| exact HV].
  apply Cut_rbind; [apply Forward_readUint8 | | apply Cut_readUint8 |].
  - intro firstByte. repeat first [exact FT | exact FV | forward_step].
  - intro firstByte.
    destruct (firstByte =? nth 0 MAGIC_NUMBER 0).
    + apply Cut_rbind; [apply Forward_readUint8 | | apply Cut_readUint8 |];
        [intro m1; repeat first [exact FT | exact FV | forward_step] | intro m1].
      apply Cut_rbind; [apply Forward_readUint8 | | apply Cut_readUint8 |];
        [intro m2; repeat first [exact FT | exact FV | forward_step] | intro m2].
      apply Cut_rbind; [apply Forward_readUint8 | | apply Cut_readUint8 |];
        [intro m3; repeat first [exact FT | exact FV | forward_step] | intro m3].
      destruct (negb (m1 =? nth 1 MAGIC_NUMBER 0) || negb (m2 =? nth 2 MAGIC_NUMBER 0)
                || negb (m3 =? nth 3 MAGIC_NUMBER 0)); [apply Cut_throw |].
      apply Cut_rbind; [apply Forward_readUint8 | | apply Cut_readUint8 |];
        [intro vt; repeat first [exact FT | exact FV | forward_step] | intro vt].
      destruct (vt =? TYPE_TAG.HEADER_WITH_STRING_TABLE); [exact HT |].
      destruct (FORMAT_VERSION <? vt); [apply Cut_throw | exact HV].
    + destruct (firstByte =? TYPE_TAG.HEADER_WITH_STRING_TABLE); [exact HT |].
      apply Cut_throw.
Qed.

(** A read that consumes [kept ++ lost] entirely, with [lost] not empty,
    throws the underflow error on [kept] alone. *)
Lemma cut_message_throws (options : ResolvedDecodeOptions) (kept lost : list Z)
    (v : JsValue) (d : nat) :
  lost <> [] ->
  Reads (message_read options d) (kept ++ lost) v ->
  exists msg,
    Decoder.decodeValue kept options = Throw (RangeError msg)
    /\ starts_with_underflow msg = true.
Proof.
  intros Hlost Hreads.
  pose proof (Hreads [] []) as H. unfold reader_at, reader_past in H.
  cbn [app List.length Nat.add] in H. rewrite app_nil_r in H.
  assert (Hd : (List.length kept < Decoder.depth_bound kept)%nat)
    by (unfold Decoder.depth_bound; lia).
  destruct (Cut_message_read kept options d _ Hd lost 0%nat v _ ltac:(lia) H)
    as [_ Hout].
  cbn [Buffer.offset] in Hout.
  destruct Hout as (e & E & He).
  - rewrite length_app. destruct lost; [contradiction | simpl; lia].
  - destruct e as [msg | ? | ? | ? | | ? | | ? | | | ]; try discriminate He. exists msg. split; [| exact He].
    rewrite decodeValue_message_read.
    unfold Buffer.createBinaryReader. rewrite E. reflexivity.
Qed.

Lemma encoded_message_reads (v : JsValue) (eopts : ResolvedEncodeOptions)
    (dopts : ResolvedDecodeOptions) :
  reads_back v eopts dopts = true ->
  exists bytes,
    encode v eopts = Ok bytes
    /\ forall d, (List.length bytes <= d)%nat -> Reads (message_read dopts d) bytes v.
Proof.
  unfold reads_back. intro H.
  destruct (Encoder.usesStringTable v eopts) eqn:Hmode.
  - apply andb_true_iff in H as [H Hkeys]. apply andb_true_iff in H as [Hhdr Hw].
    assert (Hk : Forall (fun k => byteLength k < 2 ^ 28) (distinct_keys v)).
    { apply Forall_forall. intros k Hin. rewrite forallb_forall in Hkeys.
      apply Z.ltb_lt. exact (Hkeys k Hin). }
    pose proof (table_mode_few_keys v eopts Hmode) as Hcount.
    pose proof (wire_table_keys _ v Hw Hcount) as Hwt.
    destruct (table_carries _ v Hwt) as (bytes & Hwrite & Hheight & Hread).
    destruct (stringTable_roundtrip (distinct_keys v) Hcount Hk) as (tb & Htw & Htr).
    unfold encode. rewrite (normalize_wire _ _ Hw).
    unfold Encoder.encodeValue. rewrite Hmode.
    unfold message_read. rewrite Hhdr.
    fold (distinct_keys v). rewrite Htw, Hwrite. cbn [bind].
    unfold Encoder.getResult, Encoder.createGrowableBuffer, Encoder.put_bytes.
    destruct (includeHeader eopts).
    + eexists. split; [reflexivity |]. intros d Hd.
      rewrite <- app_assoc.
      apply (table_message_decodes tb bytes (distinct_keys v) v _ true Htr).
      apply Hread.
      repeat first [rewrite length_app in Hd | progress (cbn [List.length] in Hd)]. lia.
    + eexists. split; [reflexivity |]. intros d Hd.
      rewrite <- app_assoc.
      apply (table_message_decodes tb bytes (distinct_keys v) v _ false Htr).
      apply Hread.
      repeat first [rewrite length_app in Hd | progress (cbn [List.length] in Hd)]. lia.
  - apply andb_true_iff in H as [Hhdr Hw]. apply Bool.eqb_prop in Hhdr.
    destruct (plain_carries v Hw) as (bytes & Hwrite & Hheight & Hread).
    unfold encode. rewrite (normalize_wire _ _ Hw).
    unfold Encoder.encodeValue. rewrite Hmode.
    unfold message_read. rewrite <- Hhdr.
    destruct (includeHeader eopts).
    + unfold Encoder.writeHeader, Encoder.put_bytes, Encoder.put,
        Encoder.createGrowableBuffer.
      rewrite Hwrite. cbn [bind Encoder.getResult].
      eexists. split; [reflexivity |]. intros d Hd.
      change ((([] ++ MAGIC_NUMBER) ++ [FORMAT_VERSION mod 256]) ++ bytes)
        with (MAGIC_NUMBER ++ FORMAT_VERSION :: bytes) in Hd |- *.
      apply plain_message_decodes. apply Hread.
      repeat first [rewrite length_app in Hd
                   | progress (cbn [List.length app MAGIC_NUMBER Encoder.getResult] in Hd)].
      lia.
    + unfold Encoder.createGrowableBuffer. rewrite Hwrite.
      cbn [bind Encoder.getResult].
      eexists. split; [reflexivity |]. intros d Hd.
      cbn [app Encoder.getResult] in Hd |- *.
      apply Hread. lia.
Qed.



(** The bytes of a message without string table: the header, when it is
    written, and the bytes of the value. *)
Lemma plain_encoding (v : JsValue) (eopts : ResolvedEncodeOptions) :
  wire_value inline_key v = true ->
  Encoder.usesStringTable v eopts = false ->
  exists vb,
    encode v eopts
    = Ok ((if includeHeader eopts then MAGIC_NUMBER ++ [FORMAT_VERSION] else []) ++ vb)
    /\ forall d, (List.length vb <= d)%nat -> Reads (Decoder.readValue d) vb v.
Proof.
  intros Hw Hmode.
  destruct (plain_carries v Hw) as (bytes & Hwrite & Hheight & Hread).
  exists bytes. split.
  - unfold encode. rewrite (normalize_wire _ _ Hw).
    unfold Encoder.encodeValue. rewrite Hmode.
    destruct (includeHeader eopts).
    + unfold Encoder.writeHeader, Encoder.put_bytes, Encoder.put,
        Encoder.createGrowableBuffer.
      rewrite Hwrite. reflexivity.
    + unfold Encoder.createGrowableBuffer. rewrite Hwrite. reflexivity.
  - intros d Hd. apply Hread. lia.
Qed.

(** The value reader on a buffer that stops inside the bytes of a value. *)
Lemma cut_value_throws (pre kept lost : list Z) (v : JsValue) (d : nat) :
  lost <> [] ->
  Reads (Decoder.readValue d) (kept ++ lost) v ->
  exists msg,
    Decoder.readValue (Decoder.depth_bound (pre ++ kept)) (reader_at pre kept [])
    = Throw (RangeError msg)
    /\ starts_with_underflow msg = true.
Proof.
  intros Hlost Hreads.
  pose proof (Hreads pre []) as H. unfold reader_at, reader_past in H |- *.
  rewrite !app_nil_r in *. rewrite app_assoc in H.
  assert (Hd : (List.length (pre ++ kept)
                < Decoder.depth_bound (pre ++ kept) + List.length pre)%nat)
    by (unfold Decoder.depth_bound; lia).
  destruct (Cut_readValue (pre ++ kept) _ d _ Hd lost (List.length pre) v _
              ltac:(rewrite length_app; lia) H) as [_ Hout].
  cbn [Buffer.offset] in Hout. destruct Hout as (e & E & He).
  - rewrite !length_app. destruct lost; [contradiction | simpl; lia].
  - destruct e as [msg | ? | ? | ? | | ? | | ? | | | ]; try discriminate He. exists msg. split; [exact E | exact He].
Qed.



Lemma Forward_v2_at_end : Forward V2.at_end.
Proof. intros r a r' H. inversion H; subst. split; [reflexivity | lia]. Qed.

Lemma Forward_v2_peek : Forward V2.peek.
Proof. intros r a r' H. inversion H; subst. split; [reflexivity | lia]. Qed.

Lemma Forward_v2_next : Forward V2.next.
Proof. intros r a r' H. inversion H; subst. simpl. split; [reflexivity | lia]. Qed.

Lemma Forward_guarded_next {B : Type} (k : Z -> Buffer.Read B) :
  (forall b, Forward (k b)) -> Forward (guarded_next k).
Proof.
  intro Hk. unfold guarded_next.
  apply Forward_rbind; [apply Forward_v2_at_end | intros [|]].
  - apply Forward_throw.
  - apply Forward_rbind; [apply Forward_v2_next | exact Hk].
Qed.

Lemma Advances_guarded_next {B : Type} (k : Z -> Buffer.Read B) :
  (forall b, Forward (k b)) -> Advances (guarded_next k).
Proof.
  intros Hk r b r' H. unfold guarded_next, Buffer.rbind, V2.at_end, V2.next in H.
  destruct (Nat.leb _ _); [discriminate H |].
  destruct (Hk _ _ _ _ H) as [_ Ho]. simpl in Ho. lia.
Qed.

Lemma Advances_rbind {A B : Type} (m : Buffer.Read A) (k : A -> Buffer.Read B) :
  Advances m -> (forall a, Forward (k a)) -> Advances (Buffer.rbind m k).
Proof.
  intros Hm Hk r b r' H. unfold Buffer.rbind in H.
  destruct (m r) as [[a r1] | e] eqn:Em; [| discriminate H].
  pose proof (Hm _ _ _ Em). destruct (Hk _ _ _ _ H) as [_ Ho]. lia.
Qed.

Lemma v2_readVarint_loop_step (fuel : nat) (acc shift : Z) :
  V2.readVarint_loop (S fuel) acc shift
  = guarded_next (fun byte =>
      if Z.land byte 0x80 =? 0
      then Buffer.ret (round53 (Z.lor acc (Z.shiftl (Z.land byte 0x7F) shift)))
      else if 63 <? shift + 7 then Buffer.throw (PlainError "Varint too long")
           else V2.readVarint_loop fuel
                  (Z.lor acc (Z.shiftl (Z.land byte 0x7F) shift)) (shift + 7)).
Proof. reflexivity. Qed.

Lemma Forward_v2_readVarint_loop (fuel : nat) :
  forall acc shift, Forward (V2.readVarint_loop fuel acc shift).
Proof.
  induction fuel as [| fuel IH]; intros acc shift.
  - apply Forward_throw.
  - rewrite v2_readVarint_loop_step. apply Forward_guarded_next. intro byte.
    destruct (Z.land byte 128 =? 0); [apply Forward_ret |].
    destruct (63 <? shift + 7); [apply Forward_throw | apply IH].
Qed.

Lemma Forward_v2_readVarint : Forward V2.readVarint.
Proof. apply Forward_v2_readVarint_loop. Qed.

Lemma Advances_v2_readVarint : Advances V2.readVarint.
Proof.
  unfold V2.readVarint. rewrite v2_readVarint_loop_step.
  apply Advances_guarded_next. intro byte.
  destruct (Z.land byte 128 =? 0); [apply Forward_ret |].
  destruct (63 <? 0 + 7); [apply Forward_throw | apply Forward_v2_readVarint_loop].
Qed.

Lemma Forward_v2_readFloat64 : Forward V2.readFloat64.
Proof.
  intros r a r' H. unfold V2.readFloat64 in H.
  destruct (Nat.ltb _ _); [discriminate H |].
  inversion H; subst. simpl. split; [reflexivity | lia].
Qed.

Lemma Forward_v2_readString (length : Z) : Forward (V2.readString length).
Proof.
  intros r a r' H. unfold V2.readString in H.
  destruct (Z.ltb _ _); [discriminate H |].
  inversion H; subst. simpl. split; [reflexivity | lia].
Qed.

Lemma Forward_v2_until_break {S : Type} (fuel : nat) (body : S -> Buffer.Read S) :
  (forall s, Forward (body s)) -> forall s, Forward (V2.until_break fuel body s).
Proof.
  intro Hb. induction fuel as [| fuel IH]; intro s; cbn [V2.until_break].
  - apply Forward_throw.
  - apply Forward_rbind; [apply Forward_v2_at_end | intro done].
    apply Forward_rbind; [apply Forward_v2_peek | intro b].
    destruct (negb done && negb (b =? V2.TAG.BREAK)); [| apply Forward_ret].
    apply Forward_rbind; [apply Hb | exact IH].
Qed.

Lemma Forward_v2_consume_break : Forward V2.consume_break.
Proof.
  unfold V2.consume_break.
  apply Forward_rbind; [apply Forward_v2_at_end | intros [|]].
  - apply Forward_throw.
  - apply Forward_rbind; [apply Forward_v2_next | intro; apply Forward_ret].
Qed.

Lemma Forward_until_break_then {S B : Type} (fuel : nat) (body : S -> Buffer.Read S)
    (s : S) (f : S -> B) :
  (forall s, Forward (body s)) -> Forward (until_break_then fuel body s f).
Proof.
  intro Hb. unfold until_break_then.
  apply Forward_rbind; [apply Forward_v2_until_break; exact Hb | intro x].
  apply Forward_rbind; [apply Forward_v2_consume_break | intro; apply Forward_ret].
Qed.

Lemma Forward_v2_readEntry (rv : Buffer.Read JsValue) (obj : list (string * JsValue)) :
  Forward rv -> Forward (V2.readEntry rv obj).
Proof.
  intro Hrv. unfold V2.readEntry.
  apply Forward_rbind; [apply Forward_v2_readVarint | intro keyLength].
  apply Forward_rbind; [apply Forward_v2_readString | intro key].
  apply Forward_rbind; [exact Hrv | intro; apply Forward_ret].
Qed.

Lemma Advances_v2_readEntry (rv : Buffer.Read JsValue) (obj : list (string * JsValue)) :
  Forward rv -> Advances (V2.readEntry rv obj).
Proof.
  intro Hrv. unfold V2.readEntry.
  apply Advances_rbind; [apply Advances_v2_readVarint | intro keyLength].
  apply Forward_rbind; [apply Forward_v2_readString | intro key].
  apply Forward_rbind; [exact Hrv | intro; apply Forward_ret].
Qed.

(** [readValue] behind its guard. *)
Lemma v2_readValue_step (loops depth : nat) :
  V2.readValue loops (S depth)
  = guarded_next (fun tag =>
      if tag =? V2.TAG.NULL then Buffer.ret JNull
      else if tag =? V2.TAG.FALSE then Buffer.ret (JBool false)
      else if tag =? V2.TAG.TRUE then Buffer.ret (JBool true)
      else if tag =? V2.TAG.INT then
        Buffer.rbind V2.readZigzag (fun z => Buffer.ret (JNum (NInt z)))
      else if tag =? V2.TAG.FLOAT64 then
        Buffer.rbind V2.readFloat64 (fun v => Buffer.ret (JNum v))
      else if tag =? V2.TAG.STRING then
        Buffer.rbind V2.readVarint (fun length =>
        Buffer.rbind (V2.readString length) (fun s => Buffer.ret (JStr s)))
      else if tag =? V2.TAG.STRING_EMPTY then Buffer.ret (JStr EmptyString)
      else if tag =? V2.TAG.ARRAY then
        Buffer.rbind V2.readVarint (fun count =>
        Buffer.rbind
          (Decoder.for_loop (Z.to_nat count)
             (fun arr => Buffer.rbind (V2.readValue loops depth)
                           (fun v => Buffer.ret (arr ++ [Some v])))
             [])
          (fun arr => Buffer.ret (JArr arr)))
      else if tag =? V2.TAG.ARRAY_EMPTY then Buffer.ret (JArr [])
      else if tag =? V2.TAG.ARRAY_INDEF then
        until_break_then loops
          (fun arr => Buffer.rbind (V2.readValue loops depth)
                        (fun v => Buffer.ret (arr ++ [Some v])))
          [] JArr
      else if tag =? V2.TAG.OBJECT then
        Buffer.rbind V2.readVarint (fun count =>
        Buffer.rbind
          (Decoder.for_loop (Z.to_nat count)
             (V2.readEntry (V2.readValue loops depth)) [])
          (fun obj => Buffer.ret (JObj obj)))
      else if tag =? V2.TAG.OBJECT_EMPTY then Buffer.ret (JObj [])
      else if tag =? V2.TAG.OBJECT_INDEF then
        until_break_then loops (V2.readEntry (V2.readValue loops depth)) [] JObj
      else if tag =? V2.TAG.BREAK then Buffer.throw UnexpectedBreakError
      else Buffer.throw (UnknownTagError tag)).
Proof. reflexivity. Qed.

Ltac v2_forward :=
  repeat first
    [ assumption
    | apply Forward_ret
    | apply Forward_throw
    | apply Forward_v2_readVarint
    | apply Forward_v2_readFloat64
    | apply Forward_v2_readString
    | apply Forward_v2_readEntry
    | apply Forward_until_break_then; intro
    | apply Forward_for_loop; intro
    | apply Forward_rbind; [| intro]
    | match goal with
      | |- Forward (if ?b then _ else _) => destruct b
      end ].

Lemma Forward_v2_readValue (loops depth : nat) : Forward (V2.readValue loops depth).
Proof.
  induction depth as [| depth IH].
  - apply Forward_throw.
  - rewrite v2_readValue_step. apply Forward_guarded_next. intro tag.
    unfold V2.readZigzag. v2_forward.
Qed.

Lemma Advances_v2_readValue (loops depth : nat) : Advances (V2.readValue loops depth).
Proof.
  destruct depth as [| depth].
  - intros r a r' H. discriminate H.
  - rewrite v2_readValue_step. apply Advances_guarded_next. intro tag.
    pose proof (Forward_v2_readValue loops depth).
    unfold V2.readZigzag. v2_forward.
Qed.

Lemma Cut_guarded_next {B : Type} (data : list Z) (lo : nat)
    (k k' : Z -> Buffer.Read B) :
  (forall b, Forward (k b)) ->
  (forall b, Cut v2_truncated data (S lo) (k b) (k' b)) ->
  Cut v2_truncated data lo (guarded_next k) (guarded_next k').
Proof.
  intros Fk Hk lost o b r2 Ho H.
  unfold guarded_next, Buffer.rbind, V2.at_end, V2.next in H |- *.
  cbn [Buffer.buffer Buffer.offset] in *.
  destruct (Nat.leb_spec (List.length (data ++ lost)) o) as [| Hfull];
    [discriminate H |].
  destruct (Fk _ _ _ _ H) as [Hb2 Ho2]. cbn in Hb2, Ho2.
  destruct (Nat.leb_spec (List.length data) o) as [Hend | Hin].
  - split; [lia |]. intros _. eexists. split; reflexivity.
  - cbn [Buffer.buffer Buffer.offset Buffer.advance] in H |- *.
    rewrite app_nth1 in H by lia.
    apply (Hk _ lost (o + 1)%nat b r2); [lia | exact H].
Qed.

Lemma Cut_v2_readVarint_loop (data : list Z) (fuel : nat) :
  forall acc shift lo,
    Cut v2_truncated data lo (V2.readVarint_loop fuel acc shift)
                             (V2.readVarint_loop fuel acc shift).
Proof.
  induction fuel as [| fuel IH]; intros acc shift lo.
  - apply Cut_throw.
  - rewrite v2_readVarint_loop_step. apply Cut_guarded_next.
    + intro byte. destruct (Z.land byte 128 =? 0); [apply Forward_ret |].
      destruct (63 <? shift + 7); [apply Forward_throw |].
      apply Forward_v2_readVarint_loop.
    + intro byte. destruct (Z.land byte 128 =? 0); [apply Cut_ret |].
      destruct (63 <? shift + 7); [apply Cut_throw | apply IH].
Qed.

Lemma Cut_v2_readVarint (data : list Z) (lo : nat) :
  Cut v2_truncated data lo V2.readVarint V2.readVarint.
Proof. apply Cut_v2_readVarint_loop. Qed.

Lemma Cut_v2_readFloat64 (data : list Z) (lo : nat) :
  Cut v2_truncated data lo V2.readFloat64 V2.readFloat64.
Proof.
  intros lost o b r' Ho H. unfold V2.readFloat64 in H |- *.
  cbn [Buffer.buffer Buffer.offset] in *.
  destruct (Nat.ltb_spec (List.length (data ++ lost)) (o + 8)); [discriminate H |].
  inversion H; subst; clear H. cbn [Buffer.offset Buffer.advance Buffer.buffer].
  destruct (Nat.ltb_spec (List.length data) (o + 8)).
  - split; [lia |]. intros _. eexists. split; reflexivity.
  - rewrite slice_cut by lia. split; [reflexivity | lia].
Qed.

Lemma Cut_v2_readString (data : list Z) (lo : nat) (length : Z) :
  Cut v2_truncated data lo (V2.readString length) (V2.readString length).
Proof.
  intros lost o b r' Ho H. unfold V2.readString in H |- *.
  cbn [Buffer.buffer Buffer.offset] in *.
  destruct (Z.ltb_spec (Z.of_nat (List.length (data ++ lost))) (Z.of_nat o + length));
    [discriminate H |].
  inversion H; subst; clear H. cbn [Buffer.offset Buffer.advance Buffer.buffer].
  destruct (Z.ltb_spec (Z.of_nat (List.length data)) (Z.of_nat o + length)).
  - split; [lia |]. intros _. eexists. split; reflexivity.
  - rewrite slice_cut by lia. split; [reflexivity | lia].
Qed.

Lemma Cut_v2_readEntry (data : list Z) (lo : nat) (rv rv' : Buffer.Read JsValue)
    (obj : list (string * JsValue)) :
  Forward rv -> Cut v2_truncated data lo rv rv' ->
  Cut v2_truncated data lo (V2.readEntry rv obj) (V2.readEntry rv' obj).
Proof.
  intros Frv Hrv. unfold V2.readEntry.
  apply Cut_rbind; [apply Forward_v2_readVarint | | apply Cut_v2_readVarint |].
  - intro. v2_forward.
  - intro keyLength.
    apply Cut_rbind; [apply Forward_v2_readString | | apply Cut_v2_readString |].
    + intro. v2_forward.
    + intro key.
      apply Cut_rbind; [exact Frv | intro; apply Forward_ret | exact Hrv |].
      intro. apply Cut_ret.
Qed.

Lemma until_break_then_step {St B : Type} (fuel : nat) (body : St -> Buffer.Read St)
    (s : St) (f : St -> B) (r : Buffer.BinaryReader) :
  until_break_then (S fuel) body s f r
  = if negb (Nat.leb (List.length (Buffer.buffer r)) (Buffer.offset r))
       && negb (nth (Buffer.offset r) (Buffer.buffer r) 0 =? V2.TAG.BREAK)
    then match body s r with
         | Ok (s1, r1) => until_break_then fuel body s1 f r1
         | Throw e => Throw e
         end
    else if Nat.leb (List.length (Buffer.buffer r)) (Buffer.offset r)
         then Throw TruncatedDataError
         else Ok (f s, Buffer.advance r 1).
Proof.
  unfold until_break_then. cbn [V2.until_break]. unfold V2.consume_break.
  unfold Buffer.rbind, V2.at_end, V2.peek, V2.next, Buffer.ret, Buffer.throw.
  destruct (negb (Nat.leb (List.length (Buffer.buffer r)) (Buffer.offset r))
            && negb (nth (Buffer.offset r) (Buffer.buffer r) 0 =? V2.TAG.BREAK)).
  - destruct (body s r) as [[s1 r1] | e]; reflexivity.
  - destruct (Nat.leb (List.length (Buffer.buffer r)) (Buffer.offset r)); reflexivity.
Qed.

(** The loop over an indefinite container stops at the end of the cut
    buffer as it stops at a break; the missing break then is the
    truncation.  Every round consumes a byte, so the rounds left to the
    loop cover the bytes left to it. *)
Lemma Cut_until_break_then {St B : Type} (data : list Z) (lo : nat)
    (body body' : St -> Buffer.Read St) (f : St -> B) :
  (forall s, Forward (body s)) ->
  (forall s, Advances (body s)) ->
  (forall s, Cut v2_truncated data lo (body s) (body' s)) ->
  forall (fuel fuel' : nat) (s : St) (lost : list Z) (o : nat) (b : B)
         (r' : Buffer.BinaryReader),
    (lo <= o <= List.length data)%nat ->
    (List.length data - o < fuel')%nat ->
    until_break_then fuel body s f (Buffer.mkReader (data ++ lost) o) = Ok (b, r') ->
    ((Buffer.offset r' <= List.length data)%nat ->
     until_break_then fuel' body' s f (Buffer.mkReader data o)
     = Ok (b, Buffer.mkReader data (Buffer.offset r')))
    /\ ((List.length data < Buffer.offset r')%nat ->
        exists e,
          until_break_then fuel' body' s f (Buffer.mkReader data o) = Throw e
          /\ v2_truncated e = true).
Proof.
  intros Fb Ab Hb.
  induction fuel as [| fuel IH]; intros fuel' s lost o b r' Ho Hf H.
  - discriminate H.
  - destruct fuel' as [| fuel']; [lia |].
    rewrite until_break_then_step in H |- *.
    cbn [Buffer.buffer Buffer.offset] in H |- *.
    destruct (Nat.leb_spec (List.length data) o) as [Hend | Hin].
    + (* the cut buffer ends here *)
      cbn [negb andb].
      assert (Hlt : (o < Buffer.offset r')%nat).
      { destruct (negb (Nat.leb (List.length (data ++ lost)) o)
                  && negb (nth o (data ++ lost) 0 =? V2.TAG.BREAK)).
        - destruct (body s _) as [[s1 r1] | e] eqn:Eb; [| discriminate H].
          pose proof (Ab _ _ _ _ Eb) as Hadv. cbn [Buffer.offset] in Hadv.
          destruct (Forward_until_break_then fuel body s1 f Fb _ _ _ H) as [_ Hge].
          lia.
        - destruct (Nat.leb (List.length (data ++ lost)) o); [discriminate H |].
          inversion H; subst. cbn. lia. }
      split; [lia |]. intros _. eexists. split; reflexivity.
    + replace (Nat.leb (List.length (data ++ lost)) o) with false in H
        by (symmetry; apply Nat.leb_gt; rewrite length_app; lia).
      rewrite app_nth1 in H by lia.
      destruct (negb false && negb (nth o data 0 =? V2.TAG.BREAK)).
      * (* one more round *)
        destruct (body s (Buffer.mkReader (data ++ lost) o)) as [[s1 r1] | e] eqn:Eb;
          [| discriminate H].
        pose proof (Ab _ _ _ _ Eb) as Hadv. cbn [Buffer.offset] in Hadv.
        destruct (Fb _ _ _ _ Eb) as [Hbuf _]. cbn [Buffer.buffer] in Hbuf.
        destruct r1 as [b1 o1]. cbn [Buffer.buffer Buffer.offset] in *. subst b1.
        destruct (Forward_until_break_then fuel body s1 f Fb _ _ _ H) as [_ Hge].
        cbn [Buffer.offset] in Hge.
        destruct (Hb s lost o s1 _ Ho Eb) as [Hinside Hbeyond].
        cbn [Buffer.offset] in Hinside, Hbeyond.
        destruct (Nat.le_gt_cases o1 (List.length data)) as [Hle | Hgt].
        -- rewrite (Hinside Hle).
           apply (IH fuel' s1 lost o1 b r'); [lia | lia | exact H].
        -- destruct (Hbeyond Hgt) as (e & -> & He). split; [lia |].
           intros _. exists e. split; [reflexivity | exact He].
      * (* the break *)
        inversion H; subst; clear H. cbn. split; [reflexivity | lia].
Qed.

Ltac v2_cut :=
  repeat first
    [ assumption
    | apply Cut_ret
    | apply Cut_throw
    | apply Cut_v2_readVarint
    | apply Cut_v2_readFloat64
    | apply Cut_v2_readString
    | apply Cut_v2_readEntry
    | apply Cut_for_loop; [intro | intro]
    | apply Cut_rbind; [| intro | | intro]
    | match goal with
      | |- Forward _ => unfold V2.readZigzag; v2_forward; fail
      end ].

Lemma Cut_v2_readValue (data : list Z) (loops loops' : nat) :
  (List.length data < loops')%nat ->
  forall (d' d lo : nat),
    (List.length data < d' + lo)%nat ->
    Cut v2_truncated data lo (V2.readValue loops d) (V2.readValue loops' d').
Proof.
  intro Hl. induction d' as [| d' IH]; intros d lo Hd.
  - intros lost o a r' Ho. lia.
  - destruct d as [| d]; [apply Cut_throw |].
    rewrite !v2_readValue_step.
    pose proof (Forward_v2_readValue loops d) as Fd.
    pose proof (Advances_v2_readValue loops d) as Ad.
    apply Cut_guarded_next.
    + intro tag. unfold V2.readZigzag. v2_forward.
    + intro tag.
      assert (Hin : Cut v2_truncated data (S lo) (V2.readValue loops d)
                      (V2.readValue loops' d')) by (apply IH; lia).
      repeat match goal with
             | |- Cut _ _ _ (if ?b then _ else _) _ => destruct b
             end;
        try (unfold V2.readZigzag; v2_cut; fail).
      * intros lost o a r' Ho H.
        refine (Cut_until_break_then data (S lo) _ _ JArr _ _ _ loops loops' []
                  lost o a r' Ho _ H).
        -- intro. v2_forward.
        -- intro. apply Advances_rbind; [exact Ad | intro; apply Forward_ret].
        -- intro. v2_cut.
        -- lia.
      * intros lost o a r' Ho H.
        refine (Cut_until_break_then data (S lo) _ _ JObj _ _ _ loops loops' []
                  lost o a r' Ho _ H).
        -- intro. v2_forward.
        -- intro. apply Advances_v2_readEntry. exact Fd.
        -- intro. v2_cut.
        -- lia.
Qed.

(** The bytes of a v2 message and the reads of its value. *)
Lemma v2_encoding (v : JsValue) :
  v2_value v = true ->
  exists vb,
    V2.encode v = Ok ((V2.MAGIC ++ [V2.VERSION]) ++ vb)
    /\ forall fuel, (List.length vb <= fuel)%nat -> Reads (V2.readValue fuel fuel) vb v.
Proof.
  intro Hw. destruct (v2_value_carries v Hw) as (bytes & Hc).
  destruct (Hc O) as (Hwrite & Hheight & _).
  exists bytes. split.
  - unfold V2.encode. rewrite Hwrite. reflexivity.
  - intros fuel Hfuel. destruct (Hc fuel) as (_ & _ & Hread). apply Hread. lia.
Qed.

(** X28.  The v2 [decode] never takes a message cut short for a message:
    on a proper prefix of the bytes [encode] wrote it throws
    [InvalidMagicError] while fewer than five bytes are left and
    [TruncatedDataError] from there on. *)
Theorem v2_truncated_message_rejected (v : JsValue) (kept lost : list Z) :
  v2_value v = true ->
  V2.encode v = Ok (kept ++ lost) ->
  lost <> [] ->
  V2.decode kept
  = Throw (if Nat.ltb (List.length kept) 5 then InvalidMagicError
           else TruncatedDataError).
Proof.
  intros Hw Henc Hlost.
  destruct (v2_encoding v Hw) as (vb & Hbytes & Hreads).
  rewrite Henc in Hbytes. injection Hbytes as Hsplit.
  destruct kept as [| b0 [| b1 [| b2 [| b3 [| b4 kept]]]]];
    try reflexivity.
  cbn [app V2.MAGIC] in Hsplit. injection Hsplit as -> -> -> -> -> Hvb. subst vb.
  replace (Nat.ltb (List.length (66 :: 79 :: 79 :: 78 :: V2.VERSION :: kept)) 5)
    with false by reflexivity.
  pose proof (Hreads _ (Nat.le_refl _) (V2.MAGIC ++ [V2.VERSION]) []) as H.
  unfold reader_at, reader_past in H. rewrite app_nil_r in H.
  set (data := 66 :: 79 :: 79 :: 78 :: V2.VERSION :: kept) in *.
  assert (Hd : V2.decode data
               = match V2.readValue (S (List.length data)) (S (List.length data))
                         (Buffer.mkReader data 5) with
                 | Ok (v', _) => Ok v'
                 | Throw e => Throw e
                 end) by reflexivity.
  rewrite Hd.
  assert (Hl : (List.length data < S (List.length data))%nat) by lia.
  assert (Hb : (List.length data < S (List.length data) + 5)%nat) by lia.
  assert (Ho : (5 <= 5 <= List.length data)%nat) by (subst data; simpl; lia).
  destruct (Cut_v2_readValue data (List.length (kept ++ lost)) (S (List.length data))
              Hl (S (List.length data)) (List.length (kept ++ lost)) 5%nat
              Hb lost 5%nat v _ Ho H)
    as [_ Hout].
  destruct Hout as (e & -> & He).
  - cbn [Buffer.offset]. subst data. rewrite !length_app.
    destruct lost; [contradiction | simpl; lia].
  - destruct e; try discriminate He. reflexivity.
Qed.

Lemma v2_truncated_message_rejected_witness :
  V2.decode [0x42; 0x4F; 0x4F; 0x4E; 1; 0x30; 2; 0x10; 2; 0x20; 2; 97]
  = Throw (if Nat.ltb (List.length [0x42; 0x4F; 0x4F; 0x4E; 1; 0x30; 2; 0x10; 2; 0x20; 2; 97])
                      5
           then InvalidMagicError else TruncatedDataError).
Proof.
  apply (v2_truncated_message_rejected (JArr [Some (int 1); Some (JStr "ab")])
           [0x42; 0x4F; 0x4F; 0x4E; 1; 0x30; 2; 0x10; 2; 0x20; 2; 97] [98]).
  - vm_compute. reflexivity.
  - vm_compute. reflexivity.
  - discriminate.
Defined.

(* ================================================================== *)
(** ** The encoder and decoder before the key tables *)

Lemma earlier_key_roundtrip (key : string) :
  sized_key key = true ->
  exists bytes,
    (forall buf, Earlier.writeKeyString buf key = buf ++ bytes)
    /\ Reads Earlier.readKeyString bytes key.
Proof.
  unfold sized_key, byteLength, Earlier.writeKeyString. intro H. apply Z.ltb_lt in H.
  change (2 ^ 32) with 4294967296 in H.
  set (len := Z.of_nat (List.length (textEncoder_encode key))) in *.
  assert (Hlen0 : 0 <= len) by (unfold len; lia).
  unfold MAX_MEDIUM_LENGTH.
  destruct (Z.leb_spec len 253) as [L1 | L1];
    [| destruct (Z.leb_spec len 65535) as [L2 | L2]].
  - exists (len :: textEncoder_encode key). split.
    + intro buf. unfold Encoder.put_bytes, Encoder.put.
      rewrite Z.mod_small by lia. rewrite <- app_assoc. reflexivity.
    + unfold Earlier.readKeyString.
      apply (Reads_bind _ _ [_] _ _ _ (Reads_readUint8 _)).
      replace (len =? 254) with false by (symmetry; apply Z.eqb_neq; lia).
      replace (len =? 255) with false by (symmetry; apply Z.eqb_neq; lia).
      apply (Reads_bind _ _ [] _ _ _ (Reads_ret _)).
      apply Reads_text.
  - exists (254 :: be_bytes 2 len ++ textEncoder_encode key). split.
    + intro buf. unfold Encoder.put_bytes, Encoder.put, Encoder.put_be.
      change (254 mod 256) with 254. rewrite <- !app_assoc. reflexivity.
    + unfold Earlier.readKeyString.
      apply (Reads_bind _ _ [_] _ _ _ (Reads_readUint8 _)).
      cbv beta. change (254 =? 254) with true. cbv iota.
      apply (Reads_bind _ _ (be_bytes 2 len) _ len).
      * pose proof (Reads_read_fixed 2 "uint16" be_value (be_bytes 2 len)
                      (be_bytes_length 2 len)) as Hr.
        rewrite be_value_be_bytes_small in Hr by (change (2 ^ (8 * Z.of_nat 2)) with 65536; lia).
        exact Hr.
      * apply Reads_text.
  - exists (255 :: be_bytes 4 len ++ textEncoder_encode key). split.
    + intro buf. unfold Encoder.put_bytes, Encoder.put, Encoder.put_be.
      change (255 mod 256) with 255. rewrite <- !app_assoc. reflexivity.
    + unfold Earlier.readKeyString.
      apply (Reads_bind _ _ [_] _ _ _ (Reads_readUint8 _)).
      cbv beta. change (255 =? 254) with false. change (255 =? 255) with true. cbv iota.
      apply (Reads_bind _ _ (be_bytes 4 len) _ len).
      * pose proof (Reads_read_fixed 4 "uint32" be_value (be_bytes 4 len)
                      (be_bytes_length 4 len)) as Hr.
        rewrite be_value_be_bytes_small in Hr
          by (change (2 ^ (8 * Z.of_nat 4)) with 4294967296; lia).
        exact Hr.
      * apply Reads_text.
Qed.

(** A key of at most 127 bytes as the earlier encoder writes it is no
    common-key byte to the current decoder. *)
Lemma short_key_roundtrip (key : string) :
  short_key key = true ->
  exists bytes,
    (forall buf, Earlier.writeKeyString buf key = buf ++ bytes)
    /\ Reads Decoder.readKeyString bytes key.
Proof.
  unfold short_key, byteLength, Earlier.writeKeyString. intro H. apply Z.leb_le in H.
  set (len := Z.of_nat (List.length (textEncoder_encode key))) in *.
  assert (Hlen0 : 0 <= len) by (unfold len; lia).
  destruct (Z.leb_spec len 253) as [L1 | L1]; [| lia].
  exists (len :: textEncoder_encode key). split.
  - intro buf. unfold Encoder.put_bytes, Encoder.put.
    rewrite Z.mod_small by lia. rewrite <- app_assoc. reflexivity.
  - unfold Decoder.readKeyString.
    apply (Reads_bind _ _ [_] _ _ _ (Reads_readUint8 _)).
    unfold COMMON_KEY_MIN, COMMON_KEY_MAX.
    destruct (Z.leb_spec 128 len); [lia |].
    cbn [andb].
    replace (len =? 254) with false by (symmetry; apply Z.eqb_neq; lia).
    replace (len =? 255) with false by (symmetry; apply Z.eqb_neq; lia).
    apply (Reads_bind _ _ [] _ _ _ (Reads_ret _)).
    apply Reads_text.
Qed.

Lemma earlier_carries (v : JsValue) :
  wire_value sized_key v = true ->
  exists bytes, Carries Earlier.writeValue Earlier.readValue v bytes.
Proof.
  apply (wire_value_carries Earlier.writeValue Earlier.readValue
           Earlier.writeKeyString
           (fun d result =>
              Buffer.rbind Earlier.readKeyString (fun key =>
              Buffer.rbind (Earlier.readValue d) (fun value =>
              Buffer.ret (obj_set result key value))))
           sized_key).
  - intros buf v0 Hleaf. destruct v0; try discriminate Hleaf; reflexivity.
  - reflexivity.
  - reflexivity.
  - intros d tag payload rd v0 Hs Hr. cbn [Earlier.readValue].
    apply (Reads_bind _ _ [tag] payload tag v0 (Reads_readUint8 tag)).
    rewrite Hs. exact Hr.
  - intros d tag payload v0 Hs Ha Hr. cbn [Earlier.readValue].
    apply (Reads_bind _ _ [tag] payload tag v0 (Reads_readUint8 tag)).
    rewrite Hs, Ha. exact Hr.
  - intros d tag payload v0 Hs Ha Ho Hr. cbn [Earlier.readValue].
    apply (Reads_bind _ _ [tag] payload tag v0 (Reads_readUint8 tag)).
    rewrite Hs, Ha, Ho. exact Hr.
  - intros key Hk. destruct (earlier_key_roundtrip key Hk) as (kb & Hw & Hr).
    exists kb. split; [exact Hw |].
    intros d vb v0 s Hv.
    eapply Reads_bind; [exact Hr |].
    apply (Reads_map (Earlier.readValue d) (fun value => obj_set s key value)).
    exact Hv.
Qed.

Lemma earlier_carries_to_current (v : JsValue) :
  wire_value short_key v = true ->
  exists bytes, Carries Earlier.writeValue Decoder.readValue v bytes.
Proof.
  apply (wire_value_carries Earlier.writeValue Decoder.readValue
           Earlier.writeKeyString
           (fun d result =>
              Buffer.rbind Decoder.readKeyString (fun key =>
              Buffer.rbind (Decoder.readValue d) (fun value =>
              Buffer.ret (obj_set result key value))))
           short_key).
  - intros buf v0 Hleaf. destruct v0; try discriminate Hleaf; reflexivity.
  - reflexivity.
  - reflexivity.
  - apply readValue_scalar.
  - intros d tag payload v0 Hs Ha Hr. cbn [Decoder.readValue].
    apply (Reads_bind _ _ [tag] payload tag v0 (Reads_readUint8 tag)).
    rewrite Hs, Ha. exact Hr.
  - intros d tag payload v0 Hs Ha Ho Hr. cbn [Decoder.readValue].
    apply (Reads_bind _ _ [tag] payload tag v0 (Reads_readUint8 tag)).
    rewrite Hs, Ha, Ho. exact Hr.
  - intros key Hk. destruct (short_key_roundtrip key Hk) as (kb & Hw & Hr).
    exists kb. split; [exact Hw |].
    intros d vb v0 s Hv.
    eapply Reads_bind; [exact Hr |].
    apply (Reads_map (Decoder.readValue d) (fun value => obj_set s key value)).
    exact Hv.
Qed.

Lemma Reads_readHeader :
  Reads Earlier.readHeader (MAGIC_NUMBER ++ [FORMAT_VERSION]) FORMAT_VERSION.
Proof.
  unfold Earlier.readHeader.
  apply (Reads_bind _ _ MAGIC_NUMBER [FORMAT_VERSION] MAGIC_NUMBER).
  - exact (Reads_readBytes MAGIC_NUMBER).
  - cbv beta.
    change (negb (nth 0 MAGIC_NUMBER 0 =? nth 0 MAGIC_NUMBER 0)
            || negb (nth 1 MAGIC_NUMBER 0 =? nth 1 MAGIC_NUMBER 0)
            || negb (nth 2 MAGIC_NUMBER 0 =? nth 2 MAGIC_NUMBER 0)
            || negb (nth 3 MAGIC_NUMBER 0 =? nth 3 MAGIC_NUMBER 0)) with false.
    cbv iota.
    rewrite <- (app_nil_r [FORMAT_VERSION]).
    apply (Reads_bind _ _ [FORMAT_VERSION] [] FORMAT_VERSION).
    + apply Reads_readUint8.
    + change (FORMAT_VERSION <? FORMAT_VERSION) with false. apply Reads_ret.
Qed.

(** The bytes the earlier encoder writes: the header, when it is asked
    for, and the bytes of the value. *)
Lemma earlier_encoding (v : JsValue) (eopts : ResolvedEncodeOptions)
    (read : nat -> Buffer.Read JsValue) (vb : list Z) :
  Carries Earlier.writeValue read v vb ->
  Earlier.encodeValue v eopts
  = Ok ((if includeHeader eopts then MAGIC_NUMBER ++ [FORMAT_VERSION] else []) ++ vb).
Proof.
  intros (Hwrite & _ & _). unfold Earlier.encodeValue.
  destruct (includeHeader eopts).
  - unfold Encoder.writeHeader, Encoder.put_bytes, Encoder.put,
      Encoder.createGrowableBuffer.
    rewrite Hwrite. reflexivity.
  - unfold Encoder.createGrowableBuffer. rewrite Hwrite. reflexivity.
Qed.




